(* ===================================================================== *)
(* DequeDict: an ordered dictionary with deque operations at both ends.  *)
(*                                                                       *)
(* Shallow embedding of src/dequedict/_dequedict.c (the variant with the *)
(* position cache) and of its sibling without the cache, over an         *)
(* explicit heap of entries.                                             *)
(*                                                                       *)
(* Modelling conventions                                                 *)
(*  - A DequeDictEntry* is an address (positive); a nullable pointer is  *)
(*    an option, NULL being None.  Entries live in a finite map from     *)
(*    addresses to records.  Dereferencing NULL, a dangling address or   *)
(*    an array slot out of bounds is undefined behaviour: outcome Fault. *)
(*  - The internal PyDict mapping keys to capsules (entry addresses      *)
(*    boxed as Python ints) is a gmap from keys to addresses.            *)
(*  - Python exceptions are the outcome Raise; every function threads    *)
(*    the state (heap, static freelist, the object) through a small      *)
(*    state-and-error monad.                                             *)
(*  - Py_ssize_t counters are integers (Z).  Each of them counts         *)
(*    allocated entries or array slots, so none can reach 2^63 and the   *)
(*    wrap-around is never exercised.                                    *)
(*  - Reference counts (Py_INCREF / Py_DECREF) are not modelled.         *)
(*  - Whether an allocation succeeds is decided by an oracle (Alloc).    *)
(*  - The arguments of a method are what PyArg_ParseTuple delivers.  The *)
(*    one conversion that can fail on an argument of the right type, the *)
(*    "n" of at (a Python int to Py_ssize_t), is PyArg_Parse_n; a call   *)
(*    of at from Python is DequeDict_at_args.                            *)
(*  - Embedded: the entry pool, the cache helpers, the mapping protocol, *)
(*    the deque methods, get, clear, at, move_to_end, the iterators, the *)
(*    views with their len and membership tests, ==, DequeDict_init with *)
(*    items, update and setdefault.  Not embedded: copy, repr, the       *)
(*    garbage collector hooks, and in DequeDict_init and update the      *)
(*    ValueError for an element that is not a 2-tuple and a failing      *)
(*    PyDict_New.  The states considered are mostly the well-formed ones *)
(*    (WF), which DequeDict() establishes and the calls maintain as long *)
(*    as the key index can be extended.                                  *)
(* ===================================================================== *)

From stdpp Require Import gmap strings list fin_maps.
From Stdlib Require Import ZArith Lia.

Local Open Scope Z_scope.

Abbreviation ptr := (option positive).

(* #define FREELIST_MAX 128 *)
Definition FREELIST_MAX : Z := 128.

(* Which of the allocation sites of one call succeed. *)
Record Alloc := mkAlloc {
  entry_malloc_ok : bool;   (* PyMem_Malloc(sizeof(DequeDictEntry)) in entry_alloc *)
  capsule_ok : bool;        (* PyLong_FromVoidPtr(new_entry) *)
  dict_setitem_ok : bool;   (* PyDict_SetItem(self->dict, key, capsule) *)
  cache_malloc_ok : bool;   (* PyMem_Malloc in DequeDict_rebuild_cache *)
  cache_realloc_ok : bool   (* PyMem_Realloc in DequeDict_cache_ensure_capacity *)
}.

Definition all_ok : Alloc := mkAlloc true true true true true.

(* ------------------------------------------------------------------- *)
(* The Python side: exceptions, results, the mapping protocol, calls    *)
(* ------------------------------------------------------------------- *)

Section Python.
Context (K : Type) `{Countable K} (V : Type).

(* The exceptions the module raises, with their argument. *)
Inductive PyErr :=
| KeyError_obj (k : K)        (* PyErr_SetObject(PyExc_KeyError, key) *)
| KeyError_str (msg : string) (* PyErr_SetString(PyExc_KeyError, msg) *)
| IndexError (msg : string)
| OverflowError (msg : string) (* raised by the conversion of an argument *)
| MemoryError.

(* What an iterator yields, and what a call hands back to Python. *)
Inductive PyItem :=
| PyKey (k : K)
| PyValue (v : V)
| PyPair (k : K) (v : V).

Inductive PyVal :=
| PyNone
| PyObj (x : PyItem)
| PyBool (b : bool)
| PyInt (z : Z)
| PyNotImplemented
| PyList (l : list PyItem).

(* How a call ends for its caller: with a value or with an exception. *)
Inductive Outcome :=
| Returned (v : PyVal)
| Failed (e : PyErr).

(* DequeDictViewObject.kind: 0=keys, 1=values, 2=items *)
Inductive ViewKind := Keys | Values | Items.

Inductive CmpOp := Py_LT | Py_LE | Py_EQ | Py_NE | Py_GT | Py_GE.

(* The operand of == : anything that passes PyMapping_Check, seen through
   PyMapping_Size and PyObject_GetItem (None is the KeyError). *)
Class PyMapping (T : Type) := {
  PyMapping_Size : T → Z;
  PyObject_GetItem : T → K → option V
}.

(* a plain dict *)
Global Instance gmap_PyMapping : PyMapping (gmap K V) := {|
  PyMapping_Size m := Z.of_nat (size m);
  PyObject_GetItem m k := m !! k
|}.

(* The calls both variants of the module answer ... *)
Inductive SharedOp :=
| OpLen                                   (* len(d) *)
| OpGetItem (key : K)                     (* d[key] *)
| OpSetItem (key : K) (value : V)         (* d[key] = value *)
| OpDelItem (key : K)                     (* del d[key] *)
| OpContains (key : K)                    (* key in d *)
| OpPeekLeft
| OpPeekLeftItem
| OpPeekLeftKey
| OpPeek
| OpPeekItem
| OpPopLeft
| OpPopLeftItem
| OpPop (key : option K) (default_val : option V)
| OpPopItem
| OpAppendLeft (key : K) (value : V)
| OpGet (key : K) (default_val : option V)
| OpClear
| OpMoveToEnd (key : K) (last : bool)
| OpIter                                  (* list(d) *)
| OpReversed                              (* list(reversed(d)) *)
| OpView (kind : ViewKind)                (* list(d.keys()), values(), items() *)
| OpRichCompare (other : gmap K V) (op : CmpOp).

(* ... and those only the variant with the position cache has. *)
Inductive Op :=
| Shared (op : SharedOp)
| OpAt (index : Z)                        (* d.at(index) *)
| OpViewReversed (kind : ViewKind).       (* list(reversed(d.keys())), ... *)

End Python.

Arguments KeyError_obj {K} k.
Arguments KeyError_str {K} msg.
Arguments IndexError {K} msg.
Arguments OverflowError {K} msg.
Arguments MemoryError {K}.
Arguments PyKey {K V} k.
Arguments PyValue {K V} v.
Arguments PyPair {K V} k v.
Arguments PyNone {K V}.
Arguments PyObj {K V} x.
Arguments PyBool {K V} b.
Arguments PyInt {K V} z.
Arguments PyNotImplemented {K V}.
Arguments PyList {K V} l.
Arguments Returned {K V} v.
Arguments Failed {K V} e.
Arguments PyMapping_Size {K V T _} _.
Arguments PyObject_GetItem {K V T _} _ _.
Arguments OpLen {K _ _ V}.
Arguments OpGetItem {K _ _ V} key.
Arguments OpSetItem {K _ _ V} key value.
Arguments OpDelItem {K _ _ V} key.
Arguments OpContains {K _ _ V} key.
Arguments OpPeekLeft {K _ _ V}.
Arguments OpPeekLeftItem {K _ _ V}.
Arguments OpPeekLeftKey {K _ _ V}.
Arguments OpPeek {K _ _ V}.
Arguments OpPeekItem {K _ _ V}.
Arguments OpPopLeft {K _ _ V}.
Arguments OpPopLeftItem {K _ _ V}.
Arguments OpPop {K _ _ V} key default_val.
Arguments OpPopItem {K _ _ V}.
Arguments OpAppendLeft {K _ _ V} key value.
Arguments OpGet {K _ _ V} key default_val.
Arguments OpClear {K _ _ V}.
Arguments OpMoveToEnd {K _ _ V} key last.
Arguments OpIter {K _ _ V}.
Arguments OpReversed {K _ _ V}.
Arguments OpView {K _ _ V} kind.
Arguments OpRichCompare {K _ _ V} other op.
Arguments Shared {K _ _ V} op.
Arguments OpAt {K _ _ V} index.
Arguments OpViewReversed {K _ _ V} kind.

(* ------------------------------------------------------------------- *)
(* src/dequedict/_dequedict.c                                           *)
(* ------------------------------------------------------------------- *)

Section DequeDict.
Context {K : Type} `{Countable K} {V : Type}.

(* typedef struct DequeDictEntry *)
Record DequeDictEntry := mkEntry {
  e_key : K;
  e_value : V;
  e_prev : ptr;
  e_next : ptr;
  e_cache_idx : Z
}.

(* DequeDictObject.  index_cache is None for a NULL array; a slot holds
   None while it has never been written. *)
Record DequeDictObject := mkObject {
  dd_dict : gmap K positive;
  dd_head : ptr;
  dd_tail : ptr;
  dd_size : Z;
  index_cache : option (list ptr);
  cache_size : Z;
  cache_capacity : Z;
  cache_offset : Z
}.

(* The entries in memory, the static freelist and the object at hand. *)
Record State := mkState {
  heap : gmap positive DequeDictEntry;
  freelist : ptr;
  freelist_size : Z;
  self : DequeDictObject
}.

Inductive Res (A : Type) :=
| Done (a : A) (s : State)
| Raise (e : PyErr K) (s : State)
| Fault.
Global Arguments Done {A} a s.
Global Arguments Raise {A} e s.
Global Arguments Fault {A}.

Definition M (A : Type) : Type := State → Res A.

Global Instance M_ret : MRet M := λ A a s, Done a s.
Global Instance M_bind : MBind M := λ A B f m s,
  match m s with
  | Done a s' => f a s'
  | Raise e s' => Raise e s'
  | Fault => Fault
  end.

Definition raise {A} (e : PyErr K) : M A := λ s, Raise e s.
Definition fault {A} : M A := λ _, Fault.
Definition get_state : M State := λ s, Done s s.
Definition get_self : M DequeDictObject := λ s, Done (self s) s.
Definition put_self (o : DequeDictObject) : M unit := λ s,
  Done tt (mkState (heap s) (freelist s) (freelist_size s) o).
Definition put_heap (h : gmap positive DequeDictEntry) : M unit := λ s,
  Done tt (mkState h (freelist s) (freelist_size s) (self s)).
Definition put_freelist (f : ptr) (n : Z) : M unit := λ s,
  Done tt (mkState (heap s) f n (self s)).

(* *p for an entry pointer p *)
Definition load (a : positive) : M DequeDictEntry := λ s,
  match heap s !! a with
  | Some e => Done e s
  | None => Fault
  end.

(* assignment to fields of an entry that is in memory *)
Definition store (a : positive) (e : DequeDictEntry) : M unit := λ s,
  match heap s !! a with
  | Some _ => Done tt (mkState (<[a:=e]> (heap s)) (freelist s) (freelist_size s) (self s))
  | None => Fault
  end.

Definition with_value (e : DequeDictEntry) (v : V) : DequeDictEntry :=
  mkEntry (e_key e) v (e_prev e) (e_next e) (e_cache_idx e).
Definition with_prev (e : DequeDictEntry) (p : ptr) : DequeDictEntry :=
  mkEntry (e_key e) (e_value e) p (e_next e) (e_cache_idx e).
Definition with_next (e : DequeDictEntry) (n : ptr) : DequeDictEntry :=
  mkEntry (e_key e) (e_value e) (e_prev e) n (e_cache_idx e).
Definition with_cache_idx (e : DequeDictEntry) (i : Z) : DequeDictEntry :=
  mkEntry (e_key e) (e_value e) (e_prev e) (e_next e) i.

(* a->value = v;  a->prev = p;  a->next = n;  a->cache_idx = i *)
Definition set_value (a : positive) (v : V) : M unit :=
  e ← load a; store a (with_value e v).
Definition set_prev (a : positive) (p : ptr) : M unit :=
  e ← load a; store a (with_prev e p).
Definition set_next (a : positive) (n : ptr) : M unit :=
  e ← load a; store a (with_next e n).
Definition set_cache_idx (a : positive) (i : Z) : M unit :=
  e ← load a; store a (with_cache_idx e i).

(* assignments to fields of self *)
Definition set_dict (d : gmap K positive) : M unit :=
  o ← get_self;
  put_self (mkObject d (dd_head o) (dd_tail o) (dd_size o)
              (index_cache o) (cache_size o) (cache_capacity o) (cache_offset o)).
Definition set_head (p : ptr) : M unit :=
  o ← get_self;
  put_self (mkObject (dd_dict o) p (dd_tail o) (dd_size o)
              (index_cache o) (cache_size o) (cache_capacity o) (cache_offset o)).
Definition set_tail (p : ptr) : M unit :=
  o ← get_self;
  put_self (mkObject (dd_dict o) (dd_head o) p (dd_size o)
              (index_cache o) (cache_size o) (cache_capacity o) (cache_offset o)).
Definition set_size (n : Z) : M unit :=
  o ← get_self;
  put_self (mkObject (dd_dict o) (dd_head o) (dd_tail o) n
              (index_cache o) (cache_size o) (cache_capacity o) (cache_offset o)).
Definition set_cache (c : option (list ptr)) (sz cap off : Z) : M unit :=
  o ← get_self;
  put_self (mkObject (dd_dict o) (dd_head o) (dd_tail o) (dd_size o) c sz cap off).

(* ------------------------------------------------------------------- *)
(* Entry pool: entry_alloc / entry_free over the static freelist        *)
(* ------------------------------------------------------------------- *)

(* entry_alloc.  The result is NULL when PyMem_Malloc fails.  A block
   that comes from PyMem_Malloc has indeterminate contents; it enters the
   heap map at the address chosen here when the caller assigns its five
   fields (init_entry), which every caller does before any other use. *)
Definition entry_alloc (al : Alloc) : M ptr :=
  s ← get_state;
  match freelist s with
  | Some entry =>
      e ← load entry;
      put_freelist (e_next e) (freelist_size s - 1);;
      mret (Some entry)
  | None =>
      if entry_malloc_ok al then mret (Some (fresh (dom (heap s))))
      else mret None
  end.

(* new_entry->key = ..; ->value = ..; ->prev = ..; ->next = ..; ->cache_idx = .. *)
Definition init_entry (a : positive) (e : DequeDictEntry) : M unit :=
  s ← get_state; put_heap (<[a:=e]> (heap s)).

(* entry_free *)
Definition entry_free (entry : positive) : M unit :=
  s ← get_state;
  if freelist_size s <? FREELIST_MAX then
    set_next entry (freelist s);;
    put_freelist (Some entry) (freelist_size s + 1)
  else
    (* PyMem_Free(entry) *)
    match heap s !! entry with
    | Some _ => put_heap (delete entry (heap s))
    | None => fault
    end.

(* ------------------------------------------------------------------- *)
(* Cache helpers                                                        *)
(* ------------------------------------------------------------------- *)

(* self->index_cache[i] = p *)
Definition cache_store (i : Z) (p : ptr) : M unit :=
  o ← get_self;
  match index_cache o with
  | Some arr =>
      if (0 <=? i) && (i <? Z.of_nat (length arr)) then
        set_cache (Some (<[Z.to_nat i := p]> arr))
                  (cache_size o) (cache_capacity o) (cache_offset o)
      else fault
  | None => fault
  end.

(* self->index_cache[i] *)
Definition cache_load (i : Z) : M ptr :=
  o ← get_self;
  match index_cache o with
  | Some arr =>
      if (0 <=? i) && (i <? Z.of_nat (length arr)) then
        match arr !! Z.to_nat i with
        | Some p => mret p
        | None => fault
        end
      else fault
  | None => fault
  end.

(* p->... for a nullable or never written pointer *)
Definition deref (p : ptr) : M DequeDictEntry :=
  match p with
  | Some a => load a
  | None => fault
  end.

(* DequeDict_invalidate_cache: frees the array if there is one and
   zeroes the three counters. *)
Definition DequeDict_invalidate_cache : M unit :=
  set_cache None 0 0 0.

(* The while (entry) loop of DequeDict_rebuild_cache.  The array has
   cache_capacity slots, so the store at slot i is out of bounds from
   i = cache_capacity on: fuel = cache_capacity + 1 is never used up. *)
Fixpoint rebuild_loop (fuel : nat) (entry : ptr) (i : Z) : M unit :=
  match entry with
  | None => mret tt
  | Some a =>
      match fuel with
      | O => fault
      | S fuel' =>
          set_cache_idx a i;;
          cache_store i (Some a);;
          e ← load a;
          rebuild_loop fuel' (e_next e) (i + 1)
      end
  end.

(* DequeDict_rebuild_cache; the result -1 is the raised MemoryError.  A
   negative byte count is beyond what PyMem_Malloc serves. *)
Definition DequeDict_rebuild_cache (al : Alloc) : M unit :=
  DequeDict_invalidate_cache;;
  o ← get_self;
  if dd_size o =? 0 then mret tt
  else
    set_cache None 0 (dd_size o) 0;;
    if cache_malloc_ok al && (0 <=? dd_size o) then
      set_cache (Some (replicate (Z.to_nat (dd_size o)) None))
                (dd_size o) (dd_size o) 0;;
      rebuild_loop (S (Z.to_nat (dd_size o))) (dd_head o) 0
    else raise MemoryError.

(* DequeDict_cache_ensure_capacity: 0 on success, -1 on failure.
   PyMem_Realloc keeps the old slots and adds unwritten ones. *)
Definition DequeDict_cache_ensure_capacity (al : Alloc) : M Z :=
  o ← get_self;
  if cache_size o <? cache_capacity o then mret 0
  else
    let new_cap := cache_capacity o * 2 in
    let new_cap := if new_cap <? 8 then 8 else new_cap in
    if cache_realloc_ok al then
      set_cache (Some (resize (Z.to_nat new_cap) None (default [] (index_cache o))))
                (cache_size o) new_cap (cache_offset o);;
      mret 0
    else
      DequeDict_invalidate_cache;;
      mret (-1).

(* ------------------------------------------------------------------- *)
(* Code shared verbatim by several functions of the source              *)
(* ------------------------------------------------------------------- *)

(* "Unlink from list" / "Unlink entry": the same two if statements in
   __delitem__, pop(key) and move_to_end. *)
Definition unlink (entry : positive) : M unit :=
  e ← load entry;
  match e_prev e with
  | Some p => set_next p (e_next e)
  | None => set_head (e_next e)
  end;;
  e ← load entry;
  match e_next e with
  | Some n => set_prev n (e_prev e)
  | None => set_tail (e_prev e)
  end.

(* "Unlink head" in popleft and popleftitem *)
Definition unlink_head (entry : positive) : M unit :=
  e ← load entry;
  set_head (e_next e);;
  o ← get_self;
  match dd_head o with
  | Some h => set_prev h None
  | None => set_tail None
  end.

(* "Unlink tail" in pop() and popitem *)
Definition unlink_tail (entry : positive) : M unit :=
  e ← load entry;
  set_tail (e_prev e);;
  o ← get_self;
  match dd_tail o with
  | Some t => set_next t None
  | None => set_head None
  end.

(* PyDict_DelItem(self->dict, key); the result is not looked at.  The
   callers pass a key they have just found in the dict or read from an
   entry of the list.  For a key that the dict lacks, which only a list
   that disagrees with the dict can produce, the C call leaves a KeyError
   pending; here the dict is left as it is and nothing is pending. *)
Definition dict_delitem (key : K) : M unit :=
  o ← get_self; set_dict (delete key (dd_dict o)).

(* self->size++ and self->size-- *)
Definition size_incr : M unit := o ← get_self; set_size (dd_size o + 1).
Definition size_decr : M unit := o ← get_self; set_size (dd_size o - 1).

(* PyDict_DelItem(self->dict, key); Py_DECREF(entry->key);
   Py_DECREF(entry->value); entry_free(entry); self->size--;
   the five statements that follow every unlinking *)
Definition discard_entry (entry : positive) (key : K) : M unit :=
  dict_delitem key;;
  entry_free entry;;
  size_decr.

(* if (self->tail) self->tail->next = entry; else self->head = entry;
   self->tail = entry;   in __setitem__ and move_to_end *)
Definition link_tail (entry : positive) : M unit :=
  o ← get_self;
  match dd_tail o with
  | Some t => set_next t (Some entry)
  | None => set_head (Some entry)
  end;;
  set_tail (Some entry).

(* if (self->head) self->head->prev = entry; else self->tail = entry;
   self->head = entry;   in appendleft and move_to_end *)
Definition link_head (entry : positive) : M unit :=
  o ← get_self;
  match dd_head o with
  | Some h => set_prev h (Some entry)
  | None => set_tail (Some entry)
  end;;
  set_head (Some entry).

(* "Bump cache offset instead of invalidating" *)
Definition cache_bump_offset : M unit :=
  o ← get_self;
  match index_cache o with
  | Some _ =>
      set_cache (index_cache o) (cache_size o) (cache_capacity o) (cache_offset o + 1)
  | None => mret tt
  end.

(* "Pop from cache right side" *)
Definition cache_pop_right : M unit :=
  o ← get_self;
  match index_cache o with
  | Some _ =>
      if 0 <? cache_size o then
        set_cache (index_cache o) (cache_size o - 1) (cache_capacity o) (cache_offset o)
      else mret tt
  | None => mret tt
  end.

(* The block "Append to cache if it exists" of __setitem__:
     if (self->index_cache) {
       if (DequeDict_cache_ensure_capacity(self) == 0 && self->index_cache) {
         new_entry->cache_idx = self->cache_size;
         self->index_cache[self->cache_size] = new_entry;
         self->cache_size++; } } *)
Definition cache_append (al : Alloc) (new_entry : positive) : M unit :=
  o ← get_self;
  match index_cache o with
  | Some _ =>
      r ← DequeDict_cache_ensure_capacity al;
      o ← get_self;
      match index_cache o with
      | Some _ =>
          if r =? 0 then
            set_cache_idx new_entry (cache_size o);;
            cache_store (cache_size o) (Some new_entry);;
            o ← get_self;
            set_cache (index_cache o) (cache_size o + 1)
                      (cache_capacity o) (cache_offset o)
          else mret tt
      | None => mret tt
      end
  | None => mret tt
  end.

(* The tail of both insertions: box the pointer and store it in the
   dict; on either failure the entry goes back to the pool. *)
Definition register_entry (al : Alloc) (key : K) (new_entry : positive) : M unit :=
  if capsule_ok al then
    if dict_setitem_ok al then
      o ← get_self; set_dict (<[key:=new_entry]> (dd_dict o))
    else
      entry_free new_entry;; raise MemoryError
  else
    entry_free new_entry;; raise MemoryError.

(* ------------------------------------------------------------------- *)
(* The mapping protocol                                                 *)
(* ------------------------------------------------------------------- *)

Definition DequeDict_len : M Z := o ← get_self; mret (dd_size o).

(* __getitem__ *)
Definition DequeDict_getitem (key : K) : M V :=
  o ← get_self;
  match dd_dict o !! key with
  | None => raise (KeyError_obj key)
  | Some entry => e ← load entry; mret (e_value e)
  end.

(* mp_ass_subscript: value = NULL (None here) is __delitem__ *)
Definition DequeDict_setitem (al : Alloc) (key : K) (value : option V) : M unit :=
  match value with
  | None =>
      o ← get_self;
      match dd_dict o !! key with
      | None => raise (KeyError_obj key)
      | Some entry =>
          unlink entry;;
          discard_entry entry key;;
          DequeDict_invalidate_cache
      end
  | Some value =>
      o ← get_self;
      match dd_dict o !! key with
      | Some entry =>
          (* Update existing entry *)
          set_value entry value
      | None =>
          (* New key - append to end *)
          new_entry ← entry_alloc al;
          match new_entry with
          | None => raise MemoryError
          | Some new_entry =>
              init_entry new_entry (mkEntry key value (dd_tail o) None (-1));;
              link_tail new_entry;;
              size_incr;;
              cache_append al new_entry;;
              register_entry al key new_entry
          end
      end
  end.

(* __contains__ *)
Definition DequeDict_contains (key : K) : M bool :=
  o ← get_self; mret (bool_decide (is_Some (dd_dict o !! key))).

(* ------------------------------------------------------------------- *)
(* Deque operations                                                     *)
(* ------------------------------------------------------------------- *)

Definition DequeDict_peekleft : M V :=
  o ← get_self;
  match dd_head o with
  | None => raise (IndexError "peek from an empty DequeDict")
  | Some h => e ← load h; mret (e_value e)
  end.

Definition DequeDict_peekleftitem : M (K * V) :=
  o ← get_self;
  match dd_head o with
  | None => raise (IndexError "peek from an empty DequeDict")
  | Some h => e ← load h; mret (e_key e, e_value e)
  end.

Definition DequeDict_peekleftkey : M K :=
  o ← get_self;
  match dd_head o with
  | None => raise (IndexError "peek from an empty DequeDict")
  | Some h => e ← load h; mret (e_key e)
  end.

Definition DequeDict_peek : M V :=
  o ← get_self;
  match dd_tail o with
  | None => raise (IndexError "peek from an empty DequeDict")
  | Some t => e ← load t; mret (e_value e)
  end.

Definition DequeDict_peekitem : M (K * V) :=
  o ← get_self;
  match dd_tail o with
  | None => raise (IndexError "peek from an empty DequeDict")
  | Some t => e ← load t; mret (e_key e, e_value e)
  end.

Definition DequeDict_popleft : M V :=
  o ← get_self;
  match dd_head o with
  | None => raise (IndexError "pop from an empty DequeDict")
  | Some entry =>
      e ← load entry;
      unlink_head entry;;
      discard_entry entry (e_key e);;
      cache_bump_offset;;
      mret (e_value e)
  end.

Definition DequeDict_popleftitem : M (K * V) :=
  o ← get_self;
  match dd_head o with
  | None => raise (KeyError_str "popleftitem from an empty DequeDict")
  | Some entry =>
      e ← load entry;
      unlink_head entry;;
      discard_entry entry (e_key e);;
      cache_bump_offset;;
      mret (e_key e, e_value e)
  end.

(* pop(key=None, default=UNSET): an argument that was not passed is None *)
Definition DequeDict_pop (key : option K) (default_val : option V) : M V :=
  match key with
  | None =>
      (* Pop from right (like deque) *)
      o ← get_self;
      match dd_tail o with
      | None =>
          match default_val with
          | Some d => mret d
          | None => raise (IndexError "pop from an empty DequeDict")
          end
      | Some entry =>
          e ← load entry;
          unlink_tail entry;;
          discard_entry entry (e_key e);;
          cache_pop_right;;
          mret (e_value e)
      end
  | Some key =>
      (* Pop by key *)
      o ← get_self;
      match dd_dict o !! key with
      | None =>
          match default_val with
          | Some d => mret d
          | None => raise (KeyError_obj key)
          end
      | Some entry =>
          e ← load entry;
          unlink entry;;
          discard_entry entry key;;
          DequeDict_invalidate_cache;;
          mret (e_value e)
      end
  end.

Definition DequeDict_popitem : M (K * V) :=
  o ← get_self;
  match dd_tail o with
  | None => raise (KeyError_str "popitem from an empty DequeDict")
  | Some entry =>
      e ← load entry;
      unlink_tail entry;;
      discard_entry entry (e_key e);;
      cache_pop_right;;
      mret (e_key e, e_value e)
  end.

Definition DequeDict_appendleft (al : Alloc) (key : K) (value : V) : M unit :=
  o ← get_self;
  match dd_dict o !! key with
  | Some _ => raise (KeyError_str "key already exists")
  | None =>
      new_entry ← entry_alloc al;
      match new_entry with
      | None => raise MemoryError
      | Some new_entry =>
          init_entry new_entry (mkEntry key value None (dd_head o) (-1));;
          link_head new_entry;;
          size_incr;;
          DequeDict_invalidate_cache;;
          register_entry al key new_entry
      end
  end.

(* get(key, default=None): None stands for Py_None *)
Definition DequeDict_get (key : K) (default_val : option V) : M (option V) :=
  o ← get_self;
  match dd_dict o !! key with
  | None => mret default_val
  | Some entry => e ← load entry; mret (Some (e_value e))
  end.

(* The loop of DequeDict_clear_method: each entry is handed to
   entry_free after its next pointer was read.  The fuel bounds the walk;
   it is used up only on a list that is longer than the heap is large. *)
Fixpoint clear_loop (fuel : nat) (entry : ptr) : M unit :=
  match entry with
  | None => mret tt
  | Some a =>
      match fuel with
      | O => fault
      | S fuel' =>
          e ← load a;
          entry_free a;;
          clear_loop fuel' (e_next e)
      end
  end.

Definition DequeDict_clear_method : M unit :=
  s ← get_state;
  clear_loop (S (size (heap s))) (dd_head (self s));;
  set_dict ∅;;
  set_head None;;
  set_tail None;;
  set_size 0;;
  DequeDict_invalidate_cache.

(* Py_ssize_t, on the 64-bit platforms the module is built for *)
Definition PY_SSIZE_T_MIN : Z := - 2 ^ 63.
Definition PY_SSIZE_T_MAX : Z := 2 ^ 63 - 1.

(* PyArg_ParseTuple(args, "n", &index) on a Python int: the conversion to
   Py_ssize_t fails with OverflowError for an int that does not fit. *)
Definition PyArg_Parse_n (arg : Z) : M Z :=
  if (PY_SSIZE_T_MIN <=? arg) && (arg <=? PY_SSIZE_T_MAX) then mret arg
  else raise (OverflowError "Python int too large to convert to C ssize_t").

(* at(index), from the statement after PyArg_ParseTuple on: index is the
   Py_ssize_t that the conversion has stored. *)
Definition DequeDict_at (al : Alloc) (index : Z) : M V :=
  o ← get_self;
  match index_cache o with
  | Some _ => mret tt
  | None =>
      (* Build cache if needed *)
      DequeDict_rebuild_cache al;;
      o ← get_self;
      match index_cache o with
      | Some _ => mret tt
      | None => raise (IndexError "index out of range")
      end
  end;;
  o ← get_self;
  let logical_size := cache_size o - cache_offset o in
  let index := if index <? 0 then index + logical_size else index in
  if (index <? 0) || (index >=? logical_size) then
    raise (IndexError "index out of range")
  else
    entry ← cache_load (cache_offset o + index);
    e ← deref entry;
    mret (e_value e).

(* d.at(arg) as Python calls it: DequeDict_at with its first statement,
   the conversion of the argument. *)
Definition DequeDict_at_args (al : Alloc) (arg : Z) : M V :=
  index ← PyArg_Parse_n arg;
  DequeDict_at al index.

(* move_to_end(key, last=True) *)
Definition DequeDict_move_to_end (key : K) (last : bool) : M unit :=
  o ← get_self;
  match dd_dict o !! key with
  | None => raise (KeyError_obj key)
  | Some entry =>
      (* Already at the right position? *)
      if (last && bool_decide (Some entry = dd_tail o))
         || (negb last && bool_decide (Some entry = dd_head o))
      then mret tt
      else
        unlink entry;;
        DequeDict_invalidate_cache;;
        o ← get_self;
        if last then
          e ← load entry;
          store entry (with_next (with_prev e (dd_tail o)) None);;
          link_tail entry
        else
          e ← load entry;
          store entry (with_next (with_prev e None) (dd_head o));;
          link_head entry
  end.

(* ------------------------------------------------------------------- *)
(* Iterators and views                                                  *)
(* ------------------------------------------------------------------- *)

(* DequeDictIter_next on it->current: the key and the new it->current,
   or None (NULL, StopIteration) at the end. *)
Definition DequeDictIter_next (current : ptr) : M (option (K * ptr)) :=
  match current with
  | None => mret None
  | Some a => e ← load a; mret (Some (e_key e, e_next e))
  end.

(* DequeDictRevIter_next *)
Definition DequeDictRevIter_next (current : ptr) : M (option (K * ptr)) :=
  match current with
  | None => mret None
  | Some a => e ← load a; mret (Some (e_key e, e_prev e))
  end.

(* DequeDictViewIter_next *)
Definition DequeDictViewIter_next (kind : ViewKind) (reverse : bool) (current : ptr)
  : M (option (PyItem K V * ptr)) :=
  match current with
  | None => mret None
  | Some a =>
      e ← load a;
      let result :=
        match kind with
        | Keys => PyKey (e_key e)
        | Values => PyValue (e_value e)
        | Items => PyPair (e_key e) (e_value e)
        end in
      mret (Some (result, if reverse then e_prev e else e_next e))
  end.

(* Draining an iterator with tp_iternext = next, as list(...) does: None
   when the walk has not ended within the fuel. *)
Fixpoint drain {X} (next : ptr → M (option (X * ptr))) (fuel : nat) (current : ptr)
  : M (option (list X)) :=
  match fuel with
  | O => mret None
  | S fuel' =>
      r ← next current;
      match r with
      | None => mret (Some [])
      | Some (x, current') =>
          rest ← drain next fuel' current';
          mret (cons x <$> rest)
      end
  end.

(* list(it) for an iterator that starts at current.  A walk that does not
   end within the number of entries in memory never ends: no result. *)
Definition list_of {X} (next : ptr → M (option (X * ptr))) (current : ptr) : M (list X) :=
  s ← get_state;
  r ← drain next (S (size (heap s))) current;
  match r with
  | Some l => mret l
  | None => fault
  end.

(* DequeDict_iter and DequeDict_reversed start at head and at tail *)
Definition DequeDict_iter : M (list K) :=
  o ← get_self; list_of DequeDictIter_next (dd_head o).
Definition DequeDict_reversed : M (list K) :=
  o ← get_self; list_of DequeDictRevIter_next (dd_tail o).

(* DequeDictView_iter and DequeDictView_reversed, on the view of a kind *)
Definition DequeDictView_iter (kind : ViewKind) : M (list (PyItem K V)) :=
  o ← get_self; list_of (DequeDictViewIter_next kind false) (dd_head o).
Definition DequeDictView_reversed (kind : ViewKind) : M (list (PyItem K V)) :=
  o ← get_self; list_of (DequeDictViewIter_next kind true) (dd_tail o).

(* ------------------------------------------------------------------- *)
(* Equality                                                             *)
(* ------------------------------------------------------------------- *)

(* another DequeDict: mp_length is DequeDict_len, mp_subscript is
   DequeDict_getitem *)
Global Instance DequeDict_PyMapping : PyMapping K V State := {|
  PyMapping_Size s := dd_size (self s);
  PyObject_GetItem s k :=
    match DequeDict_getitem k s with
    | Done v _ => Some v
    | _ => None
    end
|}.

(* PyObject_RichCompareBool(a, b, Py_EQ) on values *)
Variable value_eq : V → V → bool.

(* The "Compare each key-value pair" loop; ne is true for op == Py_NE. *)
Fixpoint compare_loop `{PyMapping K V T} (fuel : nat) (other : T) (ne : bool) (entry : ptr)
  : M (PyVal K V) :=
  match entry with
  | None => mret (PyBool (negb ne))
  | Some a =>
      match fuel with
      | O => fault
      | S fuel' =>
          e ← load a;
          match PyObject_GetItem other (e_key e) with
          | None => mret (PyBool ne)
          | Some other_val =>
              if value_eq (e_value e) other_val
              then compare_loop fuel' other ne (e_next e)
              else mret (PyBool ne)
          end
      end
  end.

(* DequeDict_richcompare *)
Definition DequeDict_richcompare `{PyMapping K V T} (other : T) (op : CmpOp) : M (PyVal K V) :=
  match op with
  | Py_EQ | Py_NE =>
      let ne := match op with Py_NE => true | _ => false end in
      s ← get_state;
      if negb (dd_size (self s) =? PyMapping_Size other) then mret (PyBool ne)
      else compare_loop (S (size (heap s))) other ne (dd_head (self s))
  | _ => mret PyNotImplemented
  end.

(* ------------------------------------------------------------------- *)
(* The method table: one call from Python                               *)
(* ------------------------------------------------------------------- *)

Definition of_value (v : V) : PyVal K V := PyObj (PyValue v).
Definition of_pair (kv : K * V) : PyVal K V := PyObj (PyPair kv.1 kv.2).

Definition exec_shared (al : Alloc) (op : SharedOp K V) : M (PyVal K V) :=
  match op with
  | OpLen => n ← DequeDict_len; mret (PyInt n)
  | OpGetItem key => v ← DequeDict_getitem key; mret (of_value v)
  | OpSetItem key value => DequeDict_setitem al key (Some value);; mret PyNone
  | OpDelItem key => DequeDict_setitem al key None;; mret PyNone
  | OpContains key => b ← DequeDict_contains key; mret (PyBool b)
  | OpPeekLeft => v ← DequeDict_peekleft; mret (of_value v)
  | OpPeekLeftItem => kv ← DequeDict_peekleftitem; mret (of_pair kv)
  | OpPeekLeftKey => k ← DequeDict_peekleftkey; mret (PyObj (PyKey k))
  | OpPeek => v ← DequeDict_peek; mret (of_value v)
  | OpPeekItem => kv ← DequeDict_peekitem; mret (of_pair kv)
  | OpPopLeft => v ← DequeDict_popleft; mret (of_value v)
  | OpPopLeftItem => kv ← DequeDict_popleftitem; mret (of_pair kv)
  | OpPop key default_val => v ← DequeDict_pop key default_val; mret (of_value v)
  | OpPopItem => kv ← DequeDict_popitem; mret (of_pair kv)
  | OpAppendLeft key value => DequeDict_appendleft al key value;; mret PyNone
  | OpGet key default_val =>
      r ← DequeDict_get key default_val;
      mret (match r with Some v => of_value v | None => PyNone end)
  | OpClear => DequeDict_clear_method;; mret PyNone
  | OpMoveToEnd key last => DequeDict_move_to_end key last;; mret PyNone
  | OpIter => l ← DequeDict_iter; mret (PyList (PyKey <$> l))
  | OpReversed => l ← DequeDict_reversed; mret (PyList (PyKey <$> l))
  | OpView kind => l ← DequeDictView_iter kind; mret (PyList l)
  | OpRichCompare other op => DequeDict_richcompare other op
  end.

Definition exec (al : Alloc) (op : Op K V) : M (PyVal K V) :=
  match op with
  | Shared op => exec_shared al op
  | OpAt index => v ← DequeDict_at_args al index; mret (of_value v)
  | OpViewReversed kind => l ← DequeDictView_reversed kind; mret (PyList l)
  end.

(* The object after DequeDict_init without items, in an empty memory. *)
Definition empty_object : DequeDictObject := mkObject ∅ None None 0 None 0 0 0.
Definition initial_state : State := mkState ∅ None 0 empty_object.

(* A script of calls, each with what the allocator does during it: the
   answers in order and the state at the end, None once a call has run
   into undefined behaviour. *)
Fixpoint run (ops : list (Alloc * Op K V)) (s : State)
  : list (Outcome K V) * option State :=
  match ops with
  | [] => ([], Some s)
  | (al, op) :: ops =>
      match exec al op s with
      | Done v s' => let r := run ops s' in (Returned v :: r.1, r.2)
      | Raise e s' => let r := run ops s' in (Failed e :: r.1, r.2)
      | Fault => ([], None)
      end
  end.

End DequeDict.

(* ------------------------------------------------------------------- *)
(* The sibling source without the position cache (src/unnamed/part_000) *)
(* ------------------------------------------------------------------- *)

Module NoCache.
Section DequeDict.
Context {K : Type} `{Countable K} {V : Type}.

Record DequeDictEntry := mkEntry {
  e_key : K;
  e_value : V;
  e_prev : ptr;
  e_next : ptr
}.

Record DequeDictObject := mkObject {
  dd_dict : gmap K positive;
  dd_head : ptr;
  dd_tail : ptr;
  dd_size : Z
}.

Record State := mkState {
  heap : gmap positive DequeDictEntry;
  freelist : ptr;
  freelist_size : Z;
  self : DequeDictObject
}.

Inductive Res (A : Type) :=
| Done (a : A) (s : State)
| Raise (e : PyErr K) (s : State)
| Fault.
Global Arguments Done {A} a s.
Global Arguments Raise {A} e s.
Global Arguments Fault {A}.

Definition M (A : Type) : Type := State → Res A.

Global Instance M_ret : MRet M := λ A a s, Done a s.
Global Instance M_bind : MBind M := λ A B f m s,
  match m s with
  | Done a s' => f a s'
  | Raise e s' => Raise e s'
  | Fault => Fault
  end.

Definition raise {A} (e : PyErr K) : M A := λ s, Raise e s.
Definition fault {A} : M A := λ _, Fault.
Definition get_state : M State := λ s, Done s s.
Definition get_self : M DequeDictObject := λ s, Done (self s) s.
Definition put_self (o : DequeDictObject) : M unit := λ s,
  Done tt (mkState (heap s) (freelist s) (freelist_size s) o).
Definition put_heap (h : gmap positive DequeDictEntry) : M unit := λ s,
  Done tt (mkState h (freelist s) (freelist_size s) (self s)).
Definition put_freelist (f : ptr) (n : Z) : M unit := λ s,
  Done tt (mkState (heap s) f n (self s)).

Definition load (a : positive) : M DequeDictEntry := λ s,
  match heap s !! a with
  | Some e => Done e s
  | None => Fault
  end.

Definition store (a : positive) (e : DequeDictEntry) : M unit := λ s,
  match heap s !! a with
  | Some _ => Done tt (mkState (<[a:=e]> (heap s)) (freelist s) (freelist_size s) (self s))
  | None => Fault
  end.

Definition with_value (e : DequeDictEntry) (v : V) : DequeDictEntry :=
  mkEntry (e_key e) v (e_prev e) (e_next e).
Definition with_prev (e : DequeDictEntry) (p : ptr) : DequeDictEntry :=
  mkEntry (e_key e) (e_value e) p (e_next e).
Definition with_next (e : DequeDictEntry) (n : ptr) : DequeDictEntry :=
  mkEntry (e_key e) (e_value e) (e_prev e) n.

Definition set_value (a : positive) (v : V) : M unit :=
  e ← load a; store a (with_value e v).
Definition set_prev (a : positive) (p : ptr) : M unit :=
  e ← load a; store a (with_prev e p).
Definition set_next (a : positive) (n : ptr) : M unit :=
  e ← load a; store a (with_next e n).

Definition set_dict (d : gmap K positive) : M unit :=
  o ← get_self; put_self (mkObject d (dd_head o) (dd_tail o) (dd_size o)).
Definition set_head (p : ptr) : M unit :=
  o ← get_self; put_self (mkObject (dd_dict o) p (dd_tail o) (dd_size o)).
Definition set_tail (p : ptr) : M unit :=
  o ← get_self; put_self (mkObject (dd_dict o) (dd_head o) p (dd_size o)).
Definition set_size (n : Z) : M unit :=
  o ← get_self; put_self (mkObject (dd_dict o) (dd_head o) (dd_tail o) n).

Definition entry_alloc (al : Alloc) : M ptr :=
  s ← get_state;
  match freelist s with
  | Some entry =>
      e ← load entry;
      put_freelist (e_next e) (freelist_size s - 1);;
      mret (Some entry)
  | None =>
      if entry_malloc_ok al then mret (Some (fresh (dom (heap s))))
      else mret None
  end.

Definition init_entry (a : positive) (e : DequeDictEntry) : M unit :=
  s ← get_state; put_heap (<[a:=e]> (heap s)).

Definition entry_free (entry : positive) : M unit :=
  s ← get_state;
  if freelist_size s <? FREELIST_MAX then
    set_next entry (freelist s);;
    put_freelist (Some entry) (freelist_size s + 1)
  else
    match heap s !! entry with
    | Some _ => put_heap (delete entry (heap s))
    | None => fault
    end.

Definition unlink (entry : positive) : M unit :=
  e ← load entry;
  match e_prev e with
  | Some p => set_next p (e_next e)
  | None => set_head (e_next e)
  end;;
  e ← load entry;
  match e_next e with
  | Some n => set_prev n (e_prev e)
  | None => set_tail (e_prev e)
  end.

Definition unlink_head (entry : positive) : M unit :=
  e ← load entry;
  set_head (e_next e);;
  o ← get_self;
  match dd_head o with
  | Some h => set_prev h None
  | None => set_tail None
  end.

Definition unlink_tail (entry : positive) : M unit :=
  e ← load entry;
  set_tail (e_prev e);;
  o ← get_self;
  match dd_tail o with
  | Some t => set_next t None
  | None => set_head None
  end.

Definition dict_delitem (key : K) : M unit :=
  o ← get_self; set_dict (delete key (dd_dict o)).

Definition size_incr : M unit := o ← get_self; set_size (dd_size o + 1).
Definition size_decr : M unit := o ← get_self; set_size (dd_size o - 1).

(* PyDict_DelItem(self->dict, key); Py_DECREF(entry->key);
   Py_DECREF(entry->value); entry_free(entry); self->size--;
   the five statements that follow every unlinking *)
Definition discard_entry (entry : positive) (key : K) : M unit :=
  dict_delitem key;;
  entry_free entry;;
  size_decr.

(* if (self->tail) self->tail->next = entry; else self->head = entry;
   self->tail = entry;   in __setitem__ and move_to_end *)
Definition link_tail (entry : positive) : M unit :=
  o ← get_self;
  match dd_tail o with
  | Some t => set_next t (Some entry)
  | None => set_head (Some entry)
  end;;
  set_tail (Some entry).

(* if (self->head) self->head->prev = entry; else self->tail = entry;
   self->head = entry;   in appendleft and move_to_end *)
Definition link_head (entry : positive) : M unit :=
  o ← get_self;
  match dd_head o with
  | Some h => set_prev h (Some entry)
  | None => set_tail (Some entry)
  end;;
  set_head (Some entry).

Definition register_entry (al : Alloc) (key : K) (new_entry : positive) : M unit :=
  if capsule_ok al then
    if dict_setitem_ok al then
      o ← get_self; set_dict (<[key:=new_entry]> (dd_dict o))
    else
      entry_free new_entry;; raise MemoryError
  else
    entry_free new_entry;; raise MemoryError.

Definition DequeDict_len : M Z := o ← get_self; mret (dd_size o).

Definition DequeDict_getitem (key : K) : M V :=
  o ← get_self;
  match dd_dict o !! key with
  | None => raise (KeyError_obj key)
  | Some entry => e ← load entry; mret (e_value e)
  end.

Definition DequeDict_setitem (al : Alloc) (key : K) (value : option V) : M unit :=
  match value with
  | None =>
      o ← get_self;
      match dd_dict o !! key with
      | None => raise (KeyError_obj key)
      | Some entry =>
          unlink entry;;
          discard_entry entry key
      end
  | Some value =>
      o ← get_self;
      match dd_dict o !! key with
      | Some entry => set_value entry value
      | None =>
          new_entry ← entry_alloc al;
          match new_entry with
          | None => raise MemoryError
          | Some new_entry =>
              init_entry new_entry (mkEntry key value (dd_tail o) None);;
              link_tail new_entry;;
              size_incr;;
              register_entry al key new_entry
          end
      end
  end.

Definition DequeDict_contains (key : K) : M bool :=
  o ← get_self; mret (bool_decide (is_Some (dd_dict o !! key))).

Definition DequeDict_peekleft : M V :=
  o ← get_self;
  match dd_head o with
  | None => raise (IndexError "peek from an empty DequeDict")
  | Some h => e ← load h; mret (e_value e)
  end.

Definition DequeDict_peekleftitem : M (K * V) :=
  o ← get_self;
  match dd_head o with
  | None => raise (IndexError "peek from an empty DequeDict")
  | Some h => e ← load h; mret (e_key e, e_value e)
  end.

Definition DequeDict_peekleftkey : M K :=
  o ← get_self;
  match dd_head o with
  | None => raise (IndexError "peek from an empty DequeDict")
  | Some h => e ← load h; mret (e_key e)
  end.

Definition DequeDict_peek : M V :=
  o ← get_self;
  match dd_tail o with
  | None => raise (IndexError "peek from an empty DequeDict")
  | Some t => e ← load t; mret (e_value e)
  end.

Definition DequeDict_peekitem : M (K * V) :=
  o ← get_self;
  match dd_tail o with
  | None => raise (IndexError "peek from an empty DequeDict")
  | Some t => e ← load t; mret (e_key e, e_value e)
  end.

Definition DequeDict_popleft : M V :=
  o ← get_self;
  match dd_head o with
  | None => raise (IndexError "pop from an empty DequeDict")
  | Some entry =>
      e ← load entry;
      unlink_head entry;;
      discard_entry entry (e_key e);;
      mret (e_value e)
  end.

Definition DequeDict_popleftitem : M (K * V) :=
  o ← get_self;
  match dd_head o with
  | None => raise (KeyError_str "popleftitem from an empty DequeDict")
  | Some entry =>
      e ← load entry;
      unlink_head entry;;
      discard_entry entry (e_key e);;
      mret (e_key e, e_value e)
  end.

Definition DequeDict_pop (key : option K) (default_val : option V) : M V :=
  match key with
  | None =>
      o ← get_self;
      match dd_tail o with
      | None =>
          match default_val with
          | Some d => mret d
          | None => raise (IndexError "pop from an empty DequeDict")
          end
      | Some entry =>
          e ← load entry;
          unlink_tail entry;;
          discard_entry entry (e_key e);;
          mret (e_value e)
      end
  | Some key =>
      o ← get_self;
      match dd_dict o !! key with
      | None =>
          match default_val with
          | Some d => mret d
          | None => raise (KeyError_obj key)
          end
      | Some entry =>
          e ← load entry;
          unlink entry;;
          discard_entry entry key;;
          mret (e_value e)
      end
  end.

Definition DequeDict_popitem : M (K * V) :=
  o ← get_self;
  match dd_tail o with
  | None => raise (KeyError_str "popitem from an empty DequeDict")
  | Some entry =>
      e ← load entry;
      unlink_tail entry;;
      discard_entry entry (e_key e);;
      mret (e_key e, e_value e)
  end.

Definition DequeDict_appendleft (al : Alloc) (key : K) (value : V) : M unit :=
  o ← get_self;
  match dd_dict o !! key with
  | Some _ => raise (KeyError_str "key already exists")
  | None =>
      new_entry ← entry_alloc al;
      match new_entry with
      | None => raise MemoryError
      | Some new_entry =>
          init_entry new_entry (mkEntry key value None (dd_head o));;
          link_head new_entry;;
          size_incr;;
          register_entry al key new_entry
      end
  end.

Definition DequeDict_get (key : K) (default_val : option V) : M (option V) :=
  o ← get_self;
  match dd_dict o !! key with
  | None => mret default_val
  | Some entry => e ← load entry; mret (Some (e_value e))
  end.

Fixpoint clear_loop (fuel : nat) (entry : ptr) : M unit :=
  match entry with
  | None => mret tt
  | Some a =>
      match fuel with
      | O => fault
      | S fuel' =>
          e ← load a;
          entry_free a;;
          clear_loop fuel' (e_next e)
      end
  end.

Definition DequeDict_clear_method : M unit :=
  s ← get_state;
  clear_loop (S (size (heap s))) (dd_head (self s));;
  set_dict ∅;;
  set_head None;;
  set_tail None;;
  set_size 0.

Definition DequeDict_move_to_end (key : K) (last : bool) : M unit :=
  o ← get_self;
  match dd_dict o !! key with
  | None => raise (KeyError_obj key)
  | Some entry =>
      if (last && bool_decide (Some entry = dd_tail o))
         || (negb last && bool_decide (Some entry = dd_head o))
      then mret tt
      else
        unlink entry;;
        o ← get_self;
        if last then
          e ← load entry;
          store entry (with_next (with_prev e (dd_tail o)) None);;
          link_tail entry
        else
          e ← load entry;
          store entry (with_next (with_prev e None) (dd_head o));;
          link_head entry
  end.

Definition DequeDictIter_next (current : ptr) : M (option (K * ptr)) :=
  match current with
  | None => mret None
  | Some a => e ← load a; mret (Some (e_key e, e_next e))
  end.

Definition DequeDictRevIter_next (current : ptr) : M (option (K * ptr)) :=
  match current with
  | None => mret None
  | Some a => e ← load a; mret (Some (e_key e, e_prev e))
  end.

(* DequeDictViewIter_next: this source has no reverse flag *)
Definition DequeDictViewIter_next (kind : ViewKind) (current : ptr)
  : M (option (PyItem K V * ptr)) :=
  match current with
  | None => mret None
  | Some a =>
      e ← load a;
      let result :=
        match kind with
        | Keys => PyKey (e_key e)
        | Values => PyValue (e_value e)
        | Items => PyPair (e_key e) (e_value e)
        end in
      mret (Some (result, e_next e))
  end.

Fixpoint drain {X} (next : ptr → M (option (X * ptr))) (fuel : nat) (current : ptr)
  : M (option (list X)) :=
  match fuel with
  | O => mret None
  | S fuel' =>
      r ← next current;
      match r with
      | None => mret (Some [])
      | Some (x, current') =>
          rest ← drain next fuel' current';
          mret (cons x <$> rest)
      end
  end.

Definition list_of {X} (next : ptr → M (option (X * ptr))) (current : ptr) : M (list X) :=
  s ← get_state;
  r ← drain next (S (size (heap s))) current;
  match r with
  | Some l => mret l
  | None => fault
  end.

Definition DequeDict_iter : M (list K) :=
  o ← get_self; list_of DequeDictIter_next (dd_head o).
Definition DequeDict_reversed : M (list K) :=
  o ← get_self; list_of DequeDictRevIter_next (dd_tail o).
Definition DequeDictView_iter (kind : ViewKind) : M (list (PyItem K V)) :=
  o ← get_self; list_of (DequeDictViewIter_next kind) (dd_head o).

Global Instance DequeDict_PyMapping : PyMapping K V State := {|
  PyMapping_Size s := dd_size (self s);
  PyObject_GetItem s k :=
    match DequeDict_getitem k s with
    | Done v _ => Some v
    | _ => None
    end
|}.

Variable value_eq : V → V → bool.

Fixpoint compare_loop `{PyMapping K V T} (fuel : nat) (other : T) (ne : bool) (entry : ptr)
  : M (PyVal K V) :=
  match entry with
  | None => mret (PyBool (negb ne))
  | Some a =>
      match fuel with
      | O => fault
      | S fuel' =>
          e ← load a;
          match PyObject_GetItem other (e_key e) with
          | None => mret (PyBool ne)
          | Some other_val =>
              if value_eq (e_value e) other_val
              then compare_loop fuel' other ne (e_next e)
              else mret (PyBool ne)
          end
      end
  end.

Definition DequeDict_richcompare `{PyMapping K V T} (other : T) (op : CmpOp) : M (PyVal K V) :=
  match op with
  | Py_EQ | Py_NE =>
      let ne := match op with Py_NE => true | _ => false end in
      s ← get_state;
      if negb (dd_size (self s) =? PyMapping_Size other) then mret (PyBool ne)
      else compare_loop (S (size (heap s))) other ne (dd_head (self s))
  | _ => mret PyNotImplemented
  end.

Definition of_value (v : V) : PyVal K V := PyObj (PyValue v).
Definition of_pair (kv : K * V) : PyVal K V := PyObj (PyPair kv.1 kv.2).

Definition exec (al : Alloc) (op : SharedOp K V) : M (PyVal K V) :=
  match op with
  | OpLen => n ← DequeDict_len; mret (PyInt n)
  | OpGetItem key => v ← DequeDict_getitem key; mret (of_value v)
  | OpSetItem key value => DequeDict_setitem al key (Some value);; mret PyNone
  | OpDelItem key => DequeDict_setitem al key None;; mret PyNone
  | OpContains key => b ← DequeDict_contains key; mret (PyBool b)
  | OpPeekLeft => v ← DequeDict_peekleft; mret (of_value v)
  | OpPeekLeftItem => kv ← DequeDict_peekleftitem; mret (of_pair kv)
  | OpPeekLeftKey => k ← DequeDict_peekleftkey; mret (PyObj (PyKey k))
  | OpPeek => v ← DequeDict_peek; mret (of_value v)
  | OpPeekItem => kv ← DequeDict_peekitem; mret (of_pair kv)
  | OpPopLeft => v ← DequeDict_popleft; mret (of_value v)
  | OpPopLeftItem => kv ← DequeDict_popleftitem; mret (of_pair kv)
  | OpPop key default_val => v ← DequeDict_pop key default_val; mret (of_value v)
  | OpPopItem => kv ← DequeDict_popitem; mret (of_pair kv)
  | OpAppendLeft key value => DequeDict_appendleft al key value;; mret PyNone
  | OpGet key default_val =>
      r ← DequeDict_get key default_val;
      mret (match r with Some v => of_value v | None => PyNone end)
  | OpClear => DequeDict_clear_method;; mret PyNone
  | OpMoveToEnd key last => DequeDict_move_to_end key last;; mret PyNone
  | OpIter => l ← DequeDict_iter; mret (PyList (PyKey <$> l))
  | OpReversed => l ← DequeDict_reversed; mret (PyList (PyKey <$> l))
  | OpView kind => l ← DequeDictView_iter kind; mret (PyList l)
  | OpRichCompare other op => DequeDict_richcompare other op
  end.

Definition empty_object : DequeDictObject := mkObject ∅ None None 0.
Definition initial_state : State := mkState ∅ None 0 empty_object.

Fixpoint run (ops : list (Alloc * SharedOp K V)) (s : State)
  : list (Outcome K V) * option State :=
  match ops with
  | [] => ([], Some s)
  | (al, op) :: ops =>
      match exec al op s with
      | Done v s' => let r := run ops s' in (Returned v :: r.1, r.2)
      | Raise e s' => let r := run ops s' in (Failed e :: r.1, r.2)
      | Fault => ([], None)
      end
  end.

End DequeDict.
End NoCache.

(* ------------------------------------------------------------------- *)
(* Well-formed states                                                   *)
(* ------------------------------------------------------------------- *)

Section Invariant.
Context {K : Type} `{Countable K} {V : Type}.
Implicit Types (h : gmap positive (DequeDictEntry (K:=K) (V:=V))).
Implicit Types (s : State (K:=K) (V:=V)) (ls fl : list positive) (p q : ptr).

(* What the heap says about one address. *)
Definition links h (a : positive) : option (ptr * ptr) :=
  (λ e, (e_prev e, e_next e)) <$> h !! a.
Definition node_kv h (a : positive) : option (K * V) :=
  (λ e, (e_key e, e_value e)) <$> h !! a.
Definition node_key h (a : positive) : option K := e_key <$> h !! a.
Definition node_idx h (a : positive) : option Z := e_cache_idx <$> h !! a.

Definition hd_ptr ls q : ptr := match ls with [] => q | a :: _ => Some a end.
Definition last_ptr ls p : ptr := match last ls with Some a => Some a | None => p end.

(* ls is a doubly linked segment: the first entry's prev is p, the last
   entry's next is q, neighbours point at each other. *)
Fixpoint dlseg h p ls q : Prop :=
  match ls with
  | [] => True
  | a :: rest => links h a = Some (p, hd_ptr rest q) ∧ dlseg h (Some a) rest q
  end.

(* fl is chained through next and ends in NULL: the freelist *)
Fixpoint free_chain h fl : Prop :=
  match fl with
  | [] => True
  | a :: rest => snd <$> links h a = Some (head rest) ∧ free_chain h rest
  end.

(* The key index and the list hold the same entries under their keys. *)
Definition dict_inv s ls : Prop :=
  map_Forall (λ k a, a ∈ ls ∧ node_key (heap s) a = Some k) (dd_dict (self s)) ∧
  Forall (λ a, from_option (λ k, dd_dict (self s) !! k = Some a) False
                 (node_key (heap s) a)) ls.

(* The position cache, when there is one: the slots from cache_offset to
   cache_size hold the list in order, and each entry knows its slot. *)
Definition cache_inv s ls : Prop :=
  match index_cache (self s) with
  | None => True
  | Some arr =>
      Z.of_nat (length arr) = cache_capacity (self s) ∧
      0 ≤ cache_offset (self s) ∧
      cache_offset (self s) + Z.of_nat (length ls) = cache_size (self s) ∧
      cache_size (self s) ≤ cache_capacity (self s) ∧
      Forall (λ ia, arr !! (Z.to_nat (cache_offset (self s)) + ia.1)%nat = Some (Some ia.2) ∧
                    node_idx (heap s) ia.2 = Some (cache_offset (self s) + Z.of_nat ia.1))
             (imap pair ls)
  end.

(* The list and the freelist of s are consistent, the entries being ls
   from head to tail and the freelist fl. *)
Definition WFlist s ls fl : Prop :=
  NoDup (ls ++ fl) ∧
  dlseg (heap s) None ls None ∧
  dd_head (self s) = head ls ∧
  dd_tail (self s) = last ls ∧
  dd_size (self s) = Z.of_nat (length ls) ∧
  freelist s = head fl ∧
  free_chain (heap s) fl ∧
  freelist_size s = Z.of_nat (length fl).

(* ... and the key index agrees with the list. *)
Definition WFcore s ls fl : Prop := WFlist s ls fl ∧ dict_inv s ls.

(* s is well formed: the above, and the position cache mirrors the list. *)
Definition WF s ls fl : Prop := WFcore s ls fl ∧ cache_inv s ls.

Global Instance dlseg_dec h p ls q : Decision (dlseg h p ls q).
Proof. revert p; induction ls; intros; simpl; apply _. Defined.
Global Instance free_chain_dec h fl : Decision (free_chain h fl).
Proof. induction fl; simpl; apply _. Defined.
Global Instance dict_inv_dec s ls : Decision (dict_inv s ls).
Proof. unfold dict_inv. apply and_dec; [apply _|]. apply Forall_dec. intros a.
  destruct (node_key (heap s) a); simpl; apply _. Defined.
Global Instance cache_inv_dec s ls : Decision (cache_inv s ls).
Proof. unfold cache_inv. destruct (index_cache (self s)); apply _. Defined.
Global Instance WFlist_dec s ls fl : Decision (WFlist s ls fl).
Proof. unfold WFlist. apply _. Defined.
Global Instance WFcore_dec s ls fl : Decision (WFcore s ls fl).
Proof. unfold WFcore. apply _. Defined.
Global Instance WF_dec s ls fl : Decision (WF s ls fl).
Proof. unfold WF. apply _. Defined.

(* The (key, value) pairs of the entries ls. *)
Definition content h ls : list (K * V) := omap (node_kv h) ls.

(* What a step leaves alone. *)
Definition same_pool s s' : Prop :=
  freelist s' = freelist s ∧ freelist_size s' = freelist_size s.
Definition same_index s s' : Prop :=
  dd_dict (self s') = dd_dict (self s) ∧ dd_size (self s') = dd_size (self s) ∧
  index_cache (self s') = index_cache (self s) ∧ cache_size (self s') = cache_size (self s) ∧
  cache_capacity (self s') = cache_capacity (self s) ∧
  cache_offset (self s') = cache_offset (self s).
Definition same_data h h' : Prop :=
  ∀ b, node_kv h' b = node_kv h b ∧ node_idx h' b = node_idx h b.

(* What the cache helpers leave alone. *)
Definition same_list s s' : Prop :=
  dd_dict (self s') = dd_dict (self s) ∧ dd_head (self s') = dd_head (self s) ∧
  dd_tail (self s') = dd_tail (self s) ∧ dd_size (self s') = dd_size (self s).
Definition same_shape h h' : Prop :=
  ∀ b, links h' b = links h b ∧ node_kv h' b = node_kv h b.

(* The records of the entries ls. *)
Definition entries h ls : list (DequeDictEntry (K:=K) (V:=V)) := omap (h !!.) ls.

Definition kv_of (e : DequeDictEntry (K:=K) (V:=V)) : K * V := (e_key e, e_value e).

(* What a view of a kind shows of an entry. *)
Definition item_of (kind : ViewKind) (e : DequeDictEntry (K:=K) (V:=V)) : PyItem K V :=
  match kind with
  | Keys => PyKey (e_key e)
  | Values => PyValue (e_value e)
  | Items => PyPair (e_key e) (e_value e)
  end.

(* Does the operand of == hold an equal value under the key of e? *)
Definition agrees (value_eq : V → V → bool) `{PyMapping K V T} (other : T)
    (e : DequeDictEntry (K:=K) (V:=V)) : bool :=
  match PyObject_GetItem other (e_key e) with
  | Some other_val => value_eq (e_value e) other_val
  | None => false
  end.

End Invariant.

(* ------------------------------------------------------------------- *)
(* From the variant with the position cache to the one without          *)
(* ------------------------------------------------------------------- *)

Section Erase.
Context {K : Type} `{Countable K} {V : Type}.

(* An entry, the object and the memory without the cache fields. *)
Definition erase_entry (e : DequeDictEntry (K:=K) (V:=V)) : NoCache.DequeDictEntry :=
  NoCache.mkEntry (e_key e) (e_value e) (e_prev e) (e_next e).

Definition erase_object (o : DequeDictObject (K:=K)) : NoCache.DequeDictObject :=
  NoCache.mkObject (dd_dict o) (dd_head o) (dd_tail o) (dd_size o).

Definition erase (s : State (K:=K) (V:=V)) : NoCache.State :=
  NoCache.mkState (erase_entry <$> heap s) (freelist s) (freelist_size s)
                  (erase_object (self s)).

Definition erase_res {A} (r : Res (K:=K) (V:=V) A) : NoCache.Res A :=
  match r with
  | Done a s => NoCache.Done a (erase s)
  | Raise e s => NoCache.Raise e (erase s)
  | Fault => NoCache.Fault
  end.

(* A script of the shared interface as a script of the full one. *)
Definition shared_script (ops : list (Alloc * SharedOp K V)) : list (Alloc * Op K V) :=
  (λ x, (x.1, Shared x.2)) <$> ops.

(* As long as no array has been built, a computation of the source with
   the cache and one of the source without go the same way: same answer
   up to R, same exception, or undefined behaviour in both, and the
   memory of the second is the memory of the first without the cache
   fields. *)
Definition sim {A B} (R : A → B → Prop)
    (m : M (K:=K) (V:=V) A) (m' : NoCache.M (K:=K) (V:=V) B) : Prop :=
  ∀ s, index_cache (self s) = None →
    match m s with
    | Done a s1 =>
        index_cache (self s1) = None ∧
        ∃ b, R a b ∧ m' (erase s) = NoCache.Done b (erase s1)
    | Raise err s1 =>
        index_cache (self s1) = None ∧ m' (erase s) = NoCache.Raise err (erase s1)
    | Fault => m' (erase s) = NoCache.Fault
    end.

Definition same_object o (o' : NoCache.DequeDictObject (K:=K)) : Prop :=
  o' = erase_object o ∧ index_cache o = None.
Definition same_entry e (e' : NoCache.DequeDictEntry (K:=K) (V:=V)) : Prop :=
  e' = erase_entry e.
Definition same_state s (s' : NoCache.State (K:=K) (V:=V)) : Prop :=
  s' = erase s ∧ index_cache (self s) = None.

End Erase.

(* ------------------------------------------------------------------- *)
(* Concrete containers: string keys, integer values                     *)
(* ------------------------------------------------------------------- *)

(* The state a script leaves behind, from DequeDict(). *)
Definition after (ops : list (Alloc * Op string Z)) : State :=
  default initial_state (run Z.eqb ops initial_state).2.

(* A call of the shared interface during which every allocation succeeds *)
Definition call (op : SharedOp string Z) : Alloc * Op string Z := (all_ok, Shared op).

(* d = DequeDict(); d["a"] = 1; d["b"] = 2; d["c"] = 3 *)
Definition dd_abc : State :=
  after [call (OpSetItem "a"%string 1); call (OpSetItem "b"%string 2);
         call (OpSetItem "c"%string 3)].

(* ... followed by d.at(0), which builds the array of three slots *)
Definition dd_abc_cached : State :=
  after [call (OpSetItem "a"%string 1); call (OpSetItem "b"%string 2);
         call (OpSetItem "c"%string 3); (all_ok, OpAt 0)].

(* d = DequeDict(); d["x"] = 1; d["y"] = 2 *)
Definition dd_xy : State :=
  after [call (OpSetItem "x"%string 1); call (OpSetItem "y"%string 2)].

(* d.popleft(); d.pop(); d["d"] = 4 *)
Definition mixed_script : list (Alloc * Op string Z) :=
  [call OpPopLeft; call (OpPop None None); call (OpSetItem "d"%string 4)].

(* d["a"] = 1; d.appendleft("b", 2); d["z"]; d.popleft(); d.move_to_end("a");
   d == {"a": 1}; list(d.items()) *)
Definition shared_calls : list (Alloc * SharedOp string Z) :=
  [(all_ok, OpSetItem "a"%string 1); (all_ok, OpAppendLeft "b"%string 2);
   (all_ok, OpGetItem "z"%string); (all_ok, OpPopLeft);
   (all_ok, OpMoveToEnd "a"%string true);
   (all_ok, OpRichCompare {["a"%string := 1]} Py_EQ); (all_ok, OpView Items)].

(* the plain dict {"y": 2, "x": 1} *)
Definition dict_yx : gmap string Z := {["y"%string := 2; "x"%string := 1]}.

(* PyMem_Malloc fails, PyLong_FromVoidPtr fails, PyMem_Realloc fails *)
Definition no_entry : Alloc := mkAlloc false true true true true.
Definition no_capsule : Alloc := mkAlloc true false true true true.
Definition no_realloc : Alloc := mkAlloc true true true true false.

(* PyDict_SetItem fails *)
Definition no_dict_setitem : Alloc := mkAlloc true true false true true.

(* d = DequeDict(); d["a"] = 1; d["b"] = 2; d["c"] = 3; d.at(0);
   d["d"] = 4, during which PyDict_SetItem fails; d["e"] = 5 *)
Definition failed_set_script : list (Alloc * Op string Z) :=
  [call (OpSetItem "a"%string 1); call (OpSetItem "b"%string 2);
   call (OpSetItem "c"%string 3); (all_ok, OpAt 0);
   (no_dict_setitem, Shared (OpSetItem "d"%string 4)); call (OpSetItem "e"%string 5)].

(* ... and the state this leaves *)
Definition dd_failed_set : State := after failed_set_script.

(* ------------------------------------------------------------------- *)
(* The rest of the method table: construction from items, update,       *)
(* setdefault and the views as containers                               *)
(* ------------------------------------------------------------------- *)

Section Methods.
Context {K : Type} `{Countable K} {V : Type}.

(* The items handed to DequeDict_init and to update: the pairs that a
   dict or an iterable of 2-tuples yields, in order, each with what the
   allocator does while it is inserted.  An element that is not a
   2-tuple (the ValueError of both functions) has no counterpart here. *)
Definition PyItems : Type := list (Alloc * (K * V)).

(* The "while (PyDict_Next(...))" and "while ((pair = PyIter_Next(iter)))"
   loops of DequeDict_init, which have the same body: the entry is
   appended and entered in the key index without looking the key up. *)
Fixpoint init_loop (items : PyItems) : M (K:=K) (V:=V) unit :=
  match items with
  | [] => mret tt
  | (al, (key, value)) :: items =>
      new_entry ← entry_alloc al;
      match new_entry with
      | None => raise MemoryError
      | Some new_entry =>
          o ← get_self;
          init_entry new_entry (mkEntry key value (dd_tail o) None (-1));;
          link_tail new_entry;;
          size_incr;;
          register_entry al key new_entry;;
          init_loop items
      end
  end.

(* DequeDict_init(self, items), also on an object that holds entries
   ("safe for re-init"): "Clear existing state", a new dict, the loop.
   PyDict_New is taken to succeed. *)
Definition DequeDict_init (items : PyItems) : M (K:=K) (V:=V) unit :=
  s ← get_state;
  clear_loop (S (size (heap s))) (dd_head (self s));;
  DequeDict_invalidate_cache;;
  set_dict ∅;;
  set_head None;;
  set_tail None;;
  set_size 0;;
  init_loop items.

(* The loops of DequeDict_update: DequeDict_setitem for each pair, until
   one call fails. *)
Fixpoint update_loop (items : PyItems) : M (K:=K) (V:=V) unit :=
  match items with
  | [] => mret tt
  | (al, (key, value)) :: items =>
      DequeDict_setitem al key (Some value);;
      update_loop items
  end.

(* update(other, **kwds); no argument is the empty list *)
Definition DequeDict_update (other kwds : PyItems) : M (K:=K) (V:=V) unit :=
  update_loop other;;
  update_loop kwds.

(* setdefault(key, default=None): the caller's None is a value *)
Definition DequeDict_setdefault (al : Alloc) (key : K) (default_val : V)
  : M (K:=K) (V:=V) V :=
  o ← get_self;
  match dd_dict o !! key with
  | Some entry => e ← load entry; mret (e_value e)
  | None =>
      (* Key doesn't exist - add it *)
      DequeDict_setitem al key (Some default_val);;
      mret default_val
  end.

(* DequeDictView_len: self->dd->size *)
Definition DequeDictView_len : M (K:=K) (V:=V) Z :=
  o ← get_self; mret (dd_size o).

(* DequeDictKeysView_contains: PyDict_Contains(self->dd->dict, key) *)
Definition DequeDictKeysView_contains (key : K) : M (K:=K) (V:=V) bool :=
  o ← get_self; mret (bool_decide (is_Some (dd_dict o !! key))).

(* PyObject_RichCompareBool(a, b, Py_EQ) on values *)
Variable value_eq : V → V → bool.

(* The loop of DequeDictValuesView_contains, bounded like the other
   walks over the list *)
Fixpoint values_contains_loop (fuel : nat) (value : V) (entry : ptr)
  : M (K:=K) (V:=V) bool :=
  match entry with
  | None => mret false
  | Some a =>
      match fuel with
      | O => fault
      | S fuel' =>
          e ← load a;
          if value_eq (e_value e) value then mret true
          else values_contains_loop fuel' value (e_next e)
      end
  end.

Definition DequeDictValuesView_contains (value : V) : M (K:=K) (V:=V) bool :=
  s ← get_state;
  values_contains_loop (S (size (heap s))) value (dd_head (self s)).

(* DequeDictItemsView_contains on the 2-tuple (key, value) *)
Definition DequeDictItemsView_contains (key : K) (value : V) : M (K:=K) (V:=V) bool :=
  o ← get_self;
  match dd_dict o !! key with
  | None => mret false
  | Some entry => e ← load entry; mret (value_eq (e_value e) value)
  end.

End Methods.

(* The same functions of the source without the position cache. *)
Module NoCacheMethods.
Section Methods.
Context {K : Type} `{Countable K} {V : Type}.

Fixpoint init_loop (items : PyItems (K:=K) (V:=V)) : NoCache.M (K:=K) (V:=V) unit :=
  match items with
  | [] => mret tt
  | (al, (key, value)) :: items =>
      new_entry ← NoCache.entry_alloc al;
      match new_entry with
      | None => NoCache.raise MemoryError
      | Some new_entry =>
          o ← NoCache.get_self;
          NoCache.init_entry new_entry
            (NoCache.mkEntry key value (NoCache.dd_tail o) None);;
          NoCache.link_tail new_entry;;
          NoCache.size_incr;;
          NoCache.register_entry al key new_entry;;
          init_loop items
      end
  end.

Definition DequeDict_init (items : PyItems (K:=K) (V:=V)) : NoCache.M (K:=K) (V:=V) unit :=
  s ← NoCache.get_state;
  NoCache.clear_loop (S (size (NoCache.heap s))) (NoCache.dd_head (NoCache.self s));;
  NoCache.set_dict ∅;;
  NoCache.set_head None;;
  NoCache.set_tail None;;
  NoCache.set_size 0;;
  init_loop items.

Fixpoint update_loop (items : PyItems (K:=K) (V:=V)) : NoCache.M (K:=K) (V:=V) unit :=
  match items with
  | [] => mret tt
  | (al, (key, value)) :: items =>
      NoCache.DequeDict_setitem al key (Some value);;
      update_loop items
  end.

Definition DequeDict_update (other kwds : PyItems (K:=K) (V:=V))
  : NoCache.M (K:=K) (V:=V) unit :=
  update_loop other;;
  update_loop kwds.

Definition DequeDict_setdefault (al : Alloc) (key : K) (default_val : V)
  : NoCache.M (K:=K) (V:=V) V :=
  o ← NoCache.get_self;
  match NoCache.dd_dict o !! key with
  | Some entry => e ← NoCache.load entry; mret (NoCache.e_value e)
  | None =>
      NoCache.DequeDict_setitem al key (Some default_val);;
      mret default_val
  end.

End Methods.
End NoCacheMethods.

(* ------------------------------------------------------------------- *)
(* The pairs of a container as a plain list                             *)
(* ------------------------------------------------------------------- *)

Section Pairs.
Context {K : Type} `{Countable K} {V : Type}.

(* What a view of a kind shows of a pair. *)
Definition item_of_pair (kind : ViewKind) (kv : K * V) : PyItem K V :=
  match kind with
  | Keys => PyKey kv.1
  | Values => PyValue kv.2
  | Items => PyPair kv.1 kv.2
  end.

(* d[k] = v on the pairs: in place for a key that is there, at the end
   for a new one. *)
Definition upsert (l : list (K * V)) (kv : K * V) : list (K * V) :=
  if decide (kv.1 ∈ l.*1)
  then (λ x : K * V, if decide (x.1 = kv.1) then (x.1, kv.2) else x) <$> l
  else l ++ [kv].

(* The value that a list of pairs gives last for a key. *)
Definition last_value (l : list (K * V)) (k : K) : option V :=
  snd <$> last (filter (λ kv : K * V, kv.1 = k) l).

End Pairs.

Section KeyIndex.
Context {K : Type} `{Countable K} {V : Type}.

(* The key index after insertions that did not look the key up first:
   a key leads to the entry of the list that was entered last under it. *)
Definition dict_last (s : State (K:=K) (V:=V)) (ls : list positive) : Prop :=
  ∀ k, match dd_dict (self s) !! k with
       | Some a =>
           a ∈ ls ∧ ∃ v, node_kv (heap s) a = Some (k, v) ∧
                         last_value (content (heap s) ls) k = Some v
       | None => last_value (content (heap s) ls) k = None
       end.

End KeyIndex.

Section Keeps.
Context {K : Type} `{Countable K} {V : Type}.

(* m keeps I: however m ends, by a result or by an exception, I holds
   afterwards when it held before. *)
Definition keeps {A} (I : State (K:=K) (V:=V) → Prop) (m : M (K:=K) (V:=V) A) : Prop :=
  ∀ s, I s → match m s with
             | Done _ s' | Raise _ s' => I s'
             | Fault => True
             end.

(* The pool holds at most FREELIST_MAX entries, by its counter. *)
Definition pool_bounded (s : State (K:=K) (V:=V)) : Prop :=
  freelist_size s ≤ FREELIST_MAX.

End Keeps.

(* ===================================================================== *)
(* Proofs                                                                *)
(* ===================================================================== *)

Section HeapFacts.
Context {K : Type} `{Countable K} {V : Type}.
Implicit Types (h : gmap positive (DequeDictEntry (K:=K) (V:=V))).
Implicit Types (e : DequeDictEntry (K:=K) (V:=V)).
Implicit Types (s : State (K:=K) (V:=V)) (ls fl : list positive) (p q : ptr).

Lemma links_insert h a b e :
  links (<[a:=e]> h) b = if decide (a = b) then Some (e_prev e, e_next e) else links h b.
Proof. unfold links. rewrite lookup_insert. by case_decide. Qed.

Lemma node_kv_insert h a b e :
  node_kv (<[a:=e]> h) b = if decide (a = b) then Some (e_key e, e_value e) else node_kv h b.
Proof. unfold node_kv. rewrite lookup_insert. by case_decide. Qed.

Lemma node_key_insert h a b e :
  node_key (<[a:=e]> h) b = if decide (a = b) then Some (e_key e) else node_key h b.
Proof. unfold node_key. rewrite lookup_insert. by case_decide. Qed.

Lemma node_idx_insert h a b e :
  node_idx (<[a:=e]> h) b = if decide (a = b) then Some (e_cache_idx e) else node_idx h b.
Proof. unfold node_idx. rewrite lookup_insert. by case_decide. Qed.

Lemma node_key_kv h a : node_key h a = fst <$> node_kv h a.
Proof. unfold node_key, node_kv. by destruct (h !! a). Qed.

Lemma links_Some h a pq : links h a = Some pq → ∃ e, h !! a = Some e ∧ e_prev e = pq.1 ∧ e_next e = pq.2.
Proof. unfold links. destruct (h !! a) as [e|]; [|done]. intros [= <-]. eauto. Qed.

Lemma links_lookup h a e : h !! a = Some e → links h a = Some (e_prev e, e_next e).
Proof. unfold links. by intros ->. Qed.

(* a doubly linked segment depends on the links of its own entries only *)
Lemma dlseg_frame h h' p ls q :
  (∀ a, a ∈ ls → links h' a = links h a) → dlseg h p ls q → dlseg h' p ls q.
Proof.
  revert p. induction ls as [|a rest IH]; intros p Hsame; simpl; [done|].
  intros [Ha Hrest]. split.
  - rewrite Hsame; [done | left].
  - apply IH; [|done]. intros b Hb. apply Hsame. by right.
Qed.

Lemma hd_ptr_app l1 l2 q : hd_ptr (l1 ++ l2) q = hd_ptr l1 (hd_ptr l2 q).
Proof. by destruct l1. Qed.

Lemma last_ptr_cons a l p : last_ptr (a :: l) p = last_ptr l (Some a).
Proof. unfold last_ptr. destruct l as [|b l]; [done|]. simpl.
  by destruct (last (b :: l)) eqn:E; [|apply last_None in E]. Qed.

Lemma last_ptr_snoc l a p : last_ptr (l ++ [a]) p = Some a.
Proof. unfold last_ptr. by rewrite last_snoc. Qed.

Lemma last_ptr_None l : last_ptr l None = last l.
Proof. unfold last_ptr. by destruct (last l). Qed.

Lemma hd_ptr_None l : hd_ptr l None = head l.
Proof. by destruct l. Qed.

Lemma dlseg_app h p l1 l2 q :
  dlseg h p (l1 ++ l2) q ↔ dlseg h p l1 (hd_ptr l2 q) ∧ dlseg h (last_ptr l1 p) l2 q.
Proof.
  revert p. induction l1 as [|a l1 IH]; intros p; simpl.
  - unfold last_ptr; simpl. tauto.
  - rewrite IH, hd_ptr_app, last_ptr_cons. tauto.
Qed.

Lemma dlseg_in h p ls q a : dlseg h p ls q → a ∈ ls → is_Some (h !! a).
Proof.
  revert p. induction ls as [|b rest IH]; intros p; simpl; [by intros _ ?%elem_of_nil|].
  intros [Hb Hrest] [->|Hin]%elem_of_cons; [|eauto].
  apply links_Some in Hb as (e & -> & _). eauto.
Qed.

(* the links of an entry in the middle of a segment *)
Lemma dlseg_middle h p l1 a l2 q :
  dlseg h p (l1 ++ a :: l2) q → links h a = Some (last_ptr l1 p, hd_ptr l2 q).
Proof. rewrite dlseg_app. simpl. tauto. Qed.

Lemma free_chain_frame h h' fl :
  (∀ a, a ∈ fl → links h' a = links h a) → free_chain h fl → free_chain h' fl.
Proof.
  induction fl as [|a rest IH]; intros Hsame; simpl; [done|].
  intros [Ha Hrest]. split.
  - rewrite Hsame; [done | left].
  - apply IH; [|done]. intros b Hb. apply Hsame. by right.
Qed.

Lemma free_chain_in h fl a : free_chain h fl → a ∈ fl → is_Some (h !! a).
Proof.
  induction fl as [|b rest IH]; simpl; [by intros _ ?%elem_of_nil|].
  intros [Hb Hrest] [->|Hin]%elem_of_cons; [|eauto].
  unfold links in Hb. destruct (h !! b); [eauto|done].
Qed.

Lemma dlseg_cons h p a l q :
  dlseg h p (a :: l) q ↔ links h a = Some (p, hd_ptr l q) ∧ dlseg h (Some a) l q.
Proof. done. Qed.

Lemma dlseg_nil h p q : dlseg h p [] q.
Proof. done. Qed.

Lemma free_chain_cons h a fl :
  free_chain h (a :: fl) ↔ snd <$> links h a = Some (head fl) ∧ free_chain h fl.
Proof. done. Qed.

Lemma Forall_imap_pair {A} (P : nat * A → Prop) (l : list A) :
  Forall P (imap pair l) ↔ ∀ i a, l !! i = Some a → P (i, a).
Proof.
  rewrite Forall_lookup. split.
  - intros HP i a Hi. apply (HP i). by rewrite list_lookup_imap, Hi.
  - intros HP i [j a]. rewrite list_lookup_imap.
    destruct (l !! i) as [b|] eqn:E; simpl; [|done]. intros [= <- <-]. by apply HP.
Qed.

End HeapFacts.

Global Arguments dlseg : simpl never.
Global Arguments free_chain : simpl never.
Global Arguments content : simpl never.

Ltac msimpl := unfold mbind, M_bind, mret, M_ret; simpl.

Section Run.
Context {K : Type} `{Countable K} {V : Type}.
Implicit Types (h : gmap positive (DequeDictEntry (K:=K) (V:=V))).
Implicit Types (e : DequeDictEntry (K:=K) (V:=V)).
Implicit Types (o : DequeDictObject (K:=K)).
Implicit Types (s : State (K:=K) (V:=V)) (ls fl : list positive) (p q : ptr).

Lemma load_run s a e : heap s !! a = Some e → load a s = Done e s.
Proof. unfold load. by intros ->. Qed.

Lemma store_run s a e e' :
  heap s !! a = Some e →
  store a e' s = Done tt (mkState (<[a:=e']> (heap s)) (freelist s) (freelist_size s) (self s)).
Proof. unfold store. by intros ->. Qed.

Lemma set_next_run s a e n :
  heap s !! a = Some e →
  set_next a n s
  = Done tt (mkState (<[a:=with_next e n]> (heap s)) (freelist s) (freelist_size s) (self s)).
Proof. intros Ha. unfold set_next, store, load. msimpl. rewrite Ha. simpl. by rewrite Ha. Qed.

Lemma set_prev_run s a e n :
  heap s !! a = Some e →
  set_prev a n s
  = Done tt (mkState (<[a:=with_prev e n]> (heap s)) (freelist s) (freelist_size s) (self s)).
Proof. intros Ha. unfold set_prev, store, load. msimpl. rewrite Ha. simpl. by rewrite Ha. Qed.

Lemma set_value_run s a e v :
  heap s !! a = Some e →
  set_value a v s
  = Done tt (mkState (<[a:=with_value e v]> (heap s)) (freelist s) (freelist_size s) (self s)).
Proof. intros Ha. unfold set_value, store, load. msimpl. rewrite Ha. simpl. by rewrite Ha. Qed.

Lemma set_cache_idx_run s a e i :
  heap s !! a = Some e →
  set_cache_idx a i s
  = Done tt (mkState (<[a:=with_cache_idx e i]> (heap s)) (freelist s) (freelist_size s) (self s)).
Proof. intros Ha. unfold set_cache_idx, store, load. msimpl. rewrite Ha. simpl. by rewrite Ha. Qed.

(* Retargeting the two ends of a segment. *)
Lemma dlseg_set_last_next h p l x ex q q' :
  NoDup (l ++ [x]) → h !! x = Some ex →
  dlseg h p (l ++ [x]) q → dlseg (<[x:=with_next ex q']> h) p (l ++ [x]) q'.
Proof.
  intros Hnd Hx. rewrite !dlseg_app, !dlseg_cons. intros [Hl [Hlx _]].
  apply NoDup_app in Hnd as (_ & Hdisj & _).
  split; [|split; [|apply dlseg_nil]].
  - eapply dlseg_frame; [|done]. intros a Ha. rewrite links_insert.
    case_decide; [|done]. subst. exfalso. eapply Hdisj; [done|left].
  - rewrite links_insert. rewrite decide_True by done. simpl.
    rewrite (links_lookup _ _ _ Hx) in Hlx. injection Hlx as Hp _. by rewrite Hp.
Qed.

Lemma dlseg_set_head_prev h p y l ey q p' :
  NoDup (y :: l) → h !! y = Some ey →
  dlseg h p (y :: l) q → dlseg (<[y:=with_prev ey p']> h) p' (y :: l) q.
Proof.
  intros Hnd Hy. rewrite !dlseg_cons. intros [Hly Hl].
  apply NoDup_cons in Hnd as [Hnin _].
  split.
  - rewrite links_insert. rewrite decide_True by done. simpl.
    rewrite (links_lookup _ _ _ Hy) in Hly. injection Hly as _ Hn. by rewrite Hn.
  - eapply dlseg_frame; [|done]. intros a Ha. rewrite links_insert.
    case_decide; [|done]. by subst.
Qed.

Lemma same_data_refl h : same_data h h.
Proof. by intros b. Qed.

Lemma same_data_trans h1 h2 h3 : same_data h1 h2 → same_data h2 h3 → same_data h1 h3.
Proof. intros H12 H23 b. destruct (H12 b), (H23 b). split; congruence. Qed.

Lemma same_data_insert h a e e' :
  h !! a = Some e → e_key e' = e_key e → e_value e' = e_value e →
  e_cache_idx e' = e_cache_idx e → same_data h (<[a:=e']> h).
Proof.
  intros Ha Hk Hv Hi b. rewrite node_kv_insert, node_idx_insert.
  case_decide; [subst b|done]. unfold node_kv, node_idx. rewrite Ha. simpl.
  by rewrite Hk, Hv, Hi.
Qed.

Lemma same_data_lookup h h' a : same_data h h' → is_Some (h !! a) → is_Some (h' !! a).
Proof.
  intros Hsd [e He]. destruct (Hsd a) as [Hkv _]. unfold node_kv in Hkv.
  rewrite He in Hkv. destruct (h' !! a); [eauto|done].
Qed.

Lemma NoDup_middle {A} (l1 : list A) a l2 :
  NoDup (l1 ++ a :: l2) →
  NoDup l1 ∧ NoDup l2 ∧ (a ∉ l1) ∧ (a ∉ l2) ∧ (∀ x, x ∈ l1 → x ∉ l2) ∧ NoDup (l1 ++ l2).
Proof.
  rewrite !NoDup_app, NoDup_cons. intros (H1 & Hd & Hal2 & H2).
  repeat split; auto.
  - intros Hin. apply (Hd a Hin). left.
  - intros x Hx Hx2. apply (Hd x Hx). by right.
  - intros x Hx Hx2. apply (Hd x Hx). by right.
Qed.

Lemma head_drop_middle {A} (l1 : list A) a l2 :
  l1 ≠ [] → head (l1 ++ a :: l2) = head (l1 ++ l2).
Proof. by destruct l1. Qed.

Lemma last_drop_middle {A} (l1 : list A) a l2 :
  l2 ≠ [] → last (l1 ++ a :: l2) = last (l1 ++ l2).
Proof.
  intros Hne. rewrite !last_app. destruct l2 as [|y l2]; [done|].
  by rewrite last_cons_cons.
Qed.

(* unlink takes the entry a out of the list l1 ++ a :: l2 *)
Lemma unlink_spec s l1 a l2 :
  NoDup (l1 ++ a :: l2) →
  dlseg (heap s) None (l1 ++ a :: l2) None →
  dd_head (self s) = head (l1 ++ a :: l2) →
  dd_tail (self s) = last (l1 ++ a :: l2) →
  ∃ s', unlink a s = Done tt s' ∧
    same_pool s s' ∧ same_index s s' ∧ same_data (heap s) (heap s') ∧
    dd_head (self s') = head (l1 ++ l2) ∧
    dd_tail (self s') = last (l1 ++ l2) ∧
    dlseg (heap s') None (l1 ++ l2) None ∧
    (∀ b, b ∉ l1 ++ l2 → links (heap s') b = links (heap s) b).
Proof.
  intros Hnd Hseg Hhd Htl.
  pose proof (dlseg_middle _ _ _ _ _ _ Hseg) as Ha.
  apply links_Some in Ha as (e & He & Hprev & Hnext). simpl in Hprev, Hnext.
  rewrite last_ptr_None in Hprev. rewrite hd_ptr_None in Hnext.
  apply dlseg_app in Hseg as [Hseg1 [_ Hseg2]%dlseg_cons]. simpl in Hseg1.
  unfold unlink. msimpl. rewrite (load_run _ _ _ He). rewrite Hprev.
  destruct (NoDup_middle _ _ _ Hnd) as (Hnd1 & Hnd2 & Hal1 & Hal2 & Hdisj & _).
  destruct (last l1) as [x|] eqn:Hl1.
  - (* a has a predecessor x *)
    apply last_Some in Hl1. destruct Hl1 as [l1' ->].
    assert (is_Some (heap s !! x)) as [ex Hex]
      by (eapply dlseg_in; [exact Hseg1 | set_solver]).
    assert (x ≠ a) as Hxa by set_solver.
    assert (x ∉ l2) as Hxl2 by (apply Hdisj; set_solver).
    rewrite (set_next_run _ _ _ _ Hex). simpl.
    rewrite (load_run _ _ e) by (simpl; by rewrite lookup_insert_ne).
    rewrite Hnext.
    pose proof (dlseg_set_last_next _ _ _ _ _ _ (head l2) Hnd1 Hex Hseg1) as Hseg1'.
    destruct l2 as [|y l2]; simpl.
    + eexists. split; [done|]. simpl. split_and!; try done.
      * by apply (same_data_insert _ _ ex).
      * rewrite Hhd. apply head_drop_middle. by destruct l1'.
      * by rewrite Hprev, app_nil_r, last_snoc.
      * by rewrite app_nil_r.
      * intros b Hb. rewrite links_insert. case_decide; [|done]. set_solver.
    + assert (is_Some (heap s !! y)) as [ey Hey]
        by (eapply (dlseg_in _ _ _ _ y); [exact Hseg2 | left]).
      assert (y ≠ x) as Hyx by set_solver.
      assert (y ∉ l1') as Hyl1.
      { intros Hin. eapply (Hdisj y); set_solver. }
      rewrite (set_prev_run _ _ ey) by (simpl; by rewrite lookup_insert_ne).
      simpl. rewrite Hprev. eexists. split; [done|]. simpl. split_and!; try done.
      * apply (same_data_trans _ (<[x:=with_next ex (Some y)]> (heap s)));
          [by apply (same_data_insert _ x ex)|].
        apply (same_data_insert _ y ey); [by rewrite lookup_insert_ne|done..].
      * rewrite Hhd. apply head_drop_middle. by destruct l1'.
      * rewrite Htl. by apply last_drop_middle.
      * apply dlseg_app. split.
        -- eapply dlseg_frame; [|exact Hseg1']. intros b Hb. rewrite links_insert.
           case_decide; [subst b|done].
           apply elem_of_app in Hb as [Hb|Hb%list_elem_of_singleton]; done.
        -- rewrite last_ptr_snoc.
           apply (dlseg_set_head_prev _ (Some a)); [done|by rewrite lookup_insert_ne|].
           eapply dlseg_frame; [|exact Hseg2]. intros b Hb. rewrite links_insert.
           case_decide; [subst b|done]. set_solver.
      * intros b Hb. rewrite !links_insert. repeat case_decide; subst;
          try done; exfalso; apply Hb; rewrite !elem_of_app, !elem_of_cons; tauto.
  - (* a is the head *)
    apply last_None in Hl1. subst l1. simpl in *.
    rewrite (load_run _ _ e) by done. rewrite Hnext.
    destruct l2 as [|y l2]; simpl.
    + eexists. split; [done|]. simpl. by split_and!.
    + assert (is_Some (heap s !! y)) as [ey Hey]
        by (eapply (dlseg_in _ _ _ _ y); [exact Hseg2 | left]).
      rewrite (set_prev_run _ _ ey) by done.
      simpl. rewrite Hprev. eexists. split; [done|]. simpl. split_and!; try done.
      * by apply (same_data_insert _ _ ey).
      * by apply (dlseg_set_head_prev _ (Some a)).
      * intros b Hb. rewrite links_insert. case_decide; [|done]. set_solver.
Qed.

Global Arguments unlink : simpl never.
Global Arguments unlink_head : simpl never.
Global Arguments unlink_tail : simpl never.
Global Arguments entry_free : simpl never.
Global Arguments entry_alloc : simpl never.
Global Arguments discard_entry : simpl never.
Global Arguments link_tail : simpl never.
Global Arguments link_head : simpl never.
Global Arguments register_entry : simpl never.

Lemma unlink_head_eq s a e :
  heap s !! a = Some e → e_prev e = None → unlink_head a s = unlink a s.
Proof.
  intros He Hp. unfold unlink_head, unlink. msimpl.
  rewrite (load_run _ _ _ He), Hp. simpl.
  rewrite (load_run _ _ e) by done. rewrite Hp. by destruct (e_next e).
Qed.

Lemma set_next_fault s a n : heap s !! a = None → set_next a n s = Fault.
Proof. intros Ha. unfold set_next, load. msimpl. by rewrite Ha. Qed.

Lemma unlink_tail_eq s a e :
  heap s !! a = Some e → e_next e = None → unlink_tail a s = unlink a s.
Proof.
  intros He Hn. unfold unlink_tail, unlink. msimpl.
  rewrite (load_run _ _ _ He), Hn. simpl.
  destruct (e_prev e) as [p|] eqn:Hp; simpl.
  - destruct (heap s !! p) as [ep|] eqn:Hep.
    + rewrite (set_next_run _ _ ep) by done.
      rewrite (set_next_run _ _ ep) by done. simpl.
      destruct (decide (p = a)) as [->|Hne].
      * assert (ep = e) as -> by congruence.
        rewrite (load_run _ _ (with_next e None)) by (simpl; apply lookup_insert_eq).
        simpl. by rewrite Hp.
      * rewrite (load_run _ _ e) by (simpl; by rewrite lookup_insert_ne).
        by rewrite Hn, Hp.
    + rewrite set_next_fault by done. by rewrite set_next_fault by done.
  - rewrite (load_run _ _ e) by done. by rewrite Hn, Hp.
Qed.

Lemma entry_free_run s a e :
  heap s !! a = Some e →
  entry_free a s
  = Done tt (if freelist_size s <? FREELIST_MAX
             then mkState (<[a:=with_next e (freelist s)]> (heap s)) (Some a)
                          (freelist_size s + 1) (self s)
             else mkState (delete a (heap s)) (freelist s) (freelist_size s) (self s)).
Proof.
  intros He. unfold entry_free. msimpl.
  destruct (freelist_size s <? FREELIST_MAX).
  - by rewrite (set_next_run _ _ _ _ He).
  - by rewrite He.
Qed.

(* Handing an entry that is in neither list back to the pool. *)
Lemma entry_free_spec s a e fl :
  heap s !! a = Some e → a ∉ fl → NoDup fl →
  free_chain (heap s) fl → freelist s = head fl → freelist_size s = Z.of_nat (length fl) →
  ∃ s' fl', entry_free a s = Done tt s' ∧ self s' = self s ∧
    (∀ b, b ≠ a → heap s' !! b = heap s !! b) ∧
    free_chain (heap s') fl' ∧ freelist s' = head fl' ∧
    freelist_size s' = Z.of_nat (length fl') ∧ NoDup fl' ∧ fl' ⊆ a :: fl.
Proof.
  intros He Hnin Hnd Hfc Hfl Hsz. rewrite (entry_free_run _ _ _ He).
  destruct (freelist_size s <? FREELIST_MAX).
  - eexists _, (a :: fl). split; [done|]. simpl. split_and!; try done.
    + intros b Hb. by rewrite lookup_insert_ne.
    + apply free_chain_cons. split.
      * rewrite links_insert, decide_True by done. simpl. by rewrite Hfl.
      * eapply free_chain_frame; [|done]. intros b Hb. rewrite links_insert.
        case_decide; [by subst|done].
    + rewrite Hsz. lia.
    + by apply NoDup_cons.
  - eexists _, fl. split; [done|]. simpl. split_and!; try done.
    + intros b Hb. by rewrite lookup_delete_ne.
    + eapply free_chain_frame; [|done]. intros b Hb. unfold links.
      rewrite lookup_delete_ne; [done|]. by intros ->.
    + set_solver.
Qed.

Lemma dict_inv_lookup s ls k a :
  dict_inv s ls → dd_dict (self s) !! k = Some a → a ∈ ls ∧ node_key (heap s) a = Some k.
Proof. intros [Hm _] Hk. by apply (Hm k a). Qed.

Lemma dict_inv_elem s ls a :
  dict_inv s ls → a ∈ ls →
  ∃ e, heap s !! a = Some e ∧ dd_dict (self s) !! e_key e = Some a.
Proof.
  intros [_ Hf] Ha. rewrite Forall_forall in Hf. specialize (Hf a Ha).
  unfold node_key in Hf. destruct (heap s !! a) as [e|]; simpl in Hf; [eauto|done].
Qed.

Lemma dict_inv_intro s ls :
  (∀ k a, dd_dict (self s) !! k = Some a → a ∈ ls ∧ node_key (heap s) a = Some k) →
  (∀ a, a ∈ ls → ∃ e, heap s !! a = Some e ∧ dd_dict (self s) !! e_key e = Some a) →
  dict_inv s ls.
Proof.
  intros H1 H2. split; [exact H1|]. apply Forall_forall. intros a Ha.
  destruct (H2 a Ha) as (e & He & Hd). unfold node_key. by rewrite He.
Qed.

Lemma WFcore_lookup s ls fl a :
  WFcore s ls fl → a ∈ ls → is_Some (heap s !! a).
Proof. intros [(_ & Hseg & _) _] Ha. by eapply dlseg_in. Qed.

(* Taking the entry a out of a well-formed state: unlink, then the five
   statements of discard_entry, leave a well-formed list without a. *)
Lemma remove_spec s l1 a l2 fl :
  WFcore s (l1 ++ a :: l2) fl →
  ∃ e s1 s2 fl',
    heap s !! a = Some e ∧
    dd_dict (self s) !! e_key e = Some a ∧
    unlink a s = Done tt s1 ∧
    discard_entry a (e_key e) s1 = Done tt s2 ∧
    WFcore s2 (l1 ++ l2) fl' ∧
    index_cache (self s2) = index_cache (self s) ∧
    cache_size (self s2) = cache_size (self s) ∧
    cache_capacity (self s2) = cache_capacity (self s) ∧
    cache_offset (self s2) = cache_offset (self s) ∧
    dd_dict (self s2) = delete (e_key e) (dd_dict (self s)) ∧
    (∀ b, b ≠ a → node_kv (heap s2) b = node_kv (heap s) b ∧
                  node_idx (heap s2) b = node_idx (heap s) b).
Proof.
  intros [(Hnd & Hseg & Hhd & Htl & Hsz & Hfl & Hfc & Hfsz) Hdict].
  apply NoDup_app in Hnd as (Hndl & Hdisj & Hndf).
  destruct (NoDup_middle _ _ _ Hndl) as (_ & _ & Hal1 & Hal2 & _ & Hndl').
  assert (a ∈ l1 ++ a :: l2) as Hain by (apply elem_of_app; right; left).
  destruct (dict_inv_elem _ _ _ Hdict Hain) as (e & He & Hde).
  destruct (unlink_spec _ _ _ _ Hndl Hseg Hhd Htl)
    as (s1 & Hrun1 & [Hp1 Hp2] & (Hi1 & Hi2 & Hi3 & Hi4 & Hi5 & Hi6) & Hsd & Hhd1 & Htl1 & Hseg1 & Hlk1).
  assert (a ∉ l1 ++ l2) as Hanin by (rewrite elem_of_app; tauto).
  assert (∀ b, b ∈ l1 ++ l2 → b ∈ l1 ++ a :: l2) as Hsub.
  { intros b. rewrite !elem_of_app, elem_of_cons. tauto. }
  assert (∀ b, b ∈ fl → b ∉ l1 ++ l2) as Hfl_l.
  { intros b Hb Hb'. apply (Hdisj b); auto. }
  assert (is_Some (heap s1 !! a)) as [e1 He1] by (eapply same_data_lookup; eauto).
  assert (free_chain (heap s1) fl) as Hfc1.
  { eapply free_chain_frame; [|exact Hfc]. intros b Hb. apply Hlk1. by apply Hfl_l. }
  assert (a ∉ fl) as Hafl by (apply Hdisj, Hain).
  unfold discard_entry. msimpl.
  destruct (entry_free_spec
              (mkState (heap s1) (freelist s1) (freelist_size s1)
                 (mkObject (delete (e_key e) (dd_dict (self s1))) (dd_head (self s1))
                    (dd_tail (self s1)) (dd_size (self s1)) (index_cache (self s1))
                    (cache_size (self s1)) (cache_capacity (self s1))
                    (cache_offset (self s1)))) a e1 fl)
    as (s2 & fl' & Hrun2 & Hself2 & Hheap2 & Hfc2 & Hfl2 & Hfsz2 & Hndf2 & Hsub2);
    simpl; try done; try congruence.
  exists e, s1. eexists _, fl'. split; [done|]. split; [done|]. split; [done|].
  rewrite Hrun2. simpl. split; [done|]. rewrite Hself2. simpl.
  assert (∀ b, b ≠ a → node_kv (heap s2) b = node_kv (heap s) b ∧
                       node_idx (heap s2) b = node_idx (heap s) b) as Hdata.
  { intros b Hb. destruct (Hsd b) as [Hkv Hidx]. unfold node_kv, node_idx in *.
    rewrite Hheap2 by done. done. }
  split_and!; try done.
  - (* WFcore *)
    unfold WFcore, WFlist. simpl. split_and!; try done.
    + apply NoDup_app. split_and!; try done. intros b Hb Hb'.
      apply Hsub2 in Hb'. apply elem_of_cons in Hb' as [->|Hb']; [done|].
      by apply (Hfl_l b).
    + eapply dlseg_frame; [|exact Hseg1]. intros b Hb. unfold links.
      rewrite Hheap2; [done|]. by intros ->.
    + rewrite Hi2, Hsz. rewrite !length_app. simpl. lia.
    + apply dict_inv_intro; simpl.
      * intros k b [Hk Hlk]%lookup_delete_Some. rewrite Hi1 in Hlk.
        destruct (dict_inv_lookup _ _ _ _ Hdict Hlk) as [Hb Hkey].
        assert (b ≠ a) as Hba.
        { intros ->. unfold node_key in Hkey. rewrite He in Hkey. simpl in Hkey. congruence. }
        split.
        -- apply elem_of_app in Hb as [Hb|Hb]; [apply elem_of_app; by left|].
           apply elem_of_cons in Hb as [?|Hb]; [done|apply elem_of_app; by right].
        -- rewrite node_key_kv. destruct (Hdata b Hba) as [-> _]. by rewrite <-node_key_kv.
      * intros b Hb.
        assert (b ≠ a) as Hba by (by intros ->).
        destruct (dict_inv_elem _ _ _ Hdict (Hsub b Hb)) as (eb & Heb & Hdb).
        destruct (Hdata b Hba) as [Hkv _]. unfold node_kv in Hkv. rewrite Heb in Hkv.
        destruct (heap s2 !! b) as [eb2|]; [|done]. simpl in Hkv.
        exists eb2. split; [done|]. injection Hkv as Hk _. rewrite Hk.
        rewrite lookup_delete_ne, Hi1; [done|]. intros Hkk. rewrite Hkk in Hde. congruence.
  - by rewrite Hi1.
Qed.

Lemma cache_inv_Some s ls arr :
  index_cache (self s) = Some arr →
  cache_inv s ls ↔
    Z.of_nat (length arr) = cache_capacity (self s) ∧
    0 ≤ cache_offset (self s) ∧
    cache_offset (self s) + Z.of_nat (length ls) = cache_size (self s) ∧
    cache_size (self s) ≤ cache_capacity (self s) ∧
    ∀ i a, ls !! i = Some a →
      arr !! (Z.to_nat (cache_offset (self s)) + i)%nat = Some (Some a) ∧
      node_idx (heap s) a = Some (cache_offset (self s) + Z.of_nat i).
Proof. intros Hc. unfold cache_inv. rewrite Hc, Forall_imap_pair. done. Qed.

Lemma cache_inv_None s ls : index_cache (self s) = None → cache_inv s ls.
Proof. intros Hc. unfold cache_inv. by rewrite Hc. Qed.

Lemma content_cons h a ls e :
  h !! a = Some e → content h (a :: ls) = (e_key e, e_value e) :: content h ls.
Proof. intros He. unfold content. simpl. unfold node_kv at 1. by rewrite He. Qed.

Lemma content_ext h h' ls :
  (∀ b, b ∈ ls → node_kv h' b = node_kv h b) → content h' ls = content h ls.
Proof.
  intros Hsame. unfold content. apply list_omap_ext.
  apply Forall2_same_length_lookup. split; [done|].
  intros i x y Hx Hy. assert (x = y) as <- by congruence.
  apply Hsame. by eapply list_elem_of_lookup_2.
Qed.

Lemma content_app h l1 l2 : content h (l1 ++ l2) = content h l1 ++ content h l2.
Proof. unfold content. apply omap_app. Qed.

Lemma content_length h p ls q : dlseg h p ls q → length (content h ls) = length ls.
Proof.
  revert p. induction ls as [|a ls IH]; intros p; [done|].
  intros [Ha Hls]%dlseg_cons. apply links_Some in Ha as (e & He & _).
  rewrite (content_cons _ _ _ _ He). simpl. f_equal. eauto.
Qed.

Lemma content_lookup h p ls q i a :
  dlseg h p ls q → ls !! i = Some a → content h ls !! i = node_kv h a.
Proof.
  revert p i. induction ls as [|b ls IH]; intros p i; [done|].
  intros [Hb Hls]%dlseg_cons. apply links_Some in Hb as (e & He & _).
  rewrite (content_cons _ _ _ _ He). destruct i as [|i]; simpl.
  - intros [= ->]. unfold node_kv. by rewrite He.
  - by apply IH with (p := Some b).
Qed.

Lemma WF_head_entry s a ls fl :
  WFcore s (a :: ls) fl →
  ∃ e, heap s !! a = Some e ∧ e_prev e = None ∧ e_next e = head ls ∧
       dd_head (self s) = Some a.
Proof.
  intros [(_ & [Ha _]%dlseg_cons & Hhd & _) _].
  apply links_Some in Ha as (e & He & Hp & Hn). simpl in *.
  rewrite hd_ptr_None in Hn. eauto.
Qed.

Lemma WF_tail_entry s ls a fl :
  WFcore s (ls ++ [a]) fl →
  ∃ e, heap s !! a = Some e ∧ e_prev e = last ls ∧ e_next e = None ∧
       dd_tail (self s) = Some a.
Proof.
  intros [(_ & Hseg & _ & Htl & _) _].
  apply dlseg_middle, links_Some in Hseg as (e & He & Hp & Hn). simpl in *.
  rewrite last_ptr_None in Hp. rewrite last_snoc in Htl. eauto.
Qed.

(* popleft and popleftitem on a non-empty container *)
Lemma pop_front_core s a ls fl :
  WF s (a :: ls) fl →
  ∃ e s' fl',
    heap s !! a = Some e ∧
    (∀ A (r : A), (unlink_head a;; discard_entry a (e_key e);; cache_bump_offset;; mret r) s
                  = Done r s') ∧
    WF s' ls fl' ∧ content (heap s') ls = content (heap s) ls ∧
    (is_Some (index_cache (self s')) ↔ is_Some (index_cache (self s))).
Proof.
  intros [Hcore Hcache].
  destruct (WF_head_entry _ _ _ _ Hcore) as (e & He & Hp & Hn & Hhd).
  destruct (remove_spec s [] a ls fl Hcore)
    as (e' & s1 & s2 & fl' & He' & Hd & Hrun1 & Hrun2 & Hcore2 & Hc1 & Hc2 & Hc3 & Hc4 & Hdict & Hdata).
  assert (e' = e) as -> by congruence.
  assert (a ∉ ls) as Hals.
  { destruct Hcore as [(Hnd & _) _]. apply NoDup_app in Hnd as (Hnd & _).
    by apply NoDup_cons in Hnd as [? _]. }
  assert (content (heap s2) ls = content (heap s) ls) as Hcont.
  { apply content_ext. intros b Hb. apply Hdata. by intros ->. }
  simpl in Hcore2.
  destruct (index_cache (self s)) as [arr|] eqn:Harr.
  - exists e. eexists _, fl'. split; [done|]. split.
    { intros A r. msimpl. rewrite (unlink_head_eq _ _ _ He Hp), Hrun1, Hrun2.
      unfold cache_bump_offset. msimpl. rewrite Hc1. simpl. reflexivity. }
    simpl. split_and!; [split| |]; simpl.
    + exact Hcore2.
    + apply (cache_inv_Some _ _ _ Harr) in Hcache as (Hl & Ho & Hs & Hcp & Hslots).
      apply cache_inv_Some with (arr := arr); [done|]. simpl.
      rewrite Hc2, Hc3, Hc4. simpl in Hs. split_and!; try lia.
      intros i b Hb. destruct (Hslots (S i) b Hb) as [Hslot Hidx]. split.
      * rewrite <-Hslot. f_equal. lia.
      * destruct (Hdata b) as [_ ->]; [intros ->; apply Hals; by eapply list_elem_of_lookup_2|].
        rewrite Hidx. f_equal. lia.
    + done.
    + done.
  - exists e. eexists _, fl'. split; [done|]. split.
    { intros A r. msimpl. rewrite (unlink_head_eq _ _ _ He Hp), Hrun1, Hrun2.
      unfold cache_bump_offset. msimpl. rewrite Hc1. simpl. reflexivity. }
    split_and!; [split| |]; simpl.
    + done.
    + by apply cache_inv_None.
    + done.
    + rewrite Hc1. done.
Qed.

(* pop() without key and popitem on a non-empty container *)
Lemma pop_back_core s ls a fl :
  WF s (ls ++ [a]) fl →
  ∃ e s' fl',
    heap s !! a = Some e ∧
    (∀ A (r : A), (unlink_tail a;; discard_entry a (e_key e);; cache_pop_right;; mret r) s
                  = Done r s') ∧
    WF s' ls fl' ∧ content (heap s') ls = content (heap s) ls ∧
    (is_Some (index_cache (self s')) ↔ is_Some (index_cache (self s))).
Proof.
  intros [Hcore Hcache].
  destruct (WF_tail_entry _ _ _ _ Hcore) as (e & He & Hp & Hn & Htl).
  destruct (remove_spec s ls a [] fl Hcore)
    as (e' & s1 & s2 & fl' & He' & Hd & Hrun1 & Hrun2 & Hcore2 & Hc1 & Hc2 & Hc3 & Hc4 & Hdict & Hdata).
  assert (e' = e) as -> by congruence.
  assert (a ∉ ls) as Hals.
  { destruct Hcore as [(Hnd & _) _]. apply NoDup_app in Hnd as (Hnd & _).
    apply NoDup_app in Hnd as (_ & Hd' & _). intros Hin. apply (Hd' a Hin). left. }
  assert (content (heap s2) ls = content (heap s) ls) as Hcont.
  { apply content_ext. intros b Hb. apply Hdata. by intros ->. }
  rewrite app_nil_r in Hcore2.
  destruct (index_cache (self s)) as [arr|] eqn:Harr.
  - apply (cache_inv_Some _ _ _ Harr) in Hcache as (Hl & Ho & Hs & Hcp & Hslots).
    rewrite length_app in Hs. simpl in Hs.
    assert ((0 <? cache_size (self s2)) = true) as Hpos by (apply Z.ltb_lt; lia).
    exists e. eexists _, fl'. split; [done|]. split.
    { intros A r. msimpl. rewrite (unlink_tail_eq _ _ _ He Hn), Hrun1, Hrun2.
      unfold cache_pop_right. msimpl. rewrite Hc1. simpl. rewrite Hpos. simpl. reflexivity. }
    simpl. split_and!; [split| |]; simpl.
    + exact Hcore2.
    + apply cache_inv_Some with (arr := arr); [done|]. simpl.
      rewrite Hc2, Hc3, Hc4. split_and!; try lia.
      intros i b Hb.
      destruct (Hslots i b) as [Hslot Hidx]; [by apply lookup_app_l_Some|]. split; [done|].
      destruct (Hdata b) as [_ ->]; [intros ->; apply Hals; by eapply list_elem_of_lookup_2|].
      done.
    + done.
    + done.
  - exists e. eexists _, fl'. split; [done|]. split.
    { intros A r. msimpl. rewrite (unlink_tail_eq _ _ _ He Hn), Hrun1, Hrun2.
      unfold cache_pop_right. msimpl. rewrite Hc1. simpl. reflexivity. }
    split_and!; [split| |]; simpl.
    + done.
    + by apply cache_inv_None.
    + done.
    + rewrite Hc1. done.
Qed.

(* __delitem__ and pop(key) of a key that is present *)
Lemma remove_key_core s l1 a l2 fl :
  WF s (l1 ++ a :: l2) fl →
  ∃ e s' fl',
    heap s !! a = Some e ∧
    dd_dict (self s) !! e_key e = Some a ∧
    (unlink a;; discard_entry a (e_key e);; DequeDict_invalidate_cache) s = Done tt s' ∧
    WF s' (l1 ++ l2) fl' ∧
    content (heap s') (l1 ++ l2) = content (heap s) (l1 ++ l2) ∧
    index_cache (self s') = None ∧ cache_size (self s') = 0 ∧
    cache_capacity (self s') = 0 ∧ cache_offset (self s') = 0 ∧
    dd_dict (self s') = delete (e_key e) (dd_dict (self s)).
Proof.
  intros [Hcore Hcache].
  destruct (remove_spec s l1 a l2 fl Hcore)
    as (e & s1 & s2 & fl' & He & Hd & Hrun1 & Hrun2 & Hcore2 & Hc1 & Hc2 & Hc3 & Hc4 & Hdict & Hdata).
  assert (a ∉ l1 ++ l2) as Hals.
  { destruct Hcore as [(Hnd & _) _]. apply NoDup_app in Hnd as (Hnd & _).
    destruct (NoDup_middle _ _ _ Hnd) as (_ & _ & ? & ? & _). rewrite elem_of_app. tauto. }
  exists e. eexists _, fl'. split; [done|]. split; [done|]. split.
  { msimpl. rewrite Hrun1, Hrun2. reflexivity. }
  simpl. split; [split; [exact Hcore2 | by apply cache_inv_None]|].
  split; [|done].
  apply content_ext. intros b Hb. apply Hdata. by intros ->.
Qed.

Lemma free_chain_tail h a fl : free_chain h (a :: fl) → free_chain h fl.
Proof. by intros [_ ?]%free_chain_cons. Qed.

(* entry_alloc on a well-formed pool: a recycled or a fresh address, or
   NULL when the freelist is empty and PyMem_Malloc fails *)
Lemma entry_alloc_spec al s ls fl :
  WFlist s ls fl →
  ∃ r s1 fl1, entry_alloc al s = Done r s1 ∧ heap s1 = heap s ∧ self s1 = self s ∧
    match r with
    | None => s1 = s ∧ fl = [] ∧ entry_malloc_ok al = false
    | Some n =>
        (n ∉ ls) ∧ (n ∉ fl1) ∧ NoDup (ls ++ fl1) ∧ free_chain (heap s) fl1 ∧
        freelist s1 = head fl1 ∧ freelist_size s1 = Z.of_nat (length fl1) ∧
        (fl = [] → entry_malloc_ok al = true)
    end.
Proof.
  intros (Hnd & Hseg & Hhd & Htl & Hsz & Hfl & Hfc & Hfsz).
  unfold entry_alloc. msimpl. rewrite Hfl.
  destruct fl as [|a fl1]; simpl.
  - destruct (entry_malloc_ok al); simpl.
    + eexists _, _, []. split; [done|]. split_and!; try done.
      * intros Hin. eapply dlseg_in in Hin as Hs; [|exact Hseg].
        apply elem_of_dom in Hs. by apply is_fresh in Hs.
      * apply not_elem_of_nil.
    + eexists _, _, []. split; [done|]. by split_and!.
  - apply free_chain_cons in Hfc as Hfc'. destruct Hfc' as [Ha Hfc1].
    unfold links in Ha. destruct (heap s !! a) as [e|] eqn:He; [|done].
    simpl in Ha. injection Ha as Hnext.
    rewrite (load_run _ _ _ He). simpl.
    eexists _, _, fl1. split; [done|]. simpl. split_and!; try done.
    + intros Hin. apply NoDup_app in Hnd as (_ & Hd & _). apply (Hd a Hin). left.
    + apply NoDup_app in Hnd as (_ & _ & Hf). by apply NoDup_cons in Hf as [? _].
    + apply NoDup_app in Hnd as (Hl & Hd & Hf). apply NoDup_app. split_and!; try done.
      * intros b Hb Hb'. apply (Hd b Hb). by right.
      * by apply NoDup_cons in Hf as [_ ?].
    + simpl in Hfsz. lia.
Qed.

(* Linking an entry whose own fields are set at the tail. *)
Lemma link_tail_spec s ls n en :
  NoDup ls → n ∉ ls →
  dlseg (heap s) None ls None →
  dd_head (self s) = head ls → dd_tail (self s) = last ls →
  heap s !! n = Some en → e_prev en = last ls → e_next en = None →
  ∃ s', link_tail n s = Done tt s' ∧
    same_pool s s' ∧ same_index s s' ∧ same_data (heap s) (heap s') ∧
    dd_head (self s') = head (ls ++ [n]) ∧
    dd_tail (self s') = last (ls ++ [n]) ∧
    dlseg (heap s') None (ls ++ [n]) None ∧
    (∀ b, b ∉ ls → links (heap s') b = links (heap s) b).
Proof.
  intros Hnd Hn Hseg Hhd Htl Hen Hp Hnx.
  unfold link_tail. msimpl. rewrite Htl.
  destruct (last ls) as [x|] eqn:Hl.
  - apply last_Some in Hl. destruct Hl as [l' ->].
    assert (is_Some (heap s !! x)) as [ex Hex]
      by (eapply dlseg_in; [exact Hseg | apply elem_of_app; right; left]).
    assert (x ≠ n) as Hxn by (intros ->; apply Hn, elem_of_app; right; left).
    rewrite (set_next_run _ _ ex) by done. simpl.
    eexists. split; [done|]. simpl. split_and!; try done.
    + by apply (same_data_insert _ x ex).
    + rewrite Hhd. by destruct l'.
    + by rewrite last_snoc.
    + apply dlseg_app. split.
      * by apply (dlseg_set_last_next _ _ _ _ _ None).
      * rewrite last_ptr_snoc. apply dlseg_cons. split; [|apply dlseg_nil].
        rewrite links_insert, decide_False by done.
        by rewrite (links_lookup _ _ _ Hen), Hp, Hnx.
    + intros b Hb. rewrite links_insert. case_decide; [|done]. subst b.
      exfalso. apply Hb, elem_of_app. right. left.
  - apply last_None in Hl. subst ls. simpl.
    eexists. split; [done|]. simpl. split_and!; try done.
    apply dlseg_cons. split; [|apply dlseg_nil].
    by rewrite (links_lookup _ _ _ Hen), Hp, Hnx.
Qed.

(* Linking an entry whose own fields are set at the head. *)
Lemma link_head_spec s ls n en :
  NoDup ls → n ∉ ls →
  dlseg (heap s) None ls None →
  dd_head (self s) = head ls → dd_tail (self s) = last ls →
  heap s !! n = Some en → e_prev en = None → e_next en = head ls →
  ∃ s', link_head n s = Done tt s' ∧
    same_pool s s' ∧ same_index s s' ∧ same_data (heap s) (heap s') ∧
    dd_head (self s') = head (n :: ls) ∧
    dd_tail (self s') = last (n :: ls) ∧
    dlseg (heap s') None (n :: ls) None ∧
    (∀ b, b ∉ ls → links (heap s') b = links (heap s) b).
Proof.
  intros Hnd Hn Hseg Hhd Htl Hen Hp Hnx.
  unfold link_head. msimpl. rewrite Hhd.
  destruct ls as [|y ls]; simpl.
  - eexists. split; [done|]. simpl. split_and!; try done.
    apply dlseg_cons. split; [|apply dlseg_nil].
    by rewrite (links_lookup _ _ _ Hen), Hp, Hnx.
  - assert (is_Some (heap s !! y)) as [ey Hey]
      by (eapply dlseg_in; [exact Hseg | left]).
    assert (y ≠ n) as Hyn by (intros ->; apply Hn; left).
    rewrite (set_prev_run _ _ ey) by done. simpl.
    eexists. split; [done|]. simpl. split_and!; try done.
    + by apply (same_data_insert _ y ey).
    + apply dlseg_cons. split.
      * rewrite links_insert, decide_False by done.
        by rewrite (links_lookup _ _ _ Hen), Hp, Hnx.
      * by apply (dlseg_set_head_prev _ None).
    + intros b Hb. rewrite links_insert. case_decide; [|done]. subst b.
      exfalso. apply Hb. left.
Qed.

Global Arguments cache_append : simpl never.
Global Arguments DequeDict_cache_ensure_capacity : simpl never.

Lemma same_shape_refl h : same_shape h h.
Proof. by intros b. Qed.

Lemma same_shape_idx h a e i :
  h !! a = Some e → same_shape h (<[a:=with_cache_idx e i]> h).
Proof.
  intros He b. rewrite links_insert, node_kv_insert. case_decide; [subst b|done].
  unfold links, node_kv. by rewrite He.
Qed.

Lemma ensure_capacity_run al s :
  DequeDict_cache_ensure_capacity al s =
  let o := self s in
  if cache_size o <? cache_capacity o then Done 0 s
  else
    let new_cap := if cache_capacity o * 2 <? 8 then 8 else cache_capacity o * 2 in
    if cache_realloc_ok al then
      Done 0 (mkState (heap s) (freelist s) (freelist_size s)
                (mkObject (dd_dict o) (dd_head o) (dd_tail o) (dd_size o)
                   (Some (resize (Z.to_nat new_cap) None (default [] (index_cache o))))
                   (cache_size o) new_cap (cache_offset o)))
    else
      Done (-1) (mkState (heap s) (freelist s) (freelist_size s)
                   (mkObject (dd_dict o) (dd_head o) (dd_tail o) (dd_size o) None 0 0 0)).
Proof.
  unfold DequeDict_cache_ensure_capacity. msimpl.
  destruct (cache_size (self s) <? cache_capacity (self s)); [done|].
  by destruct (cache_realloc_ok al).
Qed.

(* The cache after the new tail entry n was appended to the list ls. *)
Lemma cache_append_spec al s ls n en :
  cache_inv s ls → n ∉ ls → heap s !! n = Some en →
  ∃ s', cache_append al n s = Done tt s' ∧
    cache_inv s' (ls ++ [n]) ∧ same_pool s s' ∧ same_list s s' ∧
    same_shape (heap s) (heap s') ∧
    (∀ b, b ≠ n → node_idx (heap s') b = node_idx (heap s) b) ∧
    match index_cache (self s) with
    | None => s' = s
    | Some _ =>
        if cache_size (self s) <? cache_capacity (self s) then
          is_Some (index_cache (self s')) ∧
          cache_capacity (self s') = cache_capacity (self s) ∧
          cache_size (self s') = cache_size (self s) + 1 ∧
          cache_offset (self s') = cache_offset (self s)
        else if cache_realloc_ok al then
          is_Some (index_cache (self s')) ∧
          cache_capacity (self s') = Z.max 8 (cache_capacity (self s) * 2) ∧
          cache_size (self s') = cache_size (self s) + 1 ∧
          cache_offset (self s') = cache_offset (self s)
        else
          index_cache (self s') = None ∧ cache_capacity (self s') = 0 ∧
          cache_size (self s') = 0 ∧ cache_offset (self s') = 0
    end.
Proof.
  intros Hcache Hn Hen. unfold cache_append. msimpl.
  destruct (index_cache (self s)) as [arr|] eqn:Harr.
  2:{ exists s. split; [done|]. split_and!; try done. by apply cache_inv_None. }
  apply (cache_inv_Some _ _ _ Harr) in Hcache as (Hl & Ho & Hs & Hcp & Hslots).
  rewrite ensure_capacity_run. simpl.
  (* the common part: appending into an array arr' with room *)
  assert (∀ arr' cap',
    Z.of_nat (length arr') = cap' → cache_size (self s) < cap' →
    (∀ i, (i < length arr)%nat → arr' !! i = arr !! i) →
    ∃ s',
      (set_cache_idx n (cache_size (self s));;
       cache_store (cache_size (self s)) (Some n);;
       o ← get_self;
       set_cache (index_cache o) (cache_size o + 1) (cache_capacity o) (cache_offset o))
        (mkState (heap s) (freelist s) (freelist_size s)
           (mkObject (dd_dict (self s)) (dd_head (self s)) (dd_tail (self s))
              (dd_size (self s)) (Some arr') (cache_size (self s)) cap'
              (cache_offset (self s)))) = Done tt s' ∧
      cache_inv s' (ls ++ [n]) ∧ same_pool s s' ∧ same_list s s' ∧
      same_shape (heap s) (heap s') ∧
      (∀ b, b ≠ n → node_idx (heap s') b = node_idx (heap s) b) ∧
      is_Some (index_cache (self s')) ∧ cache_capacity (self s') = cap' ∧
      cache_size (self s') = cache_size (self s) + 1 ∧
      cache_offset (self s') = cache_offset (self s)) as Happend.
  { intros arr' cap' Hlen' Hroom Hold. msimpl.
    rewrite (set_cache_idx_run _ _ en) by done. simpl.
    unfold cache_store. msimpl.
    assert ((0 <=? cache_size (self s)) && (cache_size (self s) <? Z.of_nat (length arr')) = true)
      as -> by (apply andb_true_iff; split; [apply Z.leb_le|apply Z.ltb_lt]; lia).
    simpl. eexists. split; [done|]. simpl. split_and!; try done.
    - eapply cache_inv_Some; [done|]. simpl. rewrite length_insert, length_app. simpl.
      split_and!; try lia.
      intros i b Hb. apply lookup_app_Some in Hb as [Hb|[Hge Hb]].
      + destruct (Hslots i b Hb) as [Hslot Hidx].
        assert (i < length ls)%nat by (by eapply lookup_lt_Some).
        assert (b ≠ n) by (intros ->; apply Hn; by eapply list_elem_of_lookup_2).
        split.
        * rewrite list_lookup_insert_ne by lia. rewrite Hold; [done|].
          eapply lookup_lt_Some. exact Hslot.
        * by rewrite node_idx_insert, decide_False.
      + apply list_lookup_singleton_Some in Hb as [Hi ->].
        assert (i = length ls) as -> by lia. split.
        * replace (Z.to_nat (cache_offset (self s)) + length ls)%nat
            with (Z.to_nat (cache_size (self s))) by lia.
          apply list_lookup_insert_eq. lia.
        * rewrite node_idx_insert, decide_True by done. simpl. f_equal. lia.
    - by apply same_shape_idx.
    - intros b Hb. by rewrite node_idx_insert, decide_False. }
  destruct (cache_size (self s) <? cache_capacity (self s)) eqn:Hroom; simpl.
  - rewrite Harr. simpl. apply Z.ltb_lt in Hroom.
    destruct (Happend arr (cache_capacity (self s)))
      as (s' & Hrun & H1 & H2 & H3 & H4 & H5 & H6 & H7 & H8 & H9); [done..|].
    unfold mbind, M_bind in Hrun. exists s'. split; [|by split_and!].
    clear -Hrun Harr. destruct s as [h f fs [d hd tl sz ic cs cc co]].
    simpl in *. by subst ic.
  - apply Z.ltb_ge in Hroom.
    destruct (cache_realloc_ok al); simpl.
    + set (new_cap := if cache_capacity (self s) * 2 <? 8 then 8 else cache_capacity (self s) * 2).
      assert (new_cap = Z.max 8 (cache_capacity (self s) * 2)) as Hnc.
      { unfold new_cap. destruct (Z.ltb_spec (cache_capacity (self s) * 2) 8); lia. }
      destruct (Happend (resize (Z.to_nat new_cap) None arr) new_cap)
        as (s' & Hrun & H1 & H2 & H3 & H4 & H5 & H6 & H7 & H8 & H9).
      * rewrite length_resize. lia.
      * lia.
      * intros i Hi. apply lookup_resize; lia.
      * unfold mbind, M_bind in Hrun. exists s'. rewrite Harr. split; [exact Hrun|].
        rewrite <-Hnc. by split_and!.
    + eexists. split; [done|]. simpl. by split_and!.
Qed.

Lemma content_snoc h ls a e :
  h !! a = Some e → content h (ls ++ [a]) = content h ls ++ [(e_key e, e_value e)].
Proof. intros He. by rewrite content_app, (content_cons _ _ _ _ He). Qed.

Lemma WFlist_lookup s ls fl a : WFlist s ls fl → a ∈ ls → is_Some (heap s !! a).
Proof. intros (_ & Hseg & _) Ha. by eapply dlseg_in. Qed.

(* The list part of both insertions at the tail: allocation, the five
   field assignments, linking, size++.  On success the new entry n is the
   last of a well-formed list; the key index does not know it yet. *)
Lemma insert_tail_spec al s ls fl key value :
  WF s ls fl →
  ∃ r s1 fl1, entry_alloc al s = Done r s1 ∧
    match r with
    | None => s1 = s ∧ fl = [] ∧ entry_malloc_ok al = false
    | Some n =>
        (fl = [] → entry_malloc_ok al = true) ∧
        ∃ s2 s2',
          link_tail n (mkState (<[n:=mkEntry key value (dd_tail (self s)) None (-1)]> (heap s1))
                         (freelist s1) (freelist_size s1) (self s1)) = Done tt s2 ∧
          s2' = mkState (heap s2) (freelist s2) (freelist_size s2)
                  (mkObject (dd_dict (self s2)) (dd_head (self s2))
                     (dd_tail (self s2)) (dd_size (self s2) + 1)
                     (index_cache (self s2)) (cache_size (self s2))
                     (cache_capacity (self s2)) (cache_offset (self s2))) ∧
          (n ∉ ls) ∧ WFlist s2' (ls ++ [n]) fl1 ∧ cache_inv s2' ls ∧
          dd_dict (self s2) = dd_dict (self s) ∧
          index_cache (self s2) = index_cache (self s) ∧
          cache_size (self s2) = cache_size (self s) ∧
          cache_capacity (self s2) = cache_capacity (self s) ∧
          cache_offset (self s2) = cache_offset (self s) ∧
          node_kv (heap s2) n = Some (key, value) ∧
          (∀ b, b ≠ n → node_kv (heap s2) b = node_kv (heap s) b)
    end.
Proof.
  intros [[Hlist Hdict] Hcache].
  destruct (entry_alloc_spec al s ls fl Hlist) as (r & s1 & fl1 & Hrun & Hh1 & Hs1 & Hr).
  exists r, s1, fl1. split; [done|]. destruct r as [n|]; [|done].
  destruct Hr as (Hnls & Hnfl & Hnd & Hfc & Hfl1 & Hfsz1 & Hmalloc).
  split; [done|].
  destruct Hlist as (_ & Hseg & Hhd & Htl & Hsz & _).
  set (e0 := mkEntry key value (dd_tail (self s)) None (-1)).
  apply NoDup_app in Hnd as Hnd'. destruct Hnd' as (Hndl & Hdisj & Hndf).
  assert (dlseg (<[n:=e0]> (heap s)) None ls None) as Hseg0.
  { eapply dlseg_frame; [|exact Hseg]. intros b Hb. rewrite links_insert.
    case_decide; [by subst|done]. }
  destruct (link_tail_spec
              (mkState (<[n:=e0]> (heap s1)) (freelist s1) (freelist_size s1) (self s1))
              ls n e0)
    as (s2 & Hrun2 & [Hp1 Hp2] & (Hi1 & Hi2 & Hi3 & Hi4 & Hi5 & Hi6) & Hsd & Hhd2 & Htl2 & Hseg2 & Hlk2);
    simpl; rewrite ?Hh1, ?Hs1; try done.
  { apply lookup_insert_eq. }
  simpl in *. rewrite Hs1 in *. rewrite Hh1 in *.
  eexists s2, _. split; [done|]. split; [done|].
  assert (∀ b, b ≠ n → node_kv (heap s2) b = node_kv (heap s) b ∧
                       node_idx (heap s2) b = node_idx (heap s) b) as Hdata.
  { intros b Hb. destruct (Hsd b) as [-> ->].
    by rewrite node_kv_insert, node_idx_insert, !decide_False. }
  split_and!; try done.
  - unfold WFlist. simpl. split_and!; try done.
    + rewrite <-(assoc_L app). apply NoDup_app. split_and!; try done.
      * intros b Hb [->|Hb']%elem_of_cons; [done|]. by apply (Hdisj b).
      * by apply NoDup_cons.
    + rewrite Hi2, Hsz, length_app. simpl. lia.
    + congruence.
    + eapply free_chain_frame; [|exact Hfc]. intros b Hb.
      rewrite Hlk2 by (intros Hb'; by apply (Hdisj b)).
      rewrite links_insert, decide_False; [done|]. by intros ->.
    + congruence.
  - destruct (index_cache (self s)) as [arr|] eqn:Harr; [|apply cache_inv_None; simpl; congruence].
    apply (cache_inv_Some _ _ _ Harr) in Hcache as (Hl & Ho & Hs & Hcp & Hslots).
    apply cache_inv_Some with (arr := arr); [simpl; congruence|]. simpl.
    rewrite Hi4, Hi5, Hi6. split_and!; try done.
    intros i b Hb. destruct (Hslots i b Hb) as [Hslot Hidx]. split; [done|].
    destruct (Hdata b) as [_ ->]; [|done]. intros ->. apply Hnls.
    by eapply list_elem_of_lookup_2.
  - destruct (Hsd n) as [-> _]. by rewrite node_kv_insert, decide_True.
  - intros b Hb. by apply Hdata.
Qed.

Lemma register_entry_run al s key n :
  capsule_ok al = true → dict_setitem_ok al = true →
  register_entry al key n s =
  Done tt (mkState (heap s) (freelist s) (freelist_size s)
             (mkObject (<[key:=n]> (dd_dict (self s))) (dd_head (self s))
                (dd_tail (self s)) (dd_size (self s)) (index_cache (self s))
                (cache_size (self s)) (cache_capacity (self s)) (cache_offset (self s)))).
Proof. intros Hc Hd. unfold register_entry. by rewrite Hc, Hd. Qed.

(* Entering a new entry in the key index completes the invariant. *)
Lemma dict_inv_register s s' ls n key :
  dict_inv s ls → dd_dict (self s) !! key = None → n ∉ ls →
  (∀ b, b ≠ n → node_kv (heap s') b = node_kv (heap s) b) →
  fst <$> node_kv (heap s') n = Some key →
  dd_dict (self s') = <[key:=n]> (dd_dict (self s)) →
  dict_inv s' (ls ++ [n]).
Proof.
  intros Hdict Hnone Hn Hdata Hkey Hd. apply dict_inv_intro; rewrite Hd.
  - intros k a. rewrite lookup_insert. case_decide.
    + intros [= <-]. subst k. split; [apply elem_of_app; right; left|].
      by rewrite node_key_kv.
    + intros Hk. destruct (dict_inv_lookup _ _ _ _ Hdict Hk) as [Ha Hka].
      split; [apply elem_of_app; by left|].
      rewrite node_key_kv, Hdata, <-node_key_kv; [done|]. by intros ->.
  - intros a [Ha|Ha%list_elem_of_singleton]%elem_of_app.
    + destruct (dict_inv_elem _ _ _ Hdict Ha) as (e & He & Hde).
      assert (a ≠ n) as Han by (by intros ->).
      pose proof (Hdata a Han) as Hkv. unfold node_kv in Hkv. rewrite He in Hkv.
      destruct (heap s' !! a) as [e'|]; [|done]. simpl in Hkv.
      exists e'. split; [done|]. injection Hkv as Hk _. rewrite Hk.
      rewrite lookup_insert_ne; [done|]. intros Hke. rewrite <-Hke in Hde. congruence.
    + subst a. unfold node_kv in Hkey. destruct (heap s' !! n) as [e'|]; [|done].
      simpl in Hkey. exists e'. split; [done|]. injection Hkey as ->.
      apply lookup_insert_eq.
Qed.

Lemma WFlist_frame s s' ls fl :
  WFlist s ls fl → (∀ b, links (heap s') b = links (heap s) b) →
  same_pool s s' →
  dd_head (self s') = dd_head (self s) → dd_tail (self s') = dd_tail (self s) →
  dd_size (self s') = dd_size (self s) →
  WFlist s' ls fl.
Proof.
  intros (Hnd & Hseg & Hhd & Htl & Hsz & Hfl & Hfc & Hfsz) Hsh [Hp1 Hp2] Hl2 Hl3 Hl4.
  unfold WFlist. split_and!; try congruence.
  - eapply dlseg_frame; [|exact Hseg]. intros b _. apply Hsh.
  - eapply free_chain_frame; [|exact Hfc]. intros b _. apply Hsh.
Qed.

Lemma dict_inv_frame s s' ls :
  dict_inv s ls → (∀ b, node_key (heap s') b = node_key (heap s) b) →
  dd_dict (self s') = dd_dict (self s) → dict_inv s' ls.
Proof.
  intros Hdict Hkeys Hd. apply dict_inv_intro; rewrite Hd.
  - intros k a Hk. rewrite Hkeys. by eapply dict_inv_lookup.
  - intros a Ha. destruct (dict_inv_elem _ _ _ Hdict Ha) as (e & He & Hde).
    pose proof (Hkeys a) as Hka. unfold node_key in Hka. rewrite He in Hka.
    destruct (heap s' !! a) as [e'|]; [|done]. simpl in Hka. injection Hka as Hka.
    exists e'. split; [done|]. by rewrite Hka.
Qed.

Lemma cache_inv_frame s s' ls :
  cache_inv s ls → (∀ b, b ∈ ls → node_idx (heap s') b = node_idx (heap s) b) →
  index_cache (self s') = index_cache (self s) →
  cache_size (self s') = cache_size (self s) →
  cache_capacity (self s') = cache_capacity (self s) →
  cache_offset (self s') = cache_offset (self s) →
  cache_inv s' ls.
Proof.
  intros Hcache Hidx H1 H2 H3 H4.
  destruct (index_cache (self s)) as [arr|] eqn:Harr; [|apply cache_inv_None; congruence].
  apply (cache_inv_Some _ _ _ Harr) in Hcache as (Hl & Ho & Hs & Hcp & Hslots).
  apply cache_inv_Some with (arr := arr); [congruence|].
  rewrite H2, H3, H4. split_and!; try done.
  intros i b Hb. destruct (Hslots i b Hb) as [Hslot Hi]. split; [done|].
  rewrite Hidx; [done|]. by eapply list_elem_of_lookup_2.
Qed.

(* d[key] = value for a key that is present *)
Lemma setitem_update_spec al s ls fl key value a :
  WF s ls fl → dd_dict (self s) !! key = Some a →
  ∃ e, heap s !! a = Some e ∧ e_key e = key ∧ a ∈ ls ∧
    DequeDict_setitem al key (Some value) s
    = Done tt (mkState (<[a:=with_value e value]> (heap s)) (freelist s)
                 (freelist_size s) (self s)) ∧
    WF (mkState (<[a:=with_value e value]> (heap s)) (freelist s)
          (freelist_size s) (self s)) ls fl.
Proof.
  intros [[Hlist Hdict] Hcache] Hk.
  destruct (dict_inv_lookup _ _ _ _ Hdict Hk) as [Ha Hkey].
  unfold node_key in Hkey. destruct (heap s !! a) as [e|] eqn:He; [|done].
  simpl in Hkey. injection Hkey as Hkey.
  exists e. split_and!; try done.
  { unfold DequeDict_setitem. msimpl. rewrite Hk.
    by rewrite (set_value_run _ _ _ _ He). }
  split; [split|].
  - eapply WFlist_frame; [exact Hlist| |done..]. simpl. intros b.
    rewrite links_insert. case_decide; [subst b|done]. unfold links. by rewrite He.
  - eapply dict_inv_frame; [exact Hdict| |done]. simpl. intros b.
    rewrite node_key_insert. case_decide; [subst b|done]. unfold node_key. by rewrite He.
  - eapply cache_inv_frame; [exact Hcache| |done..]. simpl. intros b _.
    rewrite node_idx_insert. case_decide; [subst b|done]. unfold node_idx. by rewrite He.
Qed.

(* d[key] = value for a new key, the index entry being made *)
Lemma setitem_new_spec al s ls fl key value :
  WF s ls fl → dd_dict (self s) !! key = None →
  capsule_ok al = true → dict_setitem_ok al = true →
  (fl = [] ∧ entry_malloc_ok al = false ∧
   DequeDict_setitem al key (Some value) s = Raise MemoryError s) ∨
  ((fl = [] → entry_malloc_ok al = true) ∧
   ∃ n s' fl',
    DequeDict_setitem al key (Some value) s = Done tt s' ∧
    WF s' (ls ++ [n]) fl' ∧ (n ∉ ls) ∧
    content (heap s') (ls ++ [n]) = content (heap s) ls ++ [(key, value)] ∧
    dd_dict (self s') = <[key:=n]> (dd_dict (self s)) ∧
    match index_cache (self s) with
    | None => index_cache (self s') = None
    | Some _ =>
        if cache_size (self s) <? cache_capacity (self s) then
          is_Some (index_cache (self s')) ∧
          cache_capacity (self s') = cache_capacity (self s)
        else if cache_realloc_ok al then
          is_Some (index_cache (self s')) ∧
          cache_capacity (self s') = Z.max 8 (cache_capacity (self s) * 2)
        else
          index_cache (self s') = None ∧ cache_capacity (self s') = 0 ∧
          cache_size (self s') = 0 ∧ cache_offset (self s') = 0
    end).
Proof.
  intros HWF Hk Hcap Hdset.
  destruct (insert_tail_spec al s ls fl key value HWF) as (r & s1 & fl1 & Hrun1 & Hr).
  destruct HWF as [[Hlist Hdict] Hcache].
  unfold DequeDict_setitem. msimpl. rewrite Hk, Hrun1.
  destruct r as [n|].
  2:{ left. destruct Hr as (-> & -> & Hm). by split_and!. }
  right.
  destruct Hr as (Hmalloc & s2 & s2' & Hrun2 & Hs2' & Hnls & Hlist2 & Hcache2 & Hi1 & Hi3 & Hi4 & Hi5 & Hi6 & Hkvn & Hdata).
  split; [done|].
  assert (is_Some (heap s2' !! n)) as [en Hen].
  { eapply WFlist_lookup; [exact Hlist2|]. apply elem_of_app. right. left. }
  destruct (cache_append_spec al s2' ls n en Hcache2 Hnls Hen)
    as (s3 & Hrun3 & Hcache3 & Hpool3 & Hsl3 & Hsh3 & Hidx3 & Hchar).
  rewrite Hrun2. simpl. rewrite <-Hs2', Hrun3. rewrite register_entry_run by done.
  destruct Hsl3 as (Hl1 & Hl2 & Hl3 & Hl4).
  assert (heap s2' = heap s2) as Hh2 by (by subst s2').
  assert (dd_dict (self s2') = dd_dict (self s2)) as Hd2 by (by subst s2').
  exists n. eexists _, fl1. split; [done|]. simpl. split_and!; try done.
  - split; [split|].
    + eapply WFlist_frame; [exact Hlist2|..]; simpl; try done. intros b. apply Hsh3.
    + eapply (dict_inv_register s); simpl; try done.
      * intros b Hb. destruct (Hsh3 b) as [_ ->]. rewrite Hh2. by apply Hdata.
      * destruct (Hsh3 n) as [_ ->]. by rewrite Hh2, Hkvn.
      * by rewrite Hl1, Hd2, Hi1.
    + eapply cache_inv_frame; [exact Hcache3|done..].
  - destruct (Hsh3 n) as [_ Hkv3]. rewrite Hh2, Hkvn in Hkv3. unfold node_kv in Hkv3.
    destruct (heap s3 !! n) as [e3|] eqn:He3; [|done]. simpl in Hkv3.
    rewrite (content_snoc _ _ _ _ He3). injection Hkv3 as -> ->. f_equal.
    apply content_ext. intros b Hb. destruct (Hsh3 b) as [_ ->]. rewrite Hh2. apply Hdata.
    by intros ->.
  - by rewrite Hl1, Hd2, Hi1.
  - assert (index_cache (self s2') = index_cache (self s)) as <- by (by subst s2').
    assert (cache_size (self s2') = cache_size (self s)) as <- by (by subst s2').
    assert (cache_capacity (self s2') = cache_capacity (self s)) as <- by (by subst s2').
    destruct (index_cache (self s2')) eqn:Hic; [|by rewrite Hchar].
    destruct (cache_size (self s2') <? cache_capacity (self s2')); [tauto|].
    destruct (cache_realloc_ok al); tauto.
Qed.

Lemma bind_run {A B} (m : M A) (f : A → M B) s :
  (m ≫= f) s = match m s with
               | Done a s' => f a s'
               | Raise e s' => Raise e s'
               | Fault => Fault
               end.
Proof. done. Qed.

(* popleft *)
Lemma popleft_spec s a ls fl :
  WF s (a :: ls) fl →
  ∃ e s' fl',
    heap s !! a = Some e ∧ DequeDict_popleft s = Done (e_value e) s' ∧
    WF s' ls fl' ∧ content (heap s') ls = content (heap s) ls ∧
    (is_Some (index_cache (self s')) ↔ is_Some (index_cache (self s))).
Proof.
  intros HWF. destruct (pop_front_core s a ls fl HWF) as (e & s' & fl' & He & Hrun & Hrest).
  destruct HWF as [Hcore _].
  destruct (WF_head_entry _ _ _ _ Hcore) as (e' & He' & _ & _ & Hhd).
  exists e, s', fl'. split; [done|]. split; [|done].
  unfold DequeDict_popleft. rewrite bind_run. simpl. rewrite Hhd.
  rewrite bind_run, (load_run _ _ _ He). apply Hrun.
Qed.

Lemma popleftitem_spec s a ls fl :
  WF s (a :: ls) fl →
  ∃ e s' fl',
    heap s !! a = Some e ∧ DequeDict_popleftitem s = Done (e_key e, e_value e) s' ∧
    WF s' ls fl' ∧ content (heap s') ls = content (heap s) ls ∧
    (is_Some (index_cache (self s')) ↔ is_Some (index_cache (self s))).
Proof.
  intros HWF. destruct (pop_front_core s a ls fl HWF) as (e & s' & fl' & He & Hrun & Hrest).
  destruct HWF as [Hcore _].
  destruct (WF_head_entry _ _ _ _ Hcore) as (e' & He' & _ & _ & Hhd).
  exists e, s', fl'. split; [done|]. split; [|done].
  unfold DequeDict_popleftitem. rewrite bind_run. simpl. rewrite Hhd.
  rewrite bind_run, (load_run _ _ _ He). apply Hrun.
Qed.

(* pop() without a key *)
Lemma pop_back_spec s ls a fl d :
  WF s (ls ++ [a]) fl →
  ∃ e s' fl',
    heap s !! a = Some e ∧ DequeDict_pop None d s = Done (e_value e) s' ∧
    WF s' ls fl' ∧ content (heap s') ls = content (heap s) ls ∧
    (is_Some (index_cache (self s')) ↔ is_Some (index_cache (self s))).
Proof.
  intros HWF. destruct (pop_back_core s ls a fl HWF) as (e & s' & fl' & He & Hrun & Hrest).
  destruct HWF as [Hcore _].
  destruct (WF_tail_entry _ _ _ _ Hcore) as (e' & He' & _ & _ & Htl).
  exists e, s', fl'. split; [done|]. split; [|done].
  unfold DequeDict_pop. rewrite bind_run. simpl. rewrite Htl.
  rewrite bind_run, (load_run _ _ _ He). apply Hrun.
Qed.

Lemma popitem_spec s ls a fl :
  WF s (ls ++ [a]) fl →
  ∃ e s' fl',
    heap s !! a = Some e ∧ DequeDict_popitem s = Done (e_key e, e_value e) s' ∧
    WF s' ls fl' ∧ content (heap s') ls = content (heap s) ls ∧
    (is_Some (index_cache (self s')) ↔ is_Some (index_cache (self s))).
Proof.
  intros HWF. destruct (pop_back_core s ls a fl HWF) as (e & s' & fl' & He & Hrun & Hrest).
  destruct HWF as [Hcore _].
  destruct (WF_tail_entry _ _ _ _ Hcore) as (e' & He' & _ & _ & Htl).
  exists e, s', fl'. split; [done|]. split; [|done].
  unfold DequeDict_popitem. rewrite bind_run. simpl. rewrite Htl.
  rewrite bind_run, (load_run _ _ _ He). apply Hrun.
Qed.

(* An empty well-formed container has neither head nor tail. *)
Lemma WF_empty_ends s fl : WF s [] fl → dd_head (self s) = None ∧ dd_tail (self s) = None.
Proof. by intros [[(_ & _ & ? & ? & _) _] _]. Qed.

(* The key index finds exactly the entries of the list. *)
Lemma WF_dict_split s ls fl key a :
  WF s ls fl → dd_dict (self s) !! key = Some a →
  ∃ l1 l2 e, ls = l1 ++ a :: l2 ∧ heap s !! a = Some e ∧ e_key e = key.
Proof.
  intros [[_ Hdict] _] Hk.
  destruct (dict_inv_lookup _ _ _ _ Hdict Hk) as [Ha Hkey].
  apply list_elem_of_split in Ha as (l1 & l2 & ->).
  unfold node_key in Hkey. destruct (heap s !! a) as [e|]; [|done].
  simpl in Hkey. injection Hkey as Hkey. by exists l1, l2, e.
Qed.

(* del d[key] for a key that is present *)
Lemma delitem_spec al s l1 a l2 fl key :
  WF s (l1 ++ a :: l2) fl → dd_dict (self s) !! key = Some a →
  ∃ s' fl',
    DequeDict_setitem al key None s = Done tt s' ∧
    WF s' (l1 ++ l2) fl' ∧
    content (heap s') (l1 ++ l2) = content (heap s) (l1 ++ l2) ∧
    index_cache (self s') = None.
Proof.
  intros HWF Hk.
  destruct (WF_dict_split _ _ _ _ _ HWF Hk) as (l1' & l2' & e0 & _ & He0 & Hkey).
  destruct (remove_key_core s l1 a l2 fl HWF)
    as (e & s' & fl' & He & Hd & Hrun & HWF' & Hcont & Hc & _).
  assert (e = e0) as -> by congruence. subst key.
  exists s', fl'. split; [|done].
  unfold DequeDict_setitem. rewrite bind_run. simpl. by rewrite Hk.
Qed.

(* pop(key) for a key that is present *)
Lemma pop_key_spec s l1 a l2 fl key d :
  WF s (l1 ++ a :: l2) fl → dd_dict (self s) !! key = Some a →
  ∃ e s' fl',
    heap s !! a = Some e ∧ e_key e = key ∧
    DequeDict_pop (Some key) d s = Done (e_value e) s' ∧
    WF s' (l1 ++ l2) fl' ∧
    content (heap s') (l1 ++ l2) = content (heap s) (l1 ++ l2) ∧
    index_cache (self s') = None.
Proof.
  intros HWF Hk.
  destruct (WF_dict_split _ _ _ _ _ HWF Hk) as (l1' & l2' & e0 & _ & He0 & Hkey).
  destruct (remove_key_core s l1 a l2 fl HWF)
    as (e & s' & fl' & He & Hd & Hrun & HWF' & Hcont & Hc & _).
  assert (e = e0) as -> by congruence. subst key.
  exists e0, s', fl'. split; [done|]. split; [done|]. split; [|done].
  unfold DequeDict_pop. rewrite bind_run. simpl. rewrite Hk.
  rewrite bind_run, (load_run _ _ _ He).
  unfold mbind, M_bind in Hrun |- *.
  destruct (unlink a s) as [[] s1| |]; [|done..].
  destruct (discard_entry a (e_key e0) s1) as [[] s2| |]; [|done..].
  simpl in *. by injection Hrun as <-.
Qed.

Lemma dict_inv_same_elems s ls ls' :
  (∀ a, a ∈ ls ↔ a ∈ ls') → dict_inv s ls → dict_inv s ls'.
Proof.
  intros Hel Hdict. apply dict_inv_intro.
  - intros k a Hk. destruct (dict_inv_lookup _ _ _ _ Hdict Hk) as [Ha Hkey].
    split; [by apply Hel|done].
  - intros a Ha. apply Hel in Ha. by apply dict_inv_elem with (ls := ls).
Qed.

(* appendleft of a new key, the index entry being made *)
Lemma appendleft_new_spec al s ls fl key value :
  WF s ls fl → dd_dict (self s) !! key = None →
  capsule_ok al = true → dict_setitem_ok al = true →
  (fl = [] ∧ entry_malloc_ok al = false ∧
   DequeDict_appendleft al key value s = Raise MemoryError s) ∨
  ((fl = [] → entry_malloc_ok al = true) ∧
   ∃ n s' fl',
    DequeDict_appendleft al key value s = Done tt s' ∧
    WF s' (n :: ls) fl' ∧ (n ∉ ls) ∧
    content (heap s') (n :: ls) = (key, value) :: content (heap s) ls ∧
    dd_dict (self s') = <[key:=n]> (dd_dict (self s)) ∧
    index_cache (self s') = None).
Proof.
  intros [[Hlist Hdict] Hcache] Hk Hcap Hdset.
  destruct (entry_alloc_spec al s ls fl Hlist) as (r & s1 & fl1 & Hrun & Hh1 & Hs1 & Hr).
  unfold DequeDict_appendleft. rewrite bind_run. simpl. rewrite Hk.
  rewrite bind_run, Hrun.
  destruct r as [n|].
  2:{ left. destruct Hr as (-> & -> & Hm). by split_and!. }
  right. destruct Hr as (Hnls & Hnfl & Hnd & Hfc & Hfl1 & Hfsz1 & Hmalloc).
  split; [done|].
  destruct Hlist as (_ & Hseg & Hhd & Htl & Hsz & _).
  set (e0 := mkEntry key value None (dd_head (self s)) (-1)).
  apply NoDup_app in Hnd as Hnd'. destruct Hnd' as (Hndl & Hdisj & Hndf).
  assert (dlseg (<[n:=e0]> (heap s)) None ls None) as Hseg0.
  { eapply dlseg_frame; [|exact Hseg]. intros b Hb. rewrite links_insert.
    case_decide; [by subst|done]. }
  destruct (link_head_spec
              (mkState (<[n:=e0]> (heap s1)) (freelist s1) (freelist_size s1) (self s1))
              ls n e0)
    as (s2 & Hrun2 & [Hp1 Hp2] & (Hi1 & Hi2 & Hi3 & Hi4 & Hi5 & Hi6) & Hsd & Hhd2 & Htl2 & Hseg2 & Hlk2);
    simpl; rewrite ?Hh1, ?Hs1; try done.
  { apply lookup_insert_eq. }
  simpl in *. rewrite Hs1 in *. rewrite Hh1 in *.
  unfold init_entry. msimpl. rewrite Hh1, Hs1, Hrun2. simpl.
  rewrite register_entry_run by done. simpl.
  assert (∀ b, b ≠ n → node_kv (heap s2) b = node_kv (heap s) b) as Hdata.
  { intros b Hb. destruct (Hsd b) as [-> _]. by rewrite node_kv_insert, decide_False. }
  assert (node_kv (heap s2) n = Some (key, value)) as Hkvn.
  { destruct (Hsd n) as [-> _]. by rewrite node_kv_insert, decide_True. }
  exists n. eexists _, fl1. split; [done|]. simpl. split_and!; try done.
  - split; [split|].
    + unfold WFlist. simpl. split_and!; try done.
      * apply NoDup_cons. split; [|done]. rewrite elem_of_app. tauto.
      * rewrite Hi2, Hsz. simpl length. lia.
      * congruence.
      * eapply free_chain_frame; [|exact Hfc]. intros b Hb.
        rewrite Hlk2 by (intros Hb'; by apply (Hdisj b)).
        rewrite links_insert, decide_False; [done|]. by intros ->.
      * congruence.
    + apply (dict_inv_same_elems _ (ls ++ [n])).
      { intros b. rewrite elem_of_app, !elem_of_cons, elem_of_nil. tauto. }
      eapply (dict_inv_register s); simpl; try done.
      * by rewrite Hkvn.
      * by rewrite Hi1.
    + by apply cache_inv_None.
  - unfold node_kv in Hkvn. destruct (heap s2 !! n) as [e2|] eqn:He2; [|done].
    simpl in Hkvn. rewrite (content_cons _ _ _ _ He2). injection Hkvn as -> ->. f_equal.
    apply content_ext. intros b Hb. apply Hdata. by intros ->.
  - by rewrite Hi1.
Qed.

Lemma NoDup_last_middle (l1 : list positive) a l2 :
  NoDup (l1 ++ a :: l2) → last (l1 ++ a :: l2) = Some a ↔ l2 = [].
Proof.
  intros Hnd. split; [|by intros ->; rewrite last_snoc].
  destruct (NoDup_middle _ _ _ Hnd) as (_ & _ & _ & Hal2 & _).
  rewrite last_app. destruct l2 as [|y l2] using rev_ind; [done|].
  rewrite app_comm_cons, last_snoc. intros [= ->].
  exfalso. apply Hal2. apply elem_of_app. right. left.
Qed.

Lemma NoDup_head_middle (l1 : list positive) a l2 :
  NoDup (l1 ++ a :: l2) → head (l1 ++ a :: l2) = Some a ↔ l1 = [].
Proof.
  intros Hnd. split; [|by intros ->].
  destruct (NoDup_middle _ _ _ Hnd) as (_ & _ & Hal1 & _).
  destruct l1 as [|y l1]; [done|]. simpl. intros [= ->].
  exfalso. apply Hal1. left.
Qed.

(* move_to_end of a key that is present and not yet at the requested end *)
Lemma move_to_end_spec s l1 a l2 fl key (to_back : bool) :
  WF s (l1 ++ a :: l2) fl → dd_dict (self s) !! key = Some a →
  (if to_back then l2 ≠ [] else l1 ≠ []) →
  ∃ s',
    DequeDict_move_to_end key to_back s = Done tt s' ∧
    WF s' (if to_back then l1 ++ l2 ++ [a] else a :: l1 ++ l2) fl ∧
    (∀ b, node_kv (heap s') b = node_kv (heap s) b) ∧
    index_cache (self s') = None.
Proof.
  intros [[Hlist Hdict] Hcache] Hk Hend.
  destruct Hlist as (Hnd & Hseg & Hhd & Htl & Hsz & Hfl & Hfc & Hfsz).
  apply NoDup_app in Hnd as Hnd'. destruct Hnd' as (Hndl & Hdisj & Hndf).
  destruct (NoDup_middle _ _ _ Hndl) as (_ & _ & Hal1 & Hal2 & _ & Hndl').
  assert (a ∉ l1 ++ l2) as Hanin by (rewrite elem_of_app; tauto).
  assert (a ∉ fl) as Hafl by (apply Hdisj, elem_of_app; right; left).
  assert (∀ b, b ∈ fl → b ∉ l1 ++ l2) as Hfl_l.
  { intros b Hb Hb'. apply (Hdisj b); [|done]. revert Hb'.
    rewrite !elem_of_app, elem_of_cons. tauto. }
  destruct (unlink_spec _ _ _ _ Hndl Hseg Hhd Htl)
    as (s1 & Hrun1 & [Hp1 Hp2] & (Hi1 & Hi2 & Hi3 & Hi4 & Hi5 & Hi6) & Hsd & Hhd1 & Htl1 & Hseg1 & Hlk1).
  assert (is_Some (heap s1 !! a)) as [e1 He1].
  { eapply same_data_lookup; [exact Hsd|]. eapply dlseg_in; [exact Hseg|].
    apply elem_of_app. right. left. }
  unfold DequeDict_move_to_end. rewrite bind_run. simpl. rewrite Hk, Hhd, Htl.
  destruct to_back.
  - (* to the back *)
    rewrite bool_decide_eq_false_2.
    2:{ intros Heq. symmetry in Heq. by apply NoDup_last_middle in Heq. }
    simpl. rewrite bind_run, Hrun1. msimpl. rewrite (load_run _ _ e1) by done.
    rewrite (store_run _ _ e1) by done. simpl.
    set (e1' := with_next (with_prev e1 (dd_tail (self s1))) None).
    destruct (link_tail_spec
                (mkState (<[a:=e1']> (heap s1)) (freelist s1) (freelist_size s1)
                   (mkObject (dd_dict (self s1)) (dd_head (self s1)) (dd_tail (self s1))
                      (dd_size (self s1)) None 0 0 0)) (l1 ++ l2) a e1')
      as (s2 & Hrun2 & [Hq1 Hq2] & (Hj1 & Hj2 & Hj3 & Hj4 & Hj5 & Hj6) & Hsd2 & Hhd2 & Htl2 & Hseg2 & Hlk2);
      simpl; try done.
    { eapply dlseg_frame; [|exact Hseg1]. intros b Hb. rewrite links_insert.
      case_decide; [by subst|done]. }
    { apply lookup_insert_eq. }
    rewrite Hrun2. exists s2. split; [done|]. simpl in *.
    assert (∀ b, node_kv (heap s2) b = node_kv (heap s) b ∧
                 (b ≠ a → node_idx (heap s2) b = node_idx (heap s) b)) as Hdata.
    { intros b. destruct (Hsd2 b) as [-> ->]. destruct (Hsd b) as [<- <-].
      rewrite node_kv_insert, node_idx_insert. case_decide; [subst b|done].
      split; [|done]. unfold node_kv. by rewrite He1. }
    split_and!; try done; try congruence; try (intros b; apply Hdata).
    + split; [split|].
      * unfold WFlist. rewrite (assoc_L app). split_and!; try congruence.
        -- apply NoDup_app. split_and!; try done.
           ++ apply NoDup_app. split_and!; try done.
              ** intros b Hb Hb'%list_elem_of_singleton. by subst.
              ** apply NoDup_singleton.
           ++ intros b [Hb|Hb%list_elem_of_singleton]%elem_of_app; [|by subst].
              intros Hb'. by apply (Hfl_l b).
        -- rewrite Hj2, Hi2, Hsz, !length_app. simpl. lia.
        -- eapply free_chain_frame; [|exact Hfc]. intros b Hb.
           rewrite Hlk2 by (by apply Hfl_l).
           rewrite links_insert, decide_False by (by intros ->).
           by apply Hlk1, Hfl_l.
      * apply (dict_inv_same_elems _ (l1 ++ a :: l2)).
        { intros b. rewrite !elem_of_app, !elem_of_cons, elem_of_nil. tauto. }
        eapply dict_inv_frame; [exact Hdict| |congruence].
        intros b. rewrite !node_key_kv. by destruct (Hdata b) as [-> _].
      * apply cache_inv_None. congruence.
  - (* to the front *)
    simpl. rewrite bool_decide_eq_false_2.
    2:{ intros Heq. symmetry in Heq. by apply NoDup_head_middle in Heq. }
    simpl. rewrite bind_run, Hrun1. msimpl. rewrite (load_run _ _ e1) by done.
    rewrite (store_run _ _ e1) by done. simpl.
    set (e1' := with_next (with_prev e1 None) (dd_head (self s1))).
    destruct (link_head_spec
                (mkState (<[a:=e1']> (heap s1)) (freelist s1) (freelist_size s1)
                   (mkObject (dd_dict (self s1)) (dd_head (self s1)) (dd_tail (self s1))
                      (dd_size (self s1)) None 0 0 0)) (l1 ++ l2) a e1')
      as (s2 & Hrun2 & [Hq1 Hq2] & (Hj1 & Hj2 & Hj3 & Hj4 & Hj5 & Hj6) & Hsd2 & Hhd2 & Htl2 & Hseg2 & Hlk2);
      simpl; try done.
    { eapply dlseg_frame; [|exact Hseg1]. intros b Hb. rewrite links_insert.
      case_decide; [by subst|done]. }
    { apply lookup_insert_eq. }
    rewrite Hrun2. exists s2. split; [done|]. simpl in *.
    assert (∀ b, node_kv (heap s2) b = node_kv (heap s) b) as Hdata.
    { intros b. destruct (Hsd2 b) as [-> _]. destruct (Hsd b) as [<- _].
      rewrite node_kv_insert. case_decide; [subst b|done].
      unfold node_kv. by rewrite He1. }
    split_and!; try done; try congruence.
    + split; [split|].
      * unfold WFlist. split_and!; try congruence; try done.
        -- rewrite <-app_comm_cons. apply NoDup_cons. split.
           ++ rewrite elem_of_app. intros [?|?]; done.
           ++ apply NoDup_app. split_and!; try done.
              intros b Hb Hb'. by apply (Hfl_l b).
        -- rewrite Hj2, Hi2, Hsz. simpl. rewrite !length_app. simpl. lia.
        -- eapply free_chain_frame; [|exact Hfc]. intros b Hb.
           rewrite Hlk2 by (by apply Hfl_l).
           rewrite links_insert, decide_False by (by intros ->).
           by apply Hlk1, Hfl_l.
      * apply (dict_inv_same_elems _ (l1 ++ a :: l2)).
        { intros b. rewrite !elem_of_cons, !elem_of_app, !elem_of_cons. tauto. }
        eapply dict_inv_frame; [exact Hdict| |congruence].
        intros b. rewrite !node_key_kv. by rewrite Hdata.
      * apply cache_inv_None. congruence.
Qed.

Global Arguments clear_loop : simpl never.
Global Arguments rebuild_loop : simpl never.

(* distinct allocated entries are no more than the heap holds *)
Lemma length_le_heap h ls :
  NoDup ls → (∀ a, a ∈ ls → is_Some (h !! a)) → (length ls ≤ size h)%nat.
Proof.
  intros Hnd Hin. rewrite <-size_dom, <-(size_list_to_set (C := gset positive) ls) by done.
  apply subseteq_size. intros a Ha. apply elem_of_list_to_set in Ha.
  by apply elem_of_dom, Hin.
Qed.

Lemma WFlist_fuel s ls fl : WFlist s ls fl → (length ls < S (size (heap s)))%nat.
Proof.
  intros (Hnd & Hseg & _). apply NoDup_app in Hnd as (Hnd & _).
  apply Nat.lt_succ_r, length_le_heap; [done|]. intros a Ha. by eapply dlseg_in.
Qed.

Lemma clear_loop_S fuel a :
  clear_loop (K:=K) (V:=V) (S fuel) (Some a)
  = (e ← load a; entry_free a;; clear_loop fuel (e_next e)).
Proof. done. Qed.

Lemma clear_loop_None fuel s : clear_loop fuel None s = Done tt s.
Proof. by destruct fuel. Qed.

(* The loop of clear() frees the whole list into the pool. *)
Lemma clear_loop_spec rest : ∀ fuel s fl p,
  (length rest < fuel)%nat → NoDup (rest ++ fl) →
  dlseg (heap s) p rest None → free_chain (heap s) fl →
  freelist s = head fl → freelist_size s = Z.of_nat (length fl) →
  ∃ s' fl', clear_loop fuel (head rest) s = Done tt s' ∧ self s' = self s ∧
    NoDup fl' ∧ free_chain (heap s') fl' ∧ freelist s' = head fl' ∧
    freelist_size s' = Z.of_nat (length fl').
Proof.
  induction rest as [|a rest IH]; intros fuel s fl p Hfuel Hnd Hseg Hfc Hfl Hfsz.
  - exists s, fl. rewrite clear_loop_None. simpl in Hnd. by split_and!.
  - destruct fuel as [|fuel]; [simpl in Hfuel; lia|].
    apply dlseg_cons in Hseg as [Ha Hseg].
    apply links_Some in Ha as (e & He & Hp & Hn). simpl in Hp, Hn.
    rewrite hd_ptr_None in Hn.
    simpl in Hnd. apply NoDup_cons in Hnd as [Hanin Hnd].
    apply NoDup_app in Hnd as Hnd'. destruct Hnd' as (Hndr & Hdisj & Hndf).
    assert ((a ∉ rest) ∧ (a ∉ fl)) as [Har Haf] by (rewrite elem_of_app in Hanin; tauto).
    destruct (entry_free_spec s a e fl He Haf Hndf Hfc Hfl Hfsz)
      as (s1 & fl1 & Hrun1 & Hself1 & Hheap1 & Hfc1 & Hfl1 & Hfsz1 & Hndf1 & Hsub1).
    destruct (IH fuel s1 fl1 (Some a)) as (s' & fl' & Hrun & Hself & Hrest); try done.
    + simpl in Hfuel. lia.
    + apply NoDup_app. split_and!; try done. intros b Hb Hb'.
      apply Hsub1 in Hb'. apply elem_of_cons in Hb' as [->|Hb']; [done|].
      by apply (Hdisj b).
    + eapply dlseg_frame; [|exact Hseg]. intros b Hb. unfold links.
      rewrite Hheap1; [done|]. by intros ->.
    + exists s', fl'. split; [|split; [congruence|done]].
      simpl. rewrite clear_loop_S, bind_run, (load_run _ _ _ He), bind_run, Hrun1, Hn.
      exact Hrun.
Qed.

(* clear() *)
Lemma clear_spec s ls fl :
  WF s ls fl →
  ∃ s' fl', DequeDict_clear_method s = Done tt s' ∧ WF s' [] fl' ∧
    dd_size (self s') = 0 ∧ index_cache (self s') = None.
Proof.
  intros [[Hlist Hdict] Hcache].
  pose proof (WFlist_fuel _ _ _ Hlist) as Hfuel.
  destruct Hlist as (Hnd & Hseg & Hhd & Htl & Hsz & Hfl & Hfc & Hfsz).
  destruct (clear_loop_spec ls (S (size (heap s))) s fl None)
    as (s' & fl' & Hrun & Hself & Hndf & Hfc' & Hfl' & Hfsz'); try done.
  unfold DequeDict_clear_method. rewrite bind_run. simpl. rewrite Hhd, bind_run, Hrun.
  simpl. eexists _, fl'. split; [done|]. simpl. by split_and!.
Qed.

Lemma rebuild_loop_S fuel a i :
  rebuild_loop (K:=K) (V:=V) (S fuel) (Some a) i
  = (set_cache_idx a i;; cache_store i (Some a);; e ← load a;
     rebuild_loop fuel (e_next e) (i + 1)).
Proof. done. Qed.

Lemma rebuild_loop_None fuel i s : rebuild_loop fuel None i s = Done tt s.
Proof. by destruct fuel. Qed.

(* The loop of DequeDict_rebuild_cache fills the slots from i on with the
   rest of the list and records each entry's slot. *)
Lemma rebuild_loop_spec rest : ∀ fuel i s arr p,
  index_cache (self s) = Some arr →
  (length rest < fuel)%nat → 0 ≤ i → i + Z.of_nat (length rest) ≤ Z.of_nat (length arr) →
  NoDup rest → dlseg (heap s) p rest None →
  ∃ s' arr',
    rebuild_loop fuel (head rest) i s = Done tt s' ∧
    index_cache (self s') = Some arr' ∧ length arr' = length arr ∧
    same_pool s s' ∧ same_list s s' ∧
    cache_size (self s') = cache_size (self s) ∧
    cache_capacity (self s') = cache_capacity (self s) ∧
    cache_offset (self s') = cache_offset (self s) ∧
    same_shape (heap s) (heap s') ∧
    (∀ b, b ∉ rest → node_idx (heap s') b = node_idx (heap s) b) ∧
    (∀ j, (j < Z.to_nat i)%nat → arr' !! j = arr !! j) ∧
    (∀ j a, rest !! j = Some a →
       arr' !! (Z.to_nat i + j)%nat = Some (Some a) ∧
       node_idx (heap s') a = Some (i + Z.of_nat j)).
Proof.
  induction rest as [|a rest IH]; intros fuel i s arr p Harr Hfuel Hi Hlen Hnd Hseg.
  - exists s, arr. rewrite rebuild_loop_None. split_and!; try done.
  - destruct fuel as [|fuel]; [simpl in Hfuel; lia|].
    apply dlseg_cons in Hseg as [Ha Hseg].
    apply links_Some in Ha as (e & He & Hp & Hn). simpl in Hp, Hn.
    rewrite hd_ptr_None in Hn.
    apply NoDup_cons in Hnd as [Har Hnd]. simpl in Hlen, Hfuel.
    set (s1 := mkState (<[a:=with_cache_idx e i]> (heap s)) (freelist s) (freelist_size s)
                 (mkObject (dd_dict (self s)) (dd_head (self s)) (dd_tail (self s))
                    (dd_size (self s)) (Some (<[Z.to_nat i:=Some a]> arr))
                    (cache_size (self s)) (cache_capacity (self s)) (cache_offset (self s)))).
    destruct (IH fuel (i + 1) s1 (<[Z.to_nat i:=Some a]> arr) (Some a))
      as (s' & arr' & Hrun & Harr' & Hlen' & Hpool & Hsl & Hc1 & Hc2 & Hc3 & Hsh & Hidx & Hold & Hnew);
      try done; try lia.
    { rewrite length_insert. lia. }
    { eapply dlseg_frame; [|exact Hseg]. intros b Hb. simpl. rewrite links_insert.
      case_decide; [subst b|done]. unfold links. by rewrite He. }
    exists s', arr'. split.
    { simpl. rewrite rebuild_loop_S, bind_run, (set_cache_idx_run _ _ _ _ He), bind_run.
      unfold cache_store. msimpl. rewrite Harr.
      assert ((0 <=? i) && (i <? Z.of_nat (length arr)) = true) as ->
        by (apply andb_true_iff; split; [apply Z.leb_le|apply Z.ltb_lt]; lia).
      simpl. rewrite (load_run _ _ (with_cache_idx e i)) by (simpl; apply lookup_insert_eq).
      simpl. rewrite Hn. exact Hrun. }
    rewrite length_insert in Hlen'. split_and!; try done.
    + intros b. destruct (Hsh b) as [-> ->]. by apply same_shape_idx.
    + intros b Hb. rewrite Hidx by (intros ?; apply Hb; by right).
      simpl. rewrite node_idx_insert, decide_False; [done|]. intros ->. apply Hb. left.
    + intros j Hj. rewrite Hold by lia. apply list_lookup_insert_ne. lia.
    + intros j b Hb. destruct j as [|j]; simpl in Hb.
      * injection Hb as <-. split.
        -- rewrite Hold by lia. rewrite Nat.add_0_r. apply list_lookup_insert_eq. lia.
        -- rewrite Hidx by done. simpl. rewrite node_idx_insert, decide_True by done.
           simpl. f_equal. lia.
      * destruct (Hnew j b Hb) as [Hslot Hi']. split.
        -- rewrite <-Hslot. f_equal. lia.
        -- rewrite Hi'. f_equal. lia.
Qed.

Global Arguments DequeDict_rebuild_cache : simpl never.

Lemma WFcore_frame s s' ls fl :
  WFcore s ls fl → same_shape (heap s) (heap s') → same_pool s s' → same_list s s' →
  WFcore s' ls fl.
Proof.
  intros [Hlist Hdict] Hsh Hpool (Hl1 & Hl2 & Hl3 & Hl4). split.
  - eapply WFlist_frame; [exact Hlist| |done..]. intros b. apply Hsh.
  - eapply dict_inv_frame; [exact Hdict| |done]. intros b.
    rewrite !node_key_kv. by destruct (Hsh b) as [_ ->].
Qed.

(* DequeDict_rebuild_cache on a consistent list *)
Lemma rebuild_spec al s ls fl :
  WFcore s ls fl →
  ∃ s', WF s' ls fl ∧ same_shape (heap s) (heap s') ∧
    if bool_decide (ls = []) then
      DequeDict_rebuild_cache al s = Done tt s' ∧ index_cache (self s') = None
    else if cache_malloc_ok al then
      DequeDict_rebuild_cache al s = Done tt s' ∧ is_Some (index_cache (self s'))
    else
      DequeDict_rebuild_cache al s = Raise MemoryError s' ∧ index_cache (self s') = None.
Proof.
  intros Hcore. pose proof Hcore as [Hlist Hdict].
  pose proof (WFlist_fuel _ _ _ Hlist) as Hfuel.
  destruct Hlist as (Hnd & Hseg & Hhd & Htl & Hsz & Hfl & Hfc & Hfsz).
  apply NoDup_app in Hnd as (Hndl & _ & _).
  unfold DequeDict_rebuild_cache. msimpl.
  case_bool_decide as Hnil.
  - subst ls. simpl in Hsz. rewrite Hsz. simpl.
    eexists. split; [|split; [|done]].
    + split; [|by apply cache_inv_None].
      eapply WFcore_frame; [exact Hcore| |done|done]. apply same_shape_refl.
    + apply same_shape_refl.
  - assert ((dd_size (self s) =? 0) = false) as ->.
    { apply Z.eqb_neq. rewrite Hsz. destruct ls; [done|]. simpl. lia. }
    assert ((0 <=? dd_size (self s)) = true) as -> by (apply Z.leb_le; lia).
    simpl. destruct (cache_malloc_ok al); simpl.
    + set (arr := replicate (Z.to_nat (dd_size (self s))) (None : ptr)).
      destruct (rebuild_loop_spec ls (S (Z.to_nat (dd_size (self s)))) 0
                  (mkState (heap s) (freelist s) (freelist_size s)
                     (mkObject (dd_dict (self s)) (dd_head (self s)) (dd_tail (self s))
                        (dd_size (self s)) (Some arr) (dd_size (self s)) (dd_size (self s)) 0))
                  arr None)
        as (s' & arr' & Hrun & Harr' & Hlen' & Hpool & Hsl & Hc1 & Hc2 & Hc3 & Hsh & Hidx & Hold & Hnew);
        simpl; try done; try lia.
      { unfold arr. rewrite length_replicate. lia. }
      rewrite <-Hhd in Hrun. rewrite Hrun. exists s'. split; [|split; [done|]].
      * split; [eapply WFcore_frame; [exact Hcore|done..]|].
        apply cache_inv_Some with (arr := arr'); [done|].
        rewrite Hc1, Hc2, Hc3. simpl. unfold arr in Hlen'. rewrite length_replicate in Hlen'.
        split_and!; try lia.
        intros i a Hia. destruct (Hnew i a Hia) as [Hslot Hi]. split; [done|].
        rewrite Hi. f_equal.
      * split; [done|]. by rewrite Harr'.
    + eexists. split; [|split; [|done]].
      * split; [|by apply cache_inv_None].
        eapply WFcore_frame; [exact Hcore| |done|done]. apply same_shape_refl.
      * apply same_shape_refl.
Qed.

(* at(index) when the cache is there *)
Lemma at_cached_spec al s ls fl index :
  WF s ls fl → is_Some (index_cache (self s)) →
  let n := Z.of_nat (length ls) in
  let idx := if index <? 0 then index + n else index in
  if (idx <? 0) || (idx >=? n) then
    DequeDict_at al index s = Raise (IndexError "index out of range") s
  else
    ∃ a e, ls !! Z.to_nat idx = Some a ∧ heap s !! a = Some e ∧
           DequeDict_at al index s = Done (e_value e) s.
Proof.
  intros [[Hlist Hdict] Hcache] Hsome.
  destruct (index_cache (self s)) as [arr|] eqn:Harr; [|by destruct Hsome].
  pose proof (proj1 (cache_inv_Some _ _ _ Harr) Hcache) as (Hl & Ho & Hs & Hcp & Hslots).
  cbv zeta. set (n := Z.of_nat (length ls)).
  set (idx := if index <? 0 then index + n else index).
  assert (cache_size (self s) - cache_offset (self s) = n) as Hlog by (unfold n; lia).
  unfold DequeDict_at. msimpl. rewrite Harr. simpl. rewrite Hlog. fold idx.
  destruct ((idx <? 0) || (idx >=? n)) eqn:Hrange; [done|].
  apply orb_false_iff in Hrange as [Hlo Hhi].
  apply Z.ltb_ge in Hlo. rewrite Z.geb_leb in Hhi. apply Z.leb_gt in Hhi.
  destruct (lookup_lt_is_Some_2 ls (Z.to_nat idx)) as [a Ha]; [unfold n in Hhi; lia|].
  destruct (Hslots _ _ Ha) as [Hslot _].
  destruct (WFlist_lookup _ _ _ a Hlist) as [e He]; [by eapply list_elem_of_lookup_2|].
  exists a, e. split; [done|]. split; [done|].
  unfold cache_load. msimpl. rewrite Harr.
  assert ((0 <=? cache_offset (self s) + idx) &&
          (cache_offset (self s) + idx <? Z.of_nat (length arr)) = true) as ->
    by (apply andb_true_iff; split; [apply Z.leb_le|apply Z.ltb_lt]; unfold n in *; lia).
  replace (Z.to_nat (cache_offset (self s) + idx))
    with (Z.to_nat (cache_offset (self s)) + Z.to_nat idx)%nat by lia.
  rewrite Hslot. simpl. by rewrite (load_run _ _ _ He).
Qed.

(* at(index) in general, when the cache can be built *)
Lemma at_spec al s ls fl index :
  WF s ls fl →
  (index_cache (self s) = None → ls ≠ [] → cache_malloc_ok al = true) →
  let n := Z.of_nat (length ls) in
  let idx := if index <? 0 then index + n else index in
  ∃ s', WF s' ls fl ∧ same_shape (heap s) (heap s') ∧
    if (idx <? 0) || (idx >=? n) then
      DequeDict_at al index s = Raise (IndexError "index out of range") s'
    else
      ∃ a e, ls !! Z.to_nat idx = Some a ∧ heap s !! a = Some e ∧
             DequeDict_at al index s = Done (e_value e) s'.
Proof.
  intros HWF Hok n idx.
  destruct (index_cache (self s)) as [arr|] eqn:Harr.
  - exists s. split; [done|]. split; [apply same_shape_refl|].
    apply (at_cached_spec al s ls fl index HWF). by rewrite Harr.
  - destruct HWF as [Hcore _].
    destruct (rebuild_spec al s ls fl Hcore) as (s' & HWF' & Hsh & Hrun).
    exists s'. split; [done|]. split; [done|].
    case_bool_decide as Hnil.
    + destruct Hrun as [Hrun Hnone]. subst ls.
      assert ((idx <? 0) || (idx >=? n) = true) as ->.
      { unfold idx, n. simpl. destruct (Z.ltb_spec index 0).
        - apply orb_true_iff. left. apply Z.ltb_lt. lia.
        - apply orb_true_iff. right. apply Z.geb_le. lia. }
      unfold DequeDict_at. msimpl. rewrite Harr, Hrun. simpl. by rewrite Hnone.
    + rewrite (Hok eq_refl Hnil) in Hrun. destruct Hrun as [Hrun Hsome].
      assert (DequeDict_at al index s = DequeDict_at al index s') as ->.
      { unfold DequeDict_at. msimpl. rewrite Harr, Hrun. simpl.
        destruct Hsome as [arr' Harr']. by rewrite Harr'. }
      pose proof (at_cached_spec al s' ls fl index HWF' Hsome) as Hat.
      simpl in Hat. fold n idx in Hat.
      destruct ((idx <? 0) || (idx >=? n)); [done|].
      destruct Hat as (a & e' & Ha & He' & Hat).
      destruct (Hsh a) as [_ Hkv]. unfold node_kv in Hkv. rewrite He' in Hkv.
      destruct (heap s !! a) as [e|] eqn:He; [|done]. simpl in Hkv.
      exists a, e. split; [done|]. split; [done|]. rewrite Hat. f_equal. congruence.
Qed.

(* at(index) when the cache has to be built and PyMem_Malloc fails *)
Lemma at_nomem_spec al s ls fl index :
  WF s ls fl → index_cache (self s) = None → ls ≠ [] → cache_malloc_ok al = false →
  ∃ s', WF s' ls fl ∧ same_shape (heap s) (heap s') ∧
        DequeDict_at al index s = Raise MemoryError s'.
Proof.
  intros [Hcore _] Harr Hnil Hfail.
  destruct (rebuild_spec al s ls fl Hcore) as (s' & HWF' & Hsh & Hrun).
  rewrite bool_decide_eq_false_2, Hfail in Hrun by done. destruct Hrun as [Hrun _].
  exists s'. split; [done|]. split; [done|].
  unfold DequeDict_at. msimpl. by rewrite Harr, Hrun.
Qed.

Global Arguments entries : simpl never.
Global Arguments drain : simpl never.
Global Arguments compare_loop : simpl never.

Lemma entries_cons h a ls e : h !! a = Some e → entries h (a :: ls) = e :: entries h ls.
Proof. intros He. unfold entries. simpl. by rewrite He. Qed.

Lemma entries_snoc h ls a e : h !! a = Some e → entries h (ls ++ [a]) = entries h ls ++ [e].
Proof. intros He. unfold entries. rewrite omap_app. simpl. by rewrite He. Qed.

Lemma content_entries h ls : content h ls = kv_of <$> entries h ls.
Proof.
  unfold content, entries. by rewrite list_fmap_omap.
Qed.

Lemma entries_length h p ls q : dlseg h p ls q → length (entries h ls) = length ls.
Proof.
  intros Hseg. rewrite <-(content_length _ _ _ _ Hseg), content_entries.
  by rewrite length_fmap.
Qed.

Lemma entries_lookup h p ls q i a e :
  dlseg h p ls q → ls !! i = Some a → h !! a = Some e → entries h ls !! i = Some e.
Proof.
  revert p i. induction ls as [|b ls IH]; intros p i; [done|].
  intros [Hb Hls]%dlseg_cons. apply links_Some in Hb as (eb & Heb & _).
  rewrite (entries_cons _ _ _ _ Heb). destruct i as [|i]; simpl.
  - intros [= ->]. congruence.
  - by apply IH with (p := Some b).
Qed.

Lemma drain_S {X} (next : ptr → M (K:=K) (V:=V) (option (X * ptr))) fuel current :
  drain next (S fuel) current
  = (r ← next current;
     match r with
     | None => mret (Some [])
     | Some (x, current') => rest ← drain next fuel current'; mret (cons x <$> rest)
     end).
Proof. done. Qed.

(* Walking an iterator that follows next over a segment that ends in NULL *)
Lemma drain_forward {X} (next : ptr → M (K:=K) (V:=V) (option (X * ptr))) (f : DequeDictEntry → X) s :
  (∀ a e, heap s !! a = Some e → next (Some a) s = Done (Some (f e, e_next e)) s) →
  next None s = Done None s →
  ∀ rest fuel p, (length rest < fuel)%nat → dlseg (heap s) p rest None →
    drain next fuel (head rest) s = Done (Some (f <$> entries (heap s) rest)) s.
Proof.
  intros Hstep Hend. induction rest as [|a rest IH]; intros fuel p Hfuel Hseg.
  - destruct fuel as [|fuel]; [simpl in Hfuel; lia|].
    simpl. by rewrite drain_S, bind_run, Hend.
  - destruct fuel as [|fuel]; [simpl in Hfuel; lia|].
    apply dlseg_cons in Hseg as [Ha Hseg].
    apply links_Some in Ha as (e & He & Hp & Hn). simpl in Hp, Hn.
    rewrite hd_ptr_None in Hn.
    simpl. rewrite drain_S, bind_run, (Hstep _ _ He), bind_run, Hn.
    rewrite (IH fuel (Some a)); [|simpl in Hfuel; lia|done].
    by rewrite (entries_cons _ _ _ _ He).
Qed.

(* Walking an iterator that follows prev from the last entry backwards *)
Lemma drain_backward {X} (next : ptr → M (K:=K) (V:=V) (option (X * ptr))) (f : DequeDictEntry → X) s :
  (∀ a e, heap s !! a = Some e → next (Some a) s = Done (Some (f e, e_prev e)) s) →
  next None s = Done None s →
  ∀ rest fuel q, (length rest < fuel)%nat → dlseg (heap s) None rest q →
    drain next fuel (last rest) s = Done (Some (f <$> reverse (entries (heap s) rest))) s.
Proof.
  intros Hstep Hend. induction rest as [|a rest IH] using rev_ind; intros fuel q Hfuel Hseg.
  - destruct fuel as [|fuel]; [simpl in Hfuel; lia|].
    simpl. by rewrite drain_S, bind_run, Hend.
  - destruct fuel as [|fuel]; [rewrite length_app in Hfuel; simpl in Hfuel; lia|].
    apply dlseg_app in Hseg as [Hseg [Ha _]%dlseg_cons].
    apply links_Some in Ha as (e & He & Hp & Hn). simpl in Hp, Hn, Hseg.
    rewrite last_ptr_None in Hp.
    rewrite last_snoc, drain_S, bind_run, (Hstep _ _ He), bind_run, Hp.
    rewrite (IH fuel (Some a)); [|rewrite length_app in Hfuel; simpl in Hfuel; lia|done].
    by rewrite (entries_snoc _ _ _ _ He), reverse_snoc.
Qed.

Lemma list_of_run {X} (next : ptr → M (K:=K) (V:=V) (option (X * ptr))) current s l :
  drain next (S (size (heap s))) current s = Done (Some l) s →
  list_of next current s = Done l s.
Proof. intros Hd. unfold list_of. msimpl. by rewrite Hd. Qed.

(* list(d), list(reversed(d)) and the lists of the views of a well-formed
   container *)
Lemma iter_spec s ls fl :
  WFlist s ls fl → DequeDict_iter s = Done (e_key <$> entries (heap s) ls) s.
Proof.
  intros Hlist. pose proof (WFlist_fuel _ _ _ Hlist) as Hfuel.
  destruct Hlist as (_ & Hseg & Hhd & _).
  unfold DequeDict_iter. rewrite bind_run. simpl. rewrite Hhd.
  apply list_of_run, (drain_forward _ e_key) with (p := None); try done.
  intros a e He. unfold DequeDictIter_next. by rewrite bind_run, (load_run _ _ _ He).
Qed.

Lemma reversed_spec s ls fl :
  WFlist s ls fl → DequeDict_reversed s = Done (e_key <$> reverse (entries (heap s) ls)) s.
Proof.
  intros Hlist. pose proof (WFlist_fuel _ _ _ Hlist) as Hfuel.
  destruct Hlist as (_ & Hseg & _ & Htl & _).
  unfold DequeDict_reversed. rewrite bind_run. simpl. rewrite Htl.
  apply list_of_run, (drain_backward _ e_key) with (q := None); try done.
  intros a e He. unfold DequeDictRevIter_next. by rewrite bind_run, (load_run _ _ _ He).
Qed.

Lemma view_iter_spec s ls fl kind :
  WFlist s ls fl →
  DequeDictView_iter kind s = Done (item_of kind <$> entries (heap s) ls) s.
Proof.
  intros Hlist. pose proof (WFlist_fuel _ _ _ Hlist) as Hfuel.
  destruct Hlist as (_ & Hseg & Hhd & _).
  unfold DequeDictView_iter. rewrite bind_run. simpl. rewrite Hhd.
  apply list_of_run, (drain_forward _ (item_of kind)) with (p := None); try done.
  intros a e He. unfold DequeDictViewIter_next. rewrite bind_run, (load_run _ _ _ He).
  by destruct kind.
Qed.

Lemma view_reversed_spec s ls fl kind :
  WFlist s ls fl →
  DequeDictView_reversed kind s = Done (item_of kind <$> reverse (entries (heap s) ls)) s.
Proof.
  intros Hlist. pose proof (WFlist_fuel _ _ _ Hlist) as Hfuel.
  destruct Hlist as (_ & Hseg & _ & Htl & _).
  unfold DequeDictView_reversed. rewrite bind_run. simpl. rewrite Htl.
  apply list_of_run, (drain_backward _ (item_of kind)) with (q := None); try done.
  intros a e He. unfold DequeDictViewIter_next. rewrite bind_run, (load_run _ _ _ He).
  by destruct kind.
Qed.

Section Compare.
Context (value_eq : V → V → bool) `{PyMapping K V T} (other : T).

Lemma compare_loop_S fuel ne a :
  compare_loop (K:=K) value_eq (S fuel) other ne (Some a)
  = (e ← load a;
     match PyObject_GetItem other (e_key e) with
     | None => mret (PyBool ne)
     | Some other_val =>
         if value_eq (e_value e) other_val
         then compare_loop value_eq fuel other ne (e_next e)
         else mret (PyBool ne)
     end).
Proof. done. Qed.

Lemma compare_loop_spec s ne : ∀ rest fuel p,
  (length rest < fuel)%nat → dlseg (heap s) p rest None →
  compare_loop value_eq fuel other ne (head rest) s
  = Done (PyBool (if forallb (agrees value_eq other) (entries (heap s) rest)
                  then negb ne else ne)) s.
Proof.
  induction rest as [|a rest IH]; intros fuel p Hfuel Hseg.
  - by destruct fuel.
  - destruct fuel as [|fuel]; [simpl in Hfuel; lia|].
    apply dlseg_cons in Hseg as [Ha Hseg].
    apply links_Some in Ha as (e & He & Hp & Hn). simpl in Hp, Hn.
    rewrite hd_ptr_None in Hn.
    simpl. rewrite compare_loop_S, bind_run, (load_run _ _ _ He).
    rewrite (entries_cons _ _ _ _ He). simpl. unfold agrees at 1.
    destruct (PyObject_GetItem other (e_key e)) as [v'|]; [|done].
    destruct (value_eq (e_value e) v'); [|done]. simpl.
    rewrite Hn. apply (IH fuel (Some a)); [simpl in Hfuel; lia|done].
Qed.

(* == and != on a well-formed container *)
Lemma richcompare_spec s ls fl (ne : bool) :
  WFlist s ls fl →
  DequeDict_richcompare value_eq other (if ne then Py_NE else Py_EQ) s
  = Done (PyBool (xorb ne ((dd_size (self s) =? PyMapping_Size other) &&
                           forallb (agrees value_eq other) (entries (heap s) ls)))) s.
Proof.
  intros Hlist. pose proof (WFlist_fuel _ _ _ Hlist) as Hfuel.
  destruct Hlist as (_ & Hseg & Hhd & _).
  assert (∀ op, op = (if ne then Py_NE else Py_EQ) →
    DequeDict_richcompare value_eq other op s
    = (let ne := match op with Py_NE => true | _ => false end in
       if negb (dd_size (self s) =? PyMapping_Size other) then Done (PyBool ne) s
       else compare_loop value_eq (S (size (heap s))) other ne (dd_head (self s)) s)) as Hunf.
  { intros op ->. unfold DequeDict_richcompare.
    destruct ne; msimpl; by destruct (dd_size (self s) =? PyMapping_Size other). }
  rewrite (Hunf _ eq_refl). cbv zeta.
  replace (match (if ne then Py_NE else Py_EQ) with Py_NE => true | _ => false end)
    with ne by (by destruct ne).
  destruct (dd_size (self s) =? PyMapping_Size other); simpl.
  - rewrite Hhd, (compare_loop_spec _ _ _ _ None) by done.
    by destruct ne, (forallb _ _).
  - by destruct ne.
Qed.

End Compare.

(* The calls that only read: none of them changes the state. *)
Lemma getitem_spec s ls fl key :
  WF s ls fl →
  match dd_dict (self s) !! key with
  | Some a => ∃ e, heap s !! a = Some e ∧ e_key e = key ∧ a ∈ ls ∧
                   DequeDict_getitem key s = Done (e_value e) s
  | None => DequeDict_getitem key s = Raise (KeyError_obj key) s
  end.
Proof.
  intros HWF. unfold DequeDict_getitem. rewrite bind_run. simpl.
  destruct (dd_dict (self s) !! key) as [a|] eqn:Hk; [|done].
  destruct (WF_dict_split _ _ _ _ _ HWF Hk) as (l1 & l2 & e & -> & He & Hkey).
  exists e. split_and!; try done.
  - apply elem_of_app. right. left.
  - by rewrite bind_run, (load_run _ _ _ He).
Qed.

Lemma get_spec s ls fl key d :
  WF s ls fl →
  match dd_dict (self s) !! key with
  | Some a => ∃ e, heap s !! a = Some e ∧ e_key e = key ∧
                   DequeDict_get key d s = Done (Some (e_value e)) s
  | None => DequeDict_get key d s = Done d s
  end.
Proof.
  intros HWF. unfold DequeDict_get. rewrite bind_run. simpl.
  destruct (dd_dict (self s) !! key) as [a|] eqn:Hk; [|done].
  destruct (WF_dict_split _ _ _ _ _ HWF Hk) as (l1 & l2 & e & -> & He & Hkey).
  exists e. split_and!; try done.
  by rewrite bind_run, (load_run _ _ _ He).
Qed.

Lemma peek_front_spec s ls fl :
  WF s ls fl →
  match ls with
  | [] => DequeDict_peekleft s = Raise (IndexError "peek from an empty DequeDict") s ∧
          DequeDict_peekleftitem s = Raise (IndexError "peek from an empty DequeDict") s ∧
          DequeDict_peekleftkey s = Raise (IndexError "peek from an empty DequeDict") s
  | a :: _ => ∃ e, heap s !! a = Some e ∧
          DequeDict_peekleft s = Done (e_value e) s ∧
          DequeDict_peekleftitem s = Done (e_key e, e_value e) s ∧
          DequeDict_peekleftkey s = Done (e_key e) s
  end.
Proof.
  intros HWF. destruct ls as [|a ls].
  - destruct (WF_empty_ends _ _ HWF) as [Hhd _].
    unfold DequeDict_peekleft, DequeDict_peekleftitem, DequeDict_peekleftkey.
    rewrite !bind_run. simpl. by rewrite Hhd.
  - destruct HWF as [Hcore _].
    destruct (WF_head_entry _ _ _ _ Hcore) as (e & He & _ & _ & Hhd).
    exists e. split; [done|].
    unfold DequeDict_peekleft, DequeDict_peekleftitem, DequeDict_peekleftkey.
    rewrite !bind_run. simpl. rewrite Hhd. by rewrite !bind_run, !(load_run _ _ _ He).
Qed.

Lemma peek_back_spec s ls fl :
  WF s ls fl →
  match last ls with
  | None => DequeDict_peek s = Raise (IndexError "peek from an empty DequeDict") s ∧
            DequeDict_peekitem s = Raise (IndexError "peek from an empty DequeDict") s
  | Some a => ∃ e, heap s !! a = Some e ∧
            DequeDict_peek s = Done (e_value e) s ∧
            DequeDict_peekitem s = Done (e_key e, e_value e) s
  end.
Proof.
  intros HWF. destruct (last ls) as [a|] eqn:Hl.
  - apply last_Some in Hl. destruct Hl as [l' ->]. destruct HWF as [Hcore _].
    destruct (WF_tail_entry _ _ _ _ Hcore) as (e & He & _ & _ & Htl).
    exists e. split; [done|].
    unfold DequeDict_peek, DequeDict_peekitem.
    rewrite !bind_run. simpl. rewrite Htl. by rewrite !bind_run, !(load_run _ _ _ He).
  - apply last_None in Hl. subst ls.
    destruct (WF_empty_ends _ _ HWF) as [_ Htl].
    unfold DequeDict_peek, DequeDict_peekitem.
    rewrite !bind_run. simpl. by rewrite Htl.
Qed.

Lemma WF_nil_or_snoc s ls fl :
  WF s ls fl → ls = [] ∨ ∃ ls' a, ls = ls' ++ [a].
Proof. intros _. destruct ls as [|a ls] using rev_ind; eauto. Qed.

(* The same two calls up to the point where the new entry is entered in
   the key index: the entry is already linked and counted there. *)
Lemma setitem_new_split al s ls fl key value :
  WF s ls fl → dd_dict (self s) !! key = None →
  (fl = [] ∧ entry_malloc_ok al = false ∧
   DequeDict_setitem al key (Some value) s = Raise MemoryError s) ∨
  ((fl = [] → entry_malloc_ok al = true) ∧
   ∃ n s3 en,
    DequeDict_setitem al key (Some value) s = register_entry al key n s3 ∧
    heap s3 !! n = Some en ∧ (n ∉ ls) ∧
    dd_size (self s3) = dd_size (self s) + 1 ∧
    dd_tail (self s3) = Some n ∧ dd_dict (self s3) = dd_dict (self s)).
Proof.
  intros HWF Hk.
  destruct (insert_tail_spec al s ls fl key value HWF) as (r & s1 & fl1 & Hrun1 & Hr).
  destruct HWF as [[Hlist Hdict] Hcache].
  unfold DequeDict_setitem. msimpl. rewrite Hk, Hrun1.
  destruct r as [n|].
  2:{ left. destruct Hr as (-> & -> & Hm). by split_and!. }
  right.
  destruct Hr as (Hmalloc & s2 & s2' & Hrun2 & Hs2' & Hnls & Hlist2 & Hcache2 & Hi1 & _).
  split; [done|].
  assert (is_Some (heap s2' !! n)) as [en Hen].
  { eapply WFlist_lookup; [exact Hlist2|]. apply elem_of_app. right. left. }
  destruct (cache_append_spec al s2' ls n en Hcache2 Hnls Hen)
    as (s3 & Hrun3 & _ & _ & Hsl3 & Hsh3 & _).
  rewrite Hrun2. simpl. rewrite <-Hs2', Hrun3.
  destruct Hsl3 as (Hl1 & Hl2 & Hl3 & Hl4).
  destruct Hlist2 as (_ & _ & _ & Htl2 & Hsz2 & _).
  destruct Hlist as (_ & _ & _ & _ & Hsz & _).
  assert (is_Some (heap s3 !! n)) as [e3 He3].
  { destruct (Hsh3 n) as [Hlk _]. unfold links in Hlk. rewrite Hen in Hlk.
    destruct (heap s3 !! n); [eauto|done]. }
  exists n, s3, e3. split_and!; try done.
  - rewrite Hl4, Hsz2, Hsz, length_app. simpl. lia.
  - by rewrite Hl3, Htl2, last_snoc.
  - rewrite Hl1. subst s2'. simpl. done.
Qed.

Lemma appendleft_new_split al s ls fl key value :
  WF s ls fl → dd_dict (self s) !! key = None →
  (fl = [] ∧ entry_malloc_ok al = false ∧
   DequeDict_appendleft al key value s = Raise MemoryError s) ∨
  ((fl = [] → entry_malloc_ok al = true) ∧
   ∃ n s3 en,
    DequeDict_appendleft al key value s = register_entry al key n s3 ∧
    heap s3 !! n = Some en ∧ (n ∉ ls) ∧
    dd_size (self s3) = dd_size (self s) + 1 ∧
    dd_head (self s3) = Some n ∧ dd_dict (self s3) = dd_dict (self s)).
Proof.
  intros [[Hlist Hdict] Hcache] Hk.
  destruct (entry_alloc_spec al s ls fl Hlist) as (r & s1 & fl1 & Hrun & Hh1 & Hs1 & Hr).
  unfold DequeDict_appendleft. rewrite bind_run. simpl. rewrite Hk.
  rewrite bind_run, Hrun.
  destruct r as [n|].
  2:{ left. destruct Hr as (-> & -> & Hm). by split_and!. }
  right. destruct Hr as (Hnls & Hnfl & Hnd & Hfc & Hfl1 & Hfsz1 & Hmalloc).
  split; [done|].
  destruct Hlist as (_ & Hseg & Hhd & Htl & Hsz & _).
  set (e0 := mkEntry key value None (dd_head (self s)) (-1)).
  apply NoDup_app in Hnd as Hnd'. destruct Hnd' as (Hndl & Hdisj & Hndf).
  assert (dlseg (<[n:=e0]> (heap s)) None ls None) as Hseg0.
  { eapply dlseg_frame; [|exact Hseg]. intros b Hb. rewrite links_insert.
    case_decide; [by subst|done]. }
  destruct (link_head_spec
              (mkState (<[n:=e0]> (heap s1)) (freelist s1) (freelist_size s1) (self s1))
              ls n e0)
    as (s2 & Hrun2 & _ & (Hi1 & Hi2 & _) & Hsd & Hhd2 & _);
    simpl; rewrite ?Hh1, ?Hs1; try done.
  { apply lookup_insert_eq. }
  simpl in *. rewrite Hs1 in *. rewrite Hh1 in *.
  unfold init_entry. msimpl. rewrite Hh1, Hs1, Hrun2. simpl.
  assert (is_Some (heap s2 !! n)) as [e2 He2].
  { destruct (Hsd n) as [Hkv _]. rewrite node_kv_insert, decide_True in Hkv by done.
    unfold node_kv in Hkv. destruct (heap s2 !! n); [eauto|done]. }
  exists n. eexists _, e2. split; [done|]. simpl. split_and!; try done.
  by rewrite Hi2.
Qed.

(* When one of the two index steps fails, register_entry hands the entry
   back to the pool and raises, and nothing else is undone. *)
Lemma register_entry_fail al s key n e :
  heap s !! n = Some e → capsule_ok al && dict_setitem_ok al = false →
  ∃ s', register_entry al key n s = Raise MemoryError s' ∧ self s' = self s.
Proof.
  intros He Hal. unfold register_entry.
  assert ((entry_free n;; raise MemoryError : M unit) s
          = Raise MemoryError
              (if freelist_size s <? FREELIST_MAX
               then mkState (<[n:=with_next e (freelist s)]> (heap s)) (Some n)
                      (freelist_size s + 1) (self s)
               else mkState (delete n (heap s)) (freelist s) (freelist_size s) (self s)))
    as Hfree by (by rewrite bind_run, (entry_free_run _ _ _ He)).
  eexists. split.
  - destruct (capsule_ok al); [destruct (dict_setitem_ok al); [done|]|]; exact Hfree.
  - by destruct (freelist_size s <? FREELIST_MAX).
Qed.

Section Exec.
Context (value_eq : V → V → bool).

(* Every call of the shared interface keeps a well-formed state well
   formed and does not run into undefined behaviour, whatever the
   allocator does, as long as the two steps that enter a new entry in the
   key index succeed. *)
Lemma exec_shared_WF al op s ls fl :
  WF s ls fl → capsule_ok al = true → dict_setitem_ok al = true →
  match exec_shared value_eq al op s with
  | Done _ s' | Raise _ s' => ∃ ls' fl', WF s' ls' fl'
  | Fault => False
  end.
Proof.
  intros HWF Hcap Hdset.
  assert (∃ ls' fl', WF s ls' fl') as Hsame by eauto.
  destruct op; unfold exec_shared; rewrite ?bind_run.
  - (* len *) done.
  - (* getitem *)
    pose proof (getitem_spec s ls fl key HWF) as Hg.
    destruct (dd_dict (self s) !! key); [destruct Hg as (e & _ & _ & _ & ->)|rewrite Hg]; done.
  - (* setitem *)
    destruct (dd_dict (self s) !! key) as [a|] eqn:Hk.
    + destruct (setitem_update_spec al s ls fl key value a HWF Hk) as (e & _ & _ & _ & -> & HWF').
      simpl. eauto.
    + destruct (setitem_new_spec al s ls fl key value HWF Hk Hcap Hdset)
        as [(_ & _ & ->)|(_ & n & s' & fl' & -> & HWF' & _)]; simpl; eauto.
  - (* delitem *)
    destruct (dd_dict (self s) !! key) as [a|] eqn:Hk.
    + destruct (WF_dict_split _ _ _ _ _ HWF Hk) as (l1 & l2 & e & -> & _).
      destruct (delitem_spec al s l1 a l2 fl key HWF Hk) as (s' & fl' & -> & HWF' & _).
      simpl. eauto.
    + unfold DequeDict_setitem. rewrite bind_run. simpl. by rewrite Hk.
  - (* contains *) done.
  - (* peekleft *)
    pose proof (peek_front_spec s ls fl HWF) as Hp.
    destruct ls; [destruct Hp as (-> & _)|destruct Hp as (e & _ & -> & _)]; done.
  - pose proof (peek_front_spec s ls fl HWF) as Hp.
    destruct ls; [destruct Hp as (_ & -> & _)|destruct Hp as (e & _ & _ & -> & _)]; done.
  - pose proof (peek_front_spec s ls fl HWF) as Hp.
    destruct ls; [destruct Hp as (_ & _ & ->)|destruct Hp as (e & _ & _ & _ & ->)]; done.
  - (* peek *)
    pose proof (peek_back_spec s ls fl HWF) as Hp.
    destruct (last ls); [destruct Hp as (e & _ & -> & _)|destruct Hp as (-> & _)]; done.
  - pose proof (peek_back_spec s ls fl HWF) as Hp.
    destruct (last ls); [destruct Hp as (e & _ & _ & ->)|destruct Hp as (_ & ->)]; done.
  - (* popleft *)
    destruct ls as [|a ls].
    + destruct (WF_empty_ends _ _ HWF) as [Hhd _].
      unfold DequeDict_popleft. rewrite bind_run. simpl. by rewrite Hhd.
    + destruct (popleft_spec s a ls fl HWF) as (e & s' & fl' & _ & -> & HWF' & _).
      simpl. eauto.
  - destruct ls as [|a ls].
    + destruct (WF_empty_ends _ _ HWF) as [Hhd _].
      unfold DequeDict_popleftitem. rewrite bind_run. simpl. by rewrite Hhd.
    + destruct (popleftitem_spec s a ls fl HWF) as (e & s' & fl' & _ & -> & HWF' & _).
      simpl. eauto.
  - (* pop *)
    destruct key as [key|].
    + destruct (dd_dict (self s) !! key) as [a|] eqn:Hk.
      * destruct (WF_dict_split _ _ _ _ _ HWF Hk) as (l1 & l2 & e & -> & _).
        destruct (pop_key_spec s l1 a l2 fl key default_val HWF Hk)
          as (e' & s' & fl' & _ & _ & -> & HWF' & _).
        simpl. eauto.
      * unfold DequeDict_pop. rewrite bind_run. simpl. rewrite Hk. by destruct default_val.
    + destruct (WF_nil_or_snoc _ _ _ HWF) as [->|(ls' & a & ->)].
      * destruct (WF_empty_ends _ _ HWF) as [_ Htl].
        unfold DequeDict_pop. rewrite bind_run. simpl. rewrite Htl. by destruct default_val.
      * destruct (pop_back_spec s ls' a fl default_val HWF) as (e & s' & fl' & _ & -> & HWF' & _).
        simpl. eauto.
  - (* popitem *)
    destruct (WF_nil_or_snoc _ _ _ HWF) as [->|(ls' & a & ->)].
    + destruct (WF_empty_ends _ _ HWF) as [_ Htl].
      unfold DequeDict_popitem. rewrite bind_run. simpl. by rewrite Htl.
    + destruct (popitem_spec s ls' a fl HWF) as (e & s' & fl' & _ & -> & HWF' & _).
      simpl. eauto.
  - (* appendleft *)
    destruct (dd_dict (self s) !! key) as [a|] eqn:Hk.
    + unfold DequeDict_appendleft. rewrite bind_run. simpl. by rewrite Hk.
    + destruct (appendleft_new_spec al s ls fl key value HWF Hk Hcap Hdset)
        as [(_ & _ & ->)|(_ & n & s' & fl' & -> & HWF' & _)]; simpl; eauto.
  - (* get *)
    pose proof (get_spec s ls fl key default_val HWF) as Hg.
    destruct (dd_dict (self s) !! key); [destruct Hg as (e & _ & _ & ->)|rewrite Hg]; done.
  - (* clear *)
    destruct (clear_spec s ls fl HWF) as (s' & fl' & -> & HWF' & _). simpl. eauto.
  - (* move_to_end *)
    match goal with b : bool |- _ => rename b into to_back end.
    destruct (dd_dict (self s) !! key) as [a|] eqn:Hk.
    2:{ unfold DequeDict_move_to_end. rewrite bind_run. simpl. by rewrite Hk. }
    destruct (WF_dict_split _ _ _ _ _ HWF Hk) as (l1 & l2 & e & -> & _).
    assert (Decision (if to_back then l2 ≠ [] else l1 ≠ [])) as Hdec
      by (destruct to_back; apply _).
    destruct Hdec as [Hend|Hend].
    + destruct (move_to_end_spec s l1 a l2 fl key to_back HWF Hk Hend) as (s' & -> & HWF' & _).
      simpl. eauto.
    + pose proof HWF as [[(Hnd & _ & Hhd & Htl & _) _] _].
      apply NoDup_app in Hnd as (Hnd & _).
      unfold DequeDict_move_to_end. rewrite bind_run. simpl. rewrite Hk, Hhd, Htl.
      destruct to_back.
      * assert (l2 = []) as -> by (by destruct l2; [|exfalso; apply Hend]).
        rewrite last_snoc, bool_decide_eq_true_2 by done. simpl. eauto.
      * assert (l1 = []) as -> by (by destruct l1; [|exfalso; apply Hend]).
        simpl. rewrite bool_decide_eq_true_2 by done. simpl. eauto.
  - (* iter *)
    destruct HWF as [[Hlist _] _]. by rewrite (iter_spec _ _ _ Hlist).
  - destruct HWF as [[Hlist _] _]. by rewrite (reversed_spec _ _ _ Hlist).
  - destruct HWF as [[Hlist _] _]. by rewrite (view_iter_spec _ _ _ _ Hlist).
  - (* richcompare *)
    destruct HWF as [[Hlist _] _].
    destruct op; try done.
    + by rewrite (richcompare_spec value_eq other s ls fl false Hlist).
    + by rewrite (richcompare_spec value_eq other s ls fl true Hlist).
Qed.

(* The conversion of the argument of at: an int that fits is passed on,
   and one that does not ends the call before anything else is done. *)
Lemma at_args_fits al arg s :
  PY_SSIZE_T_MIN ≤ arg ≤ PY_SSIZE_T_MAX →
  DequeDict_at_args al arg s = DequeDict_at al arg s.
Proof.
  intros [Hlo Hhi]. unfold DequeDict_at_args, PyArg_Parse_n. rewrite bind_run.
  apply Z.leb_le in Hlo, Hhi. by rewrite Hlo, Hhi.
Qed.

Lemma at_args_overflow al arg s :
  ¬ (PY_SSIZE_T_MIN ≤ arg ≤ PY_SSIZE_T_MAX) →
  DequeDict_at_args al arg s
  = Raise (OverflowError "Python int too large to convert to C ssize_t") s.
Proof.
  intros Hout. unfold DequeDict_at_args, PyArg_Parse_n. rewrite bind_run.
  destruct (Z.leb_spec PY_SSIZE_T_MIN arg); [|done].
  destruct (Z.leb_spec arg PY_SSIZE_T_MAX); [|done]. exfalso. apply Hout. lia.
Qed.

Lemma exec_WF al op s ls fl :
  WF s ls fl → capsule_ok al = true → dict_setitem_ok al = true →
  match exec value_eq al op s with
  | Done _ s' | Raise _ s' => ∃ ls' fl', WF s' ls' fl'
  | Fault => False
  end.
Proof.
  intros HWF Hcap Hdset. destruct op as [op|index|kind]; unfold exec.
  - by apply (exec_shared_WF al op s ls fl).
  - rewrite bind_run.
    destruct (decide (PY_SSIZE_T_MIN ≤ index ≤ PY_SSIZE_T_MAX)) as [Hfits|Hout];
      [rewrite (at_args_fits al index s Hfits)
      |rewrite (at_args_overflow al index s Hout); eauto].
    destruct (decide (index_cache (self s) = None ∧ ls ≠ [] ∧ cache_malloc_ok al = false))
      as [(Hc & Hnil & Hm)|Hok].
    + destruct (at_nomem_spec al s ls fl index HWF Hc Hnil Hm) as (s' & HWF' & _ & ->). eauto.
    + destruct (at_spec al s ls fl index HWF) as (s' & HWF' & _ & Hat).
      { intros Hc Hnil. destruct (cache_malloc_ok al); [done|]. exfalso. by apply Hok. }
      simpl in Hat. destruct (_ || _).
      * rewrite Hat. eauto.
      * destruct Hat as (a & e & _ & _ & ->). simpl. eauto.
  - rewrite bind_run. destruct HWF as [[Hlist Hd] Hc].
    rewrite (view_reversed_spec _ _ _ _ Hlist). simpl. exists ls, fl. by split.
Qed.

(* An index step that fails raises MemoryError and nothing else. *)
Lemma register_entry_raises al s key n en err s' :
  heap s !! n = Some en → register_entry al key n s = Raise err s' → err = MemoryError.
Proof.
  intros Hen Hrun.
  destruct (capsule_ok al && dict_setitem_ok al) eqn:Hal.
  - apply andb_true_iff in Hal as [Hc Hd].
    by rewrite (register_entry_run al s key n Hc Hd) in Hrun.
  - destruct (register_entry_fail al s key n en Hen Hal) as (s1 & Hrun1 & _). congruence.
Qed.

(* A call of the shared interface that fails with an error other than
   MemoryError has changed nothing at all. *)
Lemma exec_shared_error al op s ls fl err s' :
  WF s ls fl → exec_shared value_eq al op s = Raise err s' → err ≠ MemoryError → s' = s.
Proof.
  intros HWF Hrun Hne.
  destruct op; unfold exec_shared in Hrun; rewrite ?bind_run in Hrun.
  - (* len *) done.
  - (* getitem *)
    pose proof (getitem_spec s ls fl key HWF) as Hg.
    destruct (dd_dict (self s) !! key); [destruct Hg as (e0 & _ & _ & _ & Hg)|];
      rewrite Hg in Hrun; simpl in Hrun; by simplify_eq.
  - (* setitem *)
    destruct (dd_dict (self s) !! key) as [a|] eqn:Hk.
    + destruct (setitem_update_spec al s ls fl key value a HWF Hk) as (e0 & _ & _ & _ & Hs & _).
      by rewrite Hs in Hrun.
    + destruct (setitem_new_split al s ls fl key value HWF Hk)
        as [(_ & _ & Hs)|(_ & n & s3 & en & Hs & Hen & _)]; rewrite Hs in Hrun.
      * simpl in Hrun. by simplify_eq.
      * destruct (register_entry al key n s3) as [[] s4|e4 s4|] eqn:Hreg; [done| |done].
        simplify_eq. exfalso. apply Hne. eapply register_entry_raises; eauto.
  - (* delitem *)
    destruct (dd_dict (self s) !! key) as [a|] eqn:Hk.
    + destruct (WF_dict_split _ _ _ _ _ HWF Hk) as (l1 & l2 & e0 & -> & _).
      destruct (delitem_spec al s l1 a l2 fl key HWF Hk) as (s1 & fl' & Hs & _).
      by rewrite Hs in Hrun.
    + unfold DequeDict_setitem in Hrun. rewrite bind_run in Hrun. simpl in Hrun.
      rewrite Hk in Hrun. simpl in Hrun. by simplify_eq.
  - (* contains *) done.
  - (* peekleft *)
    pose proof (peek_front_spec s ls fl HWF) as Hp.
    destruct ls; [destruct Hp as (Hp & _)|destruct Hp as (e0 & _ & Hp & _)];
      rewrite Hp in Hrun; simpl in Hrun; by simplify_eq.
  - pose proof (peek_front_spec s ls fl HWF) as Hp.
    destruct ls; [destruct Hp as (_ & Hp & _)|destruct Hp as (e0 & _ & _ & Hp & _)];
      rewrite Hp in Hrun; simpl in Hrun; by simplify_eq.
  - pose proof (peek_front_spec s ls fl HWF) as Hp.
    destruct ls; [destruct Hp as (_ & _ & Hp)|destruct Hp as (e0 & _ & _ & _ & Hp)];
      rewrite Hp in Hrun; simpl in Hrun; by simplify_eq.
  - (* peek *)
    pose proof (peek_back_spec s ls fl HWF) as Hp.
    destruct (last ls); [destruct Hp as (e0 & _ & Hp & _)|destruct Hp as (Hp & _)];
      rewrite Hp in Hrun; simpl in Hrun; by simplify_eq.
  - pose proof (peek_back_spec s ls fl HWF) as Hp.
    destruct (last ls); [destruct Hp as (e0 & _ & _ & Hp)|destruct Hp as (_ & Hp)];
      rewrite Hp in Hrun; simpl in Hrun; by simplify_eq.
  - (* popleft *)
    destruct ls as [|a ls].
    + destruct (WF_empty_ends _ _ HWF) as [Hhd _].
      unfold DequeDict_popleft in Hrun. rewrite bind_run in Hrun. simpl in Hrun.
      rewrite Hhd in Hrun. simpl in Hrun. by simplify_eq.
    + destruct (popleft_spec s a ls fl HWF) as (e0 & s1 & fl' & _ & Hs & _).
      by rewrite Hs in Hrun.
  - destruct ls as [|a ls].
    + destruct (WF_empty_ends _ _ HWF) as [Hhd _].
      unfold DequeDict_popleftitem in Hrun. rewrite bind_run in Hrun. simpl in Hrun.
      rewrite Hhd in Hrun. simpl in Hrun. by simplify_eq.
    + destruct (popleftitem_spec s a ls fl HWF) as (e0 & s1 & fl' & _ & Hs & _).
      by rewrite Hs in Hrun.
  - (* pop *)
    destruct key as [key|].
    + destruct (dd_dict (self s) !! key) as [a|] eqn:Hk.
      * destruct (WF_dict_split _ _ _ _ _ HWF Hk) as (l1 & l2 & e0 & -> & _).
        destruct (pop_key_spec s l1 a l2 fl key default_val HWF Hk)
          as (e' & s1 & fl' & _ & _ & Hs & _).
        by rewrite Hs in Hrun.
      * unfold DequeDict_pop in Hrun. rewrite bind_run in Hrun. simpl in Hrun.
        rewrite Hk in Hrun. destruct default_val; simpl in Hrun; by simplify_eq.
    + destruct (WF_nil_or_snoc _ _ _ HWF) as [->|(ls' & a & ->)].
      * destruct (WF_empty_ends _ _ HWF) as [_ Htl].
        unfold DequeDict_pop in Hrun. rewrite bind_run in Hrun. simpl in Hrun.
        rewrite Htl in Hrun. destruct default_val; simpl in Hrun; by simplify_eq.
      * destruct (pop_back_spec s ls' a fl default_val HWF) as (e0 & s1 & fl' & _ & Hs & _).
        by rewrite Hs in Hrun.
  - (* popitem *)
    destruct (WF_nil_or_snoc _ _ _ HWF) as [->|(ls' & a & ->)].
    + destruct (WF_empty_ends _ _ HWF) as [_ Htl].
      unfold DequeDict_popitem in Hrun. rewrite bind_run in Hrun. simpl in Hrun.
      rewrite Htl in Hrun. simpl in Hrun. by simplify_eq.
    + destruct (popitem_spec s ls' a fl HWF) as (e0 & s1 & fl' & _ & Hs & _).
      by rewrite Hs in Hrun.
  - (* appendleft *)
    destruct (dd_dict (self s) !! key) as [a|] eqn:Hk.
    + unfold DequeDict_appendleft in Hrun. rewrite bind_run in Hrun. simpl in Hrun.
      rewrite Hk in Hrun. simpl in Hrun. by simplify_eq.
    + destruct (appendleft_new_split al s ls fl key value HWF Hk)
        as [(_ & _ & Hs)|(_ & n & s3 & en & Hs & Hen & _)]; rewrite Hs in Hrun.
      * simpl in Hrun. by simplify_eq.
      * destruct (register_entry al key n s3) as [[] s4|e4 s4|] eqn:Hreg; [done| |done].
        simplify_eq. exfalso. apply Hne. eapply register_entry_raises; eauto.
  - (* get *)
    pose proof (get_spec s ls fl key default_val HWF) as Hg.
    destruct (dd_dict (self s) !! key); [destruct Hg as (e0 & _ & _ & Hg)|];
      by rewrite Hg in Hrun.
  - (* clear *)
    destruct (clear_spec s ls fl HWF) as (s1 & fl' & Hs & _). by rewrite Hs in Hrun.
  - (* move_to_end *)
    match goal with b : bool |- _ => rename b into to_back end.
    destruct (dd_dict (self s) !! key) as [a|] eqn:Hk.
    2:{ unfold DequeDict_move_to_end in Hrun. rewrite bind_run in Hrun. simpl in Hrun.
        rewrite Hk in Hrun. simpl in Hrun. by simplify_eq. }
    destruct (WF_dict_split _ _ _ _ _ HWF Hk) as (l1 & l2 & e0 & -> & _).
    assert (Decision (if to_back then l2 ≠ [] else l1 ≠ [])) as Hdec
      by (destruct to_back; apply _).
    destruct Hdec as [Hend|Hend].
    + destruct (move_to_end_spec s l1 a l2 fl key to_back HWF Hk Hend) as (s1 & Hs & _).
      by rewrite Hs in Hrun.
    + pose proof HWF as [[(Hnd & _ & Hhd & Htl & _) _] _].
      apply NoDup_app in Hnd as (Hnd & _).
      unfold DequeDict_move_to_end in Hrun. rewrite bind_run in Hrun. simpl in Hrun.
      rewrite Hk, Hhd, Htl in Hrun.
      destruct to_back.
      * assert (l2 = []) as -> by (by destruct l2; [|exfalso; apply Hend]).
        by rewrite last_snoc, bool_decide_eq_true_2 in Hrun.
      * assert (l1 = []) as -> by (by destruct l1; [|exfalso; apply Hend]).
        simpl in Hrun. by rewrite bool_decide_eq_true_2 in Hrun.
  - (* iter *)
    destruct HWF as [[Hlist _] _]. by rewrite (iter_spec _ _ _ Hlist) in Hrun.
  - destruct HWF as [[Hlist _] _]. by rewrite (reversed_spec _ _ _ Hlist) in Hrun.
  - destruct HWF as [[Hlist _] _]. by rewrite (view_iter_spec _ _ _ _ Hlist) in Hrun.
  - (* richcompare *)
    destruct HWF as [[Hlist _] _].
    destruct op; try done.
    + by rewrite (richcompare_spec value_eq other s ls fl false Hlist) in Hrun.
    + by rewrite (richcompare_spec value_eq other s ls fl true Hlist) in Hrun.
Qed.

End Exec.

End Run.

(* ------------------------------------------------------------------- *)
(* The two sources side by side                                         *)
(* ------------------------------------------------------------------- *)

Section Simulation.
Context {K : Type} `{Countable K} {V : Type}.
Implicit Types (e : DequeDictEntry (K:=K) (V:=V)).
Implicit Types (o : DequeDictObject (K:=K)).
Implicit Types (s : State (K:=K) (V:=V)).

Lemma sim_ret {A B} (R : A → B → Prop) a b :
  R a b → sim (K:=K) (V:=V) R (mret a) (mret b).
Proof. intros HR s Hs. simpl. eauto. Qed.

Lemma sim_raise {A B} (R : A → B → Prop) err :
  sim (K:=K) (V:=V) R (raise err) (NoCache.raise err).
Proof. intros s Hs. by simpl. Qed.

Lemma sim_fault {A B} (R : A → B → Prop) :
  sim (K:=K) (V:=V) R fault NoCache.fault.
Proof. intros s Hs. by simpl. Qed.

Lemma sim_bind {A B A' B'} (R : A → A' → Prop) (R' : B → B' → Prop)
    (m : M (K:=K) (V:=V) A) m' f f' :
  sim R m m' → (∀ a a', R a a' → sim R' (f a) (f' a')) → sim R' (m ≫= f) (m' ≫= f').
Proof.
  intros Hm Hf s Hs. specialize (Hm s Hs).
  unfold mbind, M_bind, NoCache.M_bind.
  destruct (m s) as [a s1|err s1|].
  - destruct Hm as (Hs1 & a' & HR & ->). apply (Hf a a' HR s1 Hs1).
  - by destruct Hm as (Hs1 & ->).
  - by rewrite Hm.
Qed.

(* A step that only touches the cache fields has no counterpart. *)
Lemma sim_skip {B B'} (R' : B → B' → Prop) (c : M (K:=K) (V:=V) unit) k k' :
  sim eq c (mret tt) → sim R' k k' → sim R' (c;; k) k'.
Proof.
  intros Hc Hk s Hs.
  exact (sim_bind eq R' c (mret tt) (λ _, k) (λ _, k') Hc (λ _ _ _, Hk) s Hs).
Qed.

Lemma sim_skip_tail (m : M (K:=K) (V:=V) unit) (m' : NoCache.M unit) (c : M unit) :
  sim eq m m' → sim eq c (mret tt) → sim eq (m;; c) m'.
Proof.
  intros Hm Hc s Hs. specialize (Hm s Hs). unfold mbind, M_bind.
  destruct (m s) as [[] s1|err s1|]; [|done..].
  destruct Hm as (Hs1 & [] & _ & Hm'). specialize (Hc s1 Hs1).
  destruct (c s1) as [[] s2|err s2|].
  - destruct Hc as (Hs2 & [] & _ & Hc). split; [done|]. exists tt. split; [done|].
    rewrite Hm'. exact Hc.
  - by destruct Hc as (_ & ?).
  - done.
Qed.

Lemma sim_get_state : sim (K:=K) (V:=V) same_state get_state NoCache.get_state.
Proof. intros s Hs. simpl. split; [done|]. by exists (erase s). Qed.

Lemma sim_get_self : sim (K:=K) (V:=V) same_object get_self NoCache.get_self.
Proof. intros s Hs. simpl. split; [done|]. by exists (erase_object (self s)). Qed.

Lemma sim_put_self o :
  index_cache o = None → sim (K:=K) (V:=V) eq (put_self o) (NoCache.put_self (erase_object o)).
Proof. intros Ho s Hs. simpl. split; [done|]. by exists tt. Qed.

Lemma sim_put_heap (h : gmap positive (DequeDictEntry (K:=K) (V:=V))) :
  sim eq (put_heap h) (NoCache.put_heap (erase_entry <$> h)).
Proof. intros s Hs. simpl. split; [done|]. by exists tt. Qed.

Lemma sim_put_freelist f n : sim (K:=K) (V:=V) eq (put_freelist f n) (NoCache.put_freelist f n).
Proof. intros s Hs. simpl. split; [done|]. by exists tt. Qed.

Lemma sim_load a : sim (K:=K) (V:=V) same_entry (load a) (NoCache.load a).
Proof.
  intros s Hs. unfold load, NoCache.load. simpl. rewrite lookup_fmap.
  destruct (heap s !! a) as [e|]; simpl; [|done]. split; [done|]. by exists (erase_entry e).
Qed.

Lemma sim_store a e : sim eq (store a e) (NoCache.store a (erase_entry e)).
Proof.
  intros s Hs. unfold store, NoCache.store. simpl. rewrite lookup_fmap.
  destruct (heap s !! a) as [e0|]; simpl; [|done]. split; [done|]. exists tt.
  split; [done|]. unfold erase. simpl. by rewrite fmap_insert.
Qed.

(* The cache helpers, on an object without array. *)
Lemma sim_invalidate_cache : sim (K:=K) (V:=V) eq DequeDict_invalidate_cache (mret tt).
Proof. intros s Hs. simpl. split; [done|]. by exists tt. Qed.

Lemma sim_cache_bump_offset : sim (K:=K) (V:=V) eq cache_bump_offset (mret tt).
Proof.
  intros s Hs. unfold cache_bump_offset. msimpl. rewrite Hs. simpl.
  split; [done|]. by exists tt.
Qed.

Lemma sim_cache_pop_right : sim (K:=K) (V:=V) eq cache_pop_right (mret tt).
Proof.
  intros s Hs. unfold cache_pop_right. msimpl. rewrite Hs. simpl.
  split; [done|]. by exists tt.
Qed.

Lemma sim_cache_append al n : sim (K:=K) (V:=V) eq (cache_append al n) (mret tt).
Proof.
  intros s Hs. unfold cache_append. msimpl. rewrite Hs. simpl.
  split; [done|]. by exists tt.
Qed.

Create HintDb sim discriminated.
#[local] Hint Resolve sim_get_state sim_get_self sim_put_heap sim_put_freelist
  sim_load sim_store : sim.

(* One step of a proof that two computations written alike go alike. *)
Ltac sim_intro :=
  let a := fresh "a" in
  let b := fresh "b" in
  let HR := fresh "HR" in
  intros a b HR;
  first [ subst b | red in HR; subst b | destruct HR as [-> HR] ];
  simpl.

Ltac sim_go :=
  lazymatch goal with
  | |- sim _ (mret _) (mret _) =>
      apply sim_ret; first [done|unfold erase; simpl; rewrite ?dom_fmap_L; done|idtac]
  | |- sim _ (raise _) _ => apply sim_raise
  | |- sim _ fault _ => apply sim_fault
  | |- sim _ (match ?x with _ => _ end) _ =>
      unfold erase; simpl; rewrite ?lookup_fmap; destruct x; simpl; sim_go
  | |- sim _ (DequeDict_invalidate_cache ≫= _) _ =>
      apply sim_skip; [apply sim_invalidate_cache|sim_go]
  | |- sim _ (cache_bump_offset ≫= _) _ =>
      apply sim_skip; [apply sim_cache_bump_offset|sim_go]
  | |- sim _ (cache_pop_right ≫= _) _ =>
      apply sim_skip; [apply sim_cache_pop_right|sim_go]
  | |- sim _ (cache_append _ _ ≫= _) _ =>
      apply sim_skip; [apply sim_cache_append|sim_go]
  | |- sim _ (_ ≫= (λ _, DequeDict_invalidate_cache)) _ =>
      apply sim_skip_tail; [sim_go|apply sim_invalidate_cache]
  | |- sim _ (_ ≫= _) (_ ≫= _) =>
      eapply sim_bind; [sim_go|first [sim_intro; sim_go|idtac]]
  | |- sim _ _ _ => try solve [eauto with sim]
  end.

Lemma sim_set_value a v : sim (K:=K) (V:=V) eq (set_value a v) (NoCache.set_value a v).
Proof. unfold set_value, NoCache.set_value. sim_go. Qed.

Lemma sim_set_prev a p : sim (K:=K) (V:=V) eq (set_prev a p) (NoCache.set_prev a p).
Proof. unfold set_prev, NoCache.set_prev. sim_go. Qed.

Lemma sim_set_next a n : sim (K:=K) (V:=V) eq (set_next a n) (NoCache.set_next a n).
Proof. unfold set_next, NoCache.set_next. sim_go. Qed.

#[local] Hint Resolve sim_set_value sim_set_prev sim_set_next : sim.

Lemma sim_set_dict d : sim (K:=K) (V:=V) eq (set_dict d) (NoCache.set_dict d).
Proof.
  unfold set_dict, NoCache.set_dict. sim_go.
  by apply (sim_put_self (mkObject d (dd_head a) (dd_tail a) (dd_size a) (index_cache a)
                            (cache_size a) (cache_capacity a) (cache_offset a))).
Qed.

Lemma sim_set_head p : sim (K:=K) (V:=V) eq (set_head p) (NoCache.set_head p).
Proof.
  unfold set_head, NoCache.set_head. sim_go.
  by apply (sim_put_self (mkObject (dd_dict a) p (dd_tail a) (dd_size a) (index_cache a)
                            (cache_size a) (cache_capacity a) (cache_offset a))).
Qed.

Lemma sim_set_tail p : sim (K:=K) (V:=V) eq (set_tail p) (NoCache.set_tail p).
Proof.
  unfold set_tail, NoCache.set_tail. sim_go.
  by apply (sim_put_self (mkObject (dd_dict a) (dd_head a) p (dd_size a) (index_cache a)
                            (cache_size a) (cache_capacity a) (cache_offset a))).
Qed.

Lemma sim_set_size n : sim (K:=K) (V:=V) eq (set_size n) (NoCache.set_size n).
Proof.
  unfold set_size, NoCache.set_size. sim_go.
  by apply (sim_put_self (mkObject (dd_dict a) (dd_head a) (dd_tail a) n (index_cache a)
                            (cache_size a) (cache_capacity a) (cache_offset a))).
Qed.

#[local] Hint Resolve sim_set_dict sim_set_head sim_set_tail sim_set_size : sim.

(* The pool *)
Lemma sim_entry_alloc al : sim (K:=K) (V:=V) eq (entry_alloc al) (NoCache.entry_alloc al).
Proof.
  unfold entry_alloc, NoCache.entry_alloc. sim_go.
Qed.

Lemma sim_init_entry a e : sim eq (init_entry a e) (NoCache.init_entry a (erase_entry e)).
Proof.
  unfold init_entry, NoCache.init_entry. sim_go.
  unfold erase. simpl. rewrite <-fmap_insert. apply sim_put_heap.
Qed.

Lemma sim_entry_free a : sim (K:=K) (V:=V) eq (entry_free a) (NoCache.entry_free a).
Proof.
  unfold entry_free, NoCache.entry_free. sim_go.
  rewrite <-fmap_delete. apply sim_put_heap.
Qed.

#[local] Hint Resolve sim_entry_alloc sim_init_entry sim_entry_free : sim.

(* The blocks the functions share *)
Lemma sim_unlink a : sim (K:=K) (V:=V) eq (unlink a) (NoCache.unlink a).
Proof. unfold unlink, NoCache.unlink. sim_go. Qed.

Lemma sim_unlink_head a : sim (K:=K) (V:=V) eq (unlink_head a) (NoCache.unlink_head a).
Proof. unfold unlink_head, NoCache.unlink_head. sim_go. Qed.

Lemma sim_unlink_tail a : sim (K:=K) (V:=V) eq (unlink_tail a) (NoCache.unlink_tail a).
Proof. unfold unlink_tail, NoCache.unlink_tail. sim_go. Qed.

Lemma sim_dict_delitem key : sim (K:=K) (V:=V) eq (dict_delitem key) (NoCache.dict_delitem key).
Proof. unfold dict_delitem, NoCache.dict_delitem. sim_go. Qed.

Lemma sim_size_incr : sim (K:=K) (V:=V) eq size_incr NoCache.size_incr.
Proof. unfold size_incr, NoCache.size_incr. sim_go. Qed.

Lemma sim_size_decr : sim (K:=K) (V:=V) eq size_decr NoCache.size_decr.
Proof. unfold size_decr, NoCache.size_decr. sim_go. Qed.

#[local] Hint Resolve sim_unlink sim_unlink_head sim_unlink_tail sim_dict_delitem
  sim_size_incr sim_size_decr : sim.

Lemma sim_discard_entry a key : sim (K:=K) (V:=V) eq (discard_entry a key) (NoCache.discard_entry a key).
Proof. unfold discard_entry, NoCache.discard_entry. sim_go. Qed.

Lemma sim_link_tail a : sim (K:=K) (V:=V) eq (link_tail a) (NoCache.link_tail a).
Proof. unfold link_tail, NoCache.link_tail. sim_go. Qed.

Lemma sim_link_head a : sim (K:=K) (V:=V) eq (link_head a) (NoCache.link_head a).
Proof. unfold link_head, NoCache.link_head. sim_go. Qed.

Lemma sim_register_entry al key a :
  sim (K:=K) (V:=V) eq (register_entry al key a) (NoCache.register_entry al key a).
Proof. unfold register_entry, NoCache.register_entry. sim_go. Qed.

#[local] Hint Resolve sim_discard_entry sim_link_tail sim_link_head sim_register_entry : sim.

(* The methods *)
Lemma sim_len : sim (K:=K) (V:=V) eq DequeDict_len NoCache.DequeDict_len.
Proof. unfold DequeDict_len, NoCache.DequeDict_len. sim_go. Qed.

Lemma sim_getitem key : sim (K:=K) (V:=V) eq (DequeDict_getitem key) (NoCache.DequeDict_getitem key).
Proof. unfold DequeDict_getitem, NoCache.DequeDict_getitem. sim_go. Qed.

Lemma sim_setitem al key value :
  sim (K:=K) (V:=V) eq (DequeDict_setitem al key value) (NoCache.DequeDict_setitem al key value).
Proof. unfold DequeDict_setitem, NoCache.DequeDict_setitem. sim_go. Qed.

Lemma sim_contains key : sim (K:=K) (V:=V) eq (DequeDict_contains key) (NoCache.DequeDict_contains key).
Proof. unfold DequeDict_contains, NoCache.DequeDict_contains. sim_go. Qed.

Lemma sim_peekleft : sim (K:=K) (V:=V) eq DequeDict_peekleft NoCache.DequeDict_peekleft.
Proof. unfold DequeDict_peekleft, NoCache.DequeDict_peekleft. sim_go. Qed.

Lemma sim_peekleftitem : sim (K:=K) (V:=V) eq DequeDict_peekleftitem NoCache.DequeDict_peekleftitem.
Proof. unfold DequeDict_peekleftitem, NoCache.DequeDict_peekleftitem. sim_go. Qed.

Lemma sim_peekleftkey : sim (K:=K) (V:=V) eq DequeDict_peekleftkey NoCache.DequeDict_peekleftkey.
Proof. unfold DequeDict_peekleftkey, NoCache.DequeDict_peekleftkey. sim_go. Qed.

Lemma sim_peek : sim (K:=K) (V:=V) eq DequeDict_peek NoCache.DequeDict_peek.
Proof. unfold DequeDict_peek, NoCache.DequeDict_peek. sim_go. Qed.

Lemma sim_peekitem : sim (K:=K) (V:=V) eq DequeDict_peekitem NoCache.DequeDict_peekitem.
Proof. unfold DequeDict_peekitem, NoCache.DequeDict_peekitem. sim_go. Qed.

Lemma sim_popleft : sim (K:=K) (V:=V) eq DequeDict_popleft NoCache.DequeDict_popleft.
Proof. unfold DequeDict_popleft, NoCache.DequeDict_popleft. sim_go. Qed.

Lemma sim_popleftitem : sim (K:=K) (V:=V) eq DequeDict_popleftitem NoCache.DequeDict_popleftitem.
Proof. unfold DequeDict_popleftitem, NoCache.DequeDict_popleftitem. sim_go. Qed.

Lemma sim_pop key d : sim (K:=K) (V:=V) eq (DequeDict_pop key d) (NoCache.DequeDict_pop key d).
Proof. unfold DequeDict_pop, NoCache.DequeDict_pop. sim_go. Qed.

Lemma sim_popitem : sim (K:=K) (V:=V) eq DequeDict_popitem NoCache.DequeDict_popitem.
Proof. unfold DequeDict_popitem, NoCache.DequeDict_popitem. sim_go. Qed.

Lemma sim_appendleft al key value :
  sim (K:=K) (V:=V) eq (DequeDict_appendleft al key value) (NoCache.DequeDict_appendleft al key value).
Proof. unfold DequeDict_appendleft, NoCache.DequeDict_appendleft. sim_go. Qed.

Lemma sim_get key d : sim (K:=K) (V:=V) eq (DequeDict_get key d) (NoCache.DequeDict_get key d).
Proof. unfold DequeDict_get, NoCache.DequeDict_get. sim_go. Qed.

Lemma sim_move_to_end key (to_back : bool) :
  sim (K:=K) (V:=V) eq (DequeDict_move_to_end key to_back) (NoCache.DequeDict_move_to_end key to_back).
Proof. unfold DequeDict_move_to_end, NoCache.DequeDict_move_to_end. sim_go. Qed.

#[local] Hint Resolve sim_getitem sim_setitem sim_pop sim_appendleft sim_get
  sim_move_to_end sim_len sim_contains sim_peekleft sim_peekleftitem sim_peekleftkey
  sim_peek sim_peekitem sim_popleft sim_popleftitem sim_popitem : sim.

(* The loops, by induction on their fuel *)
Lemma sim_clear_loop fuel entry :
  sim (K:=K) (V:=V) eq (clear_loop fuel entry) (NoCache.clear_loop fuel entry).
Proof.
  revert entry. induction fuel as [|fuel IH]; intros [a|].
  - apply sim_fault.
  - by apply sim_ret.
  - rewrite clear_loop_S. simpl. sim_go.
  - by apply sim_ret.
Qed.

#[local] Hint Resolve sim_clear_loop : sim.

Lemma sim_clear_method : sim (K:=K) (V:=V) eq DequeDict_clear_method NoCache.DequeDict_clear_method.
Proof.
  unfold DequeDict_clear_method, NoCache.DequeDict_clear_method.
  eapply sim_bind; [apply sim_get_state|]. intros s s' [-> Hs].
  unfold erase. simpl. rewrite map_size_fmap. sim_go.
Qed.

Lemma sim_drain {X} (next : ptr → M (option (X * ptr))) next' fuel current :
  (∀ c, sim (K:=K) (V:=V) eq (next c) (next' c)) →
  sim eq (drain next fuel current) (NoCache.drain next' fuel current).
Proof.
  intros Hnext. revert current. induction fuel as [|fuel IH]; intros current.
  - by apply sim_ret.
  - rewrite drain_S. simpl.
    eapply sim_bind; [apply Hnext|]. intros r ? <-. destruct r as [[x c]|]; sim_go.
Qed.

Lemma sim_list_of {X} (next : ptr → M (option (X * ptr))) next' current :
  (∀ c, sim (K:=K) (V:=V) eq (next c) (next' c)) →
  sim eq (list_of next current) (NoCache.list_of next' current).
Proof.
  intros Hnext. unfold list_of, NoCache.list_of.
  eapply sim_bind; [apply sim_get_state|]. intros s s' [-> Hs].
  change (NoCache.heap (erase s)) with (erase_entry <$> heap s). rewrite map_size_fmap.
  eapply sim_bind; [by apply sim_drain|]. intros r ? <-. destruct r; sim_go.
Qed.

Lemma sim_iter_next c : sim (K:=K) (V:=V) eq (DequeDictIter_next c) (NoCache.DequeDictIter_next c).
Proof. unfold DequeDictIter_next, NoCache.DequeDictIter_next. sim_go. Qed.

Lemma sim_reviter_next c : sim (K:=K) (V:=V) eq (DequeDictRevIter_next c) (NoCache.DequeDictRevIter_next c).
Proof. unfold DequeDictRevIter_next, NoCache.DequeDictRevIter_next. sim_go. Qed.

Lemma sim_viewiter_next kind c :
  sim (K:=K) (V:=V) eq (DequeDictViewIter_next kind false c) (NoCache.DequeDictViewIter_next kind c).
Proof. unfold DequeDictViewIter_next, NoCache.DequeDictViewIter_next. sim_go. Qed.

Lemma sim_iter : sim (K:=K) (V:=V) eq DequeDict_iter NoCache.DequeDict_iter.
Proof.
  unfold DequeDict_iter, NoCache.DequeDict_iter.
  eapply sim_bind; [apply sim_get_self|]. intros o ? [-> Ho]. simpl.
  apply sim_list_of, sim_iter_next.
Qed.

Lemma sim_reversed : sim (K:=K) (V:=V) eq DequeDict_reversed NoCache.DequeDict_reversed.
Proof.
  unfold DequeDict_reversed, NoCache.DequeDict_reversed.
  eapply sim_bind; [apply sim_get_self|]. intros o ? [-> Ho]. simpl.
  apply sim_list_of, sim_reviter_next.
Qed.

Lemma sim_view_iter kind : sim (K:=K) (V:=V) eq (DequeDictView_iter kind) (NoCache.DequeDictView_iter kind).
Proof.
  unfold DequeDictView_iter, NoCache.DequeDictView_iter.
  eapply sim_bind; [apply sim_get_self|]. intros o ? [-> Ho]. simpl.
  apply sim_list_of, sim_viewiter_next.
Qed.

Section Compare.
Context (value_eq : V → V → bool) `{PyMapping K V T} (other : T).

Lemma sim_compare_loop fuel ne entry :
  sim eq (compare_loop value_eq fuel other ne entry)
         (NoCache.compare_loop value_eq fuel other ne entry).
Proof.
  revert entry. induction fuel as [|fuel IH]; intros [a|].
  - apply sim_fault.
  - by apply sim_ret.
  - rewrite compare_loop_S. simpl. sim_go.
  - by apply sim_ret.
Qed.

Lemma sim_richcompare op :
  sim eq (DequeDict_richcompare value_eq other op)
         (NoCache.DequeDict_richcompare value_eq other op).
Proof.
  unfold DequeDict_richcompare, NoCache.DequeDict_richcompare.
  destruct op; try (by apply sim_ret).
  - eapply sim_bind; [apply sim_get_state|]. intros s s' [-> Hs].
    unfold erase. simpl. rewrite map_size_fmap.
    destruct (negb _); [by apply sim_ret|apply sim_compare_loop].
  - eapply sim_bind; [apply sim_get_state|]. intros s s' [-> Hs].
    unfold erase. simpl. rewrite map_size_fmap.
    destruct (negb _); [by apply sim_ret|apply sim_compare_loop].
Qed.

End Compare.

(* One call, and a script of calls *)
Lemma sim_exec value_eq al op :
  sim (K:=K) (V:=V) eq (exec_shared value_eq al op) (NoCache.exec value_eq al op).
Proof.
  destruct op; unfold exec_shared, NoCache.exec;
    try (eapply sim_bind;
         [first [apply sim_len|apply sim_getitem|apply sim_setitem|apply sim_contains
                |apply sim_peekleft|apply sim_peekleftitem|apply sim_peekleftkey
                |apply sim_peek|apply sim_peekitem|apply sim_popleft
                |apply sim_popleftitem|apply sim_pop|apply sim_popitem
                |apply sim_appendleft|apply sim_get|apply sim_clear_method
                |apply sim_move_to_end|apply sim_iter|apply sim_reversed
                |apply sim_view_iter]
         |intros ? ? <-; by apply sim_ret]).
  apply sim_richcompare.
Qed.

Lemma sim_run value_eq ops : ∀ s,
  index_cache (self s) = None →
  NoCache.run value_eq ops (erase s)
  = ((run value_eq (shared_script ops) s).1, erase <$> (run value_eq (shared_script ops) s).2).
Proof.
  induction ops as [|[al op] ops IH]; intros s Hs; [done|].
  pose proof (sim_exec value_eq al op s Hs) as Hstep.
  simpl.
  destruct (exec_shared value_eq al op s) as [v s1|err s1|].
  - destruct Hstep as (Hs1 & ? & <- & ->). by rewrite (IH s1 Hs1).
  - destruct Hstep as (Hs1 & ->). by rewrite (IH s1 Hs1).
  - by rewrite Hstep.
Qed.

(* Construction from items, update and setdefault *)
Lemma sim_init_loop items :
  sim (K:=K) (V:=V) eq (init_loop items) (NoCacheMethods.init_loop items).
Proof.
  induction items as [|[al [key value]] items IH]; [by apply sim_ret|].
  simpl. sim_go.
Qed.

Lemma sim_init items :
  sim (K:=K) (V:=V) eq (DequeDict_init items) (NoCacheMethods.DequeDict_init items).
Proof.
  unfold DequeDict_init, NoCacheMethods.DequeDict_init.
  eapply sim_bind; [apply sim_get_state|]. intros s s' [-> Hs].
  unfold erase. simpl. rewrite map_size_fmap.
  pose proof (sim_init_loop items). sim_go.
Qed.

Lemma sim_update_loop items :
  sim (K:=K) (V:=V) eq (update_loop items) (NoCacheMethods.update_loop items).
Proof.
  induction items as [|[al [key value]] items IH]; [by apply sim_ret|].
  simpl. sim_go.
Qed.

Lemma sim_update other kwds :
  sim (K:=K) (V:=V) eq (DequeDict_update other kwds) (NoCacheMethods.DequeDict_update other kwds).
Proof.
  unfold DequeDict_update, NoCacheMethods.DequeDict_update.
  pose proof (sim_update_loop other). pose proof (sim_update_loop kwds). sim_go.
Qed.

Lemma sim_setdefault al key default_val :
  sim (K:=K) (V:=V) eq (DequeDict_setdefault al key default_val)
    (NoCacheMethods.DequeDict_setdefault al key default_val).
Proof. unfold DequeDict_setdefault, NoCacheMethods.DequeDict_setdefault. sim_go. Qed.

End Simulation.

(* ------------------------------------------------------------------- *)
(* The properties of the interface                                      *)
(* ------------------------------------------------------------------- *)

Section Properties.
Context {K : Type} `{Countable K} {V : Type}.
Implicit Types (e : DequeDictEntry (K:=K) (V:=V)).
Implicit Types (s : State (K:=K) (V:=V)) (ls fl : list positive).

(** C6: when the key is already present, set(k, v) writes v into the
    entry of k and nothing else: the object (size, head, tail, key index
    and every field of the position cache, array included) and the pool
    are as before, every other entry is untouched, the entry of k keeps
    its key and links, so the order of iteration is the same, and a
    following get(k) returns v. *)
Theorem set_existing_key_replaces_value al s ls fl key value :
  WF s ls fl → is_Some (dd_dict (self s) !! key) →
  ∃ s' a e,
    DequeDict_setitem al key (Some value) s = Done tt s' ∧
    dd_dict (self s) !! key = Some a ∧ heap s !! a = Some e ∧
    self s' = self s ∧ freelist s' = freelist s ∧ freelist_size s' = freelist_size s ∧
    heap s' = <[a:=with_value e value]> (heap s) ∧
    WF s' ls fl ∧
    DequeDict_iter s' = Done (e_key <$> entries (heap s) ls) s' ∧
    DequeDict_iter s = Done (e_key <$> entries (heap s) ls) s ∧
    ∀ d, DequeDict_get key d s' = Done (Some value) s'.
Proof.
  intros HWF [a Hk].
  destruct (setitem_update_spec al s ls fl key value a HWF Hk)
    as (e & He & Hkey & Ha & Hrun & HWF').
  eexists _, a, e. split; [exact Hrun|]. simpl. split_and!; try done.
  - destruct HWF' as [[Hlist' _] _]. rewrite (iter_spec _ _ _ Hlist'). simpl.
    f_equal. unfold entries. clear -He.
    induction ls as [|b ls IH]; [done|]. csimpl.
    destruct (decide (b = a)) as [->|Hb].
    + rewrite lookup_insert_eq, He. csimpl. by rewrite IH.
    + rewrite lookup_insert_ne by done. destruct (heap s !! b); csimpl; by rewrite IH.
  - destruct HWF as [[Hlist _] _]. by rewrite (iter_spec _ _ _ Hlist).
  - intros d. pose proof (get_spec _ ls fl key d HWF') as Hg. simpl in Hg.
    rewrite Hk in Hg. destruct Hg as (e' & He' & _ & Hg).
    simpl in He'. rewrite lookup_insert_eq in He'. injection He' as <-. exact Hg.
Qed.

(** C1: an allocation failure while set(key, value) or
    append_front(key, value) creates the entry of a new key.  When the
    entry itself cannot be allocated both calls raise MemoryError and the
    state is the one before the call.  When the handle for the key index
    (PyLong_FromVoidPtr) or the insertion in the key index
    (PyDict_SetItem) fails, the calls raise MemoryError too, but the
    entry has already been linked and counted and only entry_free runs:
    the size is one more than before and the tail (the head for
    append_front) is the entry that was handed back to the pool; the key
    is still absent from the key index. *)
Theorem new_entry_allocation_failure al s ls fl key value :
  WF s ls fl → dd_dict (self s) !! key = None →
  (fl = [] → entry_malloc_ok al = false →
   DequeDict_setitem al key (Some value) s = Raise MemoryError s ∧
   DequeDict_appendleft al key value s = Raise MemoryError s) ∧
  ((fl = [] → entry_malloc_ok al = true) →
   capsule_ok al && dict_setitem_ok al = false →
   ∃ s1 s2,
     DequeDict_setitem al key (Some value) s = Raise MemoryError s1 ∧
     dd_size (self s1) = dd_size (self s) + 1 ∧
     dd_tail (self s1) ≠ dd_tail (self s) ∧
     dd_dict (self s1) !! key = None ∧
     DequeDict_appendleft al key value s = Raise MemoryError s2 ∧
     dd_size (self s2) = dd_size (self s) + 1 ∧
     dd_head (self s2) ≠ dd_head (self s) ∧
     dd_dict (self s2) !! key = None).
Proof.
  intros HWF Hk.
  pose proof (setitem_new_split al s ls fl key value HWF Hk) as Hset.
  pose proof (appendleft_new_split al s ls fl key value HWF Hk) as Happ.
  pose proof HWF as [[(_ & _ & Hhd & Htl & _) _] _].
  split.
  - intros Hfl Hm.
    destruct Hset as [(_ & _ & Hset)|(Hok & _)]; [|by rewrite Hok in Hm].
    destruct Happ as [(_ & _ & Happ)|(Hok & _)]; [|by rewrite Hok in Hm].
    done.
  - intros Hok Hfail.
    destruct Hset as [(Hfl & Hm & _)|(_ & n & s3 & en & Hset & Hen & Hn & Hsz & Htl3 & Hd3)];
      [by rewrite Hok in Hm|].
    destruct Happ as [(Hfl & Hm & _)|(_ & n' & s3' & en' & Happ & Hen' & Hn' & Hsz' & Hhd3 & Hd3')];
      [by rewrite Hok in Hm|].
    destruct (register_entry_fail al s3 key n en Hen Hfail) as (s1 & Hr1 & Hself1).
    destruct (register_entry_fail al s3' key n' en' Hen' Hfail) as (s2 & Hr2 & Hself2).
    exists s1, s2. rewrite Hset, Happ, Hself1, Hself2. split_and!; try done.
    + rewrite Htl3, Htl. intros Hl. symmetry in Hl. by apply last_Some_elem_of in Hl.
    + by rewrite Hd3.
    + rewrite Hhd3, Hhd. intros Hl. symmetry in Hl. by apply head_Some_elem_of in Hl.
    + by rewrite Hd3'.
Qed.

(** C7: pop(k, default) for a key that is absent returns the default and
    pop(k) without default raises KeyError(k), the state being the one
    before the call in both cases.  For a key that is present, pop(k)
    and pop(k, default) return its value and leave exactly the state that
    del d[k] leaves: the entry is unlinked from where it stood, the other
    pairs keep their order, the size is one less, the key is gone from
    the key index and the position cache is dropped. *)
Theorem pop_by_key al s ls fl key :
  WF s ls fl →
  match dd_dict (self s) !! key with
  | None =>
      (∀ d, DequeDict_pop (Some key) (Some d) s = Done d s) ∧
      DequeDict_pop (Some key) None s = Raise (KeyError_obj key) s
  | Some a =>
      ∃ e l1 l2 s' fl',
        heap s !! a = Some e ∧ ls = l1 ++ a :: l2 ∧
        (∀ d, DequeDict_pop (Some key) d s = Done (e_value e) s') ∧
        DequeDict_setitem al key None s = Done tt s' ∧
        WF s' (l1 ++ l2) fl' ∧
        content (heap s) ls
        = content (heap s) l1 ++ (key, e_value e) :: content (heap s) l2 ∧
        content (heap s') (l1 ++ l2) = content (heap s) l1 ++ content (heap s) l2 ∧
        dd_size (self s') = dd_size (self s) - 1 ∧
        dd_dict (self s') = delete key (dd_dict (self s)) ∧
        index_cache (self s') = None
  end.
Proof.
  intros HWF. destruct (dd_dict (self s) !! key) as [a|] eqn:Hk.
  2:{ split; [intros d|]; unfold DequeDict_pop; rewrite bind_run; simpl; by rewrite Hk. }
  destruct (WF_dict_split _ _ _ _ _ HWF Hk) as (l1 & l2 & e0 & -> & He0 & Hkey).
  destruct (remove_key_core s l1 a l2 fl HWF)
    as (e & s' & fl' & He & Hd & Hrun & HWF' & Hcont & Hc & _ & _ & _ & Hdict).
  assert (e = e0) as -> by congruence. subst key.
  unfold mbind, M_bind in Hrun.
  exists e0, l1, l2, s', fl'. split_and!; try done.
  - intros d. unfold DequeDict_pop, mbind, M_bind. simpl. rewrite Hk, (load_run _ _ _ He).
    destruct (unlink a s) as [[] s1|?|]; [|done..].
    destruct (discard_entry a (e_key e0) s1) as [[] s2|?|]; [|done..].
    simpl in Hrun |- *. by injection Hrun as ->.
  - unfold DequeDict_setitem, mbind, M_bind. simpl. by rewrite Hk.
  - by rewrite content_app, (content_cons _ _ _ _ He).
  - by rewrite Hcont, content_app.
  - destruct HWF as [[(_ & _ & _ & _ & Hsz & _) _] _].
    destruct HWF' as [[(_ & _ & _ & _ & Hsz' & _) _] _].
    rewrite Hsz, Hsz', !length_app. simpl. lia.
Qed.

(* The keys in the order of the list are the first components of the pairs. *)
Lemma keys_content (h : gmap positive (DequeDictEntry (K:=K) (V:=V))) ls :
  e_key <$> entries h ls = (content h ls).*1.
Proof. rewrite content_entries, <-list_fmap_compose. done. Qed.

(** C5: move_to_end(k, to_back) raises KeyError(k) when k is absent.
    When k is present, with the entries l1 before it and l2 after it,
    the call succeeds and the order of iteration becomes l1, l2, k for
    to_back and k, l1, l2 otherwise, every entry keeping its key and
    value; if k already stood at the requested end (l2, respectively l1,
    is empty) this is the order before the call and the state is
    untouched, otherwise the position cache is dropped. *)
Theorem move_to_end_order s fl key (to_back : bool) :
  (∀ ls, WF s ls fl → dd_dict (self s) !! key = None →
     DequeDict_move_to_end key to_back s = Raise (KeyError_obj key) s) ∧
  (∀ l1 a l2, WF s (l1 ++ a :: l2) fl → dd_dict (self s) !! key = Some a →
     ∃ s',
       DequeDict_move_to_end key to_back s = Done tt s' ∧
       WF s' (if to_back then l1 ++ l2 ++ [a] else a :: l1 ++ l2) fl ∧
       (∀ b, node_kv (heap s') b = node_kv (heap s) b) ∧
       DequeDict_iter s = Done (e_key <$> entries (heap s) (l1 ++ a :: l2)) s ∧
       DequeDict_iter s'
       = Done (e_key <$> entries (heap s)
                 (if to_back then l1 ++ l2 ++ [a] else a :: l1 ++ l2)) s' ∧
       ((if to_back then l2 else l1) = [] → s' = s) ∧
       ((if to_back then l2 else l1) ≠ [] → index_cache (self s') = None)).
Proof.
  split.
  - intros ls HWF Hk. unfold DequeDict_move_to_end. rewrite bind_run. simpl. by rewrite Hk.
  - intros l1 a l2 HWF Hk.
    assert (DequeDict_iter s = Done (e_key <$> entries (heap s) (l1 ++ a :: l2)) s) as Hiter.
    { destruct HWF as [[Hlist _] _]. apply (iter_spec _ _ _ Hlist). }
    assert (Decision (if to_back then l2 ≠ [] else l1 ≠ [])) as Hdec
      by (destruct to_back; apply _).
    destruct Hdec as [Hend|Hend].
    + destruct (move_to_end_spec s l1 a l2 fl key to_back HWF Hk Hend)
        as (s' & Hrun & HWF' & Hkv & Hc).
      exists s'. split_and!; try done.
      * destruct HWF' as [[Hlist' _] _]. rewrite (iter_spec _ _ _ Hlist').
        f_equal. rewrite !keys_content. f_equal. apply content_ext. intros b _. apply Hkv.
      * intros Hnil. destruct to_back; by rewrite Hnil in Hend.
    + pose proof HWF as [[(Hnd & _ & Hhd & Htl & _) _] _].
      apply NoDup_app in Hnd as (Hnd & _).
      assert (DequeDict_move_to_end key to_back s = Done tt s) as Hrun.
      { unfold DequeDict_move_to_end. rewrite bind_run. simpl. rewrite Hk, Hhd, Htl.
        destruct to_back.
        - assert (l2 = []) as -> by (by destruct l2; [|exfalso; apply Hend]).
          by rewrite last_snoc, bool_decide_eq_true_2.
        - assert (l1 = []) as -> by (by destruct l1; [|exfalso; apply Hend]).
          simpl. by rewrite bool_decide_eq_true_2. }
      exists s. destruct to_back.
      * assert (l2 = []) as -> by (by destruct l2; [|exfalso; apply Hend]).
        simpl. split_and!; try done.
      * assert (l1 = []) as -> by (by destruct l1; [|exfalso; apply Hend]).
        simpl. split_and!; try done.
Qed.

(* at(index), with what it leaves behind: the array is there whenever
   the container is not empty, and a call that finds the array changes
   nothing. *)
Lemma at_outcome al s ls fl index :
  WF s ls fl →
  (index_cache (self s) = None → ls ≠ [] → cache_malloc_ok al = true) →
  let n := Z.of_nat (length ls) in
  let idx := if index <? 0 then index + n else index in
  ∃ s', WF s' ls fl ∧ same_shape (heap s) (heap s') ∧
    (ls ≠ [] → is_Some (index_cache (self s'))) ∧
    (is_Some (index_cache (self s)) → s' = s) ∧
    if (idx <? 0) || (idx >=? n) then
      DequeDict_at al index s = Raise (IndexError "index out of range") s'
    else
      ∃ a e, ls !! Z.to_nat idx = Some a ∧ heap s !! a = Some e ∧
             DequeDict_at al index s = Done (e_value e) s'.
Proof.
  intros HWF Hok n idx.
  destruct (index_cache (self s)) as [arr|] eqn:Harr.
  - exists s. split; [done|]. split; [apply same_shape_refl|].
    split; [by rewrite Harr|]. split; [done|].
    apply (at_cached_spec al s ls fl index HWF). by rewrite Harr.
  - destruct HWF as [Hcore _].
    destruct (rebuild_spec al s ls fl Hcore) as (s' & HWF' & Hsh & Hrun).
    exists s'. split; [done|]. split; [done|].
    case_bool_decide as Hnil.
    + destruct Hrun as [Hrun Hnone]. subst ls.
      split; [done|]. split; [by intros [? ?]|].
      assert ((idx <? 0) || (idx >=? n) = true) as ->.
      { unfold idx, n. simpl. destruct (Z.ltb_spec index 0).
        - apply orb_true_iff. left. apply Z.ltb_lt. lia.
        - apply orb_true_iff. right. apply Z.geb_le. lia. }
      unfold DequeDict_at. msimpl. rewrite Harr, Hrun. simpl. by rewrite Hnone.
    + rewrite (Hok eq_refl Hnil) in Hrun. destruct Hrun as [Hrun Hsome].
      split; [done|]. split; [by intros [? ?]|].
      assert (DequeDict_at al index s = DequeDict_at al index s') as ->.
      { unfold DequeDict_at. msimpl. rewrite Harr, Hrun. simpl.
        destruct Hsome as [arr' Harr']. by rewrite Harr'. }
      pose proof (at_cached_spec al s' ls fl index HWF' Hsome) as Hat.
      simpl in Hat. fold n idx in Hat.
      destruct ((idx <? 0) || (idx >=? n)); [done|].
      destruct Hat as (a & e' & Ha & He' & Hat).
      destruct (Hsh a) as [_ Hkv]. unfold node_kv in Hkv. rewrite He' in Hkv.
      destruct (heap s !! a) as [e|] eqn:He; [|done]. simpl in Hkv.
      exists a, e. split; [done|]. split; [done|]. rewrite Hat. f_equal. congruence.
Qed.

(* The same in terms of what iteration over the values yields. *)
Lemma at_is_nth_value al s ls fl index :
  WF s ls fl →
  (index_cache (self s) = None → ls ≠ [] → cache_malloc_ok al = true) →
  let n := dd_size (self s) in
  let idx := if index <? 0 then index + n else index in
  ∃ s' vals, WF s' ls fl ∧
    (ls ≠ [] → is_Some (index_cache (self s'))) ∧
    DequeDictView_iter Values s = Done vals s ∧ Z.of_nat (length vals) = n ∧
    if (idx <? 0) || (idx >=? n) then
      DequeDict_at al index s = Raise (IndexError "index out of range") s'
    else
      ∃ v, vals !! Z.to_nat idx = Some (PyValue v) ∧ DequeDict_at al index s = Done v s'.
Proof.
  intros HWF Hok. pose proof HWF as [[Hlist _] _].
  pose proof Hlist as (_ & Hseg & _ & _ & Hsz & _). rewrite Hsz.
  destruct (at_outcome al s ls fl index HWF Hok) as (s' & HWF' & _ & Hsome & _ & Hat).
  exists s', (item_of Values <$> entries (heap s) ls).
  split; [done|]. split; [done|]. split; [by apply (view_iter_spec _ _ fl)|].
  split; [by rewrite length_fmap, (entries_length _ _ _ _ Hseg)|].
  simpl in Hat |- *. destruct (_ || _); [done|].
  destruct Hat as (a & e & Ha & He & Hat). exists (e_value e). split; [|done].
  by rewrite list_lookup_fmap, (entries_lookup _ _ _ _ _ _ _ Hseg Ha He).
Qed.

(** C4: at(index) for an index that fits Py_ssize_t adds the size to a
    negative index and raises IndexError exactly when the index is then
    below 0 or not below the size; otherwise it returns the value at
    that place of the iteration over the values.  So at(size),
    at(-size-1) and every index that fits, on an empty container, raise
    IndexError, and on a container that is not empty at(-1) returns what
    peek returns.  An index that does not fit Py_ssize_t raises
    OverflowError in the conversion of the argument, before any test of
    the range, and leaves the state as it is.  (Where the array has to
    be built first, its allocation is assumed to succeed.) *)
Theorem at_index_range al s ls fl :
  WF s ls fl →
  (index_cache (self s) = None → ls ≠ [] → cache_malloc_ok al = true) →
  let n := dd_size (self s) in
  (∀ index, PY_SSIZE_T_MIN ≤ index ≤ PY_SSIZE_T_MAX →
     let idx := if index <? 0 then index + n else index in
     ∃ s' vals, DequeDictView_iter Values s = Done vals s ∧ Z.of_nat (length vals) = n ∧
       if (idx <? 0) || (idx >=? n) then
         DequeDict_at_args al index s = Raise (IndexError "index out of range") s'
       else
         ∃ v, vals !! Z.to_nat idx = Some (PyValue v) ∧
              DequeDict_at_args al index s = Done v s') ∧
  (∀ index, ¬ (PY_SSIZE_T_MIN ≤ index ≤ PY_SSIZE_T_MAX) →
     DequeDict_at_args al index s
     = Raise (OverflowError "Python int too large to convert to C ssize_t") s) ∧
  (n ≤ PY_SSIZE_T_MAX →
   ∃ s', DequeDict_at_args al n s = Raise (IndexError "index out of range") s') ∧
  (n ≤ PY_SSIZE_T_MAX →
   ∃ s', DequeDict_at_args al (- n - 1) s = Raise (IndexError "index out of range") s') ∧
  (n = 0 → ∀ index, PY_SSIZE_T_MIN ≤ index ≤ PY_SSIZE_T_MAX →
     ∃ s', DequeDict_at_args al index s = Raise (IndexError "index out of range") s') ∧
  (n ≠ 0 → ∃ v s', DequeDict_at_args al (-1) s = Done v s' ∧ DequeDict_peek s = Done v s).
Proof.
  intros HWF Hok n.
  pose proof HWF as [[(_ & Hseg & _ & _ & Hsz & _) _] _].
  assert (0 ≤ n) as Hn by (unfold n; lia).
  assert (∀ index, PY_SSIZE_T_MIN ≤ index ≤ PY_SSIZE_T_MAX →
          (((if index <? 0 then index + n else index) <? 0)
           || ((if index <? 0 then index + n else index) >=? n)) = true →
          ∃ s', DequeDict_at_args al index s = Raise (IndexError "index out of range") s')
    as Hout.
  { intros index Hfits Hrange. rewrite (at_args_fits al index s Hfits).
    destruct (at_is_nth_value al s ls fl index HWF Hok) as (s' & vals & _ & _ & _ & _ & Hat).
    simpl in Hat. fold n in Hat. rewrite Hrange in Hat. eauto. }
  split_and!.
  - intros index Hfits. rewrite (at_args_fits al index s Hfits).
    destruct (at_is_nth_value al s ls fl index HWF Hok) as (s' & vals & _ & _ & Hit & Hlen & Hat).
    exists s', vals. split; [done|]. split; [done|]. exact Hat.
  - intros index Hfits. by apply at_args_overflow.
  - intros Hmax. apply Hout; [unfold PY_SSIZE_T_MIN; lia|].
    destruct (Z.ltb_spec n 0); [lia|].
    apply orb_true_iff. right. apply Z.geb_le. lia.
  - intros Hmax. apply Hout; [unfold PY_SSIZE_T_MIN, PY_SSIZE_T_MAX in *; lia|].
    destruct (Z.ltb_spec (- n - 1) 0); [|lia].
    apply orb_true_iff. left. apply Z.ltb_lt. lia.
  - intros Hz index Hfits. apply Hout; [done|]. destruct (Z.ltb_spec index 0).
    + apply orb_true_iff. left. apply Z.ltb_lt. lia.
    + apply orb_true_iff. right. apply Z.geb_le. lia.
  - intros Hnz. rewrite at_args_fits by (unfold PY_SSIZE_T_MIN, PY_SSIZE_T_MAX; lia).
    destruct (at_outcome al s ls fl (-1) HWF Hok) as (s' & _ & _ & _ & _ & Hat).
    simpl in Hat. rewrite <-Hsz in Hat. fold n in Hat.
    assert (((-1 + n <? 0) || (-1 + n >=? n)) = false) as Hin.
    { apply orb_false_iff. split; [apply Z.ltb_ge; lia|].
      rewrite Z.geb_leb. apply Z.leb_gt. lia. }
    rewrite Hin in Hat. destruct Hat as (a & e & Ha & He & Hat).
    pose proof (peek_back_spec s ls fl HWF) as Hpeek.
    assert (last ls = Some a) as Hlast.
    { rewrite last_lookup, <-Ha. f_equal. unfold n in *. lia. }
    rewrite Hlast in Hpeek. destruct Hpeek as (e' & He' & Hpeek & _).
    exists (e_value e), s'. split; [done|]. congruence.
Qed.

(** C3: set of a new key on a container whose array is present and full.
    The call succeeds and appends the pair at the tail.  If the
    reallocation succeeds the array stays and its capacity becomes the
    maximum of 8 and twice the old capacity; if it fails the array is
    dropped with size, capacity and offset reset to 0, and a following
    at(index) within range (whose own allocation succeeds) builds the
    array again and returns the value at that place of the iteration.
    (The allocations for the entry and for the key index are assumed to
    succeed.) *)
Theorem cache_growth_on_append al s ls fl key value :
  WF s ls fl → dd_dict (self s) !! key = None →
  is_Some (index_cache (self s)) → cache_size (self s) = cache_capacity (self s) →
  (fl = [] → entry_malloc_ok al = true) →
  capsule_ok al = true → dict_setitem_ok al = true →
  ∃ n s' fl',
    DequeDict_setitem al key (Some value) s = Done tt s' ∧
    WF s' (ls ++ [n]) fl' ∧
    content (heap s') (ls ++ [n]) = content (heap s) ls ++ [(key, value)] ∧
    if cache_realloc_ok al then
      is_Some (index_cache (self s')) ∧
      cache_capacity (self s') = Z.max 8 (cache_capacity (self s) * 2)
    else
      index_cache (self s') = None ∧ cache_size (self s') = 0 ∧
      cache_capacity (self s') = 0 ∧ cache_offset (self s') = 0 ∧
      ∀ al' index, cache_malloc_ok al' = true → 0 ≤ index < dd_size (self s') →
        ∃ v s'' vals,
          DequeDict_at al' index s' = Done v s'' ∧
          is_Some (index_cache (self s'')) ∧
          DequeDictView_iter Values s' = Done vals s' ∧
          vals !! Z.to_nat index = Some (PyValue v).
Proof.
  intros HWF Hk [arr Harr] Hfull Hentry Hcap Hdset.
  destruct (setitem_new_spec al s ls fl key value HWF Hk Hcap Hdset)
    as [(Hfl & Hm & _)|(_ & n & s' & fl' & Hrun & HWF' & _ & Hcont & _ & Hcache)].
  { by rewrite (Hentry Hfl) in Hm. }
  exists n, s', fl'. split; [done|]. split; [done|]. split; [done|].
  rewrite Harr, Hfull, Z.ltb_irrefl in Hcache.
  destruct (cache_realloc_ok al); [done|].
  destruct Hcache as (Hnone & Hcp & Hsz & Hoff). split_and!; try done.
  intros al' index Hmalloc Hrange.
  destruct (at_is_nth_value al' s' (ls ++ [n]) fl' index HWF')
    as (s'' & vals & _ & Hsome & Hit & _ & Hat); [done|].
  simpl in Hat.
  assert ((index <? 0) = false) as Hpos by (apply Z.ltb_ge; lia).
  rewrite Hpos in Hat.
  assert (((index <? 0) || (index >=? dd_size (self s'))) = false) as Hin.
  { rewrite Hpos. simpl. rewrite Z.geb_leb. apply Z.leb_gt. lia. }
  rewrite Hin in Hat. destruct Hat as (v & Hv & Hat).
  exists v, s'', vals. split_and!; try done.
  apply Hsome. by destruct ls.
Qed.

(* A script keeps a well-formed state well formed and never runs into
   undefined behaviour, as long as the two steps that enter a new entry
   in the key index succeed. *)
Lemma run_WF value_eq ops : ∀ s ls fl,
  WF s ls fl →
  Forall (λ x : Alloc * Op K V, capsule_ok x.1 = true ∧ dict_setitem_ok x.1 = true) ops →
  ∃ s' ls' fl',
    (run value_eq ops s).2 = Some s' ∧
    length (run value_eq ops s).1 = length ops ∧ WF s' ls' fl'.
Proof.
  induction ops as [|[al op] ops IH]; intros s ls fl HWF Hops; simpl.
  { exists s, ls, fl. by split. }
  apply Forall_cons in Hops as [[Hcap Hdset] Hops]. simpl in Hcap, Hdset.
  pose proof (exec_WF value_eq al op s ls fl HWF Hcap Hdset) as Hstep.
  destruct (exec value_eq al op s) as [v s1|err s1|]; [| |done].
  - destruct Hstep as (ls1 & fl1 & HWF1).
    destruct (IH s1 ls1 fl1 HWF1 Hops) as (s' & ls' & fl' & Hrun & Hlen & HWF').
    exists s', ls', fl'. simpl. by rewrite Hlen.
  - destruct Hstep as (ls1 & fl1 & HWF1).
    destruct (IH s1 ls1 fl1 HWF1 Hops) as (s' & ls' & fl' & Hrun & Hlen & HWF').
    exists s', ls', fl'. simpl. by rewrite Hlen.
Qed.

(* As long as the two steps that enter a new entry in the key index
   succeed, the invariant of the position cache holds after every script
   of calls (any mix of all operations, each ending with a result or with
   an exception, whatever the allocator does to the entry pool and to
   the array), started in a well-formed state: every call ends, and in
   the final state, whose entries from head to tail are ls', whenever
   the array is present its slots from cache_offset on hold ls' in
   order, cache_size - cache_offset is the size, and every entry
   records the slot it stands in.  Consequently at(index) for an index
   from 0 up to the size returns the value at that place of the
   iteration over the values. *)
Lemma position_cache_kept_while_registered value_eq ops s ls fl :
  WF s ls fl →
  Forall (λ x : Alloc * Op K V, capsule_ok x.1 = true ∧ dict_setitem_ok x.1 = true) ops →
  ∃ s' ls' fl',
    (run value_eq ops s).2 = Some s' ∧
    length (run value_eq ops s).1 = length ops ∧
    WF s' ls' fl' ∧
    DequeDictView_iter Values s' = Done (item_of Values <$> entries (heap s') ls') s' ∧
    (∀ arr, index_cache (self s') = Some arr →
       cache_size (self s') - cache_offset (self s') = dd_size (self s') ∧
       dd_size (self s') = Z.of_nat (length ls') ∧
       ∀ i a, ls' !! i = Some a →
         arr !! (Z.to_nat (cache_offset (self s')) + i)%nat = Some (Some a) ∧
         node_idx (heap s') a = Some (cache_offset (self s') + Z.of_nat i)) ∧
    (∀ al index,
       (index_cache (self s') = None → cache_malloc_ok al = true) →
       0 ≤ index < dd_size (self s') →
       ∃ v s'' vals,
         DequeDict_at al index s' = Done v s'' ∧
         DequeDictView_iter Values s' = Done vals s' ∧
         vals !! Z.to_nat index = Some (PyValue v)).
Proof.
  intros HWF Hops.
  destruct (run_WF value_eq ops s ls fl HWF Hops) as (s' & ls' & fl' & Hrun & Hlen & HWF').
  exists s', ls', fl'. split; [done|]. split; [done|]. split; [done|].
  pose proof HWF' as [[Hlist' _] Hcache'].
  pose proof Hlist' as (_ & _ & _ & _ & Hsz' & _).
  split; [by apply (view_iter_spec _ _ fl')|]. split.
  - intros arr Harr.
    pose proof (proj1 (cache_inv_Some _ _ _ Harr) Hcache') as (_ & _ & Hsize & _ & Hslots).
    split; [lia|]. split; [done|]. exact Hslots.
  - intros al index Hmalloc Hrange.
    destruct (at_is_nth_value al s' ls' fl' index HWF')
      as (s'' & vals & _ & _ & Hit & _ & Hat); [by intros ? _; apply Hmalloc|].
    simpl in Hat.
    assert ((index <? 0) = false) as Hpos by (apply Z.ltb_ge; lia).
    rewrite Hpos in Hat.
    assert (((index <? 0) || (index >=? dd_size (self s'))) = false) as Hin.
    { rewrite Hpos. simpl. rewrite Z.geb_leb. apply Z.leb_gt. lia. }
    rewrite Hin in Hat. destruct Hat as (v & Hv & Hat). by exists v, s'', vals.
Qed.

(* The pairs in the order of the list, as the items view yields them. *)
Lemma items_content (h : gmap positive (DequeDictEntry (K:=K) (V:=V))) ls :
  item_of Items <$> entries h ls = (λ kv, PyPair kv.1 kv.2) <$> content h ls.
Proof. rewrite content_entries, <-list_fmap_compose. done. Qed.

(** C10: a call that fails with an exception other than MemoryError (the
    KeyError of get, delete, pop or move_to_end on an absent key and of
    append_front on a present key, the IndexError of a peek or pop on an
    empty container and of at with an index out of range) leaves the
    content as it was: the same entries from head to tail with the same
    pairs, as the items view yields them, and the same size.  Unless the
    call is at(index), which may build the array, the whole state is the
    one before the call. *)
Theorem error_atomicity value_eq al op s ls fl err s' :
  WF s ls fl → exec value_eq al op s = Raise err s' → err ≠ MemoryError →
  WF s' ls fl ∧
  dd_size (self s') = dd_size (self s) ∧
  content (heap s') ls = content (heap s) ls ∧
  (∃ items, DequeDictView_iter Items s = Done items s ∧
            DequeDictView_iter Items s' = Done items s') ∧
  ((∀ index, op ≠ OpAt index) → s' = s).
Proof.
  intros HWF Hrun Hne.
  assert (WF s' ls fl ∧ content (heap s') ls = content (heap s) ls ∧
          ((∀ index, op ≠ OpAt index) → s' = s)) as (HWF' & Hcont & Hsame).
  { destruct op as [op|index|kind]; unfold exec in Hrun.
    - assert (s' = s) as -> by (by eapply exec_shared_error).
      by split_and!.
    - rewrite bind_run in Hrun.
      destruct (decide (PY_SSIZE_T_MIN ≤ index ≤ PY_SSIZE_T_MAX)) as [Hfits|Hout];
        [rewrite (at_args_fits al index s Hfits) in Hrun
        |rewrite (at_args_overflow al index s Hout) in Hrun; by simplify_eq].
      destruct (decide (index_cache (self s) = None ∧ ls ≠ [] ∧ cache_malloc_ok al = false))
        as [(Hc & Hnil & Hm)|Hok].
      + destruct (at_nomem_spec al s ls fl index HWF Hc Hnil Hm) as (s1 & _ & _ & Hat).
        rewrite Hat in Hrun. by simplify_eq.
      + destruct (at_outcome al s ls fl index HWF) as (s1 & HWF1 & Hsh & _ & _ & Hat).
        { intros Hc Hnil. destruct (cache_malloc_ok al); [done|]. exfalso. by apply Hok. }
        simpl in Hat. destruct (_ || _).
        * rewrite Hat in Hrun. simplify_eq. split_and!; try done.
          -- apply content_ext. intros b _. apply Hsh.
          -- intros Hnot. by destruct (Hnot index).
        * destruct Hat as (a & e & _ & _ & Hat). by rewrite Hat in Hrun.
    - rewrite bind_run in Hrun. destruct HWF as [[Hlist _] _].
      by rewrite (view_reversed_spec _ _ _ _ Hlist) in Hrun. }
  split; [done|]. split.
  { destruct HWF as [[(_ & _ & _ & _ & Hsz & _) _] _].
    destruct HWF' as [[(_ & _ & _ & _ & Hsz' & _) _] _]. congruence. }
  split; [done|]. split; [|done].
  exists (item_of Items <$> entries (heap s) ls).
  destruct HWF as [[Hlist _] _]. destruct HWF' as [[Hlist' _] _].
  rewrite (view_iter_spec _ _ _ _ Hlist), (view_iter_spec _ _ _ _ Hlist').
  split; [done|]. by rewrite !items_content, Hcont.
Qed.

(* Two computations that go alike, as an equation. *)
Lemma sim_erase_res {A} (m : M (K:=K) (V:=V) A) m' s :
  sim eq m m' → index_cache (self s) = None → m' (erase s) = erase_res (m s).
Proof.
  intros Hsim Hs. specialize (Hsim s Hs). destruct (m s) as [a s1|err s1|]; simpl.
  - by destruct Hsim as (_ & ? & <- & ->).
  - by destruct Hsim as (_ & ->).
  - done.
Qed.

(* No call of the shared interface builds the array. *)
Lemma run_shared_no_cache value_eq ops : ∀ s s',
  index_cache (self s) = None →
  (run value_eq (shared_script ops) s).2 = Some s' → index_cache (self s') = None.
Proof.
  induction ops as [|[al op] ops IH]; intros s s' Hs Hrun; simpl in Hrun.
  { by injection Hrun as <-. }
  pose proof (sim_exec value_eq al op s Hs) as Hstep.
  destruct (exec_shared value_eq al op s) as [v s1|err s1|]; [| |done].
  - destruct Hstep as (Hs1 & _). by apply (IH s1).
  - destruct Hstep as (Hs1 & _). by apply (IH s1).
Qed.

(** C9: the source without the position cache answers every script of
    calls of the shared interface as the source with the cache does.
    Started on the same container without array (such as a new one, or
    any state the shared interface can reach from it), run on the memory
    without the cache fields, the script gives the same results and the
    same exceptions in the same order, ends in undefined behaviour exactly
    when the other does, and ends in the same memory up to the cache
    fields, so that the items view yields the same pairs in the same
    order. *)
Theorem nocache_is_functional_subset value_eq (ops : list (Alloc * SharedOp K V)) s :
  index_cache (self s) = None →
  NoCache.run value_eq ops (erase s)
  = ((run value_eq (shared_script ops) s).1,
     erase <$> (run value_eq (shared_script ops) s).2) ∧
  (∀ s', (run value_eq (shared_script ops) s).2 = Some s' →
     NoCache.DequeDictView_iter Items (erase s')
     = erase_res (DequeDictView_iter Items s')) ∧
  erase (initial_state (K:=K) (V:=V)) = NoCache.initial_state ∧
  index_cache (self (initial_state (K:=K) (V:=V))) = None.
Proof.
  intros Hs. split; [by apply sim_run|]. split.
  - intros s' Hrun. apply sim_erase_res; [apply sim_view_iter|].
    by apply (run_shared_no_cache value_eq ops s).
  - split; [|done]. unfold erase, initial_state, NoCache.initial_state. simpl.
    by rewrite fmap_empty.
Qed.

(* The pairs of a well-formed container are those the key index leads to. *)
Lemma content_elem s ls fl k v :
  WF s ls fl →
  (k, v) ∈ content (heap s) ls ↔
  ∃ a e, dd_dict (self s) !! k = Some a ∧ heap s !! a = Some e ∧ e_value e = v.
Proof.
  intros [[_ Hdict] _]. unfold content. rewrite list_elem_of_omap. split.
  - intros (a & Ha & Hkv). destruct (dict_inv_elem _ _ _ Hdict Ha) as (e & He & Hd).
    unfold node_kv in Hkv. rewrite He in Hkv. simpl in Hkv. injection Hkv as <- <-.
    by exists a, e.
  - intros (a & e & Hk & He & <-).
    destruct (dict_inv_lookup _ _ _ _ Hdict Hk) as [Ha Hkey].
    exists a. split; [done|]. unfold node_key in Hkey. unfold node_kv.
    rewrite He in Hkey |- *. simpl in *. by injection Hkey as ->.
Qed.

Lemma content_functional s ls fl k v v' :
  WF s ls fl → (k, v) ∈ content (heap s) ls → (k, v') ∈ content (heap s) ls → v = v'.
Proof.
  intros HWF Hv Hv'.
  apply (content_elem s ls fl k v HWF) in Hv as (a & e & Hk & He & <-).
  apply (content_elem s ls fl k v' HWF) in Hv' as (a' & e' & Hk' & He' & <-).
  congruence.
Qed.

(* No key occurs twice. *)
Lemma content_keys_NoDup s ls fl : WF s ls fl → NoDup (content (heap s) ls).*1.
Proof.
  intros [[(Hnd & Hseg & _) Hdict] _]. apply NoDup_app in Hnd as (Hnd & _).
  apply NoDup_alt. intros i j k Hi Hj.
  rewrite list_lookup_fmap in Hi, Hj.
  destruct (content (heap s) ls !! i) as [[k1 v1]|] eqn:Ei; [|done].
  destruct (content (heap s) ls !! j) as [[k2 v2]|] eqn:Ej; [|done].
  simpl in Hi, Hj. injection Hi as ->. injection Hj as ->.
  assert (is_Some (ls !! i)) as [a Ha].
  { apply lookup_lt_is_Some. rewrite <-(content_length _ _ _ _ Hseg).
    by apply lookup_lt_is_Some. }
  assert (is_Some (ls !! j)) as [b Hb].
  { apply lookup_lt_is_Some. rewrite <-(content_length _ _ _ _ Hseg).
    by apply lookup_lt_is_Some. }
  rewrite (content_lookup _ _ _ _ _ _ Hseg Ha) in Ei.
  rewrite (content_lookup _ _ _ _ _ _ Hseg Hb) in Ej.
  destruct (dict_inv_elem _ _ _ Hdict (list_elem_of_lookup_2 _ _ _ Ha)) as (ea & Hea & Hda).
  destruct (dict_inv_elem _ _ _ Hdict (list_elem_of_lookup_2 _ _ _ Hb)) as (eb & Heb & Hdb).
  unfold node_kv in Ei, Ej. rewrite Hea in Ei. rewrite Heb in Ej. simpl in Ei, Ej.
  injection Ei as Hka _. injection Ej as Hkb _.
  rewrite Hka in Hda. rewrite Hkb in Hdb.
  assert (a = b) as -> by congruence.
  by apply (NoDup_lookup ls i j b).
Qed.

(* The loop of == accepts exactly when every pair has its match. *)
Lemma forallb_agrees value_eq `{PyMapping K V T} (other : T)
    (h : gmap positive (DequeDictEntry (K:=K) (V:=V))) ls :
  forallb (agrees value_eq other) (entries h ls) = true ↔
  ∀ k v, (k, v) ∈ content h ls →
    ∃ v', PyObject_GetItem other k = Some v' ∧ value_eq v v' = true.
Proof.
  rewrite forallb_forall, content_entries. split.
  - intros Hall k v Hkv. apply list_elem_of_fmap in Hkv as (e & Hkv & He).
    injection Hkv as -> ->.
    apply list_elem_of_In in He. specialize (Hall e He). unfold agrees in Hall.
    destruct (PyObject_GetItem other (e_key e)) as [v'|]; [|done]. by exists v'.
  - intros Hall e He. apply list_elem_of_In in He.
    destruct (Hall (e_key e) (e_value e)) as (v' & Hv' & Heq).
    { apply list_elem_of_fmap. by exists e. }
    unfold agrees. by rewrite Hv'.
Qed.

(* What d == other answers. *)
Lemma richcompare_eq value_eq `{PyMapping K V T} (other : T) s ls fl :
  WF s ls fl →
  ∃ b, DequeDict_richcompare value_eq other Py_EQ s = Done (PyBool b) s ∧
       DequeDict_richcompare value_eq other Py_NE s = Done (PyBool (negb b)) s ∧
       (b = true ↔
        dd_size (self s) = PyMapping_Size other ∧
        ∀ k v, (k, v) ∈ content (heap s) ls →
          ∃ v', PyObject_GetItem other k = Some v' ∧ value_eq v v' = true).
Proof.
  intros [[Hlist _] _].
  exists ((dd_size (self s) =? PyMapping_Size other)
          && forallb (agrees value_eq other) (entries (heap s) ls)).
  split; [apply (richcompare_spec value_eq other s ls fl false Hlist)|].
  split; [apply (richcompare_spec value_eq other s ls fl true Hlist)|].
  by rewrite andb_true_iff, Z.eqb_eq, forallb_agrees.
Qed.

(* Another container as the operand of ==: its mp_subscript finds the
   value of a key exactly when the pair is among its pairs. *)
Lemma getitem_content (o : State (K:=K) (V:=V)) lo flo k v :
  WF o lo flo → PyObject_GetItem o k = Some v ↔ (k, v) ∈ content (heap o) lo.
Proof.
  intros HWF. rewrite (content_elem o lo flo k v HWF).
  pose proof (getitem_spec o lo flo k HWF) as Hg. simpl.
  destruct (dd_dict (self o) !! k) as [a|] eqn:Hk.
  - destruct Hg as (e & He & _ & _ & ->). split.
    + intros [= <-]. by exists a, e.
    + intros (a' & e' & [= <-] & He' & <-). congruence.
  - rewrite Hg. split; [done|]. by intros (a & e & ? & _).
Qed.

(* With as many keys on both sides, each pair of the container has its
   match in the dict exactly when each item of the dict has its match in
   the container. *)
Lemma dict_side value_eq (m : gmap K V) s ls fl :
  WF s ls fl → dd_size (self s) = Z.of_nat (size m) →
  (∀ k v, (k, v) ∈ content (heap s) ls → ∃ v', m !! k = Some v' ∧ value_eq v v' = true) ↔
  (∀ k v', m !! k = Some v' → ∃ v, (k, v) ∈ content (heap s) ls ∧ value_eq v v' = true).
Proof.
  intros HWF Hsize.
  pose proof (content_keys_NoDup s ls fl HWF) as Hnd.
  pose proof HWF as [[(_ & Hseg & _ & _ & Hsz & _) _] _].
  set (keys := list_to_set (content (heap s) ls).*1 : gset K).
  assert (size keys = size (dom m)) as Hcard.
  { unfold keys. rewrite size_list_to_set, length_fmap, (content_length _ _ _ _ Hseg) by done.
    rewrite size_dom. lia. }
  assert (∀ k, k ∈ keys ↔ ∃ v, (k, v) ∈ content (heap s) ls) as Hkeys.
  { intros k. unfold keys. rewrite elem_of_list_to_set, list_elem_of_fmap. split.
    - intros ([k' v] & -> & Hkv). by exists v.
    - intros (v & Hkv). by exists (k, v). }
  split.
  - intros Hall k v' Hm.
    assert (keys = dom m) as Heq.
    { apply set_subseteq_size_eq; [|lia]. intros k0 (v0 & Hkv)%Hkeys.
      destruct (Hall k0 v0 Hkv) as (v1 & Hv1 & _). by apply elem_of_dom. }
    assert (k ∈ keys) as (v & Hkv)%Hkeys by (rewrite Heq; by apply elem_of_dom).
    destruct (Hall k v Hkv) as (v1 & Hv1 & Hveq). exists v. split; [done|]. congruence.
  - intros Hall k v Hkv.
    assert (dom m = keys) as Heq.
    { apply set_subseteq_size_eq; [|lia]. intros k0 [v0 Hv0]%elem_of_dom.
      destruct (Hall k0 v0 Hv0) as (v1 & Hv1 & _). apply Hkeys. by exists v1. }
    assert (k ∈ dom m) as [v' Hv']%elem_of_dom by (rewrite Heq; apply Hkeys; by exists v).
    destruct (Hall k v' Hv') as (v0 & Hkv0 & Hveq). exists v'. split; [done|].
    by rewrite (content_functional s ls fl k v v0 HWF Hkv Hkv0).
Qed.

(** C8: d == other is true exactly when d and other have the same size
    and every key of d is a key of other with an equal value, and
    d != other is its negation.  When other is a container this reads:
    same size and every pair of d has its match among the pairs of
    other; when other is a plain dict the condition can as well be read
    from the side of the dict, every item of the dict having its match
    in d.  The order of the entries plays no part: two containers with
    the same pairs in different orders compare alike with any operand. *)
Theorem equality_is_by_content value_eq s ls fl :
  WF s ls fl →
  (∀ (T : Type) (HT : PyMapping K V T) (other : T),
     ∃ b, DequeDict_richcompare value_eq other Py_EQ s = Done (PyBool b) s ∧
          DequeDict_richcompare value_eq other Py_NE s = Done (PyBool (negb b)) s ∧
          (b = true ↔
           dd_size (self s) = PyMapping_Size other ∧
           ∀ k v, (k, v) ∈ content (heap s) ls →
             ∃ v', PyObject_GetItem other k = Some v' ∧ value_eq v v' = true)) ∧
  (∀ (o : State (K:=K) (V:=V)) lo flo, WF o lo flo →
     DequeDict_richcompare value_eq o Py_EQ s = Done (PyBool true) s ↔
     dd_size (self s) = dd_size (self o) ∧
     ∀ k v, (k, v) ∈ content (heap s) ls →
       ∃ v', (k, v') ∈ content (heap o) lo ∧ value_eq v v' = true) ∧
  (∀ m : gmap K V,
     DequeDict_richcompare value_eq m Py_EQ s = Done (PyBool true) s ↔
     dd_size (self s) = Z.of_nat (size m) ∧
     ∀ k v', m !! k = Some v' →
       ∃ v, (k, v) ∈ content (heap s) ls ∧ value_eq v v' = true) ∧
  (∀ (T : Type) (HT : PyMapping K V T) (other : T) op s2 ls2 fl2,
     WF s2 ls2 fl2 → content (heap s2) ls2 ≡ₚ content (heap s) ls →
     ∃ r, DequeDict_richcompare value_eq other op s = Done r s ∧
          DequeDict_richcompare value_eq other op s2 = Done r s2).
Proof.
  intros HWF. split_and!.
  - intros T HT other. by apply (richcompare_eq value_eq other s ls fl).
  - intros o lo flo HWFo.
    destruct (richcompare_eq value_eq o s ls fl HWF) as (b & -> & _ & Hb).
    split.
    + intros [= ->]. destruct (proj1 Hb eq_refl) as [Hsize Hall]. split; [done|].
      intros k v Hkv. destruct (Hall k v Hkv) as (v' & Hv' & Hveq).
      exists v'. split; [|done]. by apply (getitem_content o lo flo).
    + intros [Hsize Hall]. do 2 f_equal. apply Hb. split; [done|].
      intros k v Hkv. destruct (Hall k v Hkv) as (v' & Hv' & Hveq).
      exists v'. split; [|done]. by apply (getitem_content o lo flo).
  - intros m.
    destruct (richcompare_eq value_eq m s ls fl HWF) as (b & -> & _ & Hb).
    split.
    + intros [= ->]. destruct (proj1 Hb eq_refl) as [Hsize Hall]. split; [done|].
      by apply (dict_side value_eq m s ls fl HWF Hsize).
    + intros [Hsize Hall]. do 2 f_equal. apply Hb. split; [done|].
      by apply (dict_side value_eq m s ls fl HWF Hsize).
  - intros T HT other op s2 ls2 fl2 HWF2 Hperm.
    destruct (richcompare_eq value_eq other s ls fl HWF) as (b & Heq & Hne & Hb).
    destruct (richcompare_eq value_eq other s2 ls2 fl2 HWF2) as (b2 & Heq2 & Hne2 & Hb2).
    assert (b2 = b) as ->.
    { pose proof HWF as [[(_ & Hseg & _ & _ & Hsz & _) _] _].
      pose proof HWF2 as [[(_ & Hseg2 & _ & _ & Hsz2 & _) _] _].
      assert (dd_size (self s2) = dd_size (self s)) as Hsize.
      { rewrite Hsz, Hsz2, <-(content_length _ _ _ _ Hseg), <-(content_length _ _ _ _ Hseg2).
        by rewrite Hperm. }
      assert (b2 = true ↔ b = true) as Hiff.
      { rewrite Hb, Hb2, Hsize. split; intros [? Hall]; (split; [done|]);
          intros k v Hkv; apply Hall; [by rewrite Hperm|by rewrite <-Hperm]. }
      destruct b, b2; try done; [by destruct (proj2 Hiff eq_refl)|by destruct (proj1 Hiff eq_refl)]. }
    destruct op; try (by exists PyNotImplemented); eauto.
Qed.

End Properties.

Lemma set_existing_key_replaces_value_witness :
  WF dd_abc_cached [1; 2; 3]%positive [] ∧
  is_Some (dd_dict (self dd_abc_cached) !! "b"%string) ∧
  ∃ s' a e,
    DequeDict_setitem all_ok "b"%string (Some 20) dd_abc_cached = Done tt s' ∧
    dd_dict (self dd_abc_cached) !! "b"%string = Some a ∧
    heap dd_abc_cached !! a = Some e ∧
    self s' = self dd_abc_cached ∧ freelist s' = freelist dd_abc_cached ∧
    freelist_size s' = freelist_size dd_abc_cached ∧
    heap s' = <[a:=with_value e 20]> (heap dd_abc_cached) ∧
    WF s' [1; 2; 3]%positive [] ∧
    DequeDict_iter s' = Done (e_key <$> entries (heap dd_abc_cached) [1; 2; 3]%positive) s' ∧
    DequeDict_iter dd_abc_cached
    = Done (e_key <$> entries (heap dd_abc_cached) [1; 2; 3]%positive) dd_abc_cached ∧
    ∀ d, DequeDict_get "b"%string d s' = Done (Some 20) s'.
Proof.
  assert (WF dd_abc_cached [1; 2; 3]%positive []) as HWF
    by (apply (bool_decide_unpack _); vm_compute; reflexivity).
  assert (is_Some (dd_dict (self dd_abc_cached) !! "b"%string)) as Hk
    by (apply (bool_decide_unpack _); vm_compute; reflexivity).
  split; [exact HWF|]. split; [exact Hk|].
  exact (set_existing_key_replaces_value all_ok dd_abc_cached _ _ "b"%string 20 HWF Hk).
Defined.

Lemma new_entry_allocation_failure_witness :
  ∃ s1,
    DequeDict_setitem no_capsule "a"%string (Some 1) initial_state = Raise MemoryError s1 ∧
    dd_size (self s1) = dd_size (self (initial_state (K:=string) (V:=Z))) + 1 ∧
    dd_tail (self s1) ≠ dd_tail (self (initial_state (K:=string) (V:=Z))).
Proof.
  assert (WF (initial_state (K:=string) (V:=Z)) [] []) as HWF
    by (apply (bool_decide_unpack _); vm_compute; reflexivity).
  assert (dd_dict (self (initial_state (K:=string) (V:=Z))) !! "a"%string = None) as Hk
    by reflexivity.
  destruct (new_entry_allocation_failure no_capsule initial_state [] [] "a"%string 1 HWF Hk)
    as [_ Hbug].
  destruct Hbug as (s1 & s2 & Hset & Hsz & Htl & _); [reflexivity|reflexivity|].
  exists s1. split; [exact Hset|]. split; [exact Hsz|exact Htl].
Defined.

Lemma pop_by_key_witness :
  DequeDict_pop (Some "z"%string) (Some (-1)) dd_abc = Done (-1) dd_abc ∧
  DequeDict_pop (Some "z"%string) None dd_abc = Raise (KeyError_obj "z"%string) dd_abc.
Proof.
  assert (WF dd_abc [1; 2; 3]%positive []) as HWF
    by (apply (bool_decide_unpack _); vm_compute; reflexivity).
  pose proof (pop_by_key all_ok dd_abc _ _ "z"%string HWF) as Hpop.
  assert (dd_dict (self dd_abc) !! "z"%string = None) as Hk by (vm_compute; reflexivity).
  rewrite Hk in Hpop. destruct Hpop as [Hdef Hraise].
  split; [exact (Hdef (-1))|exact Hraise].
Defined.

Lemma move_to_end_order_witness :
  DequeDict_iter dd_abc = Done ["a"; "b"; "c"]%string dd_abc ∧
  DequeDict_move_to_end "a"%string false dd_abc = Done tt dd_abc ∧
  ∃ s', DequeDict_move_to_end "a"%string true dd_abc = Done tt s' ∧
        DequeDict_iter s' = Done ["b"; "c"; "a"]%string s'.
Proof.
  assert (WF dd_abc ([] ++ 1%positive :: [2%positive; 3%positive]) []) as HWF
    by (apply (bool_decide_unpack _); vm_compute; reflexivity).
  assert (dd_dict (self dd_abc) !! "a"%string = Some 1%positive) as Hk
    by (vm_compute; reflexivity).
  destruct (proj2 (move_to_end_order dd_abc [] "a"%string false) _ _ _ HWF Hk)
    as (s0 & Hrun0 & _ & _ & Hiter & _ & Hsame & _).
  destruct (proj2 (move_to_end_order dd_abc [] "a"%string true) _ _ _ HWF Hk)
    as (s' & Hrun & _ & _ & _ & Hiter' & _).
  rewrite (Hsame eq_refl) in Hrun0.
  split; [exact Hiter|]. split; [exact Hrun0|]. exists s'. split; [exact Hrun|exact Hiter'].
Defined.

Lemma at_index_range_witness :
  (∃ s', DequeDict_at_args all_ok 3 dd_abc = Raise (IndexError "index out of range") s') ∧
  (∃ s', DequeDict_at_args all_ok (-4) dd_abc = Raise (IndexError "index out of range") s') ∧
  (∃ v s', DequeDict_at_args all_ok (-1) dd_abc = Done v s' ∧
           DequeDict_peek dd_abc = Done v dd_abc).
Proof.
  assert (WF dd_abc [1; 2; 3]%positive []) as HWF
    by (apply (bool_decide_unpack _); vm_compute; reflexivity).
  destruct (at_index_range all_ok dd_abc _ _ HWF (λ _ _, eq_refl))
    as (_ & _ & Hsize & Hbelow & _ & Hlast).
  split; [apply Hsize; vm_compute; discriminate|].
  split; [apply Hbelow; vm_compute; discriminate|].
  apply Hlast. vm_compute. discriminate.
Defined.

(* d = DequeDict(); d.at(2**63): the conversion of the argument raises
   OverflowError, not IndexError. *)
Lemma at_index_range_counterexample :
  WF (initial_state (K:=string) (V:=Z)) [] [] ∧
  DequeDict_len (initial_state (K:=string) (V:=Z)) = Done 0 initial_state ∧
  DequeDict_at_args all_ok (2 ^ 63) (initial_state (K:=string) (V:=Z))
  = Raise (OverflowError "Python int too large to convert to C ssize_t") initial_state ∧
  ¬ ∃ s', DequeDict_at_args all_ok (2 ^ 63) (initial_state (K:=string) (V:=Z))
          = Raise (IndexError "index out of range") s'.
Proof.
  assert (DequeDict_at_args all_ok (2 ^ 63) (initial_state (K:=string) (V:=Z))
          = Raise (OverflowError "Python int too large to convert to C ssize_t")
              initial_state) as Hat by (vm_compute; reflexivity).
  split; [apply (bool_decide_unpack _); vm_compute; reflexivity|].
  split; [reflexivity|]. split; [exact Hat|].
  intros [s' Hs']. rewrite Hat in Hs'. discriminate.
Qed.

Lemma cache_growth_on_append_witness :
  cache_size (self dd_abc_cached) = 3 ∧ cache_capacity (self dd_abc_cached) = 3 ∧
  (∃ n s' fl',
     DequeDict_setitem no_realloc "d"%string (Some 4) dd_abc_cached = Done tt s' ∧
     WF s' ([1; 2; 3]%positive ++ [n]) fl' ∧ index_cache (self s') = None ∧
     cache_capacity (self s') = 0) ∧
  (∃ n s' fl',
     DequeDict_setitem all_ok "d"%string (Some 4) dd_abc_cached = Done tt s' ∧
     WF s' ([1; 2; 3]%positive ++ [n]) fl' ∧ cache_capacity (self s') = 8).
Proof.
  assert (WF dd_abc_cached [1; 2; 3]%positive []) as HWF
    by (apply (bool_decide_unpack _); vm_compute; reflexivity).
  assert (dd_dict (self dd_abc_cached) !! "d"%string = None) as Hk
    by (vm_compute; reflexivity).
  assert (is_Some (index_cache (self dd_abc_cached))) as Hc
    by (apply (bool_decide_unpack _); vm_compute; reflexivity).
  assert (cache_size (self dd_abc_cached) = cache_capacity (self dd_abc_cached)) as Hfull
    by (vm_compute; reflexivity).
  split; [vm_compute; reflexivity|]. split; [vm_compute; reflexivity|]. split.
  - destruct (cache_growth_on_append no_realloc dd_abc_cached _ _ "d"%string 4 HWF Hk Hc Hfull
                (λ _, eq_refl) eq_refl eq_refl)
      as (n & s' & fl' & Hrun & HWF' & _ & Hcache).
    simpl in Hcache. destruct Hcache as (Hnone & _ & Hcap & _).
    exists n, s', fl'. split; [exact Hrun|]. split; [exact HWF'|]. split; [exact Hnone|exact Hcap].
  - destruct (cache_growth_on_append all_ok dd_abc_cached _ _ "d"%string 4 HWF Hk Hc Hfull
                (λ _, eq_refl) eq_refl eq_refl)
      as (n & s' & fl' & Hrun & HWF' & _ & Hcache).
    simpl in Hcache. destruct Hcache as (_ & Hcap).
    exists n, s', fl'. split; [exact Hrun|]. split; [exact HWF'|]. rewrite Hcap.
    vm_compute. reflexivity.
Defined.

Lemma position_cache_kept_while_registered_example :
  ∃ s', (run Z.eqb mixed_script dd_abc_cached).2 = Some s' ∧
    dd_size (self s') = 2 ∧ is_Some (index_cache (self s')) ∧
    ∃ v s'' vals,
      DequeDict_at all_ok 1 s' = Done v s'' ∧
      DequeDictView_iter Values s' = Done vals s' ∧
      vals !! 1%nat = Some (PyValue v).
Proof.
  assert (WF dd_abc_cached [1; 2; 3]%positive []) as HWF
    by (apply (bool_decide_unpack _); vm_compute; reflexivity).
  assert (Forall (λ x : Alloc * Op string Z,
                    capsule_ok x.1 = true ∧ dict_setitem_ok x.1 = true) mixed_script) as Hops
    by (apply (bool_decide_unpack _); vm_compute; reflexivity).
  destruct (position_cache_kept_while_registered Z.eqb mixed_script dd_abc_cached _ _ HWF Hops)
    as (s' & ls' & fl' & Hrun & _ & _ & _ & _ & Hat).
  assert (s' = default dd_abc_cached (run Z.eqb mixed_script dd_abc_cached).2) as Hs
    by (rewrite Hrun; reflexivity).
  assert (dd_size (self s') = 2) as Hsz by (rewrite Hs; vm_compute; reflexivity).
  exists s'. split; [exact Hrun|]. split; [exact Hsz|]. split.
  - rewrite Hs. apply (bool_decide_unpack _). vm_compute. reflexivity.
  - apply (Hat all_ok 1); [reflexivity|]. rewrite Hsz. split; [discriminate|reflexivity].
Defined.

Lemma error_atomicity_witness :
  ∃ s', exec Z.eqb all_ok (OpAt 5) dd_abc = Raise (IndexError "index out of range") s' ∧
    index_cache (self dd_abc) = None ∧ is_Some (index_cache (self s')) ∧
    dd_size (self s') = dd_size (self dd_abc) ∧
    content (heap s') [1; 2; 3]%positive = content (heap dd_abc) [1; 2; 3]%positive.
Proof.
  assert (WF dd_abc [1; 2; 3]%positive []) as HWF
    by (apply (bool_decide_unpack _); vm_compute; reflexivity).
  set (s' := match exec Z.eqb all_ok (OpAt 5) dd_abc with
             | Raise _ s' => s'
             | _ => dd_abc
             end).
  assert (exec Z.eqb all_ok (OpAt 5) dd_abc = Raise (IndexError "index out of range") s')
    as Hrun by (vm_compute; reflexivity).
  destruct (error_atomicity Z.eqb all_ok (OpAt 5) dd_abc _ _ _ s' HWF Hrun)
    as (_ & Hsz & Hcont & _); [discriminate|].
  exists s'. split; [exact Hrun|]. split; [vm_compute; reflexivity|].
  split; [apply (bool_decide_unpack _); vm_compute; reflexivity|].
  split; [exact Hsz|exact Hcont].
Defined.

Lemma nocache_is_functional_subset_witness :
  NoCache.run Z.eqb shared_calls NoCache.initial_state
  = ((run Z.eqb (shared_script shared_calls) initial_state).1,
     erase <$> (run Z.eqb (shared_script shared_calls) initial_state).2) ∧
  (run Z.eqb (shared_script shared_calls) initial_state).1
  = [Returned PyNone; Returned PyNone; Failed (KeyError_obj "z"%string);
     Returned (PyObj (PyValue 2)); Returned PyNone; Returned (PyBool true);
     Returned (PyList [PyPair "a"%string 1])].
Proof.
  destruct (nocache_is_functional_subset Z.eqb shared_calls initial_state eq_refl)
    as (Hrun & _ & Hinit & _).
  rewrite Hinit in Hrun. split; [exact Hrun|]. vm_compute. reflexivity.
Defined.

Lemma equality_is_by_content_witness :
  DequeDict_richcompare Z.eqb dict_yx Py_EQ dd_xy = Done (PyBool true) dd_xy ∧
  DequeDict_richcompare Z.eqb dict_yx Py_NE dd_xy = Done (PyBool false) dd_xy ∧
  DequeDict_iter dd_xy = Done ["x"; "y"]%string dd_xy.
Proof.
  assert (WF dd_xy [1; 2]%positive []) as HWF
    by (apply (bool_decide_unpack _); vm_compute; reflexivity).
  destruct (proj1 (equality_is_by_content Z.eqb dd_xy _ _ HWF) _ _ dict_yx)
    as (b & Heq & Hne & _).
  assert (b = true) as Hb.
  { pose proof Heq as Heq'. vm_compute in Heq'. by injection Heq' as <-. }
  rewrite Hb in Heq, Hne.
  split; [exact Heq|]. split; [exact Hne|]. vm_compute. reflexivity.
Defined.

(* ------------------------------------------------------------------- *)
(* The calls of the test scenarios, evaluated                           *)
(* ------------------------------------------------------------------- *)

(* set a, b, c; then at(0), at(1), at(2), at(-1) *)
Example scenario_at_after_sets :
  (run Z.eqb [(all_ok, OpAt 0); (all_ok, OpAt 1); (all_ok, OpAt 2); (all_ok, OpAt (-1))]
       dd_abc).1
  = [Returned (PyObj (PyValue 1)); Returned (PyObj (PyValue 2));
     Returned (PyObj (PyValue 3)); Returned (PyObj (PyValue 3))].
Proof. vm_compute. reflexivity. Qed.

(* popleft, then at(0), with the array built before and without *)
Example scenario_popleft_then_at :
  (run Z.eqb [call OpPopLeft; (all_ok, OpAt 0)] dd_abc_cached).1
  = [Returned (PyObj (PyValue 1)); Returned (PyObj (PyValue 2))] ∧
  (run Z.eqb [call OpPopLeft; (all_ok, OpAt 0)] dd_abc).1
  = [Returned (PyObj (PyValue 1)); Returned (PyObj (PyValue 2))].
Proof. split; vm_compute; reflexivity. Qed.

(* del d["b"], then at(0), at(1) *)
Example scenario_delete_then_at :
  (run Z.eqb [call (OpDelItem "b"%string); (all_ok, OpAt 0); (all_ok, OpAt 1)]
       dd_abc_cached).1
  = [Returned PyNone; Returned (PyObj (PyValue 1)); Returned (PyObj (PyValue 3))].
Proof. vm_compute. reflexivity. Qed.

(* d["a"] = 1 with PyLong_FromVoidPtr failing: the call raises, yet len(d)
   is 1, "a" in d is false and peek() returns 1; after one more insertion
   the walk of list(d) does not come to an end. *)
Example scenario_failed_insertion :
  (run Z.eqb [(no_capsule, Shared (OpSetItem "a"%string 1)); call OpLen;
              call (OpContains "a"%string); call OpPeek] initial_state).1
  = [Failed MemoryError; Returned (PyInt 1); Returned (PyBool false);
     Returned (PyObj (PyValue 1))] ∧
  run Z.eqb [(no_capsule, Shared (OpSetItem "a"%string 1));
             call (OpSetItem "b"%string 2); call OpLen; call OpIter] initial_state
  = ([Failed MemoryError; Returned PyNone; Returned (PyInt 2)], None).
Proof. split; vm_compute; reflexivity. Qed.

(* In the state that the failed insertion and the next insertion leave,
   the walk over the values from an entry of the list is still under way
   after any number of steps. *)
Lemma failed_set_walk_goes_on fuel a :
  a ∈ [1; 2; 3; 4]%positive →
  drain (DequeDictViewIter_next Values false) fuel (Some a) dd_failed_set
  = Done None dd_failed_set.
Proof.
  assert (∀ fuel, drain (DequeDictViewIter_next Values false) fuel (Some 4%positive)
                    dd_failed_set = Done None dd_failed_set) as H4.
  { clear. induction fuel as [|fuel IH]; [reflexivity|].
    rewrite drain_S, bind_run.
    replace (DequeDictViewIter_next Values false (Some 4%positive) dd_failed_set)
      with (Done (Some (PyValue (K:=string) 5, Some 4%positive)) dd_failed_set)
      by (vm_compute; reflexivity).
    cbv beta iota. by rewrite bind_run, IH. }
  assert (∀ fuel, drain (DequeDictViewIter_next Values false) fuel (Some 3%positive)
                    dd_failed_set = Done None dd_failed_set) as H3.
  { clear -H4. intros [|fuel]; [reflexivity|]. rewrite drain_S, bind_run.
    replace (DequeDictViewIter_next Values false (Some 3%positive) dd_failed_set)
      with (Done (Some (PyValue (K:=string) 3, Some 4%positive)) dd_failed_set)
      by (vm_compute; reflexivity).
    cbv beta iota. by rewrite bind_run, H4. }
  assert (∀ fuel, drain (DequeDictViewIter_next Values false) fuel (Some 2%positive)
                    dd_failed_set = Done None dd_failed_set) as H2.
  { clear -H3. intros [|fuel]; [reflexivity|]. rewrite drain_S, bind_run.
    replace (DequeDictViewIter_next Values false (Some 2%positive) dd_failed_set)
      with (Done (Some (PyValue (K:=string) 2, Some 3%positive)) dd_failed_set)
      by (vm_compute; reflexivity).
    cbv beta iota. by rewrite bind_run, H3. }
  intros Ha. revert fuel.
  apply elem_of_cons in Ha as [->|Ha]; [|apply elem_of_cons in Ha as [->|Ha]; [done|];
    apply elem_of_cons in Ha as [->|Ha]; [done|];
    apply list_elem_of_singleton in Ha as ->; done].
  intros [|fuel]; [reflexivity|]. rewrite drain_S, bind_run.
  replace (DequeDictViewIter_next Values false (Some 1%positive) dd_failed_set)
    with (Done (Some (PyValue (K:=string) 1, Some 2%positive)) dd_failed_set)
    by (vm_compute; reflexivity).
  cbv beta iota. by rewrite bind_run, H2.
Qed.

(** C2: the invariant of the position cache does not survive a set of
    a new key whose entry cannot be entered in the key index.  On
    d = DequeDict() with d["a"] = 1, d["b"] = 2, d["c"] = 3 and the array
    built by d.at(0), d["d"] = 4 during which PyDict_SetItem fails raises
    MemoryError after the entry was linked, counted and written to slot
    3, and hands the entry to the pool; d["e"] = 5 takes the same entry
    from the pool and writes it to slot 4.  Afterwards the array is
    present, len(d) is 5 and cache_size - cache_offset is 5, but only
    four entries are in memory: slots 3 and 4 hold one entry, which
    records slot 4 and whose next pointer is the entry itself; at(3) and
    at(4) both return 5, the key "d" is not in d, the walk over the
    values from the head has not come to an end after any number of
    steps, and the state is not well formed for any list of entries. *)
Theorem position_cache_broken_by_failed_insertion :
  run Z.eqb failed_set_script initial_state
  = ([Returned PyNone; Returned PyNone; Returned PyNone; Returned (PyObj (PyValue 1));
      Failed MemoryError; Returned PyNone], Some dd_failed_set) ∧
  ∃ arr n e,
    index_cache (self dd_failed_set) = Some arr ∧
    DequeDict_len dd_failed_set = Done 5 dd_failed_set ∧
    cache_size (self dd_failed_set) - cache_offset (self dd_failed_set) = 5 ∧
    size (heap dd_failed_set) = 4%nat ∧
    arr !! 3%nat = Some (Some n) ∧ arr !! 4%nat = Some (Some n) ∧
    heap dd_failed_set !! n = Some e ∧
    e_cache_idx e = 4 ∧ e_next e = Some n ∧ dd_tail (self dd_failed_set) = Some n ∧
    DequeDict_at_args all_ok 3 dd_failed_set = Done 5 dd_failed_set ∧
    DequeDict_at_args all_ok 4 dd_failed_set = Done 5 dd_failed_set ∧
    DequeDict_contains "d"%string dd_failed_set = Done false dd_failed_set ∧
    (∀ fuel, drain (DequeDictViewIter_next Values false) fuel
               (dd_head (self dd_failed_set)) dd_failed_set
             = Done None dd_failed_set) ∧
    DequeDictView_iter Values dd_failed_set = Fault ∧
    ∀ ls fl, ¬ WF dd_failed_set ls fl.
Proof.
  split; [vm_compute; reflexivity|].
  assert (DequeDictView_iter Values dd_failed_set = Fault) as Hwalk
    by (vm_compute; reflexivity).
  eexists _, 4%positive, _. split_and!;
    try (vm_compute; reflexivity); try exact Hwalk.
  - intros fuel. change (dd_head (self dd_failed_set)) with (Some 1%positive).
    apply failed_set_walk_goes_on. left.
  - intros ls fl [[Hlist _] _]. rewrite (view_iter_spec _ _ _ _ Hlist) in Hwalk.
    discriminate.
Qed.

(* ------------------------------------------------------------------- *)
(* More properties of the methods                                       *)
(* ------------------------------------------------------------------- *)

Section Reading.
Context {K : Type} `{Countable K} {V : Type}.
Implicit Types (e : DequeDictEntry (K:=K) (V:=V)).
Implicit Types (s : State (K:=K) (V:=V)) (ls fl : list positive).

Lemma item_of_content (h : gmap positive (DequeDictEntry (K:=K) (V:=V))) ls kind :
  item_of kind <$> entries h ls = item_of_pair kind <$> content h ls.
Proof. rewrite content_entries, <-list_fmap_compose. apply list_fmap_ext. by intros ? []. Qed.

Lemma reverse_content (h : gmap positive (DequeDictEntry (K:=K) (V:=V))) ls kind :
  item_of kind <$> reverse (entries h ls) = reverse (item_of_pair kind <$> content h ls).
Proof. by rewrite <-item_of_content, fmap_reverse. Qed.

Lemma content_key_elem s ls fl k :
  WF s ls fl → k ∈ (content (heap s) ls).*1 ↔ is_Some (dd_dict (self s) !! k).
Proof.
  intros HWF. rewrite list_elem_of_fmap. split.
  - intros ([k' v] & -> & Hkv).
    apply (content_elem s ls fl k' v HWF) in Hkv as (a & e & Hk & _). by exists a.
  - intros [a Hk]. pose proof HWF as [[_ Hdict] _].
    destruct (dict_inv_lookup _ _ _ _ Hdict Hk) as [Ha _].
    destruct (dict_inv_elem _ _ _ Hdict Ha) as (e & He & _).
    exists (k, e_value e). split; [done|].
    apply (content_elem s ls fl k (e_value e) HWF). by exists a, e.
Qed.

(* What the reading methods answer is fixed by the pairs from head to
   tail. *)
Lemma reads_by_content s ls fl :
  WF s ls fl →
  DequeDict_len s = Done (Z.of_nat (length (content (heap s) ls))) s ∧
  (∀ k, DequeDict_contains k s
        = Done (bool_decide (k ∈ (content (heap s) ls).*1)) s) ∧
  (∀ k v, (k, v) ∈ content (heap s) ls →
     DequeDict_getitem k s = Done v s ∧ ∀ d, DequeDict_get k d s = Done (Some v) s) ∧
  (∀ k, k ∉ (content (heap s) ls).*1 →
     DequeDict_getitem k s = Raise (KeyError_obj k) s ∧
     ∀ d, DequeDict_get k d s = Done d s) ∧
  DequeDict_iter s = Done (content (heap s) ls).*1 s ∧
  DequeDict_reversed s = Done (reverse (content (heap s) ls).*1) s ∧
  (∀ kind, DequeDictView_iter kind s
           = Done (item_of_pair kind <$> content (heap s) ls) s) ∧
  (∀ kind, DequeDictView_reversed kind s
           = Done (reverse (item_of_pair kind <$> content (heap s) ls)) s).
Proof.
  intros HWF. pose proof HWF as [[Hlist Hdict] _].
  pose proof Hlist as (_ & Hseg & _ & _ & Hsz & _).
  split_and!.
  - unfold DequeDict_len. msimpl. by rewrite Hsz, (content_length _ _ _ _ Hseg).
  - intros k. unfold DequeDict_contains. msimpl. do 2 f_equal.
    apply bool_decide_ext. symmetry. by apply (content_key_elem s ls fl).
  - intros k v Hkv. apply (content_elem s ls fl k v HWF) in Hkv as (a & e & Hk & He & <-).
    pose proof (getitem_spec s ls fl k HWF) as Hg. rewrite Hk in Hg.
    destruct Hg as (e' & He' & _ & _ & Hg). split; [congruence|]. intros d.
    pose proof (get_spec s ls fl k d HWF) as Hg'. rewrite Hk in Hg'.
    destruct Hg' as (e'' & He'' & _ & Hg'). congruence.
  - intros k Hk. rewrite (content_key_elem s ls fl k HWF), <-eq_None_not_Some in Hk.
    pose proof (getitem_spec s ls fl k HWF) as Hg. rewrite Hk in Hg. split; [done|].
    intros d. pose proof (get_spec s ls fl k d HWF) as Hg'. by rewrite Hk in Hg'.
  - by rewrite (iter_spec _ _ _ Hlist), keys_content.
  - by rewrite (reversed_spec _ _ _ Hlist), fmap_reverse, keys_content.
  - intros kind. by rewrite (view_iter_spec _ _ _ _ Hlist), item_of_content.
  - intros kind. by rewrite (view_reversed_spec _ _ _ _ Hlist), reverse_content.
Qed.

End Reading.

Section Observable.
Context {K : Type} `{Countable K} {V : Type}.
Implicit Types (e : DequeDictEntry (K:=K) (V:=V)).
Implicit Types (s : State (K:=K) (V:=V)) (ls fl : list positive).

(** X1: on a well-formed container the reading methods agree with one
    another.  With c the pairs that iteration over the items view
    yields: the keys, values and items views and iter(d) yield the
    components of c in the same order, no key occurs twice, len(d) and
    the len of a view are the length of c, k in d and k in d.keys() say
    whether k is a key of c, d[k] and get(k, default) return v for a
    pair (k, v) of c, and for a key that is not in c d[k] raises
    KeyError(k) and get(k, default) returns the default; none of these
    calls changes the state. *)
Theorem reads_agree_with_iteration s ls fl :
  WF s ls fl →
  ∃ c : list (K * V),
    (∀ kind, DequeDictView_iter kind s = Done (item_of_pair kind <$> c) s) ∧
    DequeDict_iter s = Done c.*1 s ∧
    NoDup c.*1 ∧
    DequeDict_len s = Done (Z.of_nat (length c)) s ∧
    DequeDictView_len s = Done (Z.of_nat (length c)) s ∧
    (∀ k, DequeDict_contains k s = Done (bool_decide (k ∈ c.*1)) s ∧
          DequeDictKeysView_contains k s = Done (bool_decide (k ∈ c.*1)) s) ∧
    (∀ k v, (k, v) ∈ c →
       DequeDict_getitem k s = Done v s ∧ ∀ d, DequeDict_get k d s = Done (Some v) s) ∧
    (∀ k, k ∉ c.*1 →
       DequeDict_getitem k s = Raise (KeyError_obj k) s ∧
       ∀ d, DequeDict_get k d s = Done d s).
Proof.
  intros HWF.
  destruct (reads_by_content s ls fl HWF)
    as (Hlen & Hin & Hget & Hmiss & Hiter & _ & Hview & _).
  exists (content (heap s) ls). split_and!; try done.
  by apply (content_keys_NoDup s ls fl).
Qed.

(** X2: reversed(d) yields the keys that iter(d) yields in the opposite
    order, and reversed() of the keys, values or items view yields what
    iteration over that view yields in the opposite order. *)
Theorem reversed_is_reverse_of_iteration s ls fl :
  WF s ls fl →
  ∃ keys : list K,
    DequeDict_iter s = Done keys s ∧
    DequeDict_reversed s = Done (reverse keys) s ∧
    ∀ kind, ∃ items,
      DequeDictView_iter kind s = Done items s ∧
      DequeDictView_reversed kind s = Done (reverse items) s.
Proof.
  intros HWF.
  destruct (reads_by_content s ls fl HWF)
    as (_ & _ & _ & _ & Hiter & Hrev & Hview & Hvrev).
  exists (content (heap s) ls).*1. split; [done|]. split; [done|].
  intros kind. by exists (item_of_pair kind <$> content (heap s) ls).
Qed.

End Observable.

Lemma reads_agree_with_iteration_witness :
  ∃ c : list (string * Z),
    DequeDictView_iter Items dd_abc = Done (item_of_pair Items <$> c) dd_abc ∧
    DequeDict_len dd_abc = Done (Z.of_nat (length c)) dd_abc.
Proof.
  assert (WF dd_abc [1; 2; 3]%positive []) as HWF
    by (apply (bool_decide_unpack _); vm_compute; reflexivity).
  destruct (reads_agree_with_iteration dd_abc _ _ HWF) as (c & Hview & _ & _ & Hlen & _).
  exists c. split; [exact (Hview Items)|exact Hlen].
Defined.

Lemma reversed_is_reverse_of_iteration_witness :
  ∃ keys : list string,
    DequeDict_iter dd_abc = Done keys dd_abc ∧
    DequeDict_reversed dd_abc = Done (reverse keys) dd_abc.
Proof.
  assert (WF dd_abc [1; 2; 3]%positive []) as HWF
    by (apply (bool_decide_unpack _); vm_compute; reflexivity).
  destruct (reversed_is_reverse_of_iteration dd_abc _ _ HWF) as (keys & Hiter & Hrev & _).
  exists keys. split; [exact Hiter|exact Hrev].
Defined.

Section Ends.
Context {K : Type} `{Countable K} {V : Type}.
Implicit Types (e : DequeDictEntry (K:=K) (V:=V)).
Implicit Types (s : State (K:=K) (V:=V)) (ls fl : list positive).

(* k in d answers false exactly for the keys that the key index lacks. *)
Lemma contains_false s key :
  DequeDict_contains key s = Done false s ↔ dd_dict (self s) !! key = None.
Proof.
  unfold DequeDict_contains. msimpl. split.
  - intros [= Hb]. apply bool_decide_eq_false in Hb. by apply eq_None_not_Some.
  - by intros ->.
Qed.

(* The peeks in terms of the pairs. *)
Lemma peeks_by_content s ls fl :
  WF s ls fl →
  (∀ kv, head (content (heap s) ls) = Some kv →
     DequeDict_peekleft s = Done kv.2 s ∧ DequeDict_peekleftitem s = Done kv s ∧
     DequeDict_peekleftkey s = Done kv.1 s) ∧
  (∀ kv, last (content (heap s) ls) = Some kv →
     DequeDict_peek s = Done kv.2 s ∧ DequeDict_peekitem s = Done kv s).
Proof.
  intros HWF. pose proof HWF as [Hcore _]. split.
  - intros kv Hhd. destruct ls as [|a ls]; [done|].
    destruct (WF_head_entry _ _ _ _ Hcore) as (e & He & _).
    rewrite (content_cons _ _ _ _ He) in Hhd. injection Hhd as <-.
    pose proof (peek_front_spec s (a :: ls) fl HWF) as (e' & He' & Hp).
    assert (e' = e) as -> by congruence. by destruct Hp as (? & ? & ?).
  - intros kv Hlast. destruct ls as [|a ls _] using rev_ind; [done|].
    destruct (WF_tail_entry _ _ _ _ Hcore) as (e & He & _).
    rewrite (content_snoc _ _ _ _ He), last_snoc in Hlast. injection Hlast as <-.
    pose proof (peek_back_spec s (ls ++ [a]) fl HWF) as Hp. rewrite last_snoc in Hp.
    destruct Hp as (e' & He' & Hp). assert (e' = e) as -> by congruence.
    by destruct Hp as (? & ?).
Qed.

(** X3: d[k] = v for a key that is not in d (k in d is false), when the
    allocations for the entry and for the key index succeed: the call
    succeeds, the pair is the last one of the iteration, the pairs that
    were there keep their order, and afterwards d[k] returns v,
    peekitem() returns (k, v) and len(d) is one more. *)
Theorem set_new_key_appends al s ls fl key value :
  WF s ls fl → DequeDict_contains key s = Done false s →
  (fl = [] → entry_malloc_ok al = true) →
  capsule_ok al = true → dict_setitem_ok al = true →
  ∃ s' n fl',
    DequeDict_setitem al key (Some value) s = Done tt s' ∧
    WF s' (ls ++ [n]) fl' ∧
    DequeDictView_iter Items s = Done (item_of_pair Items <$> content (heap s) ls) s ∧
    DequeDictView_iter Items s'
    = Done (item_of_pair Items <$> content (heap s) ls ++ [(key, value)]) s' ∧
    DequeDict_getitem key s' = Done value s' ∧
    DequeDict_contains key s' = Done true s' ∧
    DequeDict_peekitem s' = Done (key, value) s' ∧
    DequeDict_len s' = Done (dd_size (self s) + 1) s'.
Proof.
  intros HWF Hk%contains_false Hentry Hcap Hdset.
  destruct (setitem_new_spec al s ls fl key value HWF Hk Hcap Hdset)
    as [(Hfl & Hm & _)|(_ & n & s' & fl' & Hrun & HWF' & _ & Hcont & _)].
  { by rewrite (Hentry Hfl) in Hm. }
  destruct (reads_by_content s ls fl HWF) as (_ & _ & _ & _ & _ & _ & Hview & _).
  destruct (reads_by_content s' _ fl' HWF')
    as (Hlen' & Hin' & Hget' & _ & _ & _ & Hview' & _).
  rewrite Hcont in Hlen', Hin', Hget', Hview'.
  exists s', n, fl'. split_and!; try done.
  - apply Hget'. apply elem_of_app. right. left.
  - rewrite Hin'. do 2 f_equal. apply bool_decide_eq_true.
    rewrite fmap_app. apply elem_of_app. right. left.
  - destruct (peeks_by_content s' _ fl' HWF') as [_ Hlast].
    apply (Hlast (key, value)). by rewrite Hcont, last_snoc.
  - rewrite Hlen', length_app. simpl. do 2 f_equal.
    pose proof HWF as [[(_ & Hseg & _ & _ & Hsz & _) _] _].
    rewrite (content_length _ _ _ _ Hseg). lia.
Qed.

(** X4: appendleft(k, v) for a key that is not in d, when the
    allocations succeed: the pair becomes the first one of the iteration
    and the position cache is dropped; afterwards peekleftitem() returns
    (k, v), and popleftitem() returns (k, v) and leaves the pairs that
    were there before the appendleft, in their order. *)
Theorem appendleft_then_popleftitem al s ls fl key value :
  WF s ls fl → DequeDict_contains key s = Done false s →
  (fl = [] → entry_malloc_ok al = true) →
  capsule_ok al = true → dict_setitem_ok al = true →
  ∃ s' n fl' s'' fl'',
    DequeDict_appendleft al key value s = Done tt s' ∧
    WF s' (n :: ls) fl' ∧ index_cache (self s') = None ∧
    DequeDictView_iter Items s'
    = Done (item_of_pair Items <$> (key, value) :: content (heap s) ls) s' ∧
    DequeDict_peekleftitem s' = Done (key, value) s' ∧
    DequeDict_popleftitem s' = Done (key, value) s'' ∧
    WF s'' ls fl'' ∧
    DequeDictView_iter Items s'' = Done (item_of_pair Items <$> content (heap s) ls) s'' ∧
    DequeDict_contains key s'' = Done false s''.
Proof.
  intros HWF Hk%contains_false Hentry Hcap Hdset.
  destruct (appendleft_new_spec al s ls fl key value HWF Hk Hcap Hdset)
    as [(Hfl & Hm & _)|(_ & n & s' & fl' & Hrun & HWF' & Hn & Hcont & _ & Hc)].
  { by rewrite (Hentry Hfl) in Hm. }
  destruct (reads_by_content s' _ fl' HWF') as (_ & _ & _ & _ & _ & _ & Hview' & _).
  destruct (peeks_by_content s' _ fl' HWF') as [Hhead' _].
  rewrite Hcont in Hview', Hhead'.
  destruct (popleftitem_spec s' n ls fl' HWF') as (e & s'' & fl'' & He & Hpop & HWF'' & Hcont'' & _).
  rewrite (content_cons _ _ _ _ He) in Hcont. injection Hcont as Hke Hve Hrest.
  rewrite Hke, Hve in Hpop.
  destruct (reads_by_content s'' _ fl'' HWF'') as (_ & Hin'' & _ & _ & _ & _ & Hview'' & _).
  rewrite Hcont'', Hrest in Hview'', Hin''.
  exists s', n, fl', s'', fl''. split_and!; try done.
  - by apply (Hhead' (key, value)).
  - rewrite Hin''. do 2 f_equal. apply bool_decide_eq_false.
    by rewrite (content_key_elem s ls fl key HWF), Hk, <-eq_None_not_Some.
Qed.

(** X5: on a container that is not empty, popleft() returns the value and
    popleftitem() the pair that iteration yields first (the pair that
    peekleftitem() shows); both leave the same state, in which the other
    pairs keep their order, the key is no longer in d and the size is one
    less. *)
Theorem popleft_takes_first s a ls fl :
  WF s (a :: ls) fl →
  ∃ k v rest s' fl',
    DequeDictView_iter Items s = Done (item_of_pair Items <$> (k, v) :: rest) s ∧
    DequeDict_peekleftitem s = Done (k, v) s ∧
    DequeDict_popleft s = Done v s' ∧
    DequeDict_popleftitem s = Done (k, v) s' ∧
    WF s' ls fl' ∧
    DequeDictView_iter Items s' = Done (item_of_pair Items <$> rest) s' ∧
    DequeDict_contains k s' = Done false s' ∧
    dd_size (self s') = dd_size (self s) - 1.
Proof.
  intros HWF.
  destruct (pop_front_core s a ls fl HWF) as (e & s' & fl' & He & Hrun & HWF' & Hcont & _).
  pose proof HWF as [Hcore _].
  destruct (WF_head_entry _ _ _ _ Hcore) as (e' & He' & _ & _ & Hhd).
  assert (e' = e) as -> by congruence.
  destruct (reads_by_content s _ fl HWF) as (_ & _ & _ & _ & _ & _ & Hview & _).
  destruct (reads_by_content s' _ fl' HWF') as (_ & Hin' & _ & _ & _ & _ & Hview' & _).
  destruct (peeks_by_content s _ fl HWF) as [Hhead _].
  pose proof (content_keys_NoDup s _ fl HWF) as Hnd.
  rewrite (content_cons _ _ _ _ He) in Hview, Hhead, Hnd. rewrite Hcont in Hview', Hin'.
  exists (e_key e), (e_value e), (content (heap s) ls), s', fl'. split_and!; try done.
  - by apply (Hhead (e_key e, e_value e)).
  - unfold DequeDict_popleft. rewrite bind_run. simpl. rewrite Hhd.
    rewrite bind_run, (load_run _ _ _ He). apply Hrun.
  - unfold DequeDict_popleftitem. rewrite bind_run. simpl. rewrite Hhd.
    rewrite bind_run, (load_run _ _ _ He). apply Hrun.
  - rewrite Hin'. do 2 f_equal. apply bool_decide_eq_false.
    simpl in Hnd. by apply NoDup_cons in Hnd as [? _].
  - destruct HWF as [[(_ & _ & _ & _ & Hsz & _) _] _].
    destruct HWF' as [[(_ & _ & _ & _ & Hsz' & _) _] _].
    rewrite Hsz, Hsz'. simpl length. lia.
Qed.

(** X6: on a container that is not empty, pop() without arguments
    returns the value and popitem() the pair that iteration yields last
    (the pair that peekitem() shows); both leave the same state, in which
    the other pairs keep their order, the key is no longer in d and the
    size is one less. *)
Theorem pop_takes_last s ls a fl :
  WF s (ls ++ [a]) fl →
  ∃ k v rest s' fl',
    DequeDictView_iter Items s = Done (item_of_pair Items <$> rest ++ [(k, v)]) s ∧
    DequeDict_peekitem s = Done (k, v) s ∧
    DequeDict_pop None None s = Done v s' ∧
    DequeDict_popitem s = Done (k, v) s' ∧
    WF s' ls fl' ∧
    DequeDictView_iter Items s' = Done (item_of_pair Items <$> rest) s' ∧
    DequeDict_contains k s' = Done false s' ∧
    dd_size (self s') = dd_size (self s) - 1.
Proof.
  intros HWF.
  destruct (pop_back_core s ls a fl HWF) as (e & s' & fl' & He & Hrun & HWF' & Hcont & _).
  pose proof HWF as [Hcore _].
  destruct (WF_tail_entry _ _ _ _ Hcore) as (e' & He' & _ & _ & Htl).
  assert (e' = e) as -> by congruence.
  destruct (reads_by_content s _ fl HWF) as (_ & _ & _ & _ & _ & _ & Hview & _).
  destruct (reads_by_content s' _ fl' HWF') as (_ & Hin' & _ & _ & _ & _ & Hview' & _).
  destruct (peeks_by_content s _ fl HWF) as [_ Hlast].
  pose proof (content_keys_NoDup s _ fl HWF) as Hnd.
  rewrite (content_snoc _ _ _ _ He) in Hview, Hlast, Hnd. rewrite Hcont in Hview', Hin'.
  exists (e_key e), (e_value e), (content (heap s) ls), s', fl'. split_and!; try done.
  - apply (Hlast (e_key e, e_value e)). by rewrite last_snoc.
  - unfold DequeDict_pop. rewrite bind_run. simpl. rewrite Htl.
    rewrite bind_run, (load_run _ _ _ He). apply Hrun.
  - unfold DequeDict_popitem. rewrite bind_run. simpl. rewrite Htl.
    rewrite bind_run, (load_run _ _ _ He). apply Hrun.
  - rewrite Hin'. do 2 f_equal. apply bool_decide_eq_false.
    rewrite fmap_app in Hnd. apply NoDup_app in Hnd as (_ & Hdisj & _).
    intros Hin. apply (Hdisj _ Hin). simpl. left.
  - destruct HWF as [[(_ & _ & _ & _ & Hsz & _) _] _].
    destruct HWF' as [[(_ & _ & _ & _ & Hsz' & _) _] _].
    rewrite Hsz, Hsz', length_app. simpl length. lia.
Qed.

End Ends.

Section EmptyAndClear.
Context {K : Type} `{Countable K} {V : Type}.
Implicit Types (e : DequeDictEntry (K:=K) (V:=V)).
Implicit Types (s : State (K:=K) (V:=V)) (ls fl : list positive).

(* A well-formed container of size 0 has no entries. *)
Lemma WF_size_0 s ls fl : WF s ls fl → dd_size (self s) = 0 → ls = [].
Proof.
  intros [[(_ & _ & _ & _ & Hsz & _) _] _] Hz. rewrite Hz in Hsz.
  destruct ls; [done|]. simpl in Hsz. lia.
Qed.

(* what the calls answer on a well-formed container without entries *)
Lemma empty_reads s fl al :
  WF s [] fl →
  DequeDict_peekleft s = Raise (IndexError "peek from an empty DequeDict") s ∧
  DequeDict_peekleftitem s = Raise (IndexError "peek from an empty DequeDict") s ∧
  DequeDict_peekleftkey s = Raise (IndexError "peek from an empty DequeDict") s ∧
  DequeDict_peek s = Raise (IndexError "peek from an empty DequeDict") s ∧
  DequeDict_peekitem s = Raise (IndexError "peek from an empty DequeDict") s ∧
  DequeDict_popleft s = Raise (IndexError "pop from an empty DequeDict") s ∧
  DequeDict_pop None None s = Raise (IndexError "pop from an empty DequeDict") s ∧
  DequeDict_popleftitem s = Raise (KeyError_str "popleftitem from an empty DequeDict") s ∧
  DequeDict_popitem s = Raise (KeyError_str "popitem from an empty DequeDict") s ∧
  (∀ index, ∃ s', DequeDict_at al index s = Raise (IndexError "index out of range") s') ∧
  DequeDict_iter s = Done [] s ∧
  (∀ kind, DequeDictView_iter kind s = Done [] s) ∧
  (∀ k, DequeDict_contains k s = Done false s) ∧
  (∀ k d, DequeDict_get k d s = Done d s).
Proof.
  intros HWF.
  destruct (WF_empty_ends _ _ HWF) as [Hhd Htl].
  destruct (peek_front_spec s [] fl HWF) as (? & ? & ?).
  destruct (peek_back_spec s [] fl HWF) as (? & ?).
  destruct (reads_by_content s [] fl HWF) as (_ & Hin & _ & Hmiss & Hiter & _ & Hview & _).
  split_and!; try done.
  - unfold DequeDict_popleft. rewrite bind_run. simpl. by rewrite Hhd.
  - unfold DequeDict_pop. rewrite bind_run. simpl. by rewrite Htl.
  - unfold DequeDict_popleftitem. rewrite bind_run. simpl. by rewrite Hhd.
  - unfold DequeDict_popitem. rewrite bind_run. simpl. by rewrite Htl.
  - intros index.
    destruct (at_outcome al s [] fl index HWF) as (s' & _ & _ & _ & _ & Hat); [done|].
    cbn in Hat. change (Z.of_nat 0) with 0 in Hat. exists s'.
    assert ((((if index <? 0 then index + 0 else index) <? 0)
             || ((if index <? 0 then index + 0 else index) >=? 0)) = true) as Hout.
    { destruct (Z.ltb_spec index 0).
      - apply orb_true_iff. left. apply Z.ltb_lt. lia.
      - apply orb_true_iff. right. apply Z.geb_le. lia. }
    by rewrite Hout in Hat.
  - intros k d. by apply Hmiss, not_elem_of_nil.
Qed.

(** X7: on a well-formed container with len(d) == 0 every peek raises
    IndexError("peek from an empty DequeDict"), popleft() and pop() raise
    IndexError("pop from an empty DequeDict"), popleftitem() and
    popitem() raise KeyError (with the name of the method in the
    message), at(index) raises IndexError("index out of range") for every
    index that fits Py_ssize_t and OverflowError, from the conversion of
    the argument, for every other one, iteration yields nothing, no key
    is in d and get returns the default.  Except for at with an index
    that fits, the state is unchanged. *)
Theorem empty_container_answers s ls fl al :
  WF s ls fl → DequeDict_len s = Done 0 s →
  DequeDict_peekleft s = Raise (IndexError "peek from an empty DequeDict") s ∧
  DequeDict_peekleftitem s = Raise (IndexError "peek from an empty DequeDict") s ∧
  DequeDict_peekleftkey s = Raise (IndexError "peek from an empty DequeDict") s ∧
  DequeDict_peek s = Raise (IndexError "peek from an empty DequeDict") s ∧
  DequeDict_peekitem s = Raise (IndexError "peek from an empty DequeDict") s ∧
  DequeDict_popleft s = Raise (IndexError "pop from an empty DequeDict") s ∧
  DequeDict_pop None None s = Raise (IndexError "pop from an empty DequeDict") s ∧
  DequeDict_popleftitem s = Raise (KeyError_str "popleftitem from an empty DequeDict") s ∧
  DequeDict_popitem s = Raise (KeyError_str "popitem from an empty DequeDict") s ∧
  (∀ index, PY_SSIZE_T_MIN ≤ index ≤ PY_SSIZE_T_MAX →
     ∃ s', DequeDict_at_args al index s = Raise (IndexError "index out of range") s') ∧
  (∀ index, ¬ (PY_SSIZE_T_MIN ≤ index ≤ PY_SSIZE_T_MAX) →
     DequeDict_at_args al index s
     = Raise (OverflowError "Python int too large to convert to C ssize_t") s) ∧
  DequeDict_iter s = Done [] s ∧
  (∀ kind, DequeDictView_iter kind s = Done [] s) ∧
  (∀ k, DequeDict_contains k s = Done false s) ∧
  (∀ k d, DequeDict_get k d s = Done d s).
Proof.
  intros HWF Hlen. unfold DequeDict_len in Hlen. simpl in Hlen. injection Hlen as Hz.
  rewrite (WF_size_0 s ls fl HWF Hz) in HWF.
  destruct (empty_reads s fl al HWF)
    as (? & ? & ? & ? & ? & ? & ? & ? & ? & Hat & ? & ? & ? & ?).
  split_and!; try done.
  - intros index Hfits. rewrite (at_args_fits al index s Hfits). apply Hat.
  - intros index Hout. by apply at_args_overflow.
Qed.

(** X8: clear() succeeds on every well-formed container and leaves a
    well-formed container that answers like a new one: len(d) is 0,
    iteration yields nothing, no key is in d, get returns the default,
    the peeks and pops raise, and the position cache is dropped. *)
Theorem clear_leaves_empty_container s ls fl :
  WF s ls fl →
  ∃ s' fl',
    DequeDict_clear_method s = Done tt s' ∧ WF s' [] fl' ∧
    index_cache (self s') = None ∧
    DequeDict_len s' = Done 0 s' ∧
    (∀ kind, DequeDictView_iter kind s' = Done [] s') ∧
    (∀ k, DequeDict_contains k s' = Done false s') ∧
    (∀ k d, DequeDict_get k d s' = Done d s') ∧
    DequeDict_peek s' = Raise (IndexError "peek from an empty DequeDict") s' ∧
    DequeDict_popleft s' = Raise (IndexError "pop from an empty DequeDict") s'.
Proof.
  intros HWF. destruct (clear_spec s ls fl HWF) as (s' & fl' & Hrun & HWF' & Hsz & Hc).
  destruct (empty_reads s' fl' all_ok HWF')
    as (_ & _ & _ & Hpeek & _ & Hpop & _ & _ & _ & _ & _ & Hview & Hin & Hget).
  exists s', fl'. split_and!; try done.
  unfold DequeDict_len. msimpl. by rewrite Hsz.
Qed.

End EmptyAndClear.

Lemma set_new_key_appends_witness :
  ∃ s',
    DequeDict_setitem all_ok "d"%string (Some 4) dd_abc = Done tt s' ∧
    DequeDict_peekitem s' = Done ("d"%string, 4) s' ∧
    DequeDict_len s' = Done (dd_size (self dd_abc) + 1) s'.
Proof.
  assert (WF dd_abc [1; 2; 3]%positive []) as HWF
    by (apply (bool_decide_unpack _); vm_compute; reflexivity).
  assert (DequeDict_contains "d"%string dd_abc = Done false dd_abc) as Hk
    by (vm_compute; reflexivity).
  destruct (set_new_key_appends all_ok dd_abc _ _ "d"%string 4 HWF Hk)
    as (s' & n & fl' & Hset & _ & _ & _ & _ & _ & Hpeek & Hlen);
    [reflexivity|reflexivity|reflexivity|].
  exists s'. split; [exact Hset|]. split; [exact Hpeek|exact Hlen].
Defined.

Lemma appendleft_then_popleftitem_witness :
  ∃ s' s'',
    DequeDict_appendleft all_ok "d"%string 4 dd_abc = Done tt s' ∧
    DequeDict_popleftitem s' = Done ("d"%string, 4) s'' ∧
    DequeDictView_iter Items s''
    = Done (item_of_pair Items <$> content (heap dd_abc) [1; 2; 3]%positive) s''.
Proof.
  assert (WF dd_abc [1; 2; 3]%positive []) as HWF
    by (apply (bool_decide_unpack _); vm_compute; reflexivity).
  assert (DequeDict_contains "d"%string dd_abc = Done false dd_abc) as Hk
    by (vm_compute; reflexivity).
  destruct (appendleft_then_popleftitem all_ok dd_abc _ _ "d"%string 4 HWF Hk)
    as (s' & n & fl' & s'' & fl'' & Happ & _ & _ & _ & _ & Hpop & _ & Hview & _);
    [reflexivity|reflexivity|reflexivity|].
  exists s', s''. split; [exact Happ|]. split; [exact Hpop|exact Hview].
Defined.

Lemma popleft_takes_first_witness :
  ∃ k v s',
    DequeDict_peekleftitem dd_abc = Done (k, v) dd_abc ∧
    DequeDict_popleft dd_abc = Done v s' ∧
    DequeDict_contains k s' = Done false s'.
Proof.
  assert (WF dd_abc (1%positive :: [2; 3]%positive) []) as HWF
    by (apply (bool_decide_unpack _); vm_compute; reflexivity).
  destruct (popleft_takes_first dd_abc _ _ _ HWF)
    as (k & v & rest & s' & fl' & _ & Hpeek & Hpop & _ & _ & _ & Hin & _).
  exists k, v, s'. split; [exact Hpeek|]. split; [exact Hpop|exact Hin].
Defined.

Lemma pop_takes_last_witness :
  ∃ k v s',
    DequeDict_peekitem dd_abc = Done (k, v) dd_abc ∧
    DequeDict_pop None None dd_abc = Done v s' ∧
    DequeDict_contains k s' = Done false s'.
Proof.
  assert (WF dd_abc ([1%positive; 2%positive] ++ [3%positive]) []) as HWF
    by (apply (bool_decide_unpack _); vm_compute; reflexivity).
  destruct (pop_takes_last dd_abc _ _ _ HWF)
    as (k & v & rest & s' & fl' & _ & Hpeek & Hpop & _ & _ & _ & Hin & _).
  exists k, v, s'. split; [exact Hpeek|]. split; [exact Hpop|exact Hin].
Defined.

Lemma empty_container_answers_witness :
  DequeDict_popitem (initial_state (K:=string) (V:=Z))
  = Raise (KeyError_str "popitem from an empty DequeDict") initial_state ∧
  DequeDict_pop None None (initial_state (K:=string) (V:=Z))
  = Raise (IndexError "pop from an empty DequeDict") initial_state.
Proof.
  assert (WF (initial_state (K:=string) (V:=Z)) [] []) as HWF
    by (apply (bool_decide_unpack _); vm_compute; reflexivity).
  assert (DequeDict_len (initial_state (K:=string) (V:=Z)) = Done 0 initial_state) as Hlen
    by reflexivity.
  destruct (empty_container_answers initial_state _ _ all_ok HWF Hlen)
    as (_ & _ & _ & _ & _ & _ & Hpop & _ & Hpopitem & _).
  split; [exact Hpopitem|exact Hpop].
Defined.

Lemma clear_leaves_empty_container_witness :
  ∃ s',
    DequeDict_clear_method dd_abc_cached = Done tt s' ∧
    index_cache (self s') = None ∧
    DequeDict_len s' = Done 0 s'.
Proof.
  assert (WF dd_abc_cached [1; 2; 3]%positive []) as HWF
    by (apply (bool_decide_unpack _); vm_compute; reflexivity).
  destruct (clear_leaves_empty_container dd_abc_cached _ _ HWF)
    as (s' & fl' & Hclear & _ & Hc & Hlen & _).
  exists s'. split; [exact Hclear|]. split; [exact Hc|exact Hlen].
Defined.

Section Removal.
Context {K : Type} `{Countable K} {V : Type}.
Implicit Types (e : DequeDictEntry (K:=K) (V:=V)).
Implicit Types (s : State (K:=K) (V:=V)) (ls fl : list positive).

(* k in d answers true exactly for the keys of the key index. *)
Lemma contains_true s key :
  DequeDict_contains key s = Done true s ↔ is_Some (dd_dict (self s) !! key).
Proof.
  unfold DequeDict_contains. msimpl. split.
  - intros [= Hb]. by apply bool_decide_eq_true in Hb.
  - intros Hk. by rewrite bool_decide_eq_true_2.
Qed.

(* The pairs around the entry that the key index has for a key. *)
Lemma content_split s l1 a l2 fl e :
  WF s (l1 ++ a :: l2) fl → heap s !! a = Some e →
  content (heap s) (l1 ++ a :: l2)
  = content (heap s) l1 ++ (e_key e, e_value e) :: content (heap s) l2 ∧
  content (heap s) (l1 ++ l2) = content (heap s) l1 ++ content (heap s) l2 ∧
  e_key e ∉ (content (heap s) l1 ++ content (heap s) l2).*1.
Proof.
  intros HWF He. rewrite !content_app, (content_cons _ _ _ _ He).
  split; [done|]. split; [done|].
  pose proof (content_keys_NoDup s _ fl HWF) as Hnd.
  rewrite content_app, (content_cons _ _ _ _ He), fmap_app, fmap_cons in Hnd.
  apply NoDup_middle in Hnd as (_ & _ & Hn1 & Hn2 & _). simpl in Hn1, Hn2.
  rewrite fmap_app, elem_of_app. tauto.
Qed.

(** X9: del d[k].  For a key that is in d the call succeeds: the pair of
    k leaves the iteration, the other pairs keep their order, k is no
    longer in d, len(d) is one less and the position cache is dropped.
    For a key that is not in d the call raises KeyError(k) and leaves the
    state as it is. *)
Theorem delitem_removes_pair al s ls fl key :
  WF s ls fl →
  (DequeDict_contains key s = Done false s →
   DequeDict_setitem al key None s = Raise (KeyError_obj key) s) ∧
  (DequeDict_contains key s = Done true s →
   ∃ c1 v c2 s' ls' fl',
     DequeDictView_iter Items s
     = Done (item_of_pair Items <$> c1 ++ (key, v) :: c2) s ∧
     DequeDict_setitem al key None s = Done tt s' ∧ WF s' ls' fl' ∧
     DequeDictView_iter Items s' = Done (item_of_pair Items <$> c1 ++ c2) s' ∧
     DequeDict_contains key s' = Done false s' ∧
     DequeDict_len s' = Done (dd_size (self s) - 1) s' ∧
     index_cache (self s') = None).
Proof.
  intros HWF. split.
  - intros Hk%contains_false. unfold DequeDict_setitem. msimpl. by rewrite Hk.
  - intros [a Hk]%contains_true.
    destruct (WF_dict_split _ _ _ _ _ HWF Hk) as (l1 & l2 & e & -> & He & Hkey).
    destruct (delitem_spec al s l1 a l2 fl key HWF Hk) as (s' & fl' & Hrun & HWF' & Hcont & Hc).
    destruct (content_split s l1 a l2 fl e HWF He) as (Hsplit & Hrest & Hnin).
    destruct (reads_by_content s _ fl HWF) as (_ & _ & _ & _ & _ & _ & Hview & _).
    destruct (reads_by_content s' _ fl' HWF') as (Hlen' & Hin' & _ & _ & _ & _ & Hview' & _).
    rewrite Hsplit, Hkey in Hview. rewrite Hcont, Hrest in Hview', Hin', Hlen'.
    exists (content (heap s) l1), (e_value e), (content (heap s) l2), s', (l1 ++ l2), fl'.
    split_and!; try done.
    + rewrite Hin'. do 2 f_equal. apply bool_decide_eq_false. by rewrite <-Hkey.
    + unfold DequeDict_len. msimpl. do 2 f_equal.
      destruct HWF as [[(_ & _ & _ & _ & Hsz & _) _] _].
      destruct HWF' as [[(_ & _ & _ & _ & Hsz' & _) _] _].
      rewrite Hsz, Hsz', !length_app. simpl length. lia.
Qed.

End Removal.

Section Pool.
Context {K : Type} `{Countable K} {V : Type}.
Implicit Types (e : DequeDictEntry (K:=K) (V:=V)).
Implicit Types (s : State (K:=K) (V:=V)) (ls fl : list positive).

(* entry_free on a pool whose counter agrees with its list leaves an
   entry in the pool: it pushes the entry, or the pool is full. *)
Lemma entry_free_pooled s a s' :
  (freelist s = None → freelist_size s < FREELIST_MAX) →
  entry_free a s = Done tt s' → freelist s' ≠ None.
Proof.
  intros Hpool. unfold entry_free, set_next, load, store. msimpl.
  destruct (Z.ltb_spec (freelist_size s) FREELIST_MAX) as [Hlt|Hge].
  - destruct (heap s !! a); simpl; [|done].
    destruct (heap s !! a); simpl; [|done]. by intros [= <-].
  - destruct (heap s !! a); simpl; [|done]. intros [= <-]. simpl.
    intros Hnone. specialize (Hpool Hnone). lia.
Qed.

Lemma discard_entry_pooled s a k s' :
  (freelist s = None → freelist_size s < FREELIST_MAX) →
  discard_entry a k s = Done tt s' → freelist s' ≠ None.
Proof.
  intros Hpool. unfold discard_entry, dict_delitem, size_decr. msimpl.
  destruct (entry_free a _) as [[] s1| |] eqn:Hfree; simpl; [|done..].
  intros [= <-]. simpl. eapply entry_free_pooled; [|exact Hfree]; exact Hpool.
Qed.

(* The three ways of unlinking leave the pool alone. *)
Lemma unlink_pool s a s' :
  unlink a s = Done tt s' → freelist s' = freelist s ∧ freelist_size s' = freelist_size s.
Proof.
  unfold unlink, set_next, set_prev, set_head, set_tail, load, store, get_self, put_self.
  msimpl. repeat (case_match; simpl in *; simplify_eq; try done); intros; by simplify_eq/=.
Qed.

Lemma unlink_head_pool s a s' :
  unlink_head a s = Done tt s' → freelist s' = freelist s ∧ freelist_size s' = freelist_size s.
Proof.
  unfold unlink_head, set_next, set_prev, set_head, set_tail, load, store, get_self, put_self.
  msimpl. repeat (case_match; simpl in *; simplify_eq; try done); intros; by simplify_eq/=.
Qed.

Lemma unlink_tail_pool s a s' :
  unlink_tail a s = Done tt s' → freelist s' = freelist s ∧ freelist_size s' = freelist_size s.
Proof.
  unfold unlink_tail, set_next, set_prev, set_head, set_tail, load, store, get_self, put_self.
  msimpl. repeat (case_match; simpl in *; simplify_eq; try done); intros; by simplify_eq/=.
Qed.

Lemma load_done s a e s' : load a s = Done e s' → s' = s ∧ heap s !! a = Some e.
Proof. unfold load. destruct (heap s !! a); [|done]. by intros [= <- <-]. Qed.

(* The cache bookkeeping that follows a removal leaves the pool alone. *)
Lemma cache_bump_offset_pool s s' :
  cache_bump_offset s = Done tt s' → freelist s' = freelist s.
Proof.
  unfold cache_bump_offset, set_cache, get_self, put_self. msimpl.
  case_match; intros; by simplify_eq/=.
Qed.

Lemma cache_pop_right_pool s s' :
  cache_pop_right s = Done tt s' → freelist s' = freelist s.
Proof.
  unfold cache_pop_right, set_cache, get_self, put_self. msimpl.
  repeat case_match; intros; by simplify_eq/=.
Qed.

Lemma bind_done {A B} (m : M (K:=K) (V:=V) A) (f : A → M B) s r s' :
  (m ≫= f) s = Done r s' → ∃ a s1, m s = Done a s1 ∧ f a s1 = Done r s'.
Proof.
  unfold mbind, M_bind. destruct (m s) as [a s1| |]; [|done..]. intros Hf. by exists a, s1.
Qed.

(* Unlinking, discard_entry and the cache bookkeeping in a row *)
Lemma removal_pooled {A} (m1 m2 : M (K:=K) (V:=V) unit) s a k (r r' : A) s' :
  (freelist s = None → freelist_size s < FREELIST_MAX) →
  (∀ s0 s1, m1 s0 = Done tt s1 →
     freelist s1 = freelist s0 ∧ freelist_size s1 = freelist_size s0) →
  (∀ s0 s1, m2 s0 = Done tt s1 → freelist s1 = freelist s0) →
  (m1;; discard_entry a k;; m2;; mret r) s = Done r' s' → freelist s' ≠ None.
Proof.
  intros Hpool H1 H2 Hrun.
  apply bind_done in Hrun as ([] & s1 & Hm1 & Hrun).
  apply bind_done in Hrun as ([] & s2 & Hd & Hrun).
  apply bind_done in Hrun as ([] & s3 & Hm2 & Hrun).
  injection Hrun as _ <-. rewrite (H2 _ _ Hm2).
  apply (discard_entry_pooled s1 a k s2); [|done].
  destruct (H1 _ _ Hm1) as [-> ->]. done.
Qed.

(* Every removal that succeeds leaves an entry in the pool. *)
Lemma removal_leaves_pooled_entry s ls fl s' :
  WF s ls fl →
  (∃ v, DequeDict_popleft s = Done v s') ∨
  (∃ kv, DequeDict_popleftitem s = Done kv s') ∨
  (∃ v, DequeDict_pop None None s = Done v s') ∨
  (∃ kv, DequeDict_popitem s = Done kv s') ∨
  (∃ k v, DequeDict_pop (Some k) None s = Done v s') ∨
  (∃ al k, DequeDict_setitem al k None s = Done tt s') →
  freelist s' ≠ None.
Proof.
  intros [[(_ & _ & _ & _ & _ & Hfl & _ & Hfsz) _] _] Hop.
  assert (freelist s = None → freelist_size s < FREELIST_MAX) as Hpool.
  { rewrite Hfl, Hfsz. by destruct fl. }
  destruct Hop as [[v Hop]|[[kv Hop]|[[v Hop]|[[kv Hop]|[(k & v & Hop)|(al & k & Hop)]]]]].
  - unfold DequeDict_popleft in Hop. rewrite bind_run in Hop. simpl in Hop.
    destruct (dd_head (self s)) as [a|]; [|done].
    apply bind_done in Hop as (e & s1 & [-> _]%load_done & Hop).
    eapply removal_pooled; [exact Hpool| | |exact Hop].
    + intros s0 s1. apply unlink_head_pool.
    + intros s0 s1. apply cache_bump_offset_pool.
  - unfold DequeDict_popleftitem in Hop. rewrite bind_run in Hop. simpl in Hop.
    destruct (dd_head (self s)) as [a|]; [|done].
    apply bind_done in Hop as (e & s1 & [-> _]%load_done & Hop).
    eapply removal_pooled; [exact Hpool| | |exact Hop].
    + intros s0 s1. apply unlink_head_pool.
    + intros s0 s1. apply cache_bump_offset_pool.
  - unfold DequeDict_pop in Hop. rewrite bind_run in Hop. simpl in Hop.
    destruct (dd_tail (self s)) as [a|]; [|done].
    apply bind_done in Hop as (e & s1 & [-> _]%load_done & Hop).
    eapply removal_pooled; [exact Hpool| | |exact Hop].
    + intros s0 s1. apply unlink_tail_pool.
    + intros s0 s1. apply cache_pop_right_pool.
  - unfold DequeDict_popitem in Hop. rewrite bind_run in Hop. simpl in Hop.
    destruct (dd_tail (self s)) as [a|]; [|done].
    apply bind_done in Hop as (e & s1 & [-> _]%load_done & Hop).
    eapply removal_pooled; [exact Hpool| | |exact Hop].
    + intros s0 s1. apply unlink_tail_pool.
    + intros s0 s1. apply cache_pop_right_pool.
  - unfold DequeDict_pop in Hop. rewrite bind_run in Hop. simpl in Hop.
    destruct (dd_dict (self s) !! k) as [a|]; [|done].
    apply bind_done in Hop as (e & s1 & [-> _]%load_done & Hop).
    eapply removal_pooled; [exact Hpool| | |exact Hop].
    + intros s0 s1. apply unlink_pool.
    + unfold DequeDict_invalidate_cache, set_cache, get_self, put_self. msimpl.
      intros; by simplify_eq/=.
  - unfold DequeDict_setitem in Hop. rewrite bind_run in Hop. simpl in Hop.
    destruct (dd_dict (self s) !! k) as [a|]; [|done].
    apply bind_done in Hop as ([] & s1 & Hm1 & Hop).
    apply bind_done in Hop as ([] & s2 & Hd & Hop).
    unfold DequeDict_invalidate_cache, set_cache, get_self, put_self in Hop.
    revert Hop. msimpl. intros [= <-]. simpl.
    apply (discard_entry_pooled s1 a k s2); [|done].
    destruct (unlink_pool _ _ _ Hm1) as [-> ->]. done.
Qed.

Lemma removal_WF s ls fl s' :
  WF s ls fl →
  (∃ v, DequeDict_popleft s = Done v s') ∨
  (∃ kv, DequeDict_popleftitem s = Done kv s') ∨
  (∃ v, DequeDict_pop None None s = Done v s') ∨
  (∃ kv, DequeDict_popitem s = Done kv s') ∨
  (∃ k v, DequeDict_pop (Some k) None s = Done v s') ∨
  (∃ al k, DequeDict_setitem al k None s = Done tt s') →
  ∃ ls' fl', WF s' ls' fl'.
Proof.
  intros HWF Hop.
  pose proof (λ op, exec_shared_WF (λ _ _, true) all_ok op s ls fl HWF eq_refl eq_refl) as HW.
  destruct Hop as [[v Hop]|[[kv Hop]|[[v Hop]|[[kv Hop]|[(k & v & Hop)|(al & k & Hop)]]]]].
  - specialize (HW OpPopLeft). unfold exec_shared, mbind, M_bind in HW. by rewrite Hop in HW.
  - specialize (HW OpPopLeftItem). unfold exec_shared, mbind, M_bind in HW. by rewrite Hop in HW.
  - specialize (HW (OpPop None None)). unfold exec_shared, mbind, M_bind in HW.
    by rewrite Hop in HW.
  - specialize (HW OpPopItem). unfold exec_shared, mbind, M_bind in HW. by rewrite Hop in HW.
  - specialize (HW (OpPop (Some k) None)). unfold exec_shared, mbind, M_bind in HW.
    by rewrite Hop in HW.
  - destruct (dd_dict (self s) !! k) as [a|] eqn:Hk.
    + destruct (WF_dict_split _ _ _ _ _ HWF Hk) as (l1 & l2 & e & -> & _).
      destruct (delitem_spec al s l1 a l2 fl k HWF Hk) as (s0 & fl0 & Hrun & HWF0 & _).
      rewrite Hrun in Hop. injection Hop as <-. eauto.
    + unfold DequeDict_setitem in Hop. rewrite bind_run in Hop. simpl in Hop.
      by rewrite Hk in Hop.
Qed.

(** X10: an entry that a removal hands back is used again.  After a
    popleft(), popleftitem(), pop(), popitem(), pop(k) or del d[k] that
    succeeded on a well-formed container, d[k'] = v for a key k' that is
    not in d does not depend on PyMem_Malloc: whatever entry_alloc's
    malloc would answer, the call succeeds when the key index can be
    extended, and the new pair is the last one (peekitem() shows it). *)
Theorem removed_entry_is_reused s ls fl s' al key value :
  WF s ls fl →
  (∃ v, DequeDict_popleft s = Done v s') ∨
  (∃ kv, DequeDict_popleftitem s = Done kv s') ∨
  (∃ v, DequeDict_pop None None s = Done v s') ∨
  (∃ kv, DequeDict_popitem s = Done kv s') ∨
  (∃ k v, DequeDict_pop (Some k) None s = Done v s') ∨
  (∃ al0 k, DequeDict_setitem al0 k None s = Done tt s') →
  DequeDict_contains key s' = Done false s' →
  capsule_ok al = true → dict_setitem_ok al = true →
  ∃ s'',
    DequeDict_setitem al key (Some value) s' = Done tt s'' ∧
    DequeDict_peekitem s'' = Done (key, value) s'' ∧
    DequeDict_getitem key s'' = Done value s''.
Proof.
  intros HWF Hop Hk%contains_false Hcap Hdset.
  pose proof (removal_leaves_pooled_entry s ls fl s' HWF Hop) as Hpool.
  destruct (removal_WF s ls fl s' HWF Hop) as (ls' & fl' & HWF').
  destruct (setitem_new_spec al s' ls' fl' key value HWF' Hk Hcap Hdset)
    as [(Hfl & _)|(_ & n & s'' & fl'' & Hrun & HWF'' & _ & Hcont & _)].
  { destruct HWF' as [[(_ & _ & _ & _ & _ & Hhd & _) _] _]. by rewrite Hhd, Hfl in Hpool. }
  exists s''. split; [done|].
  destruct (peeks_by_content s'' _ fl'' HWF'') as [_ Hlast].
  destruct (reads_by_content s'' _ fl'' HWF'') as (_ & _ & Hget & _).
  rewrite Hcont in Hlast, Hget. split.
  - apply (Hlast (key, value)). by rewrite last_snoc.
  - apply Hget. apply elem_of_app. right. left.
Qed.

End Pool.

Lemma delitem_removes_pair_witness :
  DequeDict_setitem all_ok "z"%string None dd_abc = Raise (KeyError_obj "z"%string) dd_abc ∧
  ∃ s', DequeDict_setitem all_ok "b"%string None dd_abc = Done tt s' ∧
        DequeDict_contains "b"%string s' = Done false s' ∧
        index_cache (self s') = None.
Proof.
  assert (WF dd_abc [1; 2; 3]%positive []) as HWF
    by (apply (bool_decide_unpack _); vm_compute; reflexivity).
  split.
  - destruct (delitem_removes_pair all_ok dd_abc _ _ "z"%string HWF) as [Hmiss _].
    apply Hmiss. vm_compute. reflexivity.
  - destruct (delitem_removes_pair all_ok dd_abc _ _ "b"%string HWF) as [_ Hdel].
    destruct Hdel as (c1 & v & c2 & s' & ls' & fl' & _ & Hrun & _ & _ & Hin & _ & Hc);
      [vm_compute; reflexivity|].
    exists s'. split; [exact Hrun|]. split; [exact Hin|exact Hc].
Defined.

Lemma removed_entry_is_reused_witness :
  ∃ s' s'',
    DequeDict_popleft dd_abc = Done 1 s' ∧
    DequeDict_setitem no_entry "d"%string (Some 4) s' = Done tt s'' ∧
    DequeDict_peekitem s'' = Done ("d"%string, 4) s''.
Proof.
  assert (WF dd_abc [1; 2; 3]%positive []) as HWF
    by (apply (bool_decide_unpack _); vm_compute; reflexivity).
  set (s' := after [call (OpSetItem "a"%string 1); call (OpSetItem "b"%string 2);
                    call (OpSetItem "c"%string 3); call OpPopLeft]).
  assert (DequeDict_popleft dd_abc = Done 1 s') as Hpop by (vm_compute; reflexivity).
  assert (DequeDict_contains "d"%string s' = Done false s') as Hk by (vm_compute; reflexivity).
  destruct (removed_entry_is_reused dd_abc _ _ s' no_entry "d"%string 4 HWF)
    as (s'' & Hset & Hpeek & _);
    [left; exists 1; exact Hpop|exact Hk|reflexivity|reflexivity|].
  exists s', s''. split; [exact Hpop|]. split; [exact Hset|exact Hpeek].
Defined.

Section SetDefault.
Context {K : Type} `{Countable K} {V : Type}.
Implicit Types (e : DequeDictEntry (K:=K) (V:=V)).
Implicit Types (s : State (K:=K) (V:=V)) (ls fl : list positive).

(** X11: setdefault(k, default).  When d[k] returns v, setdefault
    returns v as well and changes nothing.  When k is not in d and the
    allocations succeed, setdefault returns the default and leaves the
    state that d[k] = default leaves: the pair (k, default) is the last
    one of the iteration and d[k] returns the default. *)
Theorem setdefault_returns_stored_or_default al s ls fl key default_val :
  WF s ls fl →
  (∀ v, DequeDict_getitem key s = Done v s →
        DequeDict_setdefault al key default_val s = Done v s) ∧
  (DequeDict_contains key s = Done false s →
   (fl = [] → entry_malloc_ok al = true) →
   capsule_ok al = true → dict_setitem_ok al = true →
   ∃ s',
     DequeDict_setdefault al key default_val s = Done default_val s' ∧
     DequeDict_setitem al key (Some default_val) s = Done tt s' ∧
     DequeDict_getitem key s' = Done default_val s' ∧
     DequeDict_peekitem s' = Done (key, default_val) s' ∧
     DequeDictView_iter Items s'
     = Done (item_of_pair Items <$> content (heap s) ls ++ [(key, default_val)]) s').
Proof.
  intros HWF. split.
  - intros v. unfold DequeDict_getitem, DequeDict_setdefault. msimpl.
    by destruct (dd_dict (self s) !! key).
  - intros Hk%contains_false Hentry Hcap Hdset.
    destruct (setitem_new_spec al s ls fl key default_val HWF Hk Hcap Hdset)
      as [(Hfl & Hm & _)|(_ & n & s' & fl' & Hrun & HWF' & _ & Hcont & _)].
    { by rewrite (Hentry Hfl) in Hm. }
    destruct (reads_by_content s' _ fl' HWF') as (_ & _ & Hget' & _ & _ & _ & Hview' & _).
    destruct (peeks_by_content s' _ fl' HWF') as [_ Hlast].
    rewrite Hcont in Hget', Hview', Hlast.
    exists s'. split_and!; try done.
    + unfold DequeDict_setdefault. rewrite bind_run. unfold get_self. cbv beta iota.
      by rewrite Hk, bind_run, Hrun.
    + apply Hget'. apply elem_of_app. right. left.
    + apply (Hlast (key, default_val)). by rewrite last_snoc.
Qed.

End SetDefault.

Lemma setdefault_returns_stored_or_default_witness :
  DequeDict_setdefault all_ok "b"%string 0 dd_abc = Done 2 dd_abc ∧
  ∃ s', DequeDict_setdefault all_ok "d"%string 0 dd_abc = Done 0 s' ∧
        DequeDict_peekitem s' = Done ("d"%string, 0) s'.
Proof.
  assert (WF dd_abc [1; 2; 3]%positive []) as HWF
    by (apply (bool_decide_unpack _); vm_compute; reflexivity).
  split.
  - destruct (setdefault_returns_stored_or_default all_ok dd_abc _ _ "b"%string 0 HWF)
      as [Hstored _].
    apply Hstored. vm_compute. reflexivity.
  - destruct (setdefault_returns_stored_or_default all_ok dd_abc _ _ "d"%string 0 HWF)
      as [_ Hnew].
    destruct Hnew as (s' & Hrun & _ & _ & Hpeek & _);
      [vm_compute; reflexivity|reflexivity|reflexivity|reflexivity|].
    exists s'. split; [exact Hrun|exact Hpeek].
Defined.

Section ViewMembership.
Context {K : Type} `{Countable K} {V : Type}.
Context (value_eq : V → V → bool).
Implicit Types (e : DequeDictEntry (K:=K) (V:=V)).
Implicit Types (s : State (K:=K) (V:=V)) (ls fl : list positive).

(* The walk of "value in d.values()" stops at the first value that
   compares equal. *)
Lemma values_contains_loop_spec s value : ∀ rest fuel p,
  (length rest < fuel)%nat → dlseg (heap s) p rest None →
  values_contains_loop value_eq fuel value (head rest) s
  = Done (existsb (λ kv : K * V, value_eq kv.2 value) (content (heap s) rest)) s.
Proof.
  induction rest as [|a rest IH]; intros fuel p Hfuel Hseg.
  - by destruct fuel.
  - destruct fuel as [|fuel]; [simpl in Hfuel; lia|].
    apply dlseg_cons in Hseg as [Ha Hseg].
    apply links_Some in Ha as (e & He & Hp & Hn). simpl in Hp, Hn.
    rewrite hd_ptr_None in Hn.
    rewrite (content_cons _ _ _ _ He).
    change (values_contains_loop value_eq (S fuel) value (head (a :: rest)) s)
      with ((e ← load a;
             if value_eq (e_value e) value then mret true
             else values_contains_loop value_eq fuel value (e_next e)) s).
    rewrite bind_run, (load_run _ _ _ He). simpl.
    destruct (value_eq (e_value e) value); [done|]. simpl.
    rewrite Hn. apply (IH fuel (Some a)); [simpl in Hfuel; lia|done].
Qed.

(** X12: membership in the views.  With c the pairs that iteration over
    the items view yields: value in d.values() is true exactly when some
    value of c compares equal to it, and (k, v) in d.items() is the
    comparison of v with the value that c has for k, false when c has no
    pair for k; neither call changes the state. *)
Theorem view_membership s ls fl :
  WF s ls fl →
  ∃ c : list (K * V),
    DequeDictView_iter Items s = Done (item_of_pair Items <$> c) s ∧
    (∀ value,
       DequeDictValuesView_contains value_eq value s
       = Done (existsb (λ kv : K * V, value_eq kv.2 value) c) s) ∧
    (∀ key value,
       DequeDictItemsView_contains value_eq key value s
       = Done (existsb (λ kv : K * V, bool_decide (kv.1 = key) && value_eq kv.2 value) c) s) ∧
    (∀ key value v, (key, v) ∈ c →
       DequeDictItemsView_contains value_eq key value s = Done (value_eq v value) s).
Proof.
  intros HWF. pose proof HWF as [[Hlist Hdict] _].
  pose proof (WFlist_fuel _ _ _ Hlist) as Hfuel.
  pose proof Hlist as (_ & Hseg & Hhd & _).
  destruct (reads_by_content s ls fl HWF) as (_ & _ & _ & _ & _ & _ & Hview & _).
  pose proof (content_keys_NoDup s ls fl HWF) as Hnd.
  assert (∀ key value v, (key, v) ∈ content (heap s) ls →
    DequeDictItemsView_contains value_eq key value s = Done (value_eq v value) s) as Hitem.
  { intros key value v Hkv.
    apply (content_elem s ls fl key v HWF) in Hkv as (a & e & Hk & He & <-).
    unfold DequeDictItemsView_contains. rewrite bind_run. unfold get_self. cbv beta iota.
    by rewrite Hk, bind_run, (load_run _ _ _ He). }
  exists (content (heap s) ls). split_and!; try done.
  - intros value. unfold DequeDictValuesView_contains. rewrite bind_run.
    unfold get_state. cbv beta iota. rewrite Hhd.
    by apply (values_contains_loop_spec s value ls _ None).
  - intros key value.
    destruct (decide (key ∈ (content (heap s) ls).*1)) as [Hin|Hnin].
    + apply list_elem_of_fmap in Hin as ([k v] & -> & Hkv). simpl.
      rewrite (Hitem k value v Hkv). f_equal. symmetry.
      apply Bool.eq_iff_eq_true. rewrite existsb_exists. split.
      * intros ([k' v'] & Hin' & Hb). apply andb_true_iff in Hb as [Hk' Hv'].
        apply bool_decide_eq_true in Hk'. simpl in Hk', Hv'. subst k'.
        apply list_elem_of_In in Hin'.
        by rewrite (content_functional s ls fl k v v' HWF Hkv Hin').
      * intros Hv. exists (k, v). rewrite <-list_elem_of_In. split; [done|].
        simpl. by rewrite bool_decide_eq_true_2.
    + assert (dd_dict (self s) !! key = None) as Hk.
      { apply eq_None_not_Some. by rewrite <-(content_key_elem s ls fl key HWF). }
      unfold DequeDictItemsView_contains. rewrite bind_run. unfold get_self.
      cbv beta iota. rewrite Hk. unfold mret, M_ret. f_equal. symmetry.
      apply not_true_is_false. rewrite existsb_exists.
      intros ([k' v'] & Hin' & Hb). apply andb_true_iff in Hb as [Hk' _].
      apply bool_decide_eq_true in Hk'. simpl in Hk'. subst k'.
      apply Hnin. apply list_elem_of_fmap. exists (key, v'). split; [done|].
      by apply list_elem_of_In.
Qed.

End ViewMembership.

Lemma view_membership_witness :
  ∃ c : list (string * Z),
    DequeDictView_iter Items dd_abc = Done (item_of_pair Items <$> c) dd_abc ∧
    DequeDictValuesView_contains Z.eqb 2 dd_abc
    = Done (existsb (λ kv : string * Z, kv.2 =? 2) c) dd_abc.
Proof.
  assert (WF dd_abc [1; 2; 3]%positive []) as HWF
    by (apply (bool_decide_unpack _); vm_compute; reflexivity).
  destruct (view_membership Z.eqb dd_abc _ _ HWF) as (c & Hview & Hvalues & _).
  exists c. split; [exact Hview|exact (Hvalues 2)].
Defined.

Section Upsert.
Context {K : Type} `{Countable K} {V : Type}.
Implicit Types (c l : list (K * V)) (kv : K * V).

Lemma upsert_keys c kv :
  (upsert c kv).*1 = if decide (kv.1 ∈ c.*1) then c.*1 else c.*1 ++ [kv.1].
Proof.
  unfold upsert. case_decide.
  - rewrite <-list_fmap_compose. apply list_fmap_ext. intros i [k v] _. simpl.
    by case_decide.
  - by rewrite fmap_app.
Qed.

Lemma upsert_elem_new c kv : (kv.1, kv.2) ∈ upsert c kv.
Proof.
  unfold upsert. case_decide as Hin.
  - apply list_elem_of_fmap in Hin as ([k v] & Hk & Hin). simpl in Hk.
    apply list_elem_of_fmap. exists (k, v). split; [|done].
    simpl. by rewrite decide_True, Hk.
  - apply elem_of_app. right. destruct kv. left.
Qed.

Lemma upsert_elem_other c kv k v : k ≠ kv.1 → (k, v) ∈ c → (k, v) ∈ upsert c kv.
Proof.
  intros Hne Hin. unfold upsert. case_decide.
  - apply list_elem_of_fmap. exists (k, v). split; [|done]. simpl. by rewrite decide_False.
  - apply elem_of_app. by left.
Qed.

Lemma foldl_upsert_keys c l : ∃ extra, (foldl upsert c l).*1 = c.*1 ++ extra.
Proof.
  revert c. induction l as [|kv l IH]; intros c; simpl.
  - exists []. by rewrite app_nil_r.
  - destruct (IH (upsert c kv)) as (extra & ->). rewrite upsert_keys. case_decide.
    + by exists extra.
    + exists (kv.1 :: extra). by rewrite <-(assoc_L app).
Qed.

Lemma foldl_upsert_last c l k v :
  last_value l k = Some v → (k, v) ∈ foldl upsert c l.
Proof.
  revert c. induction l as [|kv l IH] using rev_ind; intros c; [done|].
  rewrite foldl_app. simpl. unfold last_value. rewrite filter_app.
  destruct (decide (kv.1 = k)) as [<-|Hne].
  - rewrite filter_cons_True by done. rewrite filter_nil, last_snoc. simpl.
    intros [= <-]. apply upsert_elem_new.
  - rewrite filter_cons_False by done. rewrite filter_nil, app_nil_r. intros Hl.
    apply upsert_elem_other; [done|]. by apply IH.
Qed.

Lemma foldl_upsert_other c l k v :
  k ∉ l.*1 → (k, v) ∈ c → (k, v) ∈ foldl upsert c l.
Proof.
  revert c. induction l as [|kv l IH]; intros c Hnin Hin; [done|].
  simpl in *. apply not_elem_of_cons in Hnin as [Hne Hnin].
  apply IH; [done|]. by apply upsert_elem_other.
Qed.

End Upsert.

Section Update.
Context {K : Type} `{Countable K} {V : Type}.
Implicit Types (e : DequeDictEntry (K:=K) (V:=V)).
Implicit Types (s : State (K:=K) (V:=V)) (ls fl : list positive).

(* Storing a value in the entry of a key changes the pair of that key. *)
Lemma content_set_value s ls fl key value a e :
  WF s ls fl → dd_dict (self s) !! key = Some a → heap s !! a = Some e →
  content (<[a:=with_value e value]> (heap s)) ls
  = (λ x : K * V, if decide (x.1 = key) then (x.1, value) else x) <$> content (heap s) ls.
Proof.
  intros HWF Hk He. pose proof HWF as [[_ Hdict] _].
  destruct (dict_inv_lookup _ _ _ _ Hdict Hk) as [_ Hkey].
  unfold node_key in Hkey. rewrite He in Hkey. simpl in Hkey. injection Hkey as Hkey.
  assert (∀ b, b ∈ ls →
    node_kv (<[a:=with_value e value]> (heap s)) b
    = (λ x : K * V, if decide (x.1 = key) then (x.1, value) else x) <$> node_kv (heap s) b)
    as Hnode.
  { intros b Hb. unfold node_kv. destruct (decide (b = a)) as [->|Hne].
    - rewrite lookup_insert_eq, He. simpl. by rewrite decide_True.
    - rewrite lookup_insert_ne by done.
      destruct (dict_inv_elem _ _ _ Hdict Hb) as (eb & Heb & Hdb). rewrite Heb. simpl.
      rewrite decide_False; [done|]. intros Hkb. rewrite Hkb in Hdb. congruence. }
  unfold content. clear HWF Hdict. induction ls as [|b ls IH]; [done|].
  csimpl. rewrite (Hnode b) by left. rewrite IH by (intros b' Hb'; apply Hnode; by right).
  by destruct (node_kv (heap s) b).
Qed.

(* d[key] = value on the pairs, when the allocations succeed *)
Lemma setitem_upsert al s ls fl key value :
  WF s ls fl →
  entry_malloc_ok al = true → capsule_ok al = true → dict_setitem_ok al = true →
  ∃ s' ls' fl',
    DequeDict_setitem al key (Some value) s = Done tt s' ∧ WF s' ls' fl' ∧
    content (heap s') ls' = upsert (content (heap s) ls) (key, value).
Proof.
  intros HWF Hm Hcap Hdset. unfold upsert. simpl.
  destruct (dd_dict (self s) !! key) as [a|] eqn:Hk.
  - destruct (setitem_update_spec al s ls fl key value a HWF Hk) as (e & He & _ & _ & Hrun & HWF').
    rewrite decide_True by (apply (content_key_elem s ls fl key HWF); by rewrite Hk).
    eexists _, ls, fl. split; [exact Hrun|]. split; [exact HWF'|]. simpl.
    by apply (content_set_value s ls fl key value a e).
  - destruct (setitem_new_spec al s ls fl key value HWF Hk Hcap Hdset)
      as [(_ & Hm' & _)|(_ & n & s' & fl' & Hrun & HWF' & _ & Hcont & _)];
      [congruence|].
    rewrite decide_False
      by (rewrite (content_key_elem s ls fl key HWF), Hk; by intros [? ?]).
    by exists s', (ls ++ [n]), fl'.
Qed.

Lemma update_loop_spec (items : PyItems (K:=K) (V:=V)) : ∀ s ls fl,
  WF s ls fl →
  Forall (λ it, entry_malloc_ok it.1 = true ∧ capsule_ok it.1 = true ∧
                dict_setitem_ok it.1 = true) items →
  ∃ s' ls' fl',
    update_loop items s = Done tt s' ∧ WF s' ls' fl' ∧
    content (heap s') ls' = foldl upsert (content (heap s) ls) items.*2.
Proof.
  induction items as [|[al [key value]] items IH]; intros s ls fl HWF Hok.
  - by exists s, ls, fl.
  - apply Forall_cons in Hok as [(Hm & Hcap & Hdset) Hok]. simpl in Hm, Hcap, Hdset.
    destruct (setitem_upsert al s ls fl key value HWF Hm Hcap Hdset)
      as (s1 & ls1 & fl1 & Hrun1 & HWF1 & Hcont1).
    destruct (IH s1 ls1 fl1 HWF1 Hok) as (s' & ls' & fl' & Hrun & HWF' & Hcont).
    exists s', ls', fl'. split; [|split; [done|]].
    + change (update_loop ((al, (key, value)) :: items))
        with (DequeDict_setitem al key (Some value);; update_loop items).
      by rewrite bind_run, Hrun1.
    + rewrite Hcont, Hcont1. done.
Qed.

(** X13: update(other, **kwds) when every allocation succeeds.  The call
    succeeds and has the effect of d[k] = v for each pair of other and
    then of kwds, in order: a key that was in d keeps its position, the
    new keys follow in the order in which they first occur, d[k] returns
    the value given last for k, and a key that does not occur in the
    arguments keeps its value. *)
Theorem update_sets_each_pair (other kwds : PyItems (K:=K) (V:=V)) s ls fl :
  WF s ls fl →
  Forall (λ it, entry_malloc_ok it.1 = true ∧ capsule_ok it.1 = true ∧
                dict_setitem_ok it.1 = true) (other ++ kwds) →
  ∃ s' ls' fl' extra,
    DequeDict_update other kwds s = Done tt s' ∧ WF s' ls' fl' ∧
    DequeDictView_iter Items s'
    = Done (item_of_pair Items <$> foldl upsert (content (heap s) ls) (other ++ kwds).*2) s' ∧
    DequeDict_iter s = Done (content (heap s) ls).*1 s ∧
    DequeDict_iter s' = Done ((content (heap s) ls).*1 ++ extra) s' ∧
    (∀ k v, last_value (other ++ kwds).*2 k = Some v →
            DequeDict_getitem k s' = Done v s') ∧
    (∀ k v, k ∉ (other ++ kwds).*2.*1 → DequeDict_getitem k s = Done v s →
            DequeDict_getitem k s' = Done v s').
Proof.
  intros HWF Hok. apply Forall_app in Hok as [Hok1 Hok2].
  destruct (update_loop_spec other s ls fl HWF Hok1) as (s1 & ls1 & fl1 & Hrun1 & HWF1 & Hcont1).
  destruct (update_loop_spec kwds s1 ls1 fl1 HWF1 Hok2) as (s' & ls' & fl' & Hrun & HWF' & Hcont).
  rewrite Hcont1, <-foldl_app, <-fmap_app in Hcont.
  destruct (reads_by_content s ls fl HWF) as (_ & _ & Hget & Hmiss & Hiter & _).
  destruct (reads_by_content s' ls' fl' HWF')
    as (_ & _ & Hget' & _ & Hiter' & _ & Hview' & _).
  rewrite Hcont in Hget', Hiter', Hview'.
  destruct (foldl_upsert_keys (content (heap s) ls) (other ++ kwds).*2) as (extra & Hkeys).
  exists s', ls', fl', extra. split_and!; try done.
  - unfold DequeDict_update. by rewrite bind_run, Hrun1.
  - by rewrite <-Hkeys.
  - intros k v Hlast. apply Hget'. by apply foldl_upsert_last.
  - intros k v Hnin Hg. apply Hget'. apply foldl_upsert_other; [done|].
    destruct (decide (k ∈ (content (heap s) ls).*1)) as [Hin|Hout].
    + apply list_elem_of_fmap in Hin as ([k' v'] & -> & Hin). simpl in *.
      destruct (Hget k' v' Hin) as [Hg' _]. congruence.
    + destruct (Hmiss k Hout) as [Hg' _]. congruence.
Qed.

End Update.

Lemma update_sets_each_pair_witness :
  ∃ s',
    DequeDict_update [(all_ok, ("b"%string, 20)); (all_ok, ("d"%string, 4))]
                     [(all_ok, ("b"%string, 30))] dd_abc = Done tt s' ∧
    DequeDict_getitem "b"%string s' = Done 30 s' ∧
    DequeDict_getitem "a"%string s' = Done 1 s'.
Proof.
  assert (WF dd_abc [1; 2; 3]%positive []) as HWF
    by (apply (bool_decide_unpack _); vm_compute; reflexivity).
  destruct (update_sets_each_pair
              [(all_ok, ("b"%string, 20)); (all_ok, ("d"%string, 4))]
              [(all_ok, ("b"%string, 30))] dd_abc _ _ HWF)
    as (s' & ls' & fl' & extra & Hrun & _ & _ & _ & _ & Hlast & Hkeep).
  { repeat constructor. }
  exists s'. split; [exact Hrun|]. split.
  - apply Hlast. vm_compute. reflexivity.
  - apply Hkeep; [|vm_compute; reflexivity].
    apply (bool_decide_unpack _). vm_compute. reflexivity.
Defined.

Section Init.
Context {K : Type} `{Countable K} {V : Type}.
Implicit Types (e : DequeDictEntry (K:=K) (V:=V)).
Implicit Types (s : State (K:=K) (V:=V)) (ls fl : list positive).

(* Taking an entry and linking it at the tail, on a consistent list:
   the steps of an insertion before the key index is touched. *)
Lemma append_entry_spec al s ls fl key value :
  WFlist s ls fl →
  ∃ r s1 fl1, entry_alloc al s = Done r s1 ∧ self s1 = self s ∧
    match r with
    | None => s1 = s ∧ fl = [] ∧ entry_malloc_ok al = false
    | Some n =>
        ∃ s2 s2',
          link_tail n (mkState (<[n:=mkEntry key value (dd_tail (self s)) None (-1)]> (heap s1))
                         (freelist s1) (freelist_size s1) (self s1)) = Done tt s2 ∧
          s2' = mkState (heap s2) (freelist s2) (freelist_size s2)
                  (mkObject (dd_dict (self s2)) (dd_head (self s2))
                     (dd_tail (self s2)) (dd_size (self s2) + 1)
                     (index_cache (self s2)) (cache_size (self s2))
                     (cache_capacity (self s2)) (cache_offset (self s2))) ∧
          (n ∉ ls) ∧ WFlist s2' (ls ++ [n]) fl1 ∧
          dd_dict (self s2) = dd_dict (self s) ∧
          index_cache (self s2) = index_cache (self s) ∧
          node_kv (heap s2) n = Some (key, value) ∧
          (∀ b, b ≠ n → node_kv (heap s2) b = node_kv (heap s) b)
    end.
Proof.
  intros Hlist.
  destruct (entry_alloc_spec al s ls fl Hlist) as (r & s1 & fl1 & Hrun & Hh1 & Hs1 & Hr).
  exists r, s1, fl1. split; [done|]. split; [done|]. destruct r as [n|]; [|done].
  destruct Hr as (Hnls & Hnfl & Hnd & Hfc & Hfl1 & Hfsz1 & Hmalloc).
  destruct Hlist as (_ & Hseg & Hhd & Htl & Hsz & _).
  set (e0 := mkEntry key value (dd_tail (self s)) None (-1)).
  apply NoDup_app in Hnd as Hnd'. destruct Hnd' as (Hndl & Hdisj & Hndf).
  assert (dlseg (<[n:=e0]> (heap s)) None ls None) as Hseg0.
  { eapply dlseg_frame; [|exact Hseg]. intros b Hb. rewrite links_insert.
    case_decide; [by subst|done]. }
  destruct (link_tail_spec
              (mkState (<[n:=e0]> (heap s1)) (freelist s1) (freelist_size s1) (self s1))
              ls n e0)
    as (s2 & Hrun2 & [Hp1 Hp2] & (Hi1 & Hi2 & Hi3 & Hi4 & Hi5 & Hi6) & Hsd & Hhd2 & Htl2 & Hseg2 & Hlk2);
    simpl; rewrite ?Hh1, ?Hs1; try done.
  { apply lookup_insert_eq. }
  simpl in *. rewrite Hs1 in *. rewrite Hh1 in *.
  eexists s2, _. split; [done|]. split; [done|].
  assert (∀ b, b ≠ n → node_kv (heap s2) b = node_kv (heap s) b) as Hdata.
  { intros b Hb. destruct (Hsd b) as [-> _]. by rewrite node_kv_insert, decide_False. }
  split_and!; try done.
  - unfold WFlist. simpl. split_and!; try done.
    + rewrite <-(assoc_L app). apply NoDup_app. split_and!; try done.
      * intros b Hb [->|Hb']%elem_of_cons; [done|]. by apply (Hdisj b).
      * by apply NoDup_cons.
    + rewrite Hi2, Hsz, length_app. simpl. lia.
    + congruence.
    + eapply free_chain_frame; [|exact Hfc]. intros b Hb.
      rewrite Hlk2 by (intros Hb'; by apply (Hdisj b)).
      rewrite links_insert, decide_False; [done|]. by intros ->.
    + congruence.
  - destruct (Hsd n) as [-> _]. by rewrite node_kv_insert, decide_True.
Qed.

Lemma last_value_snoc (c : list (K * V)) k k' v :
  last_value (c ++ [(k', v)]) k = if decide (k' = k) then Some v else last_value c k.
Proof.
  unfold last_value. rewrite filter_app. case_decide.
  - rewrite filter_cons_True by done. by rewrite filter_nil, last_snoc.
  - rewrite filter_cons_False by done. by rewrite filter_nil, app_nil_r.
Qed.

(* The loop of DequeDict_init appends every pair, whether or not its key
   was seen before, and points the key index at the new entry. *)
Lemma init_loop_spec (items : PyItems (K:=K) (V:=V)) : ∀ s ls fl,
  WFlist s ls fl → index_cache (self s) = None → dict_last s ls →
  Forall (λ it, entry_malloc_ok it.1 = true ∧ capsule_ok it.1 = true ∧
                dict_setitem_ok it.1 = true) items →
  ∃ s' ls' fl',
    init_loop items s = Done tt s' ∧ WFlist s' ls' fl' ∧
    index_cache (self s') = None ∧ dict_last s' ls' ∧
    content (heap s') ls' = content (heap s) ls ++ items.*2.
Proof.
  induction items as [|[al [key value]] items IH]; intros s ls fl Hlist Hc Hdict Hok.
  - exists s, ls, fl. by rewrite app_nil_r.
  - apply Forall_cons in Hok as [(Hm & Hcap & Hdset) Hok]. simpl in Hm, Hcap, Hdset.
    destruct (append_entry_spec al s ls fl key value Hlist)
      as (r & s1 & fl1 & Hrun1 & Hs1 & Hr).
    destruct r as [n|]; [|destruct Hr as (_ & _ & Hr); congruence].
    destruct Hr as (s2 & s2' & Hrun2 & Hs2' & Hnls & Hlist2 & Hd2 & Hc2 & Hkvn & Hdata).
    set (s3 := mkState (heap s2') (freelist s2') (freelist_size s2')
                 (mkObject (<[key:=n]> (dd_dict (self s2'))) (dd_head (self s2'))
                    (dd_tail (self s2')) (dd_size (self s2')) (index_cache (self s2'))
                    (cache_size (self s2')) (cache_capacity (self s2'))
                    (cache_offset (self s2')))).
    assert (init_loop ((al, (key, value)) :: items) s = init_loop items s3) as Hstep.
    { change (init_loop ((al, (key, value)) :: items))
        with (new_entry ← entry_alloc al;
              match new_entry with
              | None => raise MemoryError
              | Some new_entry =>
                  o ← get_self;
                  init_entry new_entry (mkEntry key value (dd_tail o) None (-1));;
                  link_tail new_entry;; size_incr;;
                  register_entry al key new_entry;; init_loop items
              end).
      rewrite bind_run, Hrun1. rewrite bind_run. unfold get_self. cbv beta iota.
      rewrite bind_run. unfold init_entry at 1. rewrite bind_run. unfold get_state, put_heap.
      cbv beta iota. rewrite Hs1 in Hrun2 |- *. rewrite bind_run, Hrun2, bind_run.
      unfold size_incr, set_size, get_self, put_self. msimpl. rewrite <-Hs2'.
      by rewrite (register_entry_run al s2' key n Hcap Hdset). }
    assert (heap s3 = heap s2) as Hh3 by (by subst s2').
    assert (content (heap s3) (ls ++ [n]) = content (heap s) ls ++ [(key, value)]) as Hcont.
    { rewrite Hh3. unfold node_kv in Hkvn.
      destruct (heap s2 !! n) as [en|] eqn:Hen; [|done]. simpl in Hkvn.
      rewrite (content_snoc _ _ _ _ Hen). injection Hkvn as -> ->. f_equal.
      apply content_ext. intros b Hb. apply Hdata. by intros ->. }
    destruct (IH s3 (ls ++ [n]) fl1) as (s' & ls' & fl' & Hrun & Hlist' & Hc' & Hdict' & Hcont');
      try done.
    + simpl. subst s2'. simpl. congruence.
    + intros k. rewrite Hcont, last_value_snoc.
      change (dd_dict (self s3)) with (<[key:=n]> (dd_dict (self s2'))). rewrite lookup_insert.
      assert (dd_dict (self s2') = dd_dict (self s)) as -> by (subst s2'; simpl; congruence).
      destruct (decide (key = k)) as [->|Hne].
      * split; [apply elem_of_app; right; left|]. exists value. by rewrite Hh3.
      * specialize (Hdict k). destruct (dd_dict (self s) !! k) as [a|]; [|done].
        destruct Hdict as (Ha & v & Hkv & Hlast). split; [apply elem_of_app; by left|].
        exists v. split; [|done]. rewrite Hh3, Hdata; [done|]. by intros ->.
    + exists s', ls', fl'. split; [by rewrite Hstep|]. split_and!; try done.
      rewrite Hcont', Hcont. by rewrite <-(assoc_L app).
Qed.

(* "Clear existing state" and the new, empty dict *)
Lemma init_clears (items : PyItems (K:=K) (V:=V)) s ls fl :
  WFlist s ls fl →
  ∃ s0 fl0,
    DequeDict_init items s = init_loop items s0 ∧ WFlist s0 [] fl0 ∧
    index_cache (self s0) = None ∧ dd_dict (self s0) = ∅.
Proof.
  intros Hlist. pose proof (WFlist_fuel _ _ _ Hlist) as Hfuel.
  destruct Hlist as (Hnd & Hseg & Hhd & Htl & Hsz & Hfl & Hfc & Hfsz).
  destruct (clear_loop_spec ls (S (size (heap s))) s fl None)
    as (s' & fl' & Hrun & Hself & Hndf & Hfc' & Hfl' & Hfsz'); try done.
  unfold DequeDict_init. rewrite bind_run. unfold get_state. cbv beta iota.
  rewrite Hhd, bind_run, Hrun.
  unfold DequeDict_invalidate_cache, set_cache, set_dict, set_head, set_tail, set_size,
    get_self, put_self. msimpl.
  eexists _, fl'. split; [reflexivity|]. simpl. by split_and!.
Qed.

(* With keys that differ pairwise, the index that points at the last
   entry of each key is the index of a well-formed container. *)
Lemma dict_last_inv s ls fl :
  WFlist s ls fl → dict_last s ls → NoDup (content (heap s) ls).*1 → dict_inv s ls.
Proof.
  intros Hlist Hdict Hnd. pose proof Hlist as (_ & Hseg & _).
  apply dict_inv_intro.
  - intros k a Hk. specialize (Hdict k). rewrite Hk in Hdict.
    destruct Hdict as (Ha & v & Hkv & _). split; [done|].
    by rewrite node_key_kv, Hkv.
  - intros a Ha. destruct (dlseg_in _ _ _ _ _ Hseg Ha) as [e He]. exists e. split; [done|].
    apply list_elem_of_lookup in Ha as [i Hi].
    pose proof (content_lookup _ _ _ _ _ _ Hseg Hi) as Hci.
    unfold node_kv in Hci. rewrite He in Hci. simpl in Hci.
    specialize (Hdict (e_key e)).
    destruct (dd_dict (self s) !! e_key e) as [a'|].
    + destruct Hdict as (Ha' & v & Hkv' & _). f_equal.
      apply list_elem_of_lookup in Ha' as [j Hj].
      pose proof (content_lookup _ _ _ _ _ _ Hseg Hj) as Hcj. rewrite Hkv' in Hcj.
      assert (i = j) as ->; [|congruence].
      apply (NoDup_lookup _ i j (e_key e) Hnd); rewrite list_lookup_fmap.
      * by rewrite Hci.
      * by rewrite Hcj.
    + exfalso. unfold last_value in Hdict. apply fmap_None, last_None in Hdict.
      assert ((e_key e, e_value e) ∈ filter (λ kv : K * V, kv.1 = e_key e) (content (heap s) ls))
        as Hin by (apply list_elem_of_filter; split; [done|by eapply list_elem_of_lookup_2]).
      rewrite Hdict in Hin. by apply elem_of_nil in Hin.
Qed.

(** X14: DequeDict(items) and a repeated __init__, when every allocation
    succeeds.  Whatever the object held before, afterwards iteration
    yields the given pairs in the given order, every one of them, also
    when a key occurs more than once; len(d) is the number of pairs; d[k]
    returns the value that was given last for k and raises KeyError(k)
    for a key that was not given; there is no position cache.  The
    resulting container is well formed exactly when the given keys differ
    pairwise. *)
Theorem init_keeps_every_pair (items : PyItems (K:=K) (V:=V)) s ls fl :
  WFlist s ls fl →
  Forall (λ it, entry_malloc_ok it.1 = true ∧ capsule_ok it.1 = true ∧
                dict_setitem_ok it.1 = true) items →
  ∃ s',
    DequeDict_init items s = Done tt s' ∧
    DequeDictView_iter Items s' = Done (item_of_pair Items <$> items.*2) s' ∧
    DequeDict_iter s' = Done items.*2.*1 s' ∧
    DequeDict_len s' = Done (Z.of_nat (length items)) s' ∧
    (∀ k, DequeDict_getitem k s'
          = match last_value items.*2 k with
            | Some v => Done v s'
            | None => Raise (KeyError_obj k) s'
            end) ∧
    index_cache (self s') = None ∧
    ((∃ ls' fl', WF s' ls' fl') ↔ NoDup items.*2.*1).
Proof.
  intros Hlist Hok.
  destruct (init_clears items s ls fl Hlist) as (s0 & fl0 & Hinit & Hlist0 & Hc0 & Hd0).
  destruct (init_loop_spec items s0 [] fl0 Hlist0 Hc0) as (s' & ls' & fl' & Hrun & Hlist' & Hc' & Hdict' & Hcont); [|done|].
  { intros k. by rewrite Hd0, lookup_empty. }
  change (content (heap s0) []) with (@nil (K * V)) in Hcont. rewrite app_nil_l in Hcont.
  pose proof Hlist' as (_ & Hseg' & _ & _ & Hsz' & _).
  assert (DequeDict_iter s' = Done items.*2.*1 s') as Hiter.
  { by rewrite (iter_spec _ _ _ Hlist'), keys_content, Hcont. }
  exists s'. split_and!; try done.
  - congruence.
  - by rewrite (view_iter_spec _ _ _ _ Hlist'), item_of_content, Hcont.
  - unfold DequeDict_len. msimpl. rewrite Hsz', <-(content_length _ _ _ _ Hseg'), Hcont.
    by rewrite length_fmap.
  - intros k. specialize (Hdict' k). unfold DequeDict_getitem. rewrite bind_run.
    unfold get_self. cbv beta iota. rewrite Hcont in Hdict'.
    destruct (dd_dict (self s') !! k) as [a|].
    + destruct Hdict' as (_ & v & Hkv & ->). unfold node_kv in Hkv.
      destruct (heap s' !! a) as [e|] eqn:He; [|done]. simpl in Hkv.
      rewrite bind_run, (load_run _ _ _ He). injection Hkv as _ ->. done.
    + by rewrite Hdict'.
  - split.
    + intros (ls2 & fl2 & HWF2).
      destruct (reads_by_content s' ls2 fl2 HWF2) as (_ & _ & _ & _ & Hiter2 & _).
      rewrite Hiter in Hiter2. injection Hiter2 as ->.
      by apply (content_keys_NoDup s' ls2 fl2).
    + intros Hnd. exists ls', fl'. split; [split; [done|]|by apply cache_inv_None].
      apply (dict_last_inv s' ls' fl'); [done..|]. by rewrite Hcont.
Qed.

End Init.

Lemma init_keeps_every_pair_witness :
  ∃ s',
    DequeDict_init [(all_ok, ("a"%string, 1)); (all_ok, ("a"%string, 2))] dd_abc
    = Done tt s' ∧
    DequeDict_iter s' = Done ["a"; "a"]%string s' ∧
    DequeDict_len s' = Done 2 s' ∧
    DequeDict_getitem "a"%string s' = Done 2 s'.
Proof.
  assert (WFlist dd_abc [1; 2; 3]%positive []) as Hlist
    by (apply (bool_decide_unpack _); vm_compute; reflexivity).
  destruct (init_keeps_every_pair
              [(all_ok, ("a"%string, 1)); (all_ok, ("a"%string, 2))] dd_abc _ _ Hlist)
    as (s' & Hrun & _ & Hiter & Hlen & Hget & _).
  { repeat constructor. }
  exists s'. split; [exact Hrun|]. split; [exact Hiter|]. split; [exact Hlen|].
  exact (Hget "a"%string).
Defined.

Section NoCacheMethodsAgree.
Context {K : Type} `{Countable K} {V : Type}.
Implicit Types (s : State (K:=K) (V:=V)).

(* A computation that goes as its counterpart does builds no array. *)
Lemma sim_no_cache {A} (m : M (K:=K) (V:=V) A) m' s :
  sim eq m m' → index_cache (self s) = None →
  match m s with
  | Done _ s' | Raise _ s' => index_cache (self s') = None
  | Fault => True
  end.
Proof.
  intros Hsim Hs. specialize (Hsim s Hs). destruct (m s) as [a s1|err s1|]; [| |done].
  - by destruct Hsim as (? & _).
  - by destruct Hsim as (? & _).
Qed.

(** X15: construction from items, update and setdefault of the source
    without the position cache go as those of the source with it.  On a
    container without array, run on the memory without the cache fields,
    each of the three gives the same result or the same exception, runs
    into undefined behaviour exactly when the other does, and leaves the
    same memory up to the cache fields; none of them builds the array. *)
Theorem nocache_methods_agree (items other kwds : PyItems (K:=K) (V:=V))
    al key default_val s :
  index_cache (self s) = None →
  NoCacheMethods.DequeDict_init items (erase s) = erase_res (DequeDict_init items s) ∧
  NoCacheMethods.DequeDict_update other kwds (erase s)
  = erase_res (DequeDict_update other kwds s) ∧
  NoCacheMethods.DequeDict_setdefault al key default_val (erase s)
  = erase_res (DequeDict_setdefault al key default_val s) ∧
  match DequeDict_init items s with
  | Done _ s' | Raise _ s' => index_cache (self s') = None
  | Fault => True
  end ∧
  match DequeDict_update other kwds s with
  | Done _ s' | Raise _ s' => index_cache (self s') = None
  | Fault => True
  end ∧
  match DequeDict_setdefault al key default_val s with
  | Done _ s' | Raise _ s' => index_cache (self s') = None
  | Fault => True
  end.
Proof.
  intros Hs. split_and!.
  - by apply sim_erase_res; [apply sim_init|].
  - by apply sim_erase_res; [apply sim_update|].
  - by apply sim_erase_res; [apply sim_setdefault|].
  - by apply (sim_no_cache _ _ s (sim_init items)).
  - by apply (sim_no_cache _ _ s (sim_update other kwds)).
  - by apply (sim_no_cache _ _ s (sim_setdefault al key default_val)).
Qed.

End NoCacheMethodsAgree.

Lemma nocache_methods_agree_witness :
  NoCacheMethods.DequeDict_init [(all_ok, ("x"%string, 1))] (erase dd_abc)
  = erase_res (DequeDict_init [(all_ok, ("x"%string, 1))] dd_abc) ∧
  NoCacheMethods.DequeDict_setdefault all_ok "d"%string 0 (erase dd_abc)
  = erase_res (DequeDict_setdefault all_ok "d"%string 0 dd_abc).
Proof.
  assert (index_cache (self dd_abc) = None) as Hs by (vm_compute; reflexivity).
  destruct (nocache_methods_agree [(all_ok, ("x"%string, 1))] [] [] all_ok "d"%string 0
              dd_abc Hs) as (Hinit & _ & Hsd & _).
  split; [exact Hinit|exact Hsd].
Defined.

Section CacheKept.
Context {K : Type} `{Countable K} {V : Type}.
Implicit Types (e : DequeDictEntry (K:=K) (V:=V)).
Implicit Types (s : State (K:=K) (V:=V)) (ls fl : list positive).

(* at(index) on a container with its array: no allocation, no change *)
Lemma at_cached_reads s ls fl al index :
  WF s ls fl → is_Some (index_cache (self s)) →
  DequeDict_at al index s = DequeDict_at all_ok index s ∧
  match DequeDict_at al index s with
  | Done _ s' | Raise _ s' => s' = s
  | Fault => False
  end.
Proof.
  intros HWF Hc.
  pose proof (at_cached_spec al s ls fl index HWF Hc) as Hat.
  pose proof (at_cached_spec all_ok s ls fl index HWF Hc) as Hat'.
  cbv zeta in Hat, Hat'. destruct (_ || _).
  - by rewrite Hat, Hat'.
  - destruct Hat as (a & e & Ha & He & ->). destruct Hat' as (a' & e' & Ha' & He' & ->).
    split; [|done]. congruence.
Qed.

(** X16: popleft(), popleftitem(), pop() and popitem() keep the position
    cache.  When one of them succeeds on a well-formed container that
    has its array, the container still has it afterwards, so at(index)
    then allocates nothing - its answer is the same whatever the
    allocator would do, never MemoryError - and leaves the state as it
    is. *)
Theorem end_pops_keep_position_cache s ls fl s' :
  WF s ls fl → is_Some (index_cache (self s)) →
  (∃ v, DequeDict_popleft s = Done v s') ∨
  (∃ kv, DequeDict_popleftitem s = Done kv s') ∨
  (∃ v, DequeDict_pop None None s = Done v s') ∨
  (∃ kv, DequeDict_popitem s = Done kv s') →
  is_Some (index_cache (self s')) ∧
  ∀ al index,
    DequeDict_at al index s' = DequeDict_at all_ok index s' ∧
    match DequeDict_at al index s' with
    | Done _ s'' | Raise _ s'' => s'' = s'
    | Fault => False
    end.
Proof.
  intros HWF Hc Hop.
  assert (∃ ls' fl', WF s' ls' fl' ∧ is_Some (index_cache (self s'))) as (ls' & fl' & HWF' & Hc').
  { destruct Hop as [[v Hop]|[[kv Hop]|[[v Hop]|[kv Hop]]]].
    - destruct ls as [|a ls].
      + destruct (empty_reads s fl all_ok HWF) as (_ & _ & _ & _ & _ & Hr & _). congruence.
      + destruct (popleft_spec s a ls fl HWF) as (e & s0 & fl0 & _ & Hrun & HWF0 & _ & Hkeep).
        rewrite Hrun in Hop. injection Hop as _ <-. exists ls, fl0. split; [done|by apply Hkeep].
    - destruct ls as [|a ls].
      + destruct (empty_reads s fl all_ok HWF) as (_ & _ & _ & _ & _ & _ & _ & Hr & _).
        congruence.
      + destruct (popleftitem_spec s a ls fl HWF) as (e & s0 & fl0 & _ & Hrun & HWF0 & _ & Hkeep).
        rewrite Hrun in Hop. injection Hop as _ <-. exists ls, fl0. split; [done|by apply Hkeep].
    - destruct ls as [|a ls _] using rev_ind.
      + destruct (empty_reads s fl all_ok HWF) as (_ & _ & _ & _ & _ & _ & Hr & _). congruence.
      + destruct (pop_back_spec s ls a fl None HWF) as (e & s0 & fl0 & _ & Hrun & HWF0 & _ & Hkeep).
        rewrite Hrun in Hop. injection Hop as _ <-. exists ls, fl0. split; [done|by apply Hkeep].
    - destruct ls as [|a ls _] using rev_ind.
      + destruct (empty_reads s fl all_ok HWF) as (_ & _ & _ & _ & _ & _ & _ & _ & Hr & _).
        congruence.
      + destruct (popitem_spec s ls a fl HWF) as (e & s0 & fl0 & _ & Hrun & HWF0 & _ & Hkeep).
        rewrite Hrun in Hop. injection Hop as _ <-. exists ls, fl0. split; [done|by apply Hkeep]. }
  split; [done|]. intros al index. by apply (at_cached_reads s' ls' fl').
Qed.

End CacheKept.

Lemma end_pops_keep_position_cache_witness :
  ∃ s',
    DequeDict_popleft dd_abc_cached = Done 1 s' ∧
    is_Some (index_cache (self s')) ∧
    DequeDict_at (mkAlloc true true true false true) 0 s' = DequeDict_at all_ok 0 s'.
Proof.
  assert (WF dd_abc_cached [1; 2; 3]%positive []) as HWF
    by (apply (bool_decide_unpack _); vm_compute; reflexivity).
  assert (is_Some (index_cache (self dd_abc_cached))) as Hc
    by (apply (bool_decide_unpack _); vm_compute; reflexivity).
  set (s' := after [call (OpSetItem "a"%string 1); call (OpSetItem "b"%string 2);
                    call (OpSetItem "c"%string 3); (all_ok, OpAt 0); call OpPopLeft]).
  assert (DequeDict_popleft dd_abc_cached = Done 1 s') as Hpop by (vm_compute; reflexivity).
  destruct (end_pops_keep_position_cache dd_abc_cached _ _ s' HWF Hc) as [Hc' Hat];
    [left; exists 1; exact Hpop|].
  exists s'. split; [exact Hpop|]. split; [exact Hc'|]. exact (proj1 (Hat (mkAlloc true true true false true) 0)).
Defined.

Section PoolBound.
Context {K : Type} `{Countable K} {V : Type}.
Implicit Types (s : State (K:=K) (V:=V)).

Lemma keeps_ret {A} (I : State (K:=K) (V:=V) → Prop) (a : A) : keeps I (mret a).
Proof. by intros s Hs. Qed.

Lemma keeps_raise {A} (I : State (K:=K) (V:=V) → Prop) err : keeps I (raise (A:=A) err).
Proof. by intros s Hs. Qed.

Lemma keeps_fault {A} (I : State (K:=K) (V:=V) → Prop) : keeps I (fault (A:=A)).
Proof. by intros s Hs. Qed.

Lemma keeps_bind {A B} (I : State (K:=K) (V:=V) → Prop) (m : M A) (f : A → M B) :
  keeps I m → (∀ a, keeps I (f a)) → keeps I (m ≫= f).
Proof.
  intros Hm Hf s Hs. specialize (Hm s Hs). unfold mbind, M_bind.
  destruct (m s) as [a s1|err s1|]; [|done..]. by apply Hf.
Qed.

(* The steps that do not touch the pool *)
Lemma bounded_get_state : keeps (K:=K) (V:=V) pool_bounded get_state.
Proof. by intros s Hs. Qed.
Lemma bounded_get_self : keeps (K:=K) (V:=V) pool_bounded get_self.
Proof. by intros s Hs. Qed.
Lemma bounded_put_self o : keeps (K:=K) (V:=V) pool_bounded (put_self o).
Proof. by intros s Hs. Qed.
Lemma bounded_put_heap h : keeps (K:=K) (V:=V) pool_bounded (put_heap h).
Proof. by intros s Hs. Qed.
Lemma bounded_load a : keeps (K:=K) (V:=V) pool_bounded (load a).
Proof. intros s Hs. unfold load. by destruct (heap s !! a). Qed.
Lemma bounded_store a e : keeps (K:=K) (V:=V) pool_bounded (store a e).
Proof. intros s Hs. unfold store. by destruct (heap s !! a). Qed.

(* entry_alloc takes an entry out of the pool or leaves the pool alone. *)
Lemma bounded_entry_alloc al : keeps (K:=K) (V:=V) pool_bounded (entry_alloc al).
Proof.
  intros s Hs. unfold entry_alloc, load, put_freelist. msimpl.
  destruct (freelist s) as [a|]; simpl.
  - destruct (heap s !! a); simpl; [|done]. unfold pool_bounded in *. simpl. lia.
  - by destruct (entry_malloc_ok al).
Qed.

(* entry_free puts an entry in the pool only below FREELIST_MAX. *)
Lemma bounded_entry_free a : keeps (K:=K) (V:=V) pool_bounded (entry_free a).
Proof.
  intros s Hs. unfold entry_free, set_next, load, store, put_freelist, put_heap. msimpl.
  destruct (Z.ltb_spec (freelist_size s) FREELIST_MAX) as [Hlt|Hge].
  - destruct (heap s !! a); simpl; [|done].
    destruct (heap s !! a); simpl; [|done]. unfold pool_bounded. simpl. lia.
  - by destruct (heap s !! a).
Qed.

Create HintDb keeps discriminated.
#[local] Hint Resolve bounded_get_state bounded_get_self bounded_put_self bounded_put_heap
  bounded_load bounded_store bounded_entry_alloc bounded_entry_free : keeps.

Ltac keep_go :=
  lazymatch goal with
  | |- keeps _ (mret _) => apply keeps_ret
  | |- keeps _ (raise _) => apply keeps_raise
  | |- keeps _ fault => apply keeps_fault
  | |- keeps _ (match ?x with _ => _ end) => destruct x; keep_go
  | |- keeps _ (_ ≫= _) => apply keeps_bind; [keep_go|intros; keep_go]
  | |- keeps _ _ => try solve [eauto with keeps]
  end.

Lemma bounded_set_value a v :
  keeps (K:=K) (V:=V) pool_bounded (set_value a v).
Proof. unfold set_value. cbv zeta. keep_go. Qed.

Lemma bounded_set_prev a p :
  keeps (K:=K) (V:=V) pool_bounded (set_prev a p).
Proof. unfold set_prev. cbv zeta. keep_go. Qed.

Lemma bounded_set_next a n :
  keeps (K:=K) (V:=V) pool_bounded (set_next a n).
Proof. unfold set_next. cbv zeta. keep_go. Qed.

Lemma bounded_set_cache_idx a i :
  keeps (K:=K) (V:=V) pool_bounded (set_cache_idx a i).
Proof. unfold set_cache_idx. cbv zeta. keep_go. Qed.

Lemma bounded_set_dict d :
  keeps (K:=K) (V:=V) pool_bounded (set_dict d).
Proof. unfold set_dict. cbv zeta. keep_go. Qed.

Lemma bounded_set_head p :
  keeps (K:=K) (V:=V) pool_bounded (set_head p).
Proof. unfold set_head. cbv zeta. keep_go. Qed.

Lemma bounded_set_tail p :
  keeps (K:=K) (V:=V) pool_bounded (set_tail p).
Proof. unfold set_tail. cbv zeta. keep_go. Qed.

Lemma bounded_set_size n :
  keeps (K:=K) (V:=V) pool_bounded (set_size n).
Proof. unfold set_size. cbv zeta. keep_go. Qed.

Lemma bounded_set_cache c sz cap off :
  keeps (K:=K) (V:=V) pool_bounded (set_cache c sz cap off).
Proof. unfold set_cache. cbv zeta. keep_go. Qed.

Lemma bounded_init_entry a e :
  keeps (K:=K) (V:=V) pool_bounded (init_entry a e).
Proof. unfold init_entry. cbv zeta. keep_go. Qed.

#[local] Hint Resolve bounded_set_value bounded_set_prev bounded_set_next bounded_set_cache_idx bounded_set_dict bounded_set_head bounded_set_tail bounded_set_size bounded_set_cache bounded_init_entry : keeps.

Lemma bounded_cache_store i p :
  keeps (K:=K) (V:=V) pool_bounded (cache_store i p).
Proof. unfold cache_store. cbv zeta. keep_go. Qed.

Lemma bounded_cache_load i :
  keeps (K:=K) (V:=V) pool_bounded (cache_load i).
Proof. unfold cache_load. cbv zeta. keep_go. Qed.

Lemma bounded_deref p :
  keeps (K:=K) (V:=V) pool_bounded (deref p).
Proof. unfold deref. cbv zeta. keep_go. Qed.

Lemma bounded_DequeDict_invalidate_cache :
  keeps (K:=K) (V:=V) pool_bounded (DequeDict_invalidate_cache (K:=K) (V:=V)).
Proof. unfold DequeDict_invalidate_cache. cbv zeta. keep_go. Qed.

Lemma bounded_DequeDict_cache_ensure_capacity al :
  keeps (K:=K) (V:=V) pool_bounded (DequeDict_cache_ensure_capacity al).
Proof. unfold DequeDict_cache_ensure_capacity. cbv zeta. keep_go. Qed.

Lemma bounded_unlink a :
  keeps (K:=K) (V:=V) pool_bounded (unlink a).
Proof. unfold unlink. cbv zeta. keep_go. Qed.

Lemma bounded_unlink_head a :
  keeps (K:=K) (V:=V) pool_bounded (unlink_head a).
Proof. unfold unlink_head. cbv zeta. keep_go. Qed.

Lemma bounded_unlink_tail a :
  keeps (K:=K) (V:=V) pool_bounded (unlink_tail a).
Proof. unfold unlink_tail. cbv zeta. keep_go. Qed.

Lemma bounded_dict_delitem key :
  keeps (K:=K) (V:=V) pool_bounded (dict_delitem key).
Proof. unfold dict_delitem. cbv zeta. keep_go. Qed.

Lemma bounded_size_incr :
  keeps (K:=K) (V:=V) pool_bounded (size_incr (K:=K) (V:=V)).
Proof. unfold size_incr. cbv zeta. keep_go. Qed.

Lemma bounded_size_decr :
  keeps (K:=K) (V:=V) pool_bounded (size_decr (K:=K) (V:=V)).
Proof. unfold size_decr. cbv zeta. keep_go. Qed.

#[local] Hint Resolve bounded_cache_store bounded_cache_load bounded_deref bounded_DequeDict_invalidate_cache bounded_DequeDict_cache_ensure_capacity bounded_unlink bounded_unlink_head bounded_unlink_tail bounded_dict_delitem bounded_size_incr bounded_size_decr : keeps.

Lemma bounded_discard_entry a key :
  keeps (K:=K) (V:=V) pool_bounded (discard_entry a key).
Proof. unfold discard_entry. cbv zeta. keep_go. Qed.

Lemma bounded_link_tail a :
  keeps (K:=K) (V:=V) pool_bounded (link_tail a).
Proof. unfold link_tail. cbv zeta. keep_go. Qed.

Lemma bounded_link_head a :
  keeps (K:=K) (V:=V) pool_bounded (link_head a).
Proof. unfold link_head. cbv zeta. keep_go. Qed.

Lemma bounded_cache_bump_offset :
  keeps (K:=K) (V:=V) pool_bounded (cache_bump_offset (K:=K) (V:=V)).
Proof. unfold cache_bump_offset. cbv zeta. keep_go. Qed.

Lemma bounded_cache_pop_right :
  keeps (K:=K) (V:=V) pool_bounded (cache_pop_right (K:=K) (V:=V)).
Proof. unfold cache_pop_right. cbv zeta. keep_go. Qed.

Lemma bounded_cache_append al a :
  keeps (K:=K) (V:=V) pool_bounded (cache_append al a).
Proof. unfold cache_append. cbv zeta. keep_go. Qed.

Lemma bounded_register_entry al key a :
  keeps (K:=K) (V:=V) pool_bounded (register_entry al key a).
Proof. unfold register_entry. cbv zeta. keep_go. Qed.

#[local] Hint Resolve bounded_discard_entry bounded_link_tail bounded_link_head bounded_cache_bump_offset bounded_cache_pop_right bounded_cache_append bounded_register_entry : keeps.

Lemma bounded_DequeDict_len :
  keeps (K:=K) (V:=V) pool_bounded (DequeDict_len (K:=K) (V:=V)).
Proof. unfold DequeDict_len. cbv zeta. keep_go. Qed.

Lemma bounded_DequeDict_getitem key :
  keeps (K:=K) (V:=V) pool_bounded (DequeDict_getitem key).
Proof. unfold DequeDict_getitem. cbv zeta. keep_go. Qed.

Lemma bounded_DequeDict_setitem al key value :
  keeps (K:=K) (V:=V) pool_bounded (DequeDict_setitem al key value).
Proof. unfold DequeDict_setitem. cbv zeta. keep_go. Qed.

Lemma bounded_DequeDict_contains key :
  keeps (K:=K) (V:=V) pool_bounded (DequeDict_contains key).
Proof. unfold DequeDict_contains. cbv zeta. keep_go. Qed.

Lemma bounded_DequeDict_peekleft :
  keeps (K:=K) (V:=V) pool_bounded (DequeDict_peekleft (K:=K) (V:=V)).
Proof. unfold DequeDict_peekleft. cbv zeta. keep_go. Qed.

Lemma bounded_DequeDict_peekleftitem :
  keeps (K:=K) (V:=V) pool_bounded (DequeDict_peekleftitem (K:=K) (V:=V)).
Proof. unfold DequeDict_peekleftitem. cbv zeta. keep_go. Qed.

Lemma bounded_DequeDict_peekleftkey :
  keeps (K:=K) (V:=V) pool_bounded (DequeDict_peekleftkey (K:=K) (V:=V)).
Proof. unfold DequeDict_peekleftkey. cbv zeta. keep_go. Qed.

Lemma bounded_DequeDict_peek :
  keeps (K:=K) (V:=V) pool_bounded (DequeDict_peek (K:=K) (V:=V)).
Proof. unfold DequeDict_peek. cbv zeta. keep_go. Qed.

Lemma bounded_DequeDict_peekitem :
  keeps (K:=K) (V:=V) pool_bounded (DequeDict_peekitem (K:=K) (V:=V)).
Proof. unfold DequeDict_peekitem. cbv zeta. keep_go. Qed.

Lemma bounded_DequeDict_popleft :
  keeps (K:=K) (V:=V) pool_bounded (DequeDict_popleft (K:=K) (V:=V)).
Proof. unfold DequeDict_popleft. cbv zeta. keep_go. Qed.

Lemma bounded_DequeDict_popleftitem :
  keeps (K:=K) (V:=V) pool_bounded (DequeDict_popleftitem (K:=K) (V:=V)).
Proof. unfold DequeDict_popleftitem. cbv zeta. keep_go. Qed.

Lemma bounded_DequeDict_pop key d :
  keeps (K:=K) (V:=V) pool_bounded (DequeDict_pop key d).
Proof. unfold DequeDict_pop. cbv zeta. keep_go. Qed.

Lemma bounded_DequeDict_popitem :
  keeps (K:=K) (V:=V) pool_bounded (DequeDict_popitem (K:=K) (V:=V)).
Proof. unfold DequeDict_popitem. cbv zeta. keep_go. Qed.

Lemma bounded_DequeDict_appendleft al key value :
  keeps (K:=K) (V:=V) pool_bounded (DequeDict_appendleft al key value).
Proof. unfold DequeDict_appendleft. cbv zeta. keep_go. Qed.

Lemma bounded_DequeDict_get key d :
  keeps (K:=K) (V:=V) pool_bounded (DequeDict_get key d).
Proof. unfold DequeDict_get. cbv zeta. keep_go. Qed.

Lemma bounded_DequeDict_move_to_end key to_back :
  keeps (K:=K) (V:=V) pool_bounded (DequeDict_move_to_end key to_back).
Proof. unfold DequeDict_move_to_end. cbv zeta. keep_go. Qed.

Lemma bounded_DequeDictIter_next c :
  keeps (K:=K) (V:=V) pool_bounded (DequeDictIter_next c).
Proof. unfold DequeDictIter_next. cbv zeta. keep_go. Qed.

Lemma bounded_DequeDictRevIter_next c :
  keeps (K:=K) (V:=V) pool_bounded (DequeDictRevIter_next c).
Proof. unfold DequeDictRevIter_next. cbv zeta. keep_go. Qed.

Lemma bounded_DequeDictViewIter_next kind rev c :
  keeps (K:=K) (V:=V) pool_bounded (DequeDictViewIter_next kind rev c).
Proof. unfold DequeDictViewIter_next. cbv zeta. keep_go. Qed.

#[local] Hint Resolve bounded_DequeDict_len bounded_DequeDict_getitem bounded_DequeDict_setitem bounded_DequeDict_contains bounded_DequeDict_peekleft bounded_DequeDict_peekleftitem bounded_DequeDict_peekleftkey bounded_DequeDict_peek bounded_DequeDict_peekitem bounded_DequeDict_popleft bounded_DequeDict_popleftitem bounded_DequeDict_pop bounded_DequeDict_popitem bounded_DequeDict_appendleft bounded_DequeDict_get bounded_DequeDict_move_to_end bounded_DequeDictIter_next bounded_DequeDictRevIter_next bounded_DequeDictViewIter_next : keeps.

(* The loops, by induction on their fuel *)
Lemma bounded_rebuild_loop fuel entry i :
  keeps (K:=K) (V:=V) pool_bounded (rebuild_loop fuel entry i).
Proof.
  revert entry i. induction fuel as [|fuel IH]; intros [a|] i;
    [apply keeps_fault|apply keeps_ret| |apply keeps_ret].
  rewrite rebuild_loop_S. keep_go.
Qed.

Lemma bounded_clear_loop fuel entry :
  keeps (K:=K) (V:=V) pool_bounded (clear_loop fuel entry).
Proof.
  revert entry. induction fuel as [|fuel IH]; intros [a|];
    [apply keeps_fault|apply keeps_ret| |apply keeps_ret].
  rewrite clear_loop_S. keep_go.
Qed.

Lemma bounded_drain {X} (next : ptr → M (K:=K) (V:=V) (option (X * ptr))) fuel current :
  (∀ c, keeps pool_bounded (next c)) → keeps pool_bounded (drain next fuel current).
Proof.
  intros Hnext. revert current. induction fuel as [|fuel IH]; intros current.
  - apply keeps_ret.
  - rewrite drain_S. apply keeps_bind; [apply Hnext|]. intros [[x c]|]; keep_go.
Qed.

Lemma bounded_list_of {X} (next : ptr → M (K:=K) (V:=V) (option (X * ptr))) current :
  (∀ c, keeps pool_bounded (next c)) → keeps pool_bounded (list_of next current).
Proof.
  intros Hnext. unfold list_of. apply keeps_bind; [apply bounded_get_state|]. intros s.
  apply keeps_bind; [by apply bounded_drain|]. intros [l|]; keep_go.
Qed.

#[local] Hint Resolve bounded_rebuild_loop bounded_clear_loop : keeps.

Lemma bounded_rebuild_cache al :
  keeps (K:=K) (V:=V) pool_bounded (DequeDict_rebuild_cache al).
Proof. unfold DequeDict_rebuild_cache. keep_go. Qed.

#[local] Hint Resolve bounded_rebuild_cache : keeps.

Lemma bounded_at al index : keeps (K:=K) (V:=V) pool_bounded (DequeDict_at al index).
Proof. unfold DequeDict_at. cbv zeta. keep_go. Qed.

Lemma bounded_at_args al arg : keeps (K:=K) (V:=V) pool_bounded (DequeDict_at_args al arg).
Proof.
  pose proof (bounded_at al). unfold DequeDict_at_args, PyArg_Parse_n. keep_go.
Qed.

Lemma bounded_clear_method : keeps (K:=K) (V:=V) pool_bounded DequeDict_clear_method.
Proof. unfold DequeDict_clear_method. keep_go. Qed.

Lemma bounded_iter : keeps (K:=K) (V:=V) pool_bounded DequeDict_iter.
Proof.
  unfold DequeDict_iter. apply keeps_bind; [apply bounded_get_self|]. intros o.
  apply bounded_list_of. apply bounded_DequeDictIter_next.
Qed.

Lemma bounded_reversed : keeps (K:=K) (V:=V) pool_bounded DequeDict_reversed.
Proof.
  unfold DequeDict_reversed. apply keeps_bind; [apply bounded_get_self|]. intros o.
  apply bounded_list_of. apply bounded_DequeDictRevIter_next.
Qed.

Lemma bounded_view_iter kind : keeps (K:=K) (V:=V) pool_bounded (DequeDictView_iter kind).
Proof.
  unfold DequeDictView_iter. apply keeps_bind; [apply bounded_get_self|]. intros o.
  apply bounded_list_of. intros c. apply bounded_DequeDictViewIter_next.
Qed.

Lemma bounded_view_reversed kind :
  keeps (K:=K) (V:=V) pool_bounded (DequeDictView_reversed kind).
Proof.
  unfold DequeDictView_reversed. apply keeps_bind; [apply bounded_get_self|]. intros o.
  apply bounded_list_of. intros c. apply bounded_DequeDictViewIter_next.
Qed.

Lemma bounded_compare_loop value_eq `{PyMapping K V T} fuel (other : T) ne entry :
  keeps (K:=K) (V:=V) pool_bounded (compare_loop value_eq fuel other ne entry).
Proof.
  revert entry. induction fuel as [|fuel IH]; intros [a|];
    [apply keeps_fault|apply keeps_ret| |apply keeps_ret].
  rewrite compare_loop_S. keep_go.
Qed.

Lemma bounded_richcompare value_eq `{PyMapping K V T} (other : T) op :
  keeps (K:=K) (V:=V) pool_bounded (DequeDict_richcompare value_eq other op).
Proof.
  pose proof (bounded_compare_loop value_eq). unfold DequeDict_richcompare.
  destruct op; cbv zeta; keep_go.
Qed.

#[local] Hint Resolve bounded_at bounded_at_args bounded_clear_method bounded_iter bounded_reversed
  bounded_view_iter bounded_view_reversed bounded_richcompare : keeps.

Lemma bounded_exec value_eq al op :
  keeps (K:=K) (V:=V) pool_bounded (exec value_eq al op).
Proof.
  destruct op as [op|index|kind]; unfold exec; [|keep_go..].
  destruct op; unfold exec_shared; keep_go.
Qed.

#[local] Hint Resolve bounded_exec : keeps.

Lemma bounded_init_loop items : keeps (K:=K) (V:=V) pool_bounded (init_loop items).
Proof.
  induction items as [|[al [key value]] items IH]; [apply keeps_ret|]. simpl. keep_go.
Qed.

Lemma bounded_update_loop items : keeps (K:=K) (V:=V) pool_bounded (update_loop items).
Proof.
  induction items as [|[al [key value]] items IH]; [apply keeps_ret|]. simpl. keep_go.
Qed.

#[local] Hint Resolve bounded_init_loop bounded_update_loop : keeps.

Lemma bounded_init items : keeps (K:=K) (V:=V) pool_bounded (DequeDict_init items).
Proof. unfold DequeDict_init. keep_go. Qed.

Lemma bounded_update other kwds :
  keeps (K:=K) (V:=V) pool_bounded (DequeDict_update other kwds).
Proof. unfold DequeDict_update. keep_go. Qed.

Lemma bounded_setdefault al key default_val :
  keeps (K:=K) (V:=V) pool_bounded (DequeDict_setdefault al key default_val).
Proof. unfold DequeDict_setdefault. keep_go. Qed.

Lemma bounded_run value_eq ops : ∀ s s',
  pool_bounded s → (run value_eq ops s).2 = Some s' → pool_bounded s'.
Proof.
  induction ops as [|[al op] ops IH]; intros s s' Hs Hrun; simpl in Hrun.
  { by injection Hrun as <-. }
  pose proof (bounded_exec value_eq al op s Hs) as Hstep.
  destruct (exec value_eq al op s) as [v s1|err s1|]; [| |done]; by apply (IH s1).
Qed.

(** X17: the pool of free entries never grows beyond FREELIST_MAX = 128.
    From a state whose pool counter is at most 128, every script of
    calls - whatever the calls return or raise, and whatever the
    allocator does - ends with the counter at most 128, and so do
    construction from items, update and setdefault. *)
Theorem pool_never_exceeds_max value_eq s :
  freelist_size s ≤ FREELIST_MAX →
  (∀ ops s', (run value_eq ops s).2 = Some s' → freelist_size s' ≤ FREELIST_MAX) ∧
  (∀ items, match DequeDict_init items s with
            | Done _ s' | Raise _ s' => freelist_size s' ≤ FREELIST_MAX
            | Fault => True
            end) ∧
  (∀ other kwds, match DequeDict_update other kwds s with
                 | Done _ s' | Raise _ s' => freelist_size s' ≤ FREELIST_MAX
                 | Fault => True
                 end) ∧
  (∀ al key default_val, match DequeDict_setdefault al key default_val s with
                         | Done _ s' | Raise _ s' => freelist_size s' ≤ FREELIST_MAX
                         | Fault => True
                         end).
Proof.
  intros Hs. split_and!.
  - intros ops s'. by apply bounded_run.
  - intros items. by apply bounded_init.
  - intros other kwds. by apply bounded_update.
  - intros al key default_val. by apply bounded_setdefault.
Qed.

End PoolBound.

Lemma pool_never_exceeds_max_witness :
  freelist_size dd_abc ≤ FREELIST_MAX ∧
  ∀ s', (run Z.eqb mixed_script dd_abc).2 = Some s' → freelist_size s' ≤ FREELIST_MAX.
Proof.
  assert (freelist_size dd_abc ≤ FREELIST_MAX) as Hs
    by (change (freelist_size dd_abc) with 0; unfold FREELIST_MAX; lia).
  split; [exact Hs|].
  exact (proj1 (pool_never_exceeds_max Z.eqb dd_abc Hs) mixed_script).
Defined.

Section InitFailure.
Context {K : Type} `{Countable K} {V : Type}.
Implicit Types (e : DequeDictEntry (K:=K) (V:=V)).
Implicit Types (s : State (K:=K) (V:=V)) (ls fl : list positive).

(* register_entry after a failed index step: the entry is in the pool
   or freed, and the object is as it was. *)
Lemma register_entry_fail_pool al s key n e :
  heap s !! n = Some e → capsule_ok al && dict_setitem_ok al = false →
  ∃ s', register_entry al key n s = Raise MemoryError s' ∧ self s' = self s ∧
        (freelist s' = Some n ∨ heap s' !! n = None).
Proof.
  intros He Hal. unfold register_entry.
  assert ((entry_free n;; raise MemoryError : M unit) s
          = Raise MemoryError
              (if freelist_size s <? FREELIST_MAX
               then mkState (<[n:=with_next e (freelist s)]> (heap s)) (Some n)
                      (freelist_size s + 1) (self s)
               else mkState (delete n (heap s)) (freelist s) (freelist_size s) (self s)))
    as Hfree by (by rewrite bind_run, (entry_free_run _ _ _ He)).
  eexists. split; [|split].
  - destruct (capsule_ok al); [destruct (dict_setitem_ok al); [done|]|]; exact Hfree.
  - by destruct (freelist_size s <? FREELIST_MAX).
  - destruct (freelist_size s <? FREELIST_MAX); simpl; [by left|right].
    apply lookup_delete_eq.
Qed.

(* The loop of DequeDict_init over two lists of items in a row *)
Lemma init_loop_app (l1 l2 : PyItems (K:=K) (V:=V)) : ∀ s,
  init_loop (l1 ++ l2) s = (init_loop l1;; init_loop l2) s.
Proof.
  induction l1 as [|[al [key value]] l1 IH]; intros s; [done|].
  simpl. unfold mbind, M_bind.
  destruct (entry_alloc al s) as [[n|] s1| |]; [|done..].
  unfold get_self. 
  destruct (init_entry n _ s1) as [[] s2| |]; [|done..].
  destruct (link_tail n s2) as [[] s3| |]; [|done..].
  destruct (size_incr s3) as [[] s4| |]; [|done..].
  destruct (register_entry al key n s4) as [[] s5| |]; [|done..].
  apply IH.
Qed.

(** X18: DequeDict(items) when the handle for the key index
    (PyLong_FromVoidPtr) or the insertion in the key index
    (PyDict_SetItem) fails for one of the items, the items before it
    having gone through.  The call raises MemoryError, but the entry of
    that item has already been linked and counted and only entry_free
    runs: len(d) is the number of items before it plus one, and the tail
    of the list is the entry that was handed back - it is the head of the
    pool or freed memory - so that the list of the object is no longer
    consistent with the pool. *)
Theorem init_index_failure_leaves_entry_linked
    (pre post : PyItems (K:=K) (V:=V)) al key value s ls fl :
  WFlist s ls fl →
  Forall (λ it, entry_malloc_ok it.1 = true ∧ capsule_ok it.1 = true ∧
                dict_setitem_ok it.1 = true) pre →
  entry_malloc_ok al = true → capsule_ok al && dict_setitem_ok al = false →
  ∃ s' n,
    DequeDict_init (pre ++ (al, (key, value)) :: post) s = Raise MemoryError s' ∧
    DequeDict_len s' = Done (Z.of_nat (length pre) + 1) s' ∧
    dd_tail (self s') = Some n ∧
    (freelist s' = Some n ∨ heap s' !! n = None) ∧
    ∀ ls' fl', ¬ WFlist s' ls' fl'.
Proof.
  intros Hlist Hok Hm Hfail.
  destruct (init_clears (pre ++ (al, (key, value)) :: post) s ls fl Hlist)
    as (s0 & fl0 & Hinit & Hlist0 & Hc0 & Hd0).
  destruct (init_loop_spec pre s0 [] fl0 Hlist0 Hc0)
    as (s1 & ls1 & fl1 & Hrun1 & Hlist1 & Hc1 & Hdict1 & Hcont1); [|done|].
  { intros k. by rewrite Hd0, lookup_empty. }
  change (content (heap s0) []) with (@nil (K * V)) in Hcont1. rewrite app_nil_l in Hcont1.
  destruct (append_entry_spec al s1 ls1 fl1 key value Hlist1)
    as (r & s1' & fl1' & Hrun & Hs1 & Hr).
  destruct r as [n|]; [|destruct Hr as (_ & _ & Hr); congruence].
  destruct Hr as (s2 & s2' & Hrun2 & Hs2' & Hnls & Hlist2 & _ & _ & Hkvn & _).
  assert (is_Some (heap s2' !! n)) as [en Hen].
  { subst s2'. simpl. unfold node_kv in Hkvn. destruct (heap s2 !! n); [eauto|done]. }
  destruct (register_entry_fail_pool al s2' key n en Hen Hfail) as (s' & Hreg & Hself & Hpool).
  assert (DequeDict_init (pre ++ (al, (key, value)) :: post) s = Raise MemoryError s') as Hraise.
  { rewrite Hinit, init_loop_app, bind_run, Hrun1.
    change (init_loop ((al, (key, value)) :: post))
      with (new_entry ← entry_alloc al;
            match new_entry with
            | None => raise MemoryError
            | Some new_entry =>
                o ← get_self;
                init_entry new_entry (mkEntry key value (dd_tail o) None (-1));;
                link_tail new_entry;; size_incr;;
                register_entry al key new_entry;; init_loop post
            end).
    rewrite bind_run, Hrun. rewrite bind_run. unfold get_self. cbv beta iota.
    rewrite bind_run. unfold init_entry at 1. rewrite bind_run. unfold get_state, put_heap.
    cbv beta iota. rewrite Hs1 in Hrun2 |- *. rewrite bind_run, Hrun2, bind_run.
    unfold size_incr, set_size, get_self, put_self. msimpl. rewrite <-Hs2'.
    by rewrite Hreg. }
  pose proof Hlist1 as (_ & Hseg1 & _).
  pose proof Hlist2 as (_ & _ & _ & Htl2 & Hsz2 & _).
  exists s', n. split_and!; try done.
  - unfold DequeDict_len. msimpl. rewrite Hself, Hsz2, length_app. simpl.
    rewrite <-(content_length _ _ _ _ Hseg1), Hcont1, length_fmap. do 2 f_equal. lia.
  - by rewrite Hself, Htl2, last_snoc.
  - intros ls' fl' (Hnd & Hseg & _ & Htl & _ & Hfl & _).
    rewrite Hself, Htl2, last_snoc in Htl. symmetry in Htl.
    apply last_Some_elem_of in Htl. destruct Hpool as [Hp|Hp].
    + rewrite Hp in Hfl. symmetry in Hfl. apply head_Some_elem_of in Hfl.
      apply NoDup_app in Hnd as (_ & Hdisj & _). by apply (Hdisj n).
    + destruct (dlseg_in _ _ _ _ _ Hseg Htl) as [? ?]. congruence.
Qed.

End InitFailure.

Lemma init_index_failure_leaves_entry_linked_witness :
  ∃ s' n,
    DequeDict_init [(all_ok, ("a"%string, 1)); (no_capsule, ("b"%string, 2))]
      (initial_state (K:=string) (V:=Z)) = Raise MemoryError s' ∧
    DequeDict_len s' = Done 2 s' ∧
    dd_tail (self s') = Some n ∧
    (freelist s' = Some n ∨ heap s' !! n = None).
Proof.
  assert (WFlist (initial_state (K:=string) (V:=Z)) [] []) as Hlist
    by (apply (bool_decide_unpack _); vm_compute; reflexivity).
  destruct (init_index_failure_leaves_entry_linked
              [(all_ok, ("a"%string, 1))] [] no_capsule "b"%string 2 initial_state [] [] Hlist)
    as (s' & n & Hrun & Hlen & Htl & Hpool & _).
  { repeat constructor. }
  { reflexivity. }
  { reflexivity. }
  exists s', n. split; [exact Hrun|]. split; [exact Hlen|]. split; [exact Htl|exact Hpool].
Defined.

Section RepeatedKey.
Context {K : Type} `{Countable K} {V : Type}.
Implicit Types (e : DequeDictEntry (K:=K) (V:=V)).
Implicit Types (s : State (K:=K) (V:=V)) (ls fl : list positive).

(* Taking the entry a out of a consistent list, whatever the key index
   holds: unlink, then discard_entry under the key of the entry. *)
Lemma remove_list_spec s l1 a l2 fl :
  WFlist s (l1 ++ a :: l2) fl →
  ∃ e s1 s2 fl',
    heap s !! a = Some e ∧
    unlink a s = Done tt s1 ∧
    discard_entry a (e_key e) s1 = Done tt s2 ∧
    WFlist s2 (l1 ++ l2) fl' ∧
    index_cache (self s2) = index_cache (self s) ∧
    dd_dict (self s2) = delete (e_key e) (dd_dict (self s)) ∧
    (∀ b, b ≠ a → node_kv (heap s2) b = node_kv (heap s) b).
Proof.
  intros (Hnd & Hseg & Hhd & Htl & Hsz & Hfl & Hfc & Hfsz).
  apply NoDup_app in Hnd as (Hndl & Hdisj & Hndf).
  destruct (NoDup_middle _ _ _ Hndl) as (_ & _ & Hal1 & Hal2 & _ & Hndl').
  assert (a ∈ l1 ++ a :: l2) as Hain by (apply elem_of_app; right; left).
  destruct (dlseg_in _ _ _ _ _ Hseg Hain) as [e He].
  destruct (unlink_spec _ _ _ _ Hndl Hseg Hhd Htl)
    as (s1 & Hrun1 & [Hp1 Hp2] & (Hi1 & Hi2 & Hi3 & Hi4 & Hi5 & Hi6) & Hsd & Hhd1 & Htl1 & Hseg1 & Hlk1).
  assert (a ∉ l1 ++ l2) as Hanin by (rewrite elem_of_app; tauto).
  assert (∀ b, b ∈ fl → b ∉ l1 ++ l2) as Hfl_l.
  { intros b Hb Hb'. apply (Hdisj b); [|done]. revert Hb'.
    rewrite !elem_of_app, elem_of_cons. tauto. }
  assert (is_Some (heap s1 !! a)) as [e1 He1] by (eapply same_data_lookup; eauto).
  assert (free_chain (heap s1) fl) as Hfc1.
  { eapply free_chain_frame; [|exact Hfc]. intros b Hb. apply Hlk1. by apply Hfl_l. }
  assert (a ∉ fl) as Hafl by (apply Hdisj, Hain).
  unfold discard_entry. msimpl.
  destruct (entry_free_spec
              (mkState (heap s1) (freelist s1) (freelist_size s1)
                 (mkObject (delete (e_key e) (dd_dict (self s1))) (dd_head (self s1))
                    (dd_tail (self s1)) (dd_size (self s1)) (index_cache (self s1))
                    (cache_size (self s1)) (cache_capacity (self s1))
                    (cache_offset (self s1)))) a e1 fl)
    as (s2 & fl' & Hrun2 & Hself2 & Hheap2 & Hfc2 & Hfl2 & Hfsz2 & Hndf2 & Hsub2);
    simpl; try done; try congruence.
  exists e, s1. eexists _, fl'. split; [done|]. split; [done|].
  rewrite Hrun2. simpl. split; [done|]. rewrite Hself2. simpl.
  split_and!; try done.
  - unfold WFlist. simpl. split_and!; try done.
    + apply NoDup_app. split_and!; try done. intros b Hb Hb'.
      apply Hsub2 in Hb'. apply elem_of_cons in Hb' as [->|Hb']; [done|].
      by apply (Hfl_l b).
    + eapply dlseg_frame; [|exact Hseg1]. intros b Hb. unfold links.
      rewrite Hheap2; [done|]. by intros ->.
    + rewrite Hi2, Hsz. rewrite !length_app. simpl. lia.
  - by rewrite Hi1.
  - intros b Hb. destruct (Hsd b) as [Hkv _]. unfold node_kv in *.
    rewrite Hheap2 by done. done.
Qed.

(** X19: a key given twice to DequeDict(items), then popleft().  When
    the first item's key k occurs again among the later items and every
    allocation succeeds, construction succeeds and popleft() returns the
    first value; it removes k from the key index although a later pair of
    k is still in the list: iteration yields exactly the later items, k
    among them, and len(d) counts them, while k in d is false and d[k]
    raises KeyError(k). *)
Theorem repeated_key_lost_after_popleft
    al k v1 (rest : PyItems (K:=K) (V:=V)) s ls fl :
  WFlist s ls fl →
  Forall (λ it, entry_malloc_ok it.1 = true ∧ capsule_ok it.1 = true ∧
                dict_setitem_ok it.1 = true) ((al, (k, v1)) :: rest) →
  k ∈ rest.*2.*1 →
  ∃ s1 s2,
    DequeDict_init ((al, (k, v1)) :: rest) s = Done tt s1 ∧
    DequeDict_popleft s1 = Done v1 s2 ∧
    DequeDictView_iter Items s2 = Done (item_of_pair Items <$> rest.*2) s2 ∧
    DequeDict_iter s2 = Done rest.*2.*1 s2 ∧
    DequeDict_len s2 = Done (Z.of_nat (length rest)) s2 ∧
    DequeDict_contains k s2 = Done false s2 ∧
    DequeDict_getitem k s2 = Raise (KeyError_obj k) s2.
Proof.
  intros Hlist Hok Hin.
  destruct (init_clears ((al, (k, v1)) :: rest) s ls fl Hlist)
    as (s0 & fl0 & Hinit & Hlist0 & Hc0 & Hd0).
  destruct (init_loop_spec ((al, (k, v1)) :: rest) s0 [] fl0 Hlist0 Hc0)
    as (s1 & ls1 & fl1 & Hrun1 & Hlist1 & Hc1 & _ & Hcont1); [|done|].
  { intros k'. by rewrite Hd0, lookup_empty. }
  change (content (heap s0) []) with (@nil (K * V)) in Hcont1.
  rewrite app_nil_l in Hcont1. simpl in Hcont1.
  pose proof Hlist1 as (Hnd1 & Hseg1 & Hhd1 & _).
  destruct ls1 as [|a ls0].
  { by apply (f_equal length) in Hcont1. }
  destruct (remove_list_spec s1 [] a ls0 fl1 Hlist1)
    as (e & s1' & s2 & fl2 & He & Hun & Hdis & Hlist2 & Hc2 & Hd2 & Hdata).
  rewrite (content_cons _ _ _ _ He) in Hcont1. injection Hcont1 as Hk Hv Hcont0.
  apply dlseg_cons in Hseg1 as [Ha _]. rewrite (links_lookup _ _ _ He) in Ha.
  injection Ha as Hp _.
  assert (a ∉ ls0) as Hals.
  { apply NoDup_app in Hnd1 as (Hnd1 & _). by apply NoDup_cons in Hnd1 as [? _]. }
  assert (content (heap s2) ls0 = rest.*2) as Hcont2.
  { transitivity (content (heap s1) ls0); [|exact Hcont0].
    apply content_ext. intros b Hb. apply Hdata. by intros ->. }
  pose proof Hlist2 as (_ & Hseg2 & _ & _ & Hsz2 & _).
  assert (dd_dict (self s2) !! k = None) as Hnone.
  { rewrite Hd2, Hk. apply lookup_delete_eq. }
  exists s1, s2. split_and!.
  - congruence.
  - unfold DequeDict_popleft. rewrite bind_run. unfold get_self. cbv beta iota.
    rewrite Hhd1. change (head (a :: ls0)) with (Some a). cbv beta iota.
    rewrite bind_run, (load_run _ _ _ He), bind_run.
    rewrite (unlink_head_eq _ _ _ He Hp), Hun, bind_run, Hdis, bind_run.
    unfold cache_bump_offset. rewrite bind_run. unfold get_self. cbv beta iota.
    rewrite Hc2, Hc1. unfold mret, M_ret. by rewrite Hv.
  - rewrite (view_iter_spec _ _ _ _ Hlist2), item_of_content. do 2 f_equal. exact Hcont2.
  - rewrite (iter_spec _ _ _ Hlist2), keys_content. do 2 f_equal. exact Hcont2.
  - unfold DequeDict_len. msimpl. rewrite Hsz2, <-(content_length _ _ _ _ Hseg2).
    do 3 f_equal. apply (f_equal length) in Hcont2. by rewrite length_fmap in Hcont2.
  - by apply contains_false.
  - unfold DequeDict_getitem. rewrite bind_run. unfold get_self. cbv beta iota.
    by rewrite Hnone.
Qed.

End RepeatedKey.

Lemma repeated_key_lost_after_popleft_witness :
  ∃ s1 s2,
    DequeDict_init [(all_ok, ("a"%string, 1)); (all_ok, ("a"%string, 2))]
      (initial_state (K:=string) (V:=Z)) = Done tt s1 ∧
    DequeDict_popleft s1 = Done 1 s2 ∧
    DequeDict_iter s2 = Done ["a"%string] s2 ∧
    DequeDict_contains "a"%string s2 = Done false s2.
Proof.
  assert (WFlist (initial_state (K:=string) (V:=Z)) [] []) as Hlist
    by (apply (bool_decide_unpack _); vm_compute; reflexivity).
  destruct (repeated_key_lost_after_popleft all_ok "a"%string 1 [(all_ok, ("a"%string, 2))]
              initial_state [] [] Hlist)
    as (s1 & s2 & Hinit & Hpop & _ & Hiter & _ & Hin & _).
  { repeat constructor. }
  { apply (bool_decide_unpack _). vm_compute. reflexivity. }
  exists s1, s2. split; [exact Hinit|]. split; [exact Hpop|]. split; [exact Hiter|exact Hin].
Defined.
